(** * Ren-C runtime core: cells, typesets, dispatchers, paramlists,
      the symbol interner and the sweep phase of the collector.

    A shallow embedding of the routines of
    [src/core/c-function.c], [src/core/c-word.c], [src/core/m-gc.c],
    [src/core/t-quoted.c], [src/core/t-typeset.c] and
    [src/include/sys-typeset.h], with the properties the specification
    states about them and further properties read off the code.

    Conventions.
    - C integers are [Z]; where the C type is a fixed-width unsigned
      integer the wrap-around is written with [wrap32] / [wrap64].
    - A [fail (...)] of the C code (a non-local jump) is the [Fail]
      result of the model; a C loop whose termination is not structural
      takes a [fuel : nat] and returns [None] when it runs out.
    - Series nodes are addressed by [N] ("pointers"); node stores are
      [gmap N _].
    - Helpers that live in headers outside the excerpt (the evaluator,
      the hash function, ...) are [Variable]s of the Section that uses
      them, with the properties the callers' comments rely on as
      [Hypothesis]. *)

From stdpp Require Import gmap list strings.
From Stdlib Require Import ZArith Lia.

Local Open Scope Z_scope.
#[local] Set Warnings "-clear-no-such-hyp".

(* ================================================================== *)
(** * Machine integers                                                 *)
(* ================================================================== *)

Definition wrap32 (z : Z) : Z := z mod 2 ^ 32.
Definition wrap64 (z : Z) : Z := z mod 2 ^ 64.

(** [cast(REBINT, u)] for a 32-bit unsigned [u] (two's complement). *)
Definition to_int32 (u : Z) : Z :=
  let w := wrap32 u in if w <? 2 ^ 31 then w else w - 2 ^ 32.


(** Outcome of a routine that may [fail]. *)
Inductive Result (E A : Type) : Type :=
| Ok (a : A)
| Fail (e : E).
Arguments Ok {E A} a.
Arguments Fail {E A} e.

(* ================================================================== *)
(** * Cells, as c-function.c sees them                                 *)
(* ================================================================== *)

Module Cell.

(** [enum Reb_Kind]: the kinds c-function.c tests for. *)
Inductive Reb_Kind : Type :=
| REB_0
| REB_FUNCTION
| REB_BLANK
| REB_INTEGER
| REB_STRING
| REB_TAG
| REB_BLOCK
| REB_WORD
| REB_SET_WORD
| REB_GET_WORD
| REB_LIT_WORD
| REB_REFINEMENT
| REB_ISSUE
| REB_TYPESET
| REB_FRAME
| REB_MAX_VOID.

#[global] Instance Reb_Kind_eq_dec : EqDecision Reb_Kind.
Proof. solve_decision. Defined.

(** [enum Reb_Param_Class]; [PARAM_CLASS_0] is the state a typeset cell
    is in right after [Init_Typeset]. *)
Inductive Reb_Param_Class : Type :=
| PARAM_CLASS_0
| PARAM_CLASS_NORMAL
| PARAM_CLASS_TIGHT
| PARAM_CLASS_REFINEMENT
| PARAM_CLASS_HARD_QUOTE
| PARAM_CLASS_SOFT_QUOTE
| PARAM_CLASS_LOCAL
| PARAM_CLASS_RETURN
| PARAM_CLASS_LEAVE.

#[global] Instance Reb_Param_Class_eq_dec : EqDecision Reb_Param_Class.
Proof. solve_decision. Defined.

(** Node addresses. *)
Abbreviation REBSTR := N (only parsing).   (* interned spelling *)
Abbreviation REBFUN := N (only parsing).   (* function identity: its paramlist node *)
Abbreviation REBNOD := N (only parsing).   (* binding *)

(** Array identity: the global [EMPTY_ARRAY] or an array at an address. *)
Inductive REBARR : Type :=
| EMPTY_ARRAY
| Array_At (addr : N).

#[global] Instance REBARR_eq_dec : EqDecision REBARR.
Proof. solve_decision. Defined.

(** [FUNC_FLAG_XXX] bits of a function archetype's header. *)
Record func_flags : Type := mk_func_flags {
  FUNC_FLAG_RETURN : bool;
  FUNC_FLAG_LEAVE : bool;
  FUNC_FLAG_RETURN_DEBUG : bool
}.

(** A cell is a tagged union; the tag is the kind byte of its header. *)
Inductive REBVAL : Type :=
| V_Unreadable_Blank
| V_Void
| V_Integer (i : Z)
| V_String (s : string)
| V_Tag (s : string)
| V_Block (a : REBARR) (index : nat)
| V_Any_Word (k : Reb_Kind) (spelling : REBSTR)
| V_Typeset (pclass : Reb_Param_Class) (bits : Z) (spelling : REBSTR)
| V_Function (hdr : func_flags) (func : REBFUN) (binding : REBNOD)
| V_Other (k : Reb_Kind).

Definition VAL_TYPE (v : REBVAL) : Reb_Kind :=
  match v with
  | V_Unreadable_Blank => REB_BLANK
  | V_Void => REB_MAX_VOID
  | V_Integer _ => REB_INTEGER
  | V_String _ => REB_STRING
  | V_Tag _ => REB_TAG
  | V_Block _ _ => REB_BLOCK
  | V_Any_Word k _ => k
  | V_Typeset _ _ _ => REB_TYPESET
  | V_Function _ _ _ => REB_FUNCTION
  | V_Other k => k
  end.

Definition IS_TYPESET (v : REBVAL) : bool := bool_decide (VAL_TYPE v = REB_TYPESET).
Definition IS_BLOCK (v : REBVAL) : bool := bool_decide (VAL_TYPE v = REB_BLOCK).
Definition IS_STRING (v : REBVAL) : bool := bool_decide (VAL_TYPE v = REB_STRING).
Definition IS_TAG (v : REBVAL) : bool := bool_decide (VAL_TYPE v = REB_TAG).
Definition IS_WORD (v : REBVAL) : bool := bool_decide (VAL_TYPE v = REB_WORD).
Definition IS_SET_WORD (v : REBVAL) : bool := bool_decide (VAL_TYPE v = REB_SET_WORD).
Definition IS_REFINEMENT (v : REBVAL) : bool := bool_decide (VAL_TYPE v = REB_REFINEMENT).
Definition IS_FUNCTION (v : REBVAL) : bool := bool_decide (VAL_TYPE v = REB_FUNCTION).

Definition IS_BLANK_RAW (v : REBVAL) : bool :=
  match v with V_Unreadable_Blank => true | _ => false end.

Definition VAL_TYPESET_BITS (v : REBVAL) : Z :=
  match v with V_Typeset _ bits _ => bits | _ => 0 end.

Definition VAL_PARAM_CLASS (v : REBVAL) : Reb_Param_Class :=
  match v with V_Typeset c _ _ => c | _ => PARAM_CLASS_0 end.

Definition VAL_PARAM_SPELLING (v : REBVAL) : REBSTR :=
  match v with V_Typeset _ _ s => s | _ => 0%N end.

Definition INIT_VAL_PARAM_CLASS (v : REBVAL) (c : Reb_Param_Class) : REBVAL :=
  match v with V_Typeset _ bits s => V_Typeset c bits s | _ => v end.

Definition VAL_FUNC (v : REBVAL) : REBFUN :=
  match v with V_Function _ f _ => f | _ => 0%N end.

Definition VAL_BINDING (v : REBVAL) : REBNOD :=
  match v with V_Function _ _ b => b | _ => 0%N end.

End Cell.

(* ================================================================== *)
(** * Typeset bits (sys-typeset.h)                                     *)
(* ================================================================== *)

Module Typeset.
Import Cell.

Section Bits.

(** The numbering of [enum Reb_Kind] comes from a generated header. *)
Variable kind_num : Reb_Kind → Z.

(** Modelled from the spec: [FLAGIT_KIND] is defined in a header outside
    the excerpt; a typeset is "a 64-bit bitset indexed by kind", so the
    flag of kind [k] is bit [k] of a [REBU64]. *)
Definition FLAGIT_KIND (k : Reb_Kind) : Z := wrap64 (Z.shiftl 1 (kind_num k)).

Definition ALL_64 : Z := 2 ^ 64 - 1.

(** [#define TYPE_CHECK(v,n) (did (VAL_TYPESET_BITS(v) & FLAGIT_KIND(n)))] *)
Definition TYPE_CHECK (v : REBVAL) (n : Reb_Kind) : bool :=
  negb (Z.land (VAL_TYPESET_BITS v) (FLAGIT_KIND n) =? 0).

(** [#define TYPE_SET(v,n) (VAL_TYPESET_BITS(v) |= FLAGIT_KIND(n))] *)
Definition TYPE_SET (bits : Z) (n : Reb_Kind) : Z := Z.lor bits (FLAGIT_KIND n).

(** [#define TYPE_CLEAR(v,n) (VAL_TYPESET_BITS(v) &= ~FLAGIT_KIND(n))] *)
Definition TYPE_CLEAR (bits : Z) (n : Reb_Kind) : Z :=
  Z.land bits (wrap64 (Z.lnot (FLAGIT_KIND n))).

Hypothesis kind_num_range : ∀ k, 0 ≤ kind_num k < 64.

Lemma FLAGIT_KIND_pow2 k : FLAGIT_KIND k = 2 ^ kind_num k.
Proof.
  unfold FLAGIT_KIND, wrap64. pose proof (kind_num_range k) as Hk.
  rewrite Z.shiftl_1_l. apply Z.mod_small. split; [lia|].
  apply Z.pow_lt_mono_r; lia.
Qed.

Lemma TYPE_CHECK_testbit v k :
  TYPE_CHECK v k = Z.testbit (VAL_TYPESET_BITS v) (kind_num k).
Proof.
  unfold TYPE_CHECK. rewrite FLAGIT_KIND_pow2.
  pose proof (kind_num_range k) as Hk.
  destruct (Z.testbit (VAL_TYPESET_BITS v) (kind_num k)) eqn:Hb.
  - apply negb_true_iff, Z.eqb_neq. intros H0.
    assert (Z.testbit (Z.land (VAL_TYPESET_BITS v) (2 ^ kind_num k)) (kind_num k) = true) as Ht.
    { rewrite Z.land_spec, Hb, Z.pow2_bits_true by lia. reflexivity. }
    rewrite H0, Z.bits_0 in Ht. discriminate.
  - apply negb_false_iff, Z.eqb_eq. apply Z.bits_inj'. intros n Hn.
    rewrite Z.land_spec, Z.bits_0.
    destruct (decide (n = kind_num k)) as [->|Hne].
    + rewrite Hb. reflexivity.
    + rewrite Z.pow2_bits_false by lia. apply andb_false_r.
Qed.

End Bits.

End Typeset.

(* ================================================================== *)
(** * The data stack and the dispatchers of c-function.c               *)
(* ================================================================== *)

Module Dispatch.
Import Cell Typeset.

(** How a routine of c-function.c leaves other than by returning: with
    one of the errors it raises by [fail], or, in a debug build, at a
    violated [assert], which ends the process on the spot
    ([Assert_Violated]; nothing is unwound). *)
Inductive Error : Type :=
| Error_Bad_Func_Def (item : REBVAL)
| Error_Refinement_Arg_Opt
| Error_Bad_Typeset_Block (item : REBVAL)
| Error_Dup_Vars (spelling : REBSTR)
| Error_Bad_Return_Type (k : Reb_Kind)
| Assert_Violated.

(** Dispatcher result codes. *)
Inductive REB_R : Type :=
| R_OUT
| R_OUT_IS_THROWN
| R_VOID
| R_TRUE
| R_FALSE
| R_INVISIBLE
| R_REDO_CHECKED
| R_REDO_UNCHECKED.

(** The fields of [REBFRM] the dispatchers touch. *)
Record REBFRM : Type := mk_frame {
  out : REBVAL;
  phase : REBFUN;
  binding : REBNOD
}.

Definition set_out (f : REBFRM) (v : REBVAL) : REBFRM :=
  {| out := v; phase := phase f; binding := binding f |}.

Definition set_phase (f : REBFRM) (p : REBFUN) (b : REBNOD) : REBFRM :=
  {| out := out f; phase := p; binding := b |}.

(** The data stack, top first: [DS_TOP] is the head, [DSP] the length. *)
Abbreviation DS := (list REBVAL) (only parsing).

Definition DSP (ds : DS) : nat := length ds.
Definition DS_PUSH (ds : DS) (v : REBVAL) : DS := v :: ds.
Definition DS_DROP (ds : DS) : DS := tail ds.

(** [DS_AT(i)]: the cell at stack index [i], counting from 1 at the bottom. *)
Definition DS_AT (ds : DS) (i : nat) : option REBVAL :=
  if decide (1 ≤ i ≤ length ds)%nat then ds !! (length ds - i)%nat else None.

Section Dispatchers.

Variable kind_num : Reb_Kind → Z.

(** The heap as the dispatchers read it: the body cell of a function,
    its paramlist (cell 0 is the archetype), and the cells of an array. *)
Variable FUNC_BODY : REBFUN → REBVAL.
Variable FUNC_PARAMLIST : REBFUN → list REBVAL.
Variable ARR_CELLS : REBARR → list REBVAL.

(** The evaluator: [Do_At_Throws(out, array, index, specifier)] gives
    whether the evaluation threw and the value it left in [out]. *)
Variable Do_At_Throws : REBARR → nat → REBFRM → bool * REBVAL.

(** The evaluator running the frame's phase on the frame's argument. *)
Variable Run_Phase : REBFUN → REBNOD → REBVAL → REBVAL.

(** The symbol number of a spelling and the number of [return]
    (the generated symbol table). *)
Variable STR_SYMBOL : REBSTR → Z.
Variable SYM_RETURN : Z.

(** [#define VAL_PARAM_SYM(p) STR_SYMBOL(VAL_PARAM_SPELLING(p))] *)
Definition VAL_PARAM_SYM (p : REBVAL) : Z := STR_SYMBOL (VAL_PARAM_SPELLING p).

(** Modelled from the spec: [FUNC_NUM_PARAMS] and [FUNC_PARAM] are
    accessors of a header outside the excerpt; "length(P) =
    parameter-count(P) + 1" and the parameters are cells [1..]. *)
Definition FUNC_NUM_PARAMS (f : REBFUN) : nat := (length (FUNC_PARAMLIST f) - 1)%nat.

Definition FUNC_PARAM (f : REBFUN) (n : nat) : option REBVAL :=
  if decide (n = 0%nat) then None else FUNC_PARAMLIST f !! n.

(** [Unchecked_Dispatcher] *)
Definition Unchecked_Dispatcher (f : REBFRM) : option (REB_R * REBFRM) :=
  match FUNC_BODY (phase f) with
  | V_Block arr 0 =>
      let '(thrown, v) := Do_At_Throws arr 0 f in
      if thrown then Some (R_OUT_IS_THROWN, set_out f v)
      else Some (R_OUT, set_out f v)
  | _ => None
  end.

(** [Returner_Dispatcher]; [None] stands for a violated [assert]: of
    the body ([IS_BLOCK(body) && ... && VAL_INDEX(body) == 0]), of the
    parameter index inside [FUNC_PARAM], or
    [assert(VAL_PARAM_SYM(typeset) == SYM_RETURN)]. *)
Definition Returner_Dispatcher (f : REBFRM)
  : option (Result Error (REB_R * REBFRM)) :=
  match FUNC_BODY (phase f) with
  | V_Block arr 0 =>
      let '(thrown, v) := Do_At_Throws arr 0 f in
      if thrown then Some (Ok (R_OUT_IS_THROWN, set_out f v))
      else
        match FUNC_PARAM (phase f) (FUNC_NUM_PARAMS (phase f)) with
        | Some typeset =>
            if negb (VAL_PARAM_SYM typeset =? SYM_RETURN) then None
            else if negb (TYPE_CHECK kind_num typeset (VAL_TYPE v))
            then Some (Fail (Error_Bad_Return_Type (VAL_TYPE v)))
            else Some (Ok (R_OUT, set_out f v))
        | None => None
        end
  | _ => None
  end.

(** The loop of [Chainer_Dispatcher]: [value] starts at the last cell of
    the pipeline and steps down to its head, pushing each cell; [None]
    stands for a violated [assert(IS_FUNCTION(value))] (or a cell outside
    the array). *)
Fixpoint Chainer_push (cells : list REBVAL) (value : nat) (ds : DS) : option DS :=
  match value with
  | O => Some ds
  | S prev =>
      match cells !! value with
      | Some v =>
          if IS_FUNCTION v then Chainer_push cells prev (DS_PUSH ds v) else None
      | None => None
      end
  end.

(** [Chainer_Dispatcher] *)
Definition Chainer_Dispatcher (f : REBFRM) (ds : DS)
  : option (REB_R * REBFRM * DS) :=
  match FUNC_BODY (phase f) with
  | V_Block a _ =>
      let cells := ARR_CELLS a in
      match cells with
      | [] => None
      | head :: _ =>
          match Chainer_push cells (length cells - 1) ds with
          | Some ds' =>
              Some (R_REDO_UNCHECKED,
                    set_phase f (VAL_FUNC head) (VAL_BINDING head), ds')
          | None => None
          end
      end
  | _ => None
  end.

(** Modelled from the spec: the evaluator's handling of the actions a
    chain leaves on the stack is outside the excerpt; "stack-pushed
    post-processing runs LIFO": while the stack is above its level at the
    call, the top action is popped and applied to the result. *)
Definition Apply_Func (action : REBVAL) (x : REBVAL) : REBVAL :=
  Run_Phase (VAL_FUNC action) (VAL_BINDING action) x.

Fixpoint Post_Process (n : nat) (ds : DS) (result : REBVAL) : DS * REBVAL :=
  match n, ds with
  | S n', top :: ds' => Post_Process n' ds' (Apply_Func top result)
  | _, _ => (ds, result)
  end.

(** A call of a chain on [x]: dispatch, run the phase the dispatcher
    left in the frame, then post-process down to the entry stack level. *)
Definition Call_Chain (f : REBFRM) (ds : DS) (x : REBVAL) : option (DS * REBVAL) :=
  match Chainer_Dispatcher f ds with
  | Some (R_REDO_UNCHECKED, f', ds') =>
      Some (Post_Process (DSP ds' - DSP ds) ds'
              (Run_Phase (phase f') (binding f') x))
  | _ => None
  end.

(* ------------------------------------------------------------------ *)
(** ** Properties                                                      *)
(* ------------------------------------------------------------------ *)

(** The loop pushes the cells [1 .. value] of the pipeline, the highest
    first, unless one of them is not a function. *)
Lemma Chainer_push_spec cells :
  ∀ value ds, (value < length cells)%nat →
    Chainer_push cells value ds
    = if forallb IS_FUNCTION (take value (drop 1 cells))
      then Some (take value (drop 1 cells) ++ ds) else None.
Proof.
  induction value as [|prev IH]; intros ds Hlt; simpl.
  - reflexivity.
  - destruct (lookup_lt_is_Some_2 cells (S prev) Hlt) as [v Hv].
    rewrite Hv.
    assert (drop 1 cells !! prev = Some v) as Hd.
    { rewrite lookup_drop. exact Hv. }
    rewrite (take_S_r _ _ _ Hd), forallb_app. simpl. rewrite andb_true_r.
    destruct (IS_FUNCTION v).
    + rewrite IH by lia. rewrite andb_true_r.
      destruct (forallb IS_FUNCTION (take prev (drop 1 cells))); [|reflexivity].
      unfold DS_PUSH. rewrite <- app_assoc. reflexivity.
    + rewrite andb_false_r. reflexivity.
Qed.

Lemma DS_PUSH_all cells : ∀ ds, fold_left DS_PUSH cells ds = rev cells ++ ds.
Proof.
  induction cells as [|c cells IH]; intros ds; simpl; [reflexivity|].
  rewrite IH. unfold DS_PUSH. rewrite <- app_assoc. reflexivity.
Qed.

Lemma forallb_IS_FUNCTION cells :
  forallb IS_FUNCTION cells = true ↔ Forall (λ v, IS_FUNCTION v = true) cells.
Proof.
  rewrite forallb_forall, Forall_forall. split; intros H v Hv; apply H.
  - by apply list_elem_of_In.
  - by apply list_elem_of_In.
Qed.

Lemma Post_Process_app pushed :
  ∀ ds result,
    Post_Process (length pushed) (pushed ++ ds) result
    = (ds, fold_left (λ acc a, Apply_Func a acc) pushed result).
Proof.
  induction pushed as [|a pushed IH]; intros ds result; simpl.
  - destruct ds; reflexivity.
  - apply IH.
Qed.

(** Effect of [Chainer_Dispatcher] on a pipeline [first :: rest]: when
    every cell of [rest] is a function, the cells of [rest] end up on the
    stack with the second action on top and the last one at the bottom,
    the frame's phase and binding are those of [first], the result is
    [R_REDO_UNCHECKED]; otherwise the assertion of the loop fails. *)
Lemma Chainer_Dispatcher_spec f ds a idx first rest :
  FUNC_BODY (phase f) = V_Block a idx →
  ARR_CELLS a = first :: rest →
  Chainer_Dispatcher f ds
  = if forallb IS_FUNCTION rest
    then Some (R_REDO_UNCHECKED,
               mk_frame (out f) (VAL_FUNC first) (VAL_BINDING first),
               rest ++ ds)
    else None.
Proof.
  intros Hbody Hcells. unfold Chainer_Dispatcher. rewrite Hbody, Hcells.
  rewrite Chainer_push_spec by (simpl; lia).
  simpl. rewrite Nat.sub_0_r, drop_0, take_ge by lia.
  destruct (forallb IS_FUNCTION rest); reflexivity.
Qed.

(** C6: for every pipeline [first :: rest] of functions, the chain
    dispatcher pushes the actions after the first in reverse order (the
    pushes are those of [rev rest] one after the other: the last cell of
    the pipeline first, the second cell last, so the second is on top),
    sets phase and binding to the first action, leaves the out cell alone
    and returns redo-unchecked; run with LIFO post-processing the chain
    applies [first], then the actions of [rest] in their order, and
    leaves the stack at its entry level, so a chain [f; g; h] applied to
    [x] computes [h (g (f x))].  A cell after the first that is not a
    function trips the assertion of the loop. *)
Theorem Chainer_ordering (fr : REBFRM) (ds : DS) (a : REBARR) (idx : nat)
    (first : REBVAL) (rest : list REBVAL) (x : REBVAL) :
  FUNC_BODY (phase fr) = V_Block a idx →
  ARR_CELLS a = first :: rest →
  (Forall (λ v, IS_FUNCTION v = true) rest →
     Chainer_push (first :: rest) (length rest) ds
     = Some (fold_left DS_PUSH (rev rest) ds)
     ∧ Chainer_Dispatcher fr ds
       = Some (R_REDO_UNCHECKED,
               mk_frame (out fr) (VAL_FUNC first) (VAL_BINDING first),
               rest ++ ds)
     ∧ Call_Chain fr ds x
       = Some (ds, fold_left (λ acc act, Apply_Func act acc) rest
                     (Apply_Func first x))
     ∧ ∀ g h, rest = [g; h] →
         Call_Chain fr ds x
         = Some (ds, Apply_Func h (Apply_Func g (Apply_Func first x))))
  ∧ (¬ Forall (λ v, IS_FUNCTION v = true) rest →
     Chainer_Dispatcher fr ds = None).
Proof.
  intros Hbody Hcells.
  pose proof (Chainer_Dispatcher_spec fr ds a idx first rest Hbody Hcells) as Hd.
  split.
  - intros Hfun. apply forallb_IS_FUNCTION in Hfun as Hall. rewrite Hall in Hd.
    assert (Call_Chain fr ds x
            = Some (ds, fold_left (λ acc act, Apply_Func act acc) rest
                          (Apply_Func first x))) as Hcall.
    { unfold Call_Chain. rewrite Hd. unfold DSP. rewrite length_app.
      replace (length rest + length ds - length ds)%nat with (length rest) by lia.
      rewrite Post_Process_app. reflexivity. }
    split; [|split; [exact Hd|split; [exact Hcall|]]].
    + rewrite Chainer_push_spec by (simpl; lia).
      simpl. rewrite drop_0, take_ge by lia. rewrite Hall.
      rewrite DS_PUSH_all, rev_involutive. reflexivity.
    + intros g h ->. exact Hcall.
  - intros Hnot. rewrite Hd.
    destruct (forallb IS_FUNCTION rest) eqn:Hall; [|reflexivity].
    destruct Hnot. by apply forallb_IS_FUNCTION.
Qed.

Hypothesis kind_num_range : ∀ k, 0 ≤ kind_num k < 64.

(** C5: the returner evaluates the body into the out cell; a throw is
    passed on unchecked (the typeset is not looked at), with the out cell
    holding what the evaluation left; otherwise the result is checked
    against the typeset of the last parameter, the return parameter:
    [Error_Bad_Return_Type] is raised exactly when the bit of the
    result's kind is clear in that typeset, and when the bit is set
    [R_OUT] is returned and the out cell of the frame holds the body's
    result, phase and binding being as they were.  The dispatcher
    asserts that the last parameter is spelled [return]. *)
Theorem Returner_Dispatcher_contract (f : REBFRM) (arr : REBARR) :
  FUNC_BODY (phase f) = V_Block arr 0 →
  let thrown := (Do_At_Throws arr 0 f).1 in
  let v := (Do_At_Throws arr 0 f).2 in
  (thrown = true →
     Returner_Dispatcher f
     = Some (Ok (R_OUT_IS_THROWN, mk_frame v (phase f) (binding f))))
  ∧ (∀ typeset,
       thrown = false →
       FUNC_PARAM (phase f) (FUNC_NUM_PARAMS (phase f)) = Some typeset →
       VAL_PARAM_SYM typeset = SYM_RETURN →
       let in_typeset :=
         Z.testbit (VAL_TYPESET_BITS typeset) (kind_num (VAL_TYPE v)) in
       (in_typeset = false →
          Returner_Dispatcher f = Some (Fail (Error_Bad_Return_Type (VAL_TYPE v))))
       ∧ (in_typeset = true →
          Returner_Dispatcher f
          = Some (Ok (R_OUT, mk_frame v (phase f) (binding f))))
       ∧ (∀ e, Returner_Dispatcher f = Some (Fail e) ↔
            in_typeset = false ∧ e = Error_Bad_Return_Type (VAL_TYPE v)))
  ∧ (Returner_Dispatcher f = None ↔
       thrown = false
       ∧ ∀ typeset,
           FUNC_PARAM (phase f) (FUNC_NUM_PARAMS (phase f)) = Some typeset →
           VAL_PARAM_SYM typeset ≠ SYM_RETURN).
Proof.
  intros Hbody thrown v.
  unfold Returner_Dispatcher. rewrite Hbody.
  subst thrown v.
  destruct (Do_At_Throws arr 0 f) as [thrown v] eqn:Hdo. simpl.
  destruct thrown.
  - split; [reflexivity|]. split; [intros; discriminate|].
    split; [discriminate|]. intros [? _]. discriminate.
  - split; [discriminate|]. split.
    + intros typeset _ Hparam Hsym. rewrite Hparam.
      apply Z.eqb_eq in Hsym. rewrite Hsym. simpl.
      rewrite (TYPE_CHECK_testbit kind_num kind_num_range).
      destruct (Z.testbit (VAL_TYPESET_BITS typeset) (kind_num (VAL_TYPE v))) eqn:Hb;
        simpl; repeat split; try (intros; congruence).
      * intros [? _]. congruence.
      * intros [_ ->]. reflexivity.
    + destruct (FUNC_PARAM (phase f) (FUNC_NUM_PARAMS (phase f))) as [typeset|].
      * destruct (Z.eqb_spec (VAL_PARAM_SYM typeset) SYM_RETURN) as [Heq|Hne]; simpl.
        -- split.
           ++ destruct (TYPE_CHECK kind_num typeset (VAL_TYPE v)); discriminate.
           ++ intros [_ H]. destruct (H typeset eq_refl Heq).
        -- split; [|reflexivity]. intros _. split; [reflexivity|].
           intros t [= <-]. exact Hne.
      * split; [|reflexivity]. intros _. split; [reflexivity|]. discriminate.
Qed.

End Dispatchers.

(* ------------------------------------------------------------------ *)
(** ** A concrete heap: scenario S2 and a chain of three actions       *)
(* ------------------------------------------------------------------ *)

(** A numbering of the kinds (any injection into 0..63 would do). *)
Definition demo_kind_num (k : Reb_Kind) : Z :=
  match k with
  | REB_0 => 0 | REB_FUNCTION => 1 | REB_BLANK => 2 | REB_INTEGER => 3
  | REB_STRING => 4 | REB_TAG => 5 | REB_BLOCK => 6 | REB_WORD => 7
  | REB_SET_WORD => 8 | REB_GET_WORD => 9 | REB_LIT_WORD => 10
  | REB_REFINEMENT => 11 | REB_ISSUE => 12 | REB_TYPESET => 13
  | REB_FRAME => 14 | REB_MAX_VOID => 15
  end.

Lemma demo_kind_num_range k : 0 ≤ demo_kind_num k < 64.
Proof. destruct k; simpl; lia. Qed.

Definition demo_hdr : func_flags := mk_func_flags true false false.

(** Functions 1 and 2 have [return: [integer!]]; the body of 1 is [[1]],
    the body of 2 is [["x"]]; function 3 is a chain of 4, 5 and 6. *)
Definition demo_FUNC_BODY (f : REBFUN) : REBVAL := V_Block (Array_At f) 0.

Definition demo_FUNC_PARAMLIST (f : REBFUN) : list REBVAL :=
  [V_Function demo_hdr f 0%N;
   V_Typeset PARAM_CLASS_RETURN (FLAGIT_KIND demo_kind_num REB_INTEGER) 10%N].

(** The spelling 10 is [return], of symbol number 5. *)
Definition demo_sym_of (s : REBSTR) : Z := if (s =? 10)%N then 5 else 0.

Definition demo_ARR_CELLS (a : REBARR) : list REBVAL :=
  match a with
  | Array_At 3 => [V_Function demo_hdr 4%N 0%N; V_Function demo_hdr 5%N 0%N;
                   V_Function demo_hdr 6%N 0%N]
  | _ => []
  end.

Definition demo_Do_At_Throws (a : REBARR) (i : nat) (f : REBFRM) : bool * REBVAL :=
  match a with
  | Array_At 1 => (false, V_Integer 1)
  | Array_At 2 => (false, V_String "x")
  | _ => (true, V_Void)
  end.

(** Function [n] appends the digit [n] to its integer argument. *)
Definition demo_Run_Phase (f : REBFUN) (b : REBNOD) (x : REBVAL) : REBVAL :=
  match x with
  | V_Integer i => V_Integer (10 * i + Z.of_N f)
  | _ => V_Void
  end.

Definition demo_frame (f : REBFUN) : REBFRM := mk_frame V_Void f 0%N.

Lemma Returner_Dispatcher_contract_witness :
  Returner_Dispatcher demo_kind_num demo_FUNC_BODY demo_FUNC_PARAMLIST
    demo_Do_At_Throws demo_sym_of 5 (demo_frame 1)
  = Some (Ok (R_OUT, mk_frame (V_Integer 1) 1%N 0%N))
  ∧ Returner_Dispatcher demo_kind_num demo_FUNC_BODY demo_FUNC_PARAMLIST
      demo_Do_At_Throws demo_sym_of 5 (demo_frame 2)
    = Some (Fail (Error_Bad_Return_Type REB_STRING)).
Proof.
  split.
  - pose proof (Returner_Dispatcher_contract demo_kind_num demo_FUNC_BODY
                  demo_FUNC_PARAMLIST demo_Do_At_Throws demo_sym_of 5
                  demo_kind_num_range (demo_frame 1) (Array_At 1) eq_refl) as H.
    cbv zeta in H. destruct H as (_ & H & _).
    destruct (H _ eq_refl eq_refl eq_refl) as (_ & Hok & _).
    apply Hok. reflexivity.
  - pose proof (Returner_Dispatcher_contract demo_kind_num demo_FUNC_BODY
                  demo_FUNC_PARAMLIST demo_Do_At_Throws demo_sym_of 5
                  demo_kind_num_range (demo_frame 2) (Array_At 2) eq_refl) as H.
    cbv zeta in H. destruct H as (_ & H & _).
    destruct (H _ eq_refl eq_refl eq_refl) as (Hfail & _).
    apply Hfail. reflexivity.
Defined.

Lemma Chainer_ordering_witness :
  Chainer_Dispatcher demo_FUNC_BODY demo_ARR_CELLS (demo_frame 3) [V_Integer 0]
  = Some (R_REDO_UNCHECKED, mk_frame V_Void 4%N 0%N,
          [V_Function demo_hdr 5%N 0%N; V_Function demo_hdr 6%N 0%N; V_Integer 0])
  ∧ Call_Chain demo_FUNC_BODY demo_ARR_CELLS demo_Run_Phase (demo_frame 3)
      [V_Integer 0] (V_Integer 7)
    = Some ([V_Integer 0], V_Integer 7456).
Proof.
  destruct (Chainer_ordering demo_FUNC_BODY demo_ARR_CELLS demo_Run_Phase
              (demo_frame 3) [V_Integer 0] (Array_At 3) 0%nat _ _ (V_Integer 7)
              eq_refl eq_refl) as [H _].
  destruct H as (_ & Hd & _ & Hcall).
  - repeat constructor.
  - split; [exact Hd|]. exact (Hcall _ _ eq_refl).
Defined.

End Dispatch.

(* ================================================================== *)
(** * Make_Paramlist_Managed_May_Fail (c-function.c)                   *)
(* ================================================================== *)

Module Paramlist.
Import Cell Typeset Dispatch.

(** The [MKF_XXX] flags of the builder, as a set of bits. *)
Record MKF : Type := mk_MKF {
  MKF_RETURN : bool;
  MKF_LEAVE : bool;
  MKF_KEYWORDS : bool;
  MKF_ANY_VALUE : bool;
  MKF_FAKE_RETURN : bool
}.

(** [enum Reb_Spec_Mode] *)
Inductive Reb_Spec_Mode : Type :=
| SPEC_MODE_NORMAL
| SPEC_MODE_LOCAL
| SPEC_MODE_WITH.

#[global] Instance Reb_Spec_Mode_eq_dec : EqDecision Reb_Spec_Mode.
Proof. solve_decision. Defined.

(** Modelled from the spec: the binder ([struct Reb_Binder] and its
    routines) lives in a header outside the excerpt; it is "a transient
    binder (symbol→index map)", an index of 0 meaning "not there". *)
Abbreviation Reb_Binder := (gmap REBSTR Z) (only parsing).

Definition INIT_BINDER : Reb_Binder := ∅.

Definition Try_Add_Binder_Index (binder : Reb_Binder) (canon : REBSTR) (index : Z)
  : bool * Reb_Binder :=
  match binder !! canon with
  | Some _ => (false, binder)
  | None => (true, <[canon := index]> binder)
  end.

Definition Remove_Binder_Index_Else_0 (binder : Reb_Binder) (canon : REBSTR)
  : Z * Reb_Binder :=
  match binder !! canon with
  | Some old_index => (old_index, delete canon binder)
  | None => (0, binder)
  end.

(** The locals of the routine that live across the spec loop. *)
Record locals : Type := mk_locals {
  stack : DS;
  flags : MKF;
  mode : Reb_Spec_Mode;
  refinement_seen : bool;
  has_description : bool;
  has_types : bool;
  has_notes : bool;
  definitional_return_dsp : nat;
  definitional_leave_dsp : nat
}.

Definition with_stack (l : locals) (ds : DS) : locals :=
  mk_locals ds (flags l) (mode l) (refinement_seen l) (has_description l)
    (has_types l) (has_notes l) (definitional_return_dsp l)
    (definitional_leave_dsp l).

Definition with_mode (l : locals) (m : Reb_Spec_Mode) : locals :=
  mk_locals (stack l) (flags l) m (refinement_seen l) (has_description l)
    (has_types l) (has_notes l) (definitional_return_dsp l)
    (definitional_leave_dsp l).

Definition with_flags (l : locals) (f : MKF) : locals :=
  mk_locals (stack l) f (mode l) (refinement_seen l) (has_description l)
    (has_types l) (has_notes l) (definitional_return_dsp l)
    (definitional_leave_dsp l).

Definition EMPTY_BLOCK : REBVAL := V_Block EMPTY_ARRAY 0.
Definition EMPTY_STRING : REBVAL := V_String "".

Definition DS_TOP (ds : DS) : REBVAL := default V_Unreadable_Blank (ds !! 0%nat).
Definition DS_TOP_minus (ds : DS) (k : nat) : REBVAL :=
  default V_Unreadable_Blank (ds !! k).

Definition ANY_WORD (v : REBVAL) : bool :=
  match v with
  | V_Any_Word REB_WORD _ | V_Any_Word REB_SET_WORD _
  | V_Any_Word REB_GET_WORD _ | V_Any_Word REB_LIT_WORD _
  | V_Any_Word REB_REFINEMENT _ | V_Any_Word REB_ISSUE _ => true
  | _ => false
  end.

Definition VAL_WORD_SPELLING (v : REBVAL) : REBSTR :=
  match v with V_Any_Word _ s => s | _ => 0%N end.

Definition VAL_ARRAY (v : REBVAL) : REBARR :=
  match v with V_Block a _ => a | _ => EMPTY_ARRAY end.

Definition VAL_INDEX (v : REBVAL) : nat :=
  match v with V_Block _ i => i | _ => 0%nat end.

Definition Init_Typeset (bits : Z) (spelling : REBSTR) : REBVAL :=
  V_Typeset PARAM_CLASS_0 bits spelling.

(** The cells at stack indexes [i], [i+3], [i+6], ... of a region given
    bottom first, each with its stack index: what the [src += 3] loops
    visit. *)
Fixpoint every_third (i : nat) (region : list REBVAL) : list (nat * REBVAL) :=
  match region with
  | [] => []
  | v :: rest =>
      (i, v) ::
      match rest with
      | _ :: _ :: rest' => every_third (i + 3) rest'
      | _ => []
      end
  end.

Section Builder.

Variable kind_num : Reb_Kind → Z.

(** [true] for a release build ([NDEBUG] defined). *)
Variable NDEBUG : bool.

(** The interner, as the builder uses it. *)
Variable STR_CANON : REBSTR → REBSTR.
Variable STR_SYMBOL : REBSTR → Z.
Variable Canon : Z → REBSTR.
Variable SYM_RETURN : Z.
Variable SYM_LEAVE : Z.

(** [0 == Compare_String_Vals(item, Root_With_Tag, TRUE)] and the same
    for [Root_Local_Tag]. *)
Variable is_with_tag : REBVAL → bool.
Variable is_local_tag : REBVAL → bool.

(** [Update_Typeset_Bits_Core] applied to a typeset and a block of
    types: the bits it leaves in the typeset, or the error it raises
    ("leaves VAL_TYPESET_SYM as-is"). *)
Variable Update_Typeset_Bits_Core : REBVAL → REBVAL → Result Error Z.

(** The address of the array [Copy_Array_At_Deep_Managed] allocates. *)
Variable Copy_Array_At_Deep_Managed : REBARR → nat → N.

Definition VAL_WORD_CANON (v : REBVAL) : REBSTR := STR_CANON (VAL_WORD_SPELLING v).
Definition VAL_PARAM_CANON (v : REBVAL) : REBSTR := STR_CANON (VAL_PARAM_SPELLING v).

(** [ALL_64 & ~(FLAGIT_KIND(REB_MAX_VOID) | FLAGIT_KIND(REB_FUNCTION))] *)
Definition default_bits : Z :=
  Z.land ALL_64
    (Z.lnot (Z.lor (FLAGIT_KIND kind_num REB_MAX_VOID)
                   (FLAGIT_KIND kind_num REB_FUNCTION))).

(** The debug build's rewrite of [MKF_FAKE_RETURN] at entry. *)
Definition entry_flags (fl : MKF) : func_flags * MKF :=
  if negb NDEBUG && MKF_FAKE_RETURN fl
  then (mk_func_flags false false true,
        mk_MKF true (MKF_LEAVE fl) (MKF_KEYWORDS fl) (MKF_ANY_VALUE fl) false)
  else (mk_func_flags false false false, fl).

(** [assert(NOT(flags & MKF_RETURN))] inside that rewrite: it is violated
    when a debug build is given [MKF_FAKE_RETURN] together with
    [MKF_RETURN]. *)
Definition entry_assert (fl : MKF) : bool :=
  NDEBUG || negb (MKF_FAKE_RETURN fl) || negb (MKF_RETURN fl).

(** ** The spec loop, one item at a time *)

(** STRING! for the function description or a parameter note. *)
Definition item_string (dsp_orig : nat) (l : locals) (s : string) : locals :=
  if decide (mode l = SPEC_MODE_WITH) then l
  else
    let ds1 := if IS_TYPESET (DS_TOP (stack l))
               then DS_PUSH (stack l) EMPTY_BLOCK else stack l in
    let ds2 := if IS_BLOCK (DS_TOP ds1)
               then DS_PUSH ds1 (V_String s)
               else <[0%nat := V_String s]> ds1 in
    let descr := bool_decide (DSP ds2 = (dsp_orig + 3)%nat) in
    mk_locals ds2 (flags l) (mode l) (refinement_seen l)
      (if descr then true else has_description l)
      (has_types l)
      (if descr then has_notes l else true)
      (definitional_return_dsp l) (definitional_leave_dsp l).

(** Top-level tag, under [MKF_KEYWORDS]. *)
Definition item_tag (l : locals) (item : REBVAL) : Result Error locals :=
  if is_with_tag item then Ok (with_mode l SPEC_MODE_WITH)
  else if is_local_tag item then Ok (with_mode l SPEC_MODE_LOCAL)
  else Fail (Error_Bad_Func_Def item).

(** BLOCK! of types. *)
Definition item_block (l : locals) (item : REBVAL) : Result Error locals :=
  let ds := stack l in
  if IS_BLOCK (DS_TOP ds) then Fail (Error_Bad_Func_Def item)
  else if negb (bool_decide (mode l = SPEC_MODE_NORMAL))
  then Fail (Error_Bad_Func_Def item)
  else
    let copy :=
      V_Block (Array_At (Copy_Array_At_Deep_Managed (VAL_ARRAY item) (VAL_INDEX item))) 0 in
    let placed : Result Error (DS * nat) :=
      if IS_TYPESET (DS_TOP ds) then Ok (DS_PUSH ds copy, 1%nat)
      else if IS_BLANK_RAW (DS_TOP_minus ds 2) then Fail (Error_Bad_Func_Def item)
      else if negb (bool_decide (VAL_ARRAY (DS_TOP_minus ds 1) = EMPTY_ARRAY))
      then Fail (Error_Bad_Func_Def item)
      else Ok (<[1%nat := copy]> ds, 2%nat) in
    match placed with
    | Fail e => Fail e
    | Ok (ds', at_typeset) =>
        let typeset := DS_TOP_minus ds' at_typeset in
        match Update_Typeset_Bits_Core typeset item with
        | Fail e => Fail e
        | Ok bits =>
            let typeset' :=
              V_Typeset (VAL_PARAM_CLASS typeset) bits (VAL_PARAM_SPELLING typeset) in
            if refinement_seen l && TYPE_CHECK kind_num typeset' REB_MAX_VOID
            then Fail Error_Refinement_Arg_Opt
            else
              Ok (mk_locals (<[at_typeset := typeset']> ds') (flags l) (mode l)
                    (refinement_seen l) (has_description l) true (has_notes l)
                    (definitional_return_dsp l) (definitional_leave_dsp l))
        end
    end.

(** The parameter class a word of kind [k] gets ([switch (VAL_TYPE(item))]). *)
Definition class_of_word (k : Reb_Kind) (m : Reb_Spec_Mode) : option Reb_Param_Class :=
  match k with
  | REB_WORD =>
      Some (if decide (m = SPEC_MODE_LOCAL) then PARAM_CLASS_LOCAL else PARAM_CLASS_NORMAL)
  | REB_GET_WORD => Some PARAM_CLASS_HARD_QUOTE
  | REB_LIT_WORD => Some PARAM_CLASS_SOFT_QUOTE
  | REB_REFINEMENT => Some PARAM_CLASS_REFINEMENT
  | REB_SET_WORD => Some PARAM_CLASS_LOCAL
  | REB_ISSUE => Some PARAM_CLASS_TIGHT
  | _ => None
  end.

(** ANY-WORD! parameters. *)
Definition item_word (l : locals) (item : REBVAL) : Result Error locals :=
  if negb (ANY_WORD item) then Fail (Error_Bad_Func_Def item)
  else
    let mode_checked : Result Error Reb_Spec_Mode :=
      if decide (mode l = SPEC_MODE_NORMAL) then Ok (mode l)
      else if IS_REFINEMENT item then Ok SPEC_MODE_NORMAL
      else if negb (IS_WORD item) && negb (IS_SET_WORD item)
      then Fail (Error_Bad_Func_Def item)
      else Ok (mode l) in
    match mode_checked with
    | Fail e => Fail e
    | Ok m =>
        let canon := VAL_WORD_CANON item in
        let ds1 := if IS_TYPESET (DS_TOP (stack l))
                   then DS_PUSH (stack l) EMPTY_BLOCK else stack l in
        let ds2 := if IS_BLOCK (DS_TOP ds1) then DS_PUSH ds1 EMPTY_STRING else ds1 in
        let fl := flags l in
        let typeset :=
          Init_Typeset (if MKF_ANY_VALUE fl then ALL_64 else default_bits)
            (VAL_WORD_SPELLING item) in
        let ds3 := DS_PUSH ds2 typeset in
        (* definitional return / leave, with
           [assert(definitional_return_dsp == 0)] and
           [assert(definitional_leave_dsp == 0)] *)
        let noted : Result Error (MKF * nat * nat) :=
          if (STR_SYMBOL canon =? SYM_RETURN) && negb (MKF_LEAVE fl) then
            if negb NDEBUG && negb (bool_decide (definitional_return_dsp l = 0%nat))
            then Fail Assert_Violated
            else if IS_SET_WORD item
            then Ok (fl, DSP ds3, definitional_leave_dsp l)
            else Ok (mk_MKF false (MKF_LEAVE fl) (MKF_KEYWORDS fl) (MKF_ANY_VALUE fl)
                       false,
                     definitional_return_dsp l, definitional_leave_dsp l)
          else if (STR_SYMBOL canon =? SYM_LEAVE)
                  && negb (MKF_RETURN fl || MKF_FAKE_RETURN fl) then
            if negb NDEBUG && negb (bool_decide (definitional_leave_dsp l = 0%nat))
            then Fail Assert_Violated
            else if IS_SET_WORD item
            then Ok (fl, definitional_return_dsp l, DSP ds3)
            else Ok (mk_MKF (MKF_RETURN fl) false (MKF_KEYWORDS fl) (MKF_ANY_VALUE fl)
                       (MKF_FAKE_RETURN fl),
                     definitional_return_dsp l, definitional_leave_dsp l)
          else Ok (fl, definitional_return_dsp l, definitional_leave_dsp l) in
        match noted with
        | Fail e => Fail e
        | Ok (fl', ret_dsp, leave_dsp) =>
            if bool_decide (m = SPEC_MODE_WITH) && negb (IS_SET_WORD item) then
              Ok (mk_locals (DS_DROP ds3) fl' m (refinement_seen l) (has_description l)
                    (has_types l) (has_notes l) ret_dsp leave_dsp)
            else
              match class_of_word (VAL_TYPE item) m with
              | None => Fail (Error_Bad_Func_Def item)
              | Some c =>
                  Ok (mk_locals (DS_PUSH ds2 (INIT_VAL_PARAM_CLASS typeset c)) fl' m
                        (refinement_seen l || IS_REFINEMENT item) (has_description l)
                        (has_types l) (has_notes l) ret_dsp leave_dsp)
              end
        end
    end.

(** One turn of [while (NOT_END(value))]. *)
Definition spec_item (dsp_orig : nat) (l : locals) (item : REBVAL)
  : Result Error locals :=
  match item with
  | V_String s => Ok (item_string dsp_orig l s)
  | _ =>
      if IS_TAG item && MKF_KEYWORDS (flags l) then item_tag l item
      else if IS_BLOCK item then item_block l item
      else item_word l item
  end.

Fixpoint spec_loop (dsp_orig : nat) (l : locals) (spec : list REBVAL)
  : Result Error locals :=
  match spec with
  | [] => Ok l
  | item :: value =>
      match spec_item dsp_orig l item with
      | Fail e => Fail e
      | Ok l' => spec_loop dsp_orig l' value
      end
  end.

(** "Go ahead and flesh out the TYPESET! BLOCK! STRING! triples." *)
Definition flesh_out (ds : DS) : DS :=
  let ds1 := if IS_TYPESET (DS_TOP ds) then DS_PUSH ds EMPTY_BLOCK else ds in
  if IS_BLOCK (DS_TOP ds1) then DS_PUSH ds1 EMPTY_STRING else ds1.

(** Set the class of the cell at stack index [i]. *)
Definition reclassify (ds : DS) (i : nat) (c : Reb_Param_Class) : DS :=
  if decide (1 ≤ i ≤ length ds)%nat
  then alter (λ v, INIT_VAL_PARAM_CLASS v c) (length ds - i)%nat ds
  else ds.

(** [if (flags & MKF_LEAVE) { ... }] *)
Definition definitional_leave (l : locals) (hdr : func_flags) : locals * func_flags :=
  if MKF_LEAVE (flags l) then
    let l' :=
      if decide (definitional_leave_dsp l = 0%nat) then
        let ds1 := DS_PUSH (stack l)
                     (V_Typeset PARAM_CLASS_LEAVE (FLAGIT_KIND kind_num REB_MAX_VOID)
                        (Canon SYM_LEAVE)) in
        mk_locals (DS_PUSH (DS_PUSH ds1 EMPTY_BLOCK) EMPTY_STRING) (flags l) (mode l)
          (refinement_seen l) (has_description l) (has_types l) (has_notes l)
          (definitional_return_dsp l) (DSP ds1)
      else
        with_stack l (reclassify (stack l) (definitional_leave_dsp l) PARAM_CLASS_LEAVE) in
    (l', mk_func_flags (FUNC_FLAG_RETURN hdr) true (FUNC_FLAG_RETURN_DEBUG hdr))
  else (l, hdr).

(** [if (flags & MKF_RETURN) { ... }] *)
Definition definitional_return (l : locals) (hdr : func_flags) : locals * func_flags :=
  if MKF_RETURN (flags l) then
    let l' :=
      if decide (definitional_return_dsp l = 0%nat) then
        let bits :=
          if MKF_ANY_VALUE (flags l)
             || negb (has_description l || has_types l || has_notes l)
          then ALL_64 else default_bits in
        let ds1 := DS_PUSH (stack l)
                     (V_Typeset PARAM_CLASS_RETURN bits (Canon SYM_RETURN)) in
        mk_locals (DS_PUSH (DS_PUSH ds1 EMPTY_BLOCK) EMPTY_STRING) (flags l) (mode l)
          (refinement_seen l) (has_description l) (has_types l) (has_notes l)
          (DSP ds1) (definitional_leave_dsp l)
      else
        with_stack l (reclassify (stack l) (definitional_return_dsp l) PARAM_CLASS_RETURN) in
    (l', mk_func_flags true (FUNC_FLAG_LEAVE hdr) (FUNC_FLAG_RETURN_DEBUG hdr))
  else (l, hdr).

(** The first pass: everything up to the point where the stack holds the
    triples of all the parameters. *)
(** The locals when the spec loop is entered: three cells pushed for
    slot 0 of the paramlist, of the types and of the notes. *)
Definition initial_locals (fl : MKF) (ds0 : DS) : locals :=
  mk_locals
    (DS_PUSH (DS_PUSH (DS_PUSH ds0 V_Unreadable_Blank) EMPTY_BLOCK) EMPTY_STRING)
    (entry_flags fl).2 SPEC_MODE_NORMAL false false false false 0 0.

(** The locals when the spec loop is left. *)
Definition parse_spec (spec : list REBVAL) (fl : MKF) (ds0 : DS) : Result Error locals :=
  if entry_assert fl then spec_loop (DSP ds0) (initial_locals fl ds0) spec
  else Fail Assert_Violated.

Definition first_pass (spec : list REBVAL) (fl : MKF) (ds0 : DS)
  : Result Error (locals * func_flags) :=
  match parse_spec spec fl ds0 with
  | Fail e => Fail e
  | Ok l =>
      let l1 := with_stack l (flesh_out (stack l)) in
      let '(l2, hdr2) := definitional_leave l1 (entry_flags fl).1 in
      Ok (definitional_return l2 hdr2)
  end.

(** ** The second pass: copy to the paramlist and check for duplicates *)

(** The parameter typesets on the stack with their stack indexes
    ([src = DS_AT(dsp_orig + 1) + 3; src <= DS_TOP; src += 3]). *)
Definition param_srcs (dsp_orig : nat) (ds : DS) : list (nat * REBVAL) :=
  every_third (dsp_orig + 4) (drop 3 (rev (take (DSP ds - dsp_orig) ds))).

(** The loop that adds binder indexes and copies the cells. *)
Fixpoint add_loop (ret_dsp : nat) (srcs : list (nat * REBVAL))
    (binder : Reb_Binder) (duplicate : option REBSTR) (dest : list REBVAL)
  : Reb_Binder * option REBSTR * list REBVAL :=
  match srcs with
  | [] => (binder, duplicate, dest)
  | (i, src) :: srcs' =>
      let '(added, binder') :=
        Try_Add_Binder_Index binder (VAL_PARAM_CANON src) 1020 in
      let duplicate' :=
        if added then duplicate else Some (VAL_PARAM_SPELLING src) in
      if bool_decide (ret_dsp ≠ 0%nat) && bool_decide (i = ret_dsp)
      then add_loop ret_dsp srcs' binder' duplicate' dest
      else add_loop ret_dsp srcs' binder' duplicate' (dest ++ [src])
  end.

(** "Must remove binder indexes for all words, even if about to fail" *)
Fixpoint remove_loop (srcs : list (nat * REBVAL)) (binder : Reb_Binder) : Reb_Binder :=
  match srcs with
  | [] => binder
  | (_, src) :: srcs' =>
      remove_loop srcs' (Remove_Binder_Index_Else_0 binder (VAL_PARAM_CANON src)).2
  end.

(** What the routine leaves behind: its result (the cells of the
    paramlist, archetype first) and the binder as it is when the routine
    returns, fails or is stopped by an assert. *)
Record outcome : Type := mk_outcome {
  result : Result Error (list REBVAL);
  binder_after : Reb_Binder
}.

(** The copy of the definitional return after the loop; [None] stands
    for a violated [assert(flags & MKF_RETURN)]. *)
Definition copy_return (l : locals) (dest : list REBVAL) : option (list REBVAL) :=
  let ret_dsp := definitional_return_dsp l in
  if bool_decide (ret_dsp ≠ 0%nat) then
    if MKF_FAKE_RETURN (flags l) then Some dest
    else if negb NDEBUG && negb (MKF_RETURN (flags l)) then None
    else Some (dest ++ [default V_Unreadable_Blank (DS_AT (stack l) ret_dsp)])
  else Some dest.

Definition second_pass (self : REBFUN) (dsp_orig : nat) (l : locals) (hdr : func_flags)
  : outcome :=
  let ds := stack l in
  let ret_dsp := definitional_return_dsp l in
  let num_slots :=
    ((DSP ds - dsp_orig) / 3
     - (if bool_decide (ret_dsp ≠ 0%nat) && MKF_FAKE_RETURN (flags l) then 1 else 0))%nat in
  let archetype := V_Function hdr self 0%N in
  let srcs := param_srcs dsp_orig ds in
  let '(binder, duplicate, dest) := add_loop ret_dsp srcs INIT_BINDER None [archetype] in
  match copy_return l dest with
  | None => mk_outcome (Fail Assert_Violated) binder
  | Some dest' =>
      let binder' := remove_loop srcs binder in
      match duplicate with
      | Some spelling => mk_outcome (Fail (Error_Dup_Vars spelling)) binder'
      | None => mk_outcome (Ok (take num_slots dest')) binder'
      end
  end.

(** [Make_Paramlist_Managed_May_Fail], up to [MANAGE_ARRAY(paramlist)];
    [self] is the address of the paramlist array being made. *)
Definition Make_Paramlist_Managed_May_Fail (self : REBFUN) (spec : list REBVAL)
    (fl : MKF) (ds0 : DS) : outcome :=
  match first_pass spec fl ds0 with
  | Fail e => mk_outcome (Fail e) INIT_BINDER
  | Ok (l, hdr) => second_pass self (DSP ds0) l hdr
  end.

(* ------------------------------------------------------------------ *)
(** ** The binder is torn down; duplicates are reported                *)
(* ------------------------------------------------------------------ *)

Definition canons_of (srcs : list (nat * REBVAL)) : list REBSTR :=
  map (λ p, VAL_PARAM_CANON p.2) srcs.



(** The duplicate noted by the add loop: none exactly when nothing was
    noted before and the canons are pairwise distinct and new to the
    binder. *)
Lemma add_loop_duplicate ret_dsp srcs :
  ∀ binder duplicate dest,
    (add_loop ret_dsp srcs binder duplicate dest).1.2 = None
    ↔ duplicate = None ∧ NoDup (canons_of srcs)
      ∧ ∀ c, c ∈ canons_of srcs → c ∉ dom binder.
Proof.
  induction srcs as [|[i src] srcs IH]; intros binder duplicate dest; simpl.
  - split; [intros ->; repeat split; [constructor | set_solver] | tauto].
  - unfold Try_Add_Binder_Index.
    destruct (binder !! VAL_PARAM_CANON src) as [old|] eqn:Hl.
    + assert ((add_loop ret_dsp srcs binder (Some (VAL_PARAM_SPELLING src))
                 (if bool_decide (ret_dsp ≠ 0%nat) && bool_decide (i = ret_dsp)
                  then dest else dest ++ [src])).1.2 ≠ None) as Hne.
      { rewrite IH. intros [? _]. discriminate. }
      apply elem_of_dom_2 in Hl. split.
      * intros H. exfalso. apply Hne.
        destruct (bool_decide (ret_dsp ≠ 0%nat) && bool_decide (i = ret_dsp)); exact H.
      * intros (_ & _ & Hfresh). exfalso. apply (Hfresh (VAL_PARAM_CANON src)); [|exact Hl].
        simpl. apply elem_of_cons. by left.
    + apply not_elem_of_dom in Hl.
      destruct (bool_decide (ret_dsp ≠ 0%nat) && bool_decide (i = ret_dsp));
        rewrite IH, dom_insert_L, NoDup_cons; simpl;
        (split; [intros (-> & Hnd & Hfresh); split; [reflexivity|]; split;
                 [split; [intros Hin; apply (Hfresh _ Hin); set_solver | exact Hnd]
                 | intros c [->|Hin]%elem_of_cons; [exact Hl|];
                   specialize (Hfresh c Hin); set_solver]
               | intros (-> & [Hnotin Hnd] & Hfresh); split; [reflexivity|]; split;
                 [exact Hnd|]; intros c Hin;
                 assert (c ∉ dom binder) by (apply Hfresh, elem_of_cons; by right);
                 assert (c ≠ VAL_PARAM_CANON src) by (intros ->; done);
                 set_solver]).
Qed.




(* ------------------------------------------------------------------ *)
(** ** The rhythm of the stack: TYPESET! BLOCK! STRING! triples        *)
(* ------------------------------------------------------------------ *)

(** The cells the routine has pushed, top first, when the top is on a
    string: full triples down to the three cells of slot 0. *)
Inductive complete : DS → Prop :=
| complete_base b s :
    VAL_TYPE b = REB_BLOCK → VAL_TYPE s = REB_STRING →
    complete [s; b; V_Unreadable_Blank]
| complete_more s b t loc :
    VAL_TYPE s = REB_STRING → VAL_TYPE b = REB_BLOCK →
    VAL_TYPE t = REB_TYPESET → complete loc →
    complete (s :: b :: t :: loc).

(** The same when the last triple may still be open. *)
Inductive shape : DS → Prop :=
| shape_string loc : complete loc → shape loc
| shape_block b t loc :
    VAL_TYPE b = REB_BLOCK → VAL_TYPE t = REB_TYPESET → complete loc →
    shape (b :: t :: loc)
| shape_typeset t loc :
    VAL_TYPE t = REB_TYPESET → complete loc → shape (t :: loc).

(** The definitional return slot, once noted, is a parameter slot of
    the stack and holds a pure local. *)
Definition ret_slot_ok (d : nat) (ds : DS) (ret_dsp : nat) : Prop :=
  ret_dsp = 0%nat
  ∨ ((∃ m, ret_dsp = (d + 3 * m + 4)%nat)
     ∧ ∃ bits s, DS_AT ds ret_dsp = Some (V_Typeset PARAM_CLASS_LOCAL bits s)).

Record Inv (d : nat) (l : locals) : Prop := mk_Inv {
  inv_shape : ∃ loc rest, stack l = loc ++ rest ∧ length rest = d ∧ shape loc;
  inv_leave : definitional_return_dsp l ≠ 0%nat → MKF_LEAVE (flags l) = false;
  inv_ret : ret_slot_ok d (stack l) (definitional_return_dsp l)
}.

Lemma complete_length loc : complete loc → ∃ q, length loc = (3 * (q + 1))%nat.
Proof.
  induction 1 as [b s _ _|s b t loc _ _ _ _ [q IH]].
  - exists 0%nat. reflexivity.
  - exists (S q). simpl. lia.
Qed.

Lemma complete_top loc :
  complete loc →
  ∃ s b x loc', loc = s :: b :: x :: loc'
    ∧ VAL_TYPE s = REB_STRING ∧ VAL_TYPE b = REB_BLOCK
    ∧ (x = V_Unreadable_Blank ∧ loc' = [] ∨ VAL_TYPE x = REB_TYPESET ∧ complete loc').
Proof.
  destruct 1 as [b s Hb Hs|s b t loc Hs Hb Ht Hc].
  - exists s, b, V_Unreadable_Blank, []. repeat split; auto.
  - exists s, b, t, loc. repeat split; auto.
Qed.

Lemma complete_replace_top s s' loc :
  complete (s :: loc) → VAL_TYPE s' = REB_STRING → complete (s' :: loc).
Proof. inversion 1; subst; intros; constructor; auto. Qed.

Lemma DS_AT_Some ds i v :
  DS_AT ds i = Some v ↔ (1 ≤ i ≤ length ds)%nat ∧ ds !! (length ds - i)%nat = Some v.
Proof. unfold DS_AT. case_decide; [tauto|]. split; [discriminate|tauto]. Qed.

Lemma DS_AT_push ds x i v : DS_AT ds i = Some v → DS_AT (x :: ds) i = Some v.
Proof.
  rewrite !DS_AT_Some. intros [Hi Hl]. split; [simpl; lia|].
  simpl length. replace (S (length ds) - i)%nat with (S (length ds - i)) by lia.
  exact Hl.
Qed.

Lemma DS_AT_top ds x : DS_AT (x :: ds) (S (length ds)) = Some x.
Proof.
  apply DS_AT_Some. split; [simpl; lia|].
  simpl length. rewrite Nat.sub_diag. reflexivity.
Qed.

Lemma DS_AT_insert ds k x i v :
  DS_AT ds i = Some v → (length ds - i)%nat ≠ k → DS_AT (<[k:=x]> ds) i = Some v.
Proof.
  rewrite !DS_AT_Some, length_insert. intros [Hi Hl] Hne. split; [exact Hi|].
  rewrite list_lookup_insert_ne by congruence. exact Hl.
Qed.

(** Pushing keeps the return slot. *)
Lemma ret_slot_ok_push d ds x r : ret_slot_ok d ds r → ret_slot_ok d (x :: ds) r.
Proof.
  intros [->|[Hm (bits & s & Hat)]]; [by left|right].
  split; [exact Hm|]. exists bits, s. by apply DS_AT_push.
Qed.

(** Overwriting a cell keeps the return slot when the new cell is a
    pure local whenever the old one was. *)
Lemma ret_slot_ok_insert d ds k old x r :
  ret_slot_ok d ds r → ds !! k = Some old →
  (∀ bits s, old = V_Typeset PARAM_CLASS_LOCAL bits s →
             ∃ bits', x = V_Typeset PARAM_CLASS_LOCAL bits' s) →
  ret_slot_ok d (<[k:=x]> ds) r.
Proof.
  intros [->|[Hm (bits & s & Hat)]] Hold Hx; [by left|right].
  split; [exact Hm|].
  destruct (decide ((length ds - r)%nat = k)) as [<-|Hne].
  - apply DS_AT_Some in Hat as [Hr Hl]. rewrite Hl in Hold. injection Hold as <-.
    destruct (Hx bits s eq_refl) as [bits' ->]. exists bits', s.
    apply DS_AT_Some. rewrite length_insert. split; [exact Hr|].
    apply list_lookup_insert_eq. lia.
  - exists bits, s. by apply DS_AT_insert.
Qed.

Lemma ret_slot_ok_replace d pre old x post r :
  ret_slot_ok d (pre ++ old :: post) r →
  (∀ bits s, old = V_Typeset PARAM_CLASS_LOCAL bits s →
             ∃ bits', x = V_Typeset PARAM_CLASS_LOCAL bits' s) →
  ret_slot_ok d (pre ++ x :: post) r.
Proof.
  intros Hret Hx.
  replace (pre ++ x :: post) with (<[length pre := x]> (pre ++ old :: post)).
  - apply (ret_slot_ok_insert _ _ _ old); [exact Hret| |exact Hx].
    rewrite lookup_app_r, Nat.sub_diag by lia. reflexivity.
  - rewrite insert_app_r_alt, Nat.sub_diag by lia. reflexivity.
Qed.

Lemma ret_slot_ok_drop d ds x r :
  ret_slot_ok d (x :: ds) r → (r ≤ length ds)%nat → ret_slot_ok d ds r.
Proof.
  intros [->|[Hm (bits & s & Hat)]] Hr; [by left|right].
  split; [exact Hm|]. exists bits, s.
  apply DS_AT_Some in Hat as [Hi Hl]. apply DS_AT_Some. split; [lia|].
  simpl length in Hl. replace (S (length ds) - r)%nat with (S (length ds - r)) in Hl by lia.
  exact Hl.
Qed.

Lemma ret_slot_le d ds r : ret_slot_ok d ds r → (r ≤ length ds)%nat.
Proof.
  intros [->|[_ (bits & s & Hat)]]; [lia|].
  apply DS_AT_Some in Hat. lia.
Qed.

Ltac kind_tests :=
  unfold IS_TYPESET, IS_BLOCK, IS_STRING, IS_TAG, IS_WORD, IS_SET_WORD,
    IS_REFINEMENT, DS_TOP, DS_TOP_minus, DS_PUSH, DS_DROP, DSP,
    EMPTY_BLOCK, EMPTY_STRING;
  repeat (progress (simpl;
    repeat match goal with
    | H : VAL_TYPE ?x = _ |- context [VAL_TYPE ?x] => rewrite H
    end)).

Lemma item_string_Inv d l s : Inv d l → Inv d (item_string d l s).
Proof.
  intros [(loc & rest & Hst & Hlen & Hsh) Hlv Hret].
  unfold item_string. destruct (decide (mode l = SPEC_MODE_WITH)); [by split; eauto|].
  rewrite Hst in *. destruct Hsh as [loc Hc|b t loc Hb Ht Hc|t loc Ht Hc].
  - destruct (complete_top loc Hc) as (s0 & b0 & x & loc' & -> & Hs0 & Hb0 & _).
    kind_tests. split; simpl; [|exact Hlv|].
    + exists (V_String s :: b0 :: x :: loc'), rest. repeat split; [exact Hlen|].
      constructor. by apply (complete_replace_top s0).
    + apply (ret_slot_ok_replace d [] s0 _ _ _ Hret).
      intros bits s1 ->. discriminate.
  - kind_tests. split; simpl; [|exact Hlv|].
    + exists (V_String s :: b :: t :: loc), rest. repeat split; [exact Hlen|].
      constructor. by constructor.
    + by apply ret_slot_ok_push.
  - kind_tests. split; simpl; [|exact Hlv|].
    + exists (V_String s :: V_Block EMPTY_ARRAY 0 :: t :: loc), rest.
      repeat split; [exact Hlen|]. constructor. by constructor.
    + by do 2 apply ret_slot_ok_push.
Qed.

Lemma item_tag_Inv d l item l' : Inv d l → item_tag l item = Ok l' → Inv d l'.
Proof.
  intros [Hsh Hlv Hret]. unfold item_tag.
  destruct (is_with_tag item); [|destruct (is_local_tag item)];
    intros [= <-]; by split.
Qed.

Lemma typeset_update_local x bits :
  ∀ bits0 s, x = V_Typeset PARAM_CLASS_LOCAL bits0 s →
    ∃ bits', V_Typeset (VAL_PARAM_CLASS x) bits (VAL_PARAM_SPELLING x)
             = V_Typeset PARAM_CLASS_LOCAL bits' s.
Proof. intros bits0 s ->. by exists bits. Qed.

Lemma item_block_Inv d l item l' : Inv d l → item_block l item = Ok l' → Inv d l'.
Proof.
  intros [(loc & rest & Hst & Hlen & Hsh) Hlv Hret]. unfold item_block.
  rewrite Hst in *. destruct Hsh as [loc Hc|b t loc Hb Ht Hc|t loc Ht Hc].
  - destruct (complete_top loc Hc) as (s0 & b0 & x & loc' & -> & Hs0 & Hb0 & Hx).
    kind_tests. destruct (negb (bool_decide (mode l = SPEC_MODE_NORMAL))); [discriminate|].
    destruct Hx as [[-> ->]|[Hx Hc']]; [discriminate|].
    assert (IS_BLANK_RAW x = false) as -> by (destruct x; try reflexivity; discriminate).
    destruct (negb (bool_decide (VAL_ARRAY b0 = EMPTY_ARRAY))); [discriminate|].
    simpl. destruct (Update_Typeset_Bits_Core x item) as [bits|e]; [|discriminate].
    destruct (refinement_seen l && _); [discriminate|].
    intros [= <-]. split; simpl; [|exact Hlv|].
    + eexists (s0 :: _ :: _ :: loc'), rest. repeat split; [exact Hlen|].
      constructor. by constructor.
    + apply (ret_slot_ok_replace d [s0; _] x); [|apply typeset_update_local].
      apply (ret_slot_ok_replace d [s0] b0 _ _ _ Hret).
      intros bits0 s1 ->. discriminate.
  - kind_tests. discriminate.
  - kind_tests. destruct (negb (bool_decide (mode l = SPEC_MODE_NORMAL))); [discriminate|].
    destruct (Update_Typeset_Bits_Core t item) as [bits|e]; [|discriminate].
    destruct (refinement_seen l && _); [discriminate|].
    intros [= <-]. split; simpl; [|exact Hlv|].
    + eexists (_ :: _ :: loc), rest. repeat split; [exact Hlen|].
      by constructor.
    + apply (ret_slot_ok_replace d [_] t); [|apply typeset_update_local].
      by apply ret_slot_ok_push.
Qed.

(** Moving to a string spot: what [flesh_out] does, and what the word
    case does before it pushes a typeset. *)
Lemma flesh_out_complete d loc rest r :
  shape loc → ret_slot_ok d (loc ++ rest) r →
  ∃ loc2, flesh_out (loc ++ rest) = loc2 ++ rest ∧ complete loc2
          ∧ ret_slot_ok d (loc2 ++ rest) r.
Proof.
  intros Hsh Hret. unfold flesh_out.
  destruct Hsh as [loc Hc|b t loc Hb Ht Hc|t loc Ht Hc].
  - destruct (complete_top loc Hc) as (s0 & b0 & x & loc' & -> & Hs0 & Hb0 & Hx).
    kind_tests. exists (s0 :: b0 :: x :: loc'). auto.
  - kind_tests. exists (V_String "" :: b :: t :: loc). repeat split.
    + by constructor.
    + by apply ret_slot_ok_push.
  - kind_tests. exists (V_String "" :: V_Block EMPTY_ARRAY 0 :: t :: loc). repeat split.
    + by constructor.
    + by do 2 apply ret_slot_ok_push.
Qed.

Lemma item_word_Inv d l item l' : Inv d l → item_word l item = Ok l' → Inv d l'.
Proof.
  intros [(loc & rest & Hst & Hlen & Hsh) Hlv Hret]. unfold item_word.
  destruct (negb (ANY_WORD item)); [discriminate|].
  match goal with |- context [match ?mc with Ok _ => _ | Fail _ => _ end] =>
    destruct mc as [m|e]; [|discriminate] end.
  change (if IS_BLOCK (DS_TOP (if IS_TYPESET (DS_TOP (stack l))
                               then DS_PUSH (stack l) EMPTY_BLOCK else stack l))
          then DS_PUSH (if IS_TYPESET (DS_TOP (stack l))
                        then DS_PUSH (stack l) EMPTY_BLOCK else stack l) EMPTY_STRING
          else (if IS_TYPESET (DS_TOP (stack l))
                then DS_PUSH (stack l) EMPTY_BLOCK else stack l))
    with (flesh_out (stack l)).
  rewrite Hst in *.
  destruct (flesh_out_complete d loc rest _ Hsh Hret) as (loc2 & -> & Hc2 & Hret2).
  destruct (complete_length loc2 Hc2) as [q Hq].
  set (ts := Init_Typeset _ _).
  assert (∀ fl' lv,
    (definitional_return_dsp l ≠ 0%nat → MKF_LEAVE fl' = false) →
    (if bool_decide (m = SPEC_MODE_WITH) && negb (IS_SET_WORD item)
     then Ok (mk_locals (DS_DROP (DS_PUSH (loc2 ++ rest) ts)) fl' m (refinement_seen l)
                (has_description l) (has_types l) (has_notes l)
                (definitional_return_dsp l) lv)
     else match class_of_word (VAL_TYPE item) m with
          | Some c =>
              Ok (mk_locals (DS_PUSH (loc2 ++ rest) (INIT_VAL_PARAM_CLASS ts c)) fl' m
                    (refinement_seen l || IS_REFINEMENT item) (has_description l)
                    (has_types l) (has_notes l) (definitional_return_dsp l) lv)
          | None => Fail (Error_Bad_Func_Def item)
          end) = Ok l' → Inv d l') as Hsame.
  { intros fl' lv Hlv'.
    destruct (bool_decide (m = SPEC_MODE_WITH) && negb (IS_SET_WORD item)).
    - intros [= <-]. split; simpl; [|exact Hlv'|exact Hret2].
      exists loc2, rest. repeat split; [exact Hlen|]. by constructor.
    - destruct (class_of_word (VAL_TYPE item) m) as [c|]; [|discriminate].
      intros [= <-]. split; simpl; [|exact Hlv'|by apply ret_slot_ok_push].
      exists (V_Typeset c (if MKF_ANY_VALUE (flags l) then ALL_64 else default_bits)
                (VAL_WORD_SPELLING item) :: loc2), rest.
      repeat split; [exact Hlen|]. by constructor. }
  destruct ((STR_SYMBOL (VAL_WORD_CANON item) =? SYM_RETURN)
            && negb (MKF_LEAVE (flags l))) eqn:Hc1.
  - destruct (negb NDEBUG && negb (bool_decide (definitional_return_dsp l = 0%nat)));
      [discriminate|].
    destruct (IS_SET_WORD item) eqn:Hsw.
    + apply andb_true_iff in Hc1 as [_ Hnl]. apply negb_true_iff in Hnl.
      rewrite andb_false_r.
      assert (VAL_TYPE item = REB_SET_WORD) as ->
        by (unfold IS_SET_WORD in Hsw; by apply bool_decide_eq_true in Hsw).
      simpl. intros [= <-]. split; simpl; [|done|].
      * exists (V_Typeset PARAM_CLASS_LOCAL
                  (if MKF_ANY_VALUE (flags l) then ALL_64 else default_bits)
                  (VAL_WORD_SPELLING item) :: loc2), rest.
        repeat split; [exact Hlen|]. by constructor.
      * right. split.
        -- exists q. unfold DSP, DS_PUSH. simpl. rewrite length_app. lia.
        -- do 2 eexists. apply DS_AT_top.
    + apply Hsame. simpl. auto.
  - destruct ((STR_SYMBOL (VAL_WORD_CANON item) =? SYM_LEAVE)
              && negb (MKF_RETURN (flags l) || MKF_FAKE_RETURN (flags l)));
      [destruct (negb NDEBUG && negb (bool_decide (definitional_leave_dsp l = 0%nat)));
         [discriminate|]; destruct (IS_SET_WORD item)|];
      apply Hsame; simpl; auto.
Qed.

Lemma spec_item_Inv d l item l' : Inv d l → spec_item d l item = Ok l' → Inv d l'.
Proof.
  intros HI. unfold spec_item.
  destruct item;
    try (intros [= <-]; by apply item_string_Inv);
    try (destruct (_ && _); [by apply item_tag_Inv|]);
    try (destruct (IS_BLOCK _); [by apply item_block_Inv|]);
    by apply item_word_Inv.
Qed.

Lemma spec_loop_Inv d spec : ∀ l l', Inv d l → spec_loop d l spec = Ok l' → Inv d l'.
Proof.
  induction spec as [|item spec IH]; intros l l' HI; simpl.
  - by intros [= <-].
  - destruct (spec_item d l item) as [l1|e] eqn:Hitem; [|discriminate].
    apply IH. by apply (spec_item_Inv d l item).
Qed.

Lemma initial_locals_Inv fl ds0 : Inv (DSP ds0) (initial_locals fl ds0).
Proof.
  split; simpl; [|done|by left].
  exists [EMPTY_STRING; EMPTY_BLOCK; V_Unreadable_Blank], ds0.
  repeat split. constructor. by constructor.
Qed.

Lemma parse_spec_Inv spec fl ds0 l :
  parse_spec spec fl ds0 = Ok l → Inv (DSP ds0) l.
Proof.
  unfold parse_spec. destruct (entry_assert fl); [|discriminate].
  apply spec_loop_Inv, initial_locals_Inv.
Qed.

(* ------------------------------------------------------------------ *)
(** ** Where the return parameter ends up                              *)
(* ------------------------------------------------------------------ *)

Lemma every_third_indexes n :
  ∀ i region, length region = (3 * n)%nat →
    map fst (every_third i region) = map (λ j, (i + 3 * j)%nat) (seq 0 n).
Proof.
  induction n as [|n IH]; intros i region Hlen.
  - destruct region; [reflexivity|discriminate].
  - destruct region as [|a [|b [|c region]]]; simpl in Hlen; try lia.
    simpl. f_equal; [lia|]. rewrite IH by lia.
    rewrite <- seq_shift, map_map. apply map_ext. intros j. lia.
Qed.

Lemma param_srcs_indexes d ds q :
  length ds = (d + 3 * (q + 1))%nat →
  map fst (param_srcs d ds) = map (λ j, (d + 4 + 3 * j)%nat) (seq 0 q).
Proof.
  intros Hlen. unfold param_srcs. apply every_third_indexes.
  rewrite length_drop, length_rev, length_take. unfold DSP. lia.
Qed.







Lemma length_reclassify ds i c : length (reclassify ds i c) = length ds.
Proof. unfold reclassify. case_decide; [apply length_alter|reflexivity]. Qed.



(* ------------------------------------------------------------------ *)
(** ** The parameters of a spec                                        *)
(* ------------------------------------------------------------------ *)

(** The mode after an item of the spec: a tag switches it when
    [MKF_KEYWORDS] is given, a refinement switches it back. *)
Definition next_mode (keywords : bool) (m : Reb_Spec_Mode) (item : REBVAL)
  : Reb_Spec_Mode :=
  if IS_TAG item && keywords then
    if is_with_tag item then SPEC_MODE_WITH
    else if is_local_tag item then SPEC_MODE_LOCAL else m
  else if IS_BLOCK item then m
  else if decide (m = SPEC_MODE_NORMAL) then m
  else if IS_REFINEMENT item then SPEC_MODE_NORMAL else m.

(** Whether an item names a parameter: an ANY-WORD!, unless it is not a
    set-word and stands under [<with>]. *)
Definition names_param (m : Reb_Spec_Mode) (item : REBVAL) : bool :=
  ANY_WORD item && negb (bool_decide (m = SPEC_MODE_WITH) && negb (IS_SET_WORD item)).

(** The words of a spec that name its parameters, in order, read off
    the spec alone. *)
Fixpoint spec_words (keywords : bool) (m : Reb_Spec_Mode) (spec : list REBVAL)
  : list REBVAL :=
  match spec with
  | [] => []
  | item :: spec' =>
      let m' := next_mode keywords m item in
      if names_param m' item then item :: spec_words keywords m' spec'
      else spec_words keywords m' spec'
  end.






(** The part of the stack the routine has pushed. *)
Definition above (d : nat) (ds : DS) : list REBVAL := take (length ds - d) ds.

Lemma above_app d loc rest : length rest = d → above d (loc ++ rest) = loc.
Proof.
  intros <-. unfold above. rewrite length_app.
  replace (length loc + length rest - length rest)%nat with (length loc) by lia.
  by rewrite take_app_length.
Qed.



Lemma Inv_above d l :
  Inv d l → ∃ rest, stack l = above d (stack l) ++ rest ∧ length rest = d
                    ∧ shape (above d (stack l)).
Proof.
  intros [(loc & rest & Hst & Hlen & Hsh) _ _]. exists rest.
  by rewrite Hst, (above_app d loc rest Hlen).
Qed.
















End Builder.

(* ------------------------------------------------------------------ *)
(** ** Concrete specs: scenarios S2 and S3                             *)
(* ------------------------------------------------------------------ *)

(** Spellings: 1 is [a], 2 is [b], 3 is [x], 10 is [return], 11 is
    [Return] (a synonym of 10), 20 is [leave]. *)
Definition demo_STR_CANON (s : REBSTR) : REBSTR := if (s =? 11)%N then 10%N else s.

Definition demo_SYM_RETURN : Z := 5.
Definition demo_SYM_LEAVE : Z := 6.

Definition demo_STR_SYMBOL (s : REBSTR) : Z :=
  if (s =? 10)%N || (s =? 11)%N then demo_SYM_RETURN
  else if (s =? 20)%N then demo_SYM_LEAVE else 0.

Definition demo_Canon (sym : Z) : REBSTR := if sym =? demo_SYM_RETURN then 10%N else 20%N.

(** Every block of types in the demo specs is [[integer!]]. *)
Definition demo_Update_Typeset_Bits_Core (typeset item : REBVAL) : Result Error Z :=
  Ok (FLAGIT_KIND demo_kind_num REB_INTEGER).

Definition demo_parse_spec : list REBVAL → MKF → DS → Result Error locals :=
  parse_spec demo_kind_num false demo_STR_CANON demo_STR_SYMBOL demo_SYM_RETURN
    demo_SYM_LEAVE (λ _, false) (λ _, false) demo_Update_Typeset_Bits_Core
    (λ _ _, 77%N).

Definition demo_Make_Paramlist : list REBVAL → MKF → DS → outcome :=
  Make_Paramlist_Managed_May_Fail demo_kind_num false demo_STR_CANON demo_STR_SYMBOL
    demo_Canon demo_SYM_RETURN demo_SYM_LEAVE (λ _, false) (λ _, false)
    demo_Update_Typeset_Bits_Core (λ _ _, 77%N) 99%N.

Definition flags_RETURN : MKF := mk_MKF true false false false false.
Definition flags_NONE : MKF := mk_MKF false false false false false.

(** [[return: [integer!] x]] *)
Definition spec_S2 : list REBVAL :=
  [V_Any_Word REB_SET_WORD 10%N; V_Block (Array_At 8) 0; V_Any_Word REB_WORD 3%N].

(** [[a b]] *)
Definition spec_a_b : list REBVAL := [V_Any_Word REB_WORD 1%N; V_Any_Word REB_WORD 2%N].





(** The release build of the same builder. *)
Definition release_Make_Paramlist : list REBVAL → MKF → DS → outcome :=
  Make_Paramlist_Managed_May_Fail demo_kind_num true demo_STR_CANON demo_STR_SYMBOL
    demo_Canon demo_SYM_RETURN demo_SYM_LEAVE (λ _, false) (λ _, false)
    demo_Update_Typeset_Bits_Core (λ _ _, 77%N) 99%N.

(** The parameter words of a demo spec, without [MKF_KEYWORDS]. *)
Definition demo_word_canons (spec : list REBVAL) : list REBSTR :=
  map (VAL_WORD_CANON demo_STR_CANON)
    (spec_words (λ _, false) (λ _, false) false SPEC_MODE_NORMAL spec).

(** [[a a 5]] *)
Definition spec_a_a_5 : list REBVAL :=
  [V_Any_Word REB_WORD 1%N; V_Any_Word REB_WORD 1%N; V_Integer 5].

(** [[return: return]] *)
Definition spec_return_twice : list REBVAL :=
  [V_Any_Word REB_SET_WORD 10%N; V_Any_Word REB_WORD 10%N].

(** [[return return:]] *)
Definition spec_return_cancelled : list REBVAL :=
  [V_Any_Word REB_WORD 10%N; V_Any_Word REB_SET_WORD 10%N].


(** C9 as stated fails.  The spec [[a a 5]] has two parameters spelled
    [a], and the builder, release or debug, fails on the item [5] with
    a bad-function-definition error: the duplicate check comes after
    the whole spec has been gone through.  A debug build is stopped by
    an assert on the spec [[return: return]] (the second word finds the
    return slot already noted), and on [[return return:]] with the
    RETURN flag it is stopped by [assert(flags & MKF_RETURN)] between
    the two loops of the second pass, with the binder still holding the
    index of [return]. *)
Lemma duplicate_parameters_other_exits :
  (¬ NoDup (demo_word_canons spec_a_a_5)
   ∧ result (release_Make_Paramlist spec_a_a_5 flags_NONE [])
     = Fail (Error_Bad_Func_Def (V_Integer 5))
   ∧ result (demo_Make_Paramlist spec_a_a_5 flags_NONE [])
     = Fail (Error_Bad_Func_Def (V_Integer 5)))
  ∧ (¬ NoDup (demo_word_canons spec_return_twice)
     ∧ result (demo_Make_Paramlist spec_return_twice flags_NONE [])
       = Fail Assert_Violated)
  ∧ (¬ NoDup (demo_word_canons spec_return_cancelled)
     ∧ result (demo_Make_Paramlist spec_return_cancelled flags_RETURN [])
       = Fail Assert_Violated
     ∧ binder_after (demo_Make_Paramlist spec_return_cancelled flags_RETURN [])
         !! 10%N = Some 1020
     ∧ ∃ w, result (release_Make_Paramlist spec_return_cancelled flags_RETURN [])
            = Fail (Error_Dup_Vars w)).
Proof.
  assert (∀ l : list REBSTR, bool_decide (NoDup l) = false → ¬ NoDup l) as Hno.
  { intros l Hl Hnd. by rewrite (bool_decide_eq_true_2 _ Hnd) in Hl. }
  split_and!.
  - apply Hno. vm_compute. reflexivity.
  - vm_compute. reflexivity.
  - vm_compute. reflexivity.
  - apply Hno. vm_compute. reflexivity.
  - vm_compute. reflexivity.
  - apply Hno. vm_compute. reflexivity.
  - vm_compute. reflexivity.
  - vm_compute. reflexivity.
  - eexists. vm_compute. reflexivity.
Qed.

End Paramlist.

(* ================================================================== *)
(** * The symbol interner (c-word.c)                                   *)
(* ================================================================== *)

Module Interner.

(** A UTF-8 spelling: its bytes, each in 0..255. *)
Abbreviation utf8 := (list Z) (only parsing).

(** A slot of [PG_Canons_By_Hash]: [NULL], [DELETED_CANON] or a canon. *)
Inductive canon_slot : Type :=
| Slot_NULL
| Slot_DELETED
| Slot_Canon (canon : N).

#[global] Instance slot_eq_dec : EqDecision canon_slot.
Proof. solve_decision. Defined.

(** What c-word.c reads and writes in the series node of an interned
    string. *)
Record REBSER : Type := mk_REBSER {
  STR_HEAD : list Z;             (* the bytes, without the terminator *)
  STRING_INFO_CANON : bool;      (* info bit *)
  LINK_synonym : N;              (* LINK(s).synonym *)
  header_sym : Z;                (* SECOND_UINT16(s->header) *)
  MISC_bind_index : Z * Z;       (* MISC(s).bind_index.high / .low *)
  managed : bool                 (* NODE_FLAG_MANAGED *)
}.

(** The globals of the interner. *)
Record interner : Type := mk_interner {
  PG_Canons_By_Hash : list canon_slot;
  PG_Num_Canon_Slots_In_Use : Z;
  PG_Num_Canon_Deleteds : Z;     (* kept by debug builds *)
  series : gmap N REBSER
}.

Inductive Error : Type :=
| Error_Size_Limit (n : Z).

(** [static REBCNT const Primes[]], without the terminating 0. *)
Definition Primes : list Z :=
  [7; 13; 31; 61; 127; 251; 509; 1021; 2039; 4093; 8191; 16381; 32749;
   65521; 131071; 262139; 524287; 1048573; 2097143; 4194301; 8388593;
   16777213; 33554393; 67108859; 134217689; 268435399; 536870909;
   1073741789; 2147483647; 4294967291].

(** The loop of [Get_Hash_Prime]: the first prime that is not smaller
    than [size], or the terminating 0. *)
Fixpoint first_prime_from (primes : list Z) (size : Z) : Z :=
  match primes with
  | [] => 0
  | p :: primes' => if size >? p then first_prime_from primes' size else p
  end.

(** [REBINT Get_Hash_Prime(REBCNT size)].  The typedefs of [REBINT] and
    [REBCNT] are in a header outside the excerpt; both are taken as 32
    bits wide.  The width bears on the answer only for a size above
    2147483647 (see [Get_Hash_Prime_in]). *)
Definition Get_Hash_Prime (size : Z) : Z := to_int32 (first_prime_from Primes size).


(** [slot += skip; if (slot >= num_slots) slot -= num_slots;] on [REBCNT]. *)
Definition next_slot (num_slots skip slot : Z) : Z :=
  let s := wrap32 (slot + skip) in
  if s >=? num_slots then wrap32 (s - num_slots) else s.

(** The slot reached after [k] steps of the probe. *)
Fixpoint nth_probe (num_slots skip slot : Z) (k : nat) : Z :=
  match k with
  | O => slot
  | S k' => nth_probe num_slots skip (next_slot num_slots skip slot) k'
  end.

Definition slot_at (table : list canon_slot) (i : Z) : option canon_slot :=
  if i <? 0 then None else table !! Z.to_nat i.

Definition set_slot (table : list canon_slot) (i : Z) (s : canon_slot) : list canon_slot :=
  <[Z.to_nat i := s]> table.

Definition SER_LEN (table : list canon_slot) : Z := Z.of_nat (length table).

(** How the probe loop of [Intern_UTF8_Managed] ends. *)
Inductive probe_end : Type :=
| Probe_Found (s : N)                             (* return canon / synonym *)
| Probe_New_Synonym (canon : N)                   (* goto new_interning *)
| Probe_Vacant (slot : Z) (deleted_slot : option Z).  (* loop exit, canon NULL *)

Section Interning.

(** The hash of a spelling ([Hash_UTF8]; [Hash_String(s)] is the hash of
    the bytes of [s]), the first slot and the skip for a hash, and the
    comparison of two spellings, all from headers outside the excerpt.
    [Compare_UTF8] is 0 for an exact match, positive for a match up to
    case and negative otherwise. *)
Variable Hash_UTF8 : list Z → Z.
Variable First_Hash_Candidate_Slot : Z → Z → Z * Z.
Variable Compare_UTF8 : list Z → list Z → Z.

(** The numbers of the words [blank!], [true] and [open] in the
    generated symbol table. *)
Variable SYM_BLANK_X : Z.
Variable SYM_TRUE : Z.
Variable SYM_OPEN : Z.

(** The walk over the synonyms of [canon], from [synonym]: the synonym
    spelled [bytes] if there is one. *)
Fixpoint walk_synonyms (fuel : nat) (mem : gmap N REBSER) (bytes : list Z)
    (canon synonym : N) : option (option N) :=
  match fuel with
  | O => None
  | S fuel' =>
      if (synonym =? canon)%N then Some None
      else
        match mem !! synonym with
        | None => None
        | Some node =>
            if Compare_UTF8 (STR_HEAD node) bytes =? 0 then Some (Some synonym)
            else walk_synonyms fuel' mem bytes canon (LINK_synonym node)
        end
  end.

(** [while ((canon = canons_by_hash[slot])) { ... }] *)
Fixpoint probe (fuel : nat) (st : interner) (bytes : list Z)
    (skip slot : Z) (deleted_slot : option Z) : option probe_end :=
  match fuel with
  | O => None
  | S fuel' =>
      let table := PG_Canons_By_Hash st in
      match slot_at table slot with
      | None => None
      | Some Slot_NULL => Some (Probe_Vacant slot deleted_slot)
      | Some Slot_DELETED =>
          probe fuel' st bytes skip (next_slot (SER_LEN table) skip slot) (Some slot)
      | Some (Slot_Canon canon) =>
          match series st !! canon with
          | None => None
          | Some node =>
              let cmp := Compare_UTF8 (STR_HEAD node) bytes in
              if cmp =? 0 then Some (Probe_Found canon)
              else if cmp <? 0
              then probe fuel' st bytes skip
                     (next_slot (SER_LEN table) skip slot) deleted_slot
              else
                match walk_synonyms fuel (series st) bytes canon (LINK_synonym node) with
                | None => None
                | Some (Some synonym) => Some (Probe_Found synonym)
                | Some None => Some (Probe_New_Synonym canon)
                end
          end
      end
  end.

(** [while (new_canons_by_hash[slot]) { slot += skip; ... }] *)
Fixpoint rehash_probe (fuel : nat) (new_table : list canon_slot) (skip slot : Z)
  : option Z :=
  match fuel with
  | O => None
  | S fuel' =>
      match slot_at new_table slot with
      | None => None
      | Some Slot_NULL => Some slot
      | Some _ =>
          rehash_probe fuel' new_table skip (next_slot (SER_LEN new_table) skip slot)
      end
  end.

(** The rehash loop of [Expand_Word_Table] over the old slots; the
    accumulator is the new table and the two counters. *)
Fixpoint rehash (fuel : nat) (mem : gmap N REBSER) (old_slots : list canon_slot)
    (new_table : list canon_slot) (in_use deleteds : Z)
  : option (list canon_slot * Z * Z) :=
  match old_slots with
  | [] => Some (new_table, in_use, deleteds)
  | Slot_NULL :: old_slots' => rehash fuel mem old_slots' new_table in_use deleteds
  | Slot_DELETED :: old_slots' =>
      rehash fuel mem old_slots' new_table (in_use - 1) (deleteds - 1)
  | Slot_Canon canon :: old_slots' =>
      match mem !! canon with
      | None => None
      | Some node =>
          let '(slot, skip) :=
            First_Hash_Candidate_Slot (Hash_UTF8 (STR_HEAD node)) (SER_LEN new_table) in
          match rehash_probe fuel new_table skip slot with
          | None => None
          | Some slot' =>
              rehash fuel mem old_slots' (set_slot new_table slot' (Slot_Canon canon))
                in_use deleteds
          end
      end
  end.

(** [Expand_Word_Table] *)
Definition Expand_Word_Table (fuel : nat) (st : interner)
  : option (Result Error interner) :=
  let old_num_slots := SER_LEN (PG_Canons_By_Hash st) in
  let num_slots := wrap32 (Get_Hash_Prime (wrap32 (old_num_slots + 1))) in
  if num_slots =? 0 then Some (Fail (Error_Size_Limit (wrap32 (old_num_slots + 1))))
  else
    match rehash fuel (series st) (PG_Canons_By_Hash st)
            (replicate (Z.to_nat num_slots) Slot_NULL)
            (PG_Num_Canon_Slots_In_Use st) (PG_Num_Canon_Deleteds st) with
    | None => None
    | Some (new_table, in_use, deleteds) =>
        Some (Ok (mk_interner new_table in_use deleteds (series st)))
    end.

(** [Make_Ser_Core]: the node handed out is one that is not in use. *)
Definition Make_Ser_Core (mem : gmap N REBSER) : N := fresh (dom mem).

(** [Intern_UTF8_Managed] *)
Definition Intern_UTF8_Managed (fuel : nat) (st : interner) (bytes : list Z)
  : option (Result Error (N * interner)) :=
  let expanded :=
    if PG_Num_Canon_Slots_In_Use st >? SER_LEN (PG_Canons_By_Hash st) / 2
    then Expand_Word_Table fuel st
    else Some (Ok st) in
  match expanded with
  | None => None
  | Some (Fail e) => Some (Fail e)
  | Some (Ok st1) =>
      let table := PG_Canons_By_Hash st1 in
      let num_slots := SER_LEN table in
      let '(slot, skip) := First_Hash_Candidate_Slot (Hash_UTF8 bytes) num_slots in
      match probe fuel st1 bytes skip slot None with
      | None => None
      | Some (Probe_Found s) => Some (Ok (s, st1))
      | Some (Probe_Vacant slot' deleted_slot) =>
          (* no canon found, so this interning must become canon *)
          let intern := Make_Ser_Core (series st1) in
          let node := mk_REBSER bytes true intern 0 (0, 0) true in
          let '(table', in_use, deleteds) :=
            match deleted_slot with
            | Some d =>
                (set_slot table d (Slot_Canon intern),
                 PG_Num_Canon_Slots_In_Use st1, PG_Num_Canon_Deleteds st1 - 1)
            | None =>
                (set_slot table slot' (Slot_Canon intern),
                 PG_Num_Canon_Slots_In_Use st1 + 1, PG_Num_Canon_Deleteds st1)
            end in
          Some (Ok (intern,
                    mk_interner table' in_use deleteds (<[intern := node]> (series st1))))
      | Some (Probe_New_Synonym canon) =>
          (* a synonym for an existing canon: link it into the ring *)
          match series st1 !! canon with
          | None => None
          | Some cnode =>
              let intern := Make_Ser_Core (series st1) in
              let node :=
                mk_REBSER bytes false (LINK_synonym cnode) (header_sym cnode) (0, 0) true in
              let cnode' :=
                mk_REBSER (STR_HEAD cnode) (STRING_INFO_CANON cnode) intern
                  (header_sym cnode) (MISC_bind_index cnode) (managed cnode) in
              Some (Ok (intern,
                        mk_interner table (PG_Num_Canon_Slots_In_Use st1)
                          (PG_Num_Canon_Deleteds st1)
                          (<[canon := cnode']> (<[intern := node]> (series st1)))))
          end
      end
  end.

(** Modelled from the spec: [STR_CANON] and [STR_SYMBOL] are accessors of
    a header outside the excerpt. "canon(sym) returns the canonical
    member of its case-insensitive class"; a synonym only records its
    link into the ring, so the canon is found by following the ring up
    to the node with the CANON bit. The symbol number is the one
    embedded in the header. *)
Fixpoint STR_CANON (fuel : nat) (mem : gmap N REBSER) (s : N) : option N :=
  match fuel with
  | O => None
  | S fuel' =>
      match mem !! s with
      | None => None
      | Some node =>
          if STRING_INFO_CANON node then Some s
          else STR_CANON fuel' mem (LINK_synonym node)
      end
  end.

Definition STR_SYMBOL (mem : gmap N REBSER) (s : N) : option Z :=
  header_sym <$> mem !! s.

(** The walk of [GC_Kill_Interning] to the node whose link is [intern]
    ([while (LINK(temp).synonym != intern) temp = LINK(temp).synonym;]). *)
Fixpoint find_predecessor (fuel : nat) (mem : gmap N REBSER) (intern temp : N)
  : option N :=
  match fuel with
  | O => None
  | S fuel' =>
      match mem !! temp with
      | None => None
      | Some node =>
          if (LINK_synonym node =? intern)%N then Some temp
          else find_predecessor fuel' mem intern (LINK_synonym node)
      end
  end.

(** [while (canons_by_hash[slot] != intern) { slot += skip; ... }] *)
Fixpoint find_slot (fuel : nat) (table : list canon_slot) (intern : N) (skip slot : Z)
  : option Z :=
  match fuel with
  | O => None
  | S fuel' =>
      match slot_at table slot with
      | None => None
      | Some s =>
          if decide (s = Slot_Canon intern) then Some slot
          else find_slot fuel' table intern skip (next_slot (SER_LEN table) skip slot)
      end
  end.

(** The "ripple" loop:
    [while (canons_by_hash[slot]) {
       slot += skip; if (slot >= num_slots) slot -= num_slots;
       canons_by_hash[previous_slot] = canons_by_hash[slot]; }] *)
Fixpoint ripple (fuel : nat) (table : list canon_slot) (skip previous_slot slot : Z)
  : option (list canon_slot) :=
  match fuel with
  | O => None
  | S fuel' =>
      match slot_at table slot with
      | None => None
      | Some Slot_NULL => Some table
      | Some _ =>
          let slot' := next_slot (SER_LEN table) skip slot in
          match slot_at table slot' with
          | None => None
          | Some moved => ripple fuel' (set_slot table previous_slot moved) skip previous_slot slot'
          end
      end
  end.

Definition set_link (node : REBSER) (synonym : N) : REBSER :=
  mk_REBSER (STR_HEAD node) (STRING_INFO_CANON node) synonym (header_sym node)
    (MISC_bind_index node) (managed node).

Definition promote (node : REBSER) : REBSER :=
  mk_REBSER (STR_HEAD node) true (LINK_synonym node) (header_sym node) (0, 0)
    (managed node).

Definition set_sym (node : REBSER) (sym : Z) : REBSER :=
  mk_REBSER (STR_HEAD node) (STRING_INFO_CANON node) (LINK_synonym node)
    (sym mod 2 ^ 16) (MISC_bind_index node) (managed node).

(** [GC_Kill_Interning]; [None] when the routine gives no state back:
    a loop does not end within the fuel, a link leaves the store, or
    one of [assert(MISC(intern).bind_index.high == 0)] and
    [assert(MISC(intern).bind_index.low == 0)] is violated. *)
Definition GC_Kill_Interning (fuel : nat) (st : interner) (intern : N)
  : option interner :=
  match series st !! intern with
  | None => None
  | Some inode =>
      let synonym := LINK_synonym inode in
      match find_predecessor fuel (series st) intern synonym with
      | None => None
      | Some temp =>
          match series st !! temp with
          | None => None
          | Some tnode =>
              (* cut intern out of chain (or no-op) *)
              let mem1 := <[temp := set_link tnode synonym]> (series st) in
              if negb (STRING_INFO_CANON inode)
              then Some (mk_interner (PG_Canons_By_Hash st)
                           (PG_Num_Canon_Slots_In_Use st) (PG_Num_Canon_Deleteds st) mem1)
              else if negb (((MISC_bind_index inode).1 =? 0)
                            && ((MISC_bind_index inode).2 =? 0))
              then None
              else
                let table := PG_Canons_By_Hash st in
                let '(slot0, skip) :=
                  First_Hash_Candidate_Slot (Hash_UTF8 (STR_HEAD inode)) (SER_LEN table) in
                match find_slot fuel table intern skip slot0 with
                | None => None
                | Some slot =>
                    if negb (synonym =? intern)%N then
                      match mem1 !! synonym with
                      | None => None
                      | Some snode =>
                          Some (mk_interner (set_slot table slot (Slot_Canon synonym))
                                  (PG_Num_Canon_Slots_In_Use st)
                                  (PG_Num_Canon_Deleteds st)
                                  (<[synonym := promote snode]> mem1))
                      end
                    else
                      match ripple fuel table skip slot slot with
                      | None => None
                      | Some table' =>
                          Some (mk_interner (set_slot table' slot Slot_DELETED)
                                  (PG_Num_Canon_Slots_In_Use st)
                                  (PG_Num_Canon_Deleteds st + 1) mem1)
                      end
                end
          end
      end
  end.

(** Modelled from the spec: [SAME_SYM_NONZERO] is a macro of a header
    outside the excerpt; after its name and "symbol 0 is reserved", it
    holds of two symbol numbers that are the same and not [SYM_0]. *)
Definition SAME_SYM_NONZERO (a b : Z) : bool := (a =? b) && negb (a =? 0).

(** The [do { ... } while (name != canon)] loop of [Startup_Symbols]:
    every member of the ring of [canon] gets [sym] in its header.
    [None] when the loop gives no store back: it does not end within
    the fuel, a link leaves the store, or one of
    [assert(SECOND_UINT16(name->header) == 0)] and
    [assert(SAME_SYM_NONZERO(STR_SYMBOL(name), sym))] is violated. *)
Fixpoint tag_ring (fuel : nat) (mem : gmap N REBSER) (canon name : N) (sym : Z)
  : option (gmap N REBSER) :=
  match fuel with
  | O => None
  | S fuel' =>
      match mem !! name with
      | None => None
      | Some node =>
          if negb (header_sym node =? 0) then None
          else if negb (SAME_SYM_NONZERO (header_sym (set_sym node sym)) sym) then None
          else
            let mem' := <[name := set_sym node sym]> mem in
            if (LINK_synonym node =? canon)%N then Some mem'
            else tag_ring fuel' mem' canon (LINK_synonym node) sym
      end
  end.

(** [Startup_Symbols]: [words] are the stored canons of the words of
    %words.r; the result is the tagged series and [PG_Symbol_Canons],
    which has one slot per word after the trash slot 0. The terminating
    [NULL] is written at index [sym], over the slot of the last word. *)
Fixpoint Startup_Symbols_loop (fuel : nat) (mem : gmap N REBSER) (words : list N)
    (sym : Z) (symbol_canons : list (option N))
  : option (gmap N REBSER * list (option N)) :=
  match words with
  | [] => Some (mem, <[Z.to_nat sym := None]> symbol_canons)
  | canon :: words' =>
      match tag_ring fuel mem canon canon (sym + 1) with
      | None => None
      | Some mem' =>
          Startup_Symbols_loop fuel mem' words' (sym + 1)
            (<[Z.to_nat (sym + 1) := Some canon]> symbol_canons)
      end
  end.

(** Modelled from the spec: [Canon(sym)] is a macro of a header outside
    the excerpt; it reads the "table for mapping from SYM_XXX => REBSTR
    series" that [Startup_Symbols] fills, [PG_Symbol_Canons]. *)
Definition Canon (symbol_canons : list (option N)) (sym : Z) : option N :=
  if sym <? 0 then None else mjoin (symbol_canons !! Z.to_nat sym).

(** The bytes of a C string up to its terminator, as [strcmp] reads
    them. *)
Fixpoint c_str (bytes : list Z) : list Z :=
  match bytes with
  | [] => []
  | b :: bytes' => if b =? 0 then [] else b :: c_str bytes'
  end.

(** The spellings the sanity checks of [Startup_Symbols] look for. *)
Definition name_blank_x : list Z := [98; 108; 97; 110; 107; 33].
Definition name_true : list Z := [116; 114; 117; 101].
Definition name_open : list Z := [111; 112; 101; 110].

(** [panic (Canon(SYM_XXX))] *)
Inductive Panic : Type :=
| Panic_Canon (canon : N).

(** [if (0 != strcmp(name, STR_HEAD(Canon(sym)))) panic (Canon(sym));]
    followed by [next]; [None] when [Canon(sym)] is [NULL] or not in the
    store. *)
Definition sanity_check {A : Type} (mem : gmap N REBSER)
    (symbol_canons : list (option N)) (sym : Z) (name : list Z)
    (next : option (Result Panic A)) : option (Result Panic A) :=
  match Canon symbol_canons sym with
  | None => None
  | Some canon =>
      match mem !! canon with
      | None => None
      | Some node =>
          if bool_decide (c_str (STR_HEAD node) = name) then next
          else Some (Fail (Panic_Canon canon))
      end
  end.

(** [Startup_Symbols]; it returns, panics in one of its three sanity
    checks, or gives nothing ([None], as for [tag_ring]). *)
Definition Startup_Symbols (fuel : nat) (st : interner) (words : list N)
  : option (Result Panic (interner * list (option N))) :=
  match Startup_Symbols_loop fuel (series st) words 0
          (replicate (1 + length words) None) with
  | None => None
  | Some (mem, symbol_canons) =>
      sanity_check mem symbol_canons SYM_BLANK_X name_blank_x
        (sanity_check mem symbol_canons SYM_TRUE name_true
           (sanity_check mem symbol_canons SYM_OPEN name_open
              (Some (Ok (mk_interner (PG_Canons_By_Hash st)
                           (PG_Num_Canon_Slots_In_Use st)
                           (PG_Num_Canon_Deleteds st) mem, symbol_canons)))))
  end.

(** [Startup_Interning]; [n] is the initial number of slots (a prime in
    release builds, 1 in debug builds). *)
Definition Startup_Interning (n : Z) : interner :=
  mk_interner (replicate (Z.to_nat n) Slot_NULL) 0 0 ∅.

(* ------------------------------------------------------------------ *)
(** ** What the callers rely on, and well-formed interner states       *)
(* ------------------------------------------------------------------ *)

(** Two spellings are the same up to case when [Compare_UTF8] does not
    answer "no match". *)
Definition ci_equal (s t : list Z) : Prop := 0 ≤ Compare_UTF8 s t.

(** The sizes the table takes: 1 (debug builds start there) or one of
    [Primes]; the largest prime is left out because [slot + skip] can
    wrap around in a [REBCNT] there. *)
Definition table_size (n : Z) : Prop := (n = 1 ∨ n ∈ Primes) ∧ n < 2 ^ 31.

Hypothesis Compare_exact : ∀ s t, Compare_UTF8 s t = 0 ↔ s = t.
Hypothesis ci_equal_sym : ∀ s t, ci_equal s t → ci_equal t s.
Hypothesis ci_equal_trans : ∀ s t u, ci_equal s t → ci_equal t u → ci_equal s u.
Hypothesis Hash_ci : ∀ s t, ci_equal s t → Hash_UTF8 s = Hash_UTF8 t.
Hypothesis slot_range :
  ∀ h n, 0 < n → 0 ≤ (First_Hash_Candidate_Slot h n).1 < n.
Hypothesis skip_range :
  ∀ h n, 0 < n → 0 < (First_Hash_Candidate_Slot h n).2 ≤ n.
(** "For the hash search to be guaranteed to terminate": at a table
    size, the probe from any hash visits every slot. *)
Hypothesis probe_cover :
  ∀ h n t, table_size n → 0 ≤ t < n →
    ∃ k, (k < Z.to_nat n)%nat
         ∧ nth_probe n (First_Hash_Candidate_Slot h n).2
             (First_Hash_Candidate_Slot h n).1 k = t.

Definition slot_canon (s : canon_slot) : option N :=
  match s with Slot_Canon c => Some c | _ => None end.

(** The canons the table indexes, in slot order. *)
Definition canons (table : list canon_slot) : list N := omap slot_canon table.

(** Slots in use: live canons plus tombstones. *)
Definition occupied (table : list canon_slot) : nat :=
  length (filter (λ s, s ≠ Slot_NULL) table).

Definition tombstones (table : list canon_slot) : nat :=
  length (filter (λ s, s = Slot_DELETED) table).

(** The probe for hash [h] gets to slot [i] without meeting a [NULL]. *)
Definition reaches (table : list canon_slot) (h i : Z) : Prop :=
  let n := SER_LEN table in
  let slot := (First_Hash_Candidate_Slot h n).1 in
  let skip := (First_Hash_Candidate_Slot h n).2 in
  ∃ k, (k < Z.to_nat n)%nat ∧ nth_probe n skip slot k = i
       ∧ ∀ j, (j < k)%nat → slot_at table (nth_probe n skip slot j) ≠ Some Slot_NULL.

(** Following [LINK(s).synonym] from each member of [l] gives the next
    member, and [back] from the last one. *)
Fixpoint linked (mem : gmap N REBSER) (l : list N) (back : N) : Prop :=
  match l with
  | [] => True
  | x :: l' =>
      (∃ node, mem !! x = Some node ∧ LINK_synonym node = hd back l')
      ∧ linked mem l' back
  end.

(** The synonym ring of the canon [c]: [c], then [syns] in link order,
    then [c] again.  The synonyms are differently-cased spellings of
    [c], not flagged canon, pairwise distinct, and carry the symbol
    number of [c]. *)
Record ring (mem : gmap N REBSER) (c : N) (syns : list N) : Prop := mk_ring {
  ring_linked : linked mem (c :: syns) c;
  ring_NoDup : NoDup (c :: syns);
  ring_canon : ∃ node, mem !! c = Some node ∧ STRING_INFO_CANON node = true;
  ring_syns : ∀ s, s ∈ syns →
      ∃ node cnode, mem !! s = Some node ∧ mem !! c = Some cnode
        ∧ STRING_INFO_CANON node = false
        ∧ ci_equal (STR_HEAD cnode) (STR_HEAD node)
        ∧ header_sym node = header_sym cnode;
  ring_spellings : ∀ a b na nb, a ∈ c :: syns → b ∈ c :: syns →
      mem !! a = Some na → mem !! b = Some nb →
      STR_HEAD na = STR_HEAD nb → a = b
}.

Record WF (st : interner) : Prop := mk_WF {
  wf_size : table_size (SER_LEN (PG_Canons_By_Hash st));
  wf_in_use :
    PG_Num_Canon_Slots_In_Use st = Z.of_nat (occupied (PG_Canons_By_Hash st));
  wf_NoDup : NoDup (canons (PG_Canons_By_Hash st));
  wf_ring : ∀ c, c ∈ canons (PG_Canons_By_Hash st) → ∃ syns, ring (series st) c syns;
  wf_class : ∀ c c' node node',
      c ∈ canons (PG_Canons_By_Hash st) → c' ∈ canons (PG_Canons_By_Hash st) →
      series st !! c = Some node → series st !! c' = Some node' →
      ci_equal (STR_HEAD node) (STR_HEAD node') → c = c';
  wf_reach : ∀ c node,
      c ∈ canons (PG_Canons_By_Hash st) → series st !! c = Some node →
      ∃ i, slot_at (PG_Canons_By_Hash st) i = Some (Slot_Canon c)
           ∧ reaches (PG_Canons_By_Hash st) (Hash_UTF8 (STR_HEAD node)) i
}.


(** [a] is an interned symbol spelled [bytes], in the ring of canon [c]. *)
Definition registered (st : interner) (a : N) (bytes : list Z) (c : N) : Prop :=
  c ∈ canons (PG_Canons_By_Hash st)
  ∧ ∃ syns node, ring (series st) c syns ∧ a ∈ c :: syns
      ∧ series st !! a = Some node ∧ STR_HEAD node = bytes.

(* ------------------------------------------------------------------ *)
(** ** Probing                                                         *)
(* ------------------------------------------------------------------ *)

Lemma ci_equal_refl s : ci_equal s s.
Proof. unfold ci_equal. by rewrite (proj2 (Compare_exact s s) eq_refl). Qed.

Lemma next_slot_small n skip slot :
  n ≤ 2 ^ 31 → 0 ≤ slot < n → 0 < skip ≤ n →
  next_slot n skip slot
  = if slot + skip >=? n then slot + skip - n else slot + skip.
Proof.
  intros Hn Hslot Hskip. unfold next_slot, wrap32.
  rewrite (Z.mod_small (slot + skip)) by lia.
  destruct (slot + skip >=? n) eqn:Hge; [|reflexivity].
  apply Z.mod_small. lia.
Qed.

Lemma next_slot_range n skip slot :
  n ≤ 2 ^ 31 → 0 ≤ slot < n → 0 < skip ≤ n → 0 ≤ next_slot n skip slot < n.
Proof.
  intros Hn Hslot Hskip. rewrite next_slot_small by done.
  destruct (slot + skip >=? n) eqn:Hge; lia.
Qed.

Lemma nth_probe_S n skip slot k :
  nth_probe n skip slot (S k) = next_slot n skip (nth_probe n skip slot k).
Proof. revert slot. induction k as [|k IH]; intros slot; [reflexivity|]. simpl. apply IH. Qed.

Lemma nth_probe_range n skip slot k :
  n ≤ 2 ^ 31 → 0 ≤ slot < n → 0 < skip ≤ n → 0 ≤ nth_probe n skip slot k < n.
Proof.
  intros Hn Hslot Hskip. induction k as [|k IH]; [exact Hslot|].
  rewrite nth_probe_S. by apply next_slot_range.
Qed.

Lemma table_size_pos n : table_size n → 0 < n ≤ 2 ^ 31.
Proof.
  intros [[->|Hin] Hlt]; [lia|]. split; [|lia].
  unfold Primes in Hin. repeat (apply elem_of_cons in Hin as [->|Hin]; [lia|]).
  by apply elem_of_nil in Hin.
Qed.

Lemma slot_at_Some table i s :
  slot_at table i = Some s ↔ 0 ≤ i ∧ table !! Z.to_nat i = Some s.
Proof.
  unfold slot_at. destruct (i <? 0) eqn:Hi; [|split; [intros; split; [lia|done]|tauto]].
  split; [discriminate|lia].
Qed.

Lemma slot_at_range table i s : slot_at table i = Some s → 0 ≤ i < SER_LEN table.
Proof.
  intros [Hi Hl]%slot_at_Some. apply lookup_lt_Some in Hl. unfold SER_LEN. lia.
Qed.

Lemma slot_at_is_Some table i : 0 ≤ i < SER_LEN table → is_Some (slot_at table i).
Proof.
  intros Hi. unfold slot_at. destruct (i <? 0) eqn:Hneg; [lia|].
  apply lookup_lt_is_Some. unfold SER_LEN in Hi. lia.
Qed.

Lemma SER_LEN_set_slot table i s : SER_LEN (set_slot table i s) = SER_LEN table.
Proof. unfold SER_LEN, set_slot. by rewrite length_insert. Qed.

Lemma slot_at_set_slot_eq table i s :
  0 ≤ i < SER_LEN table → slot_at (set_slot table i s) i = Some s.
Proof.
  intros Hi. apply slot_at_Some. split; [lia|].
  unfold set_slot. apply list_lookup_insert_eq. unfold SER_LEN in Hi. lia.
Qed.

Lemma slot_at_set_slot_ne table i j s :
  0 ≤ i → i ≠ j → slot_at (set_slot table i s) j = slot_at table j.
Proof.
  intros Hi Hne. unfold slot_at, set_slot. destruct (j <? 0) eqn:Hj; [reflexivity|].
  apply list_lookup_insert_ne. lia.
Qed.

Lemma elem_of_canons table c :
  c ∈ canons table ↔ ∃ i, slot_at table i = Some (Slot_Canon c).
Proof.
  unfold canons. rewrite list_elem_of_omap. split.
  - intros (s & Hin & Hs). destruct s; try discriminate. injection Hs as ->.
    apply list_elem_of_lookup in Hin as [i Hi]. exists (Z.of_nat i).
    apply slot_at_Some. split; [lia|]. by rewrite Nat2Z.id.
  - intros (i & [Hi Hl]%slot_at_Some). exists (Slot_Canon c). split; [|done].
    by apply list_elem_of_lookup_2 in Hl.
Qed.

Lemma set_slot_split table i old s :
  slot_at table i = Some old →
  ∃ pre post, table = pre ++ old :: post ∧ set_slot table i s = pre ++ s :: post.
Proof.
  intros [Hi Hl]%slot_at_Some.
  exists (take (Z.to_nat i) table), (drop (S (Z.to_nat i)) table). split.
  - symmetry. by apply take_drop_middle.
  - unfold set_slot. apply insert_take_drop. by apply lookup_lt_Some in Hl.
Qed.

Lemma canons_set_canon table i old c :
  slot_at table i = Some old → slot_canon old = None →
  canons (set_slot table i (Slot_Canon c)) ≡ₚ c :: canons table.
Proof.
  intros Hat Hold. destruct (set_slot_split table i old (Slot_Canon c) Hat)
    as (pre & post & -> & ->).
  unfold canons. rewrite !omap_app. simpl. rewrite Hold.
  symmetry. apply Permutation_middle.
Qed.

Lemma canons_set_other table i c s :
  slot_at table i = Some (Slot_Canon c) → slot_canon s = None →
  c :: canons (set_slot table i s) ≡ₚ canons table.
Proof.
  intros Hat Hs. destruct (set_slot_split table i _ s Hat) as (pre & post & -> & ->).
  unfold canons. rewrite !omap_app. simpl. rewrite Hs.
  apply Permutation_middle.
Qed.

Lemma occupied_set_slot table i old s :
  slot_at table i = Some old →
  (occupied (set_slot table i s) + (if decide (old ≠ Slot_NULL) then 1 else 0)
   = occupied table + (if decide (s ≠ Slot_NULL) then 1 else 0))%nat.
Proof.
  intros Hat. destruct (set_slot_split table i old s Hat) as (pre & post & -> & ->).
  unfold occupied. rewrite !filter_app, !filter_cons, !length_app.
  do 2 case_decide; simpl; lia.
Qed.

Lemma tombstones_set_slot table i old s :
  slot_at table i = Some old →
  (tombstones (set_slot table i s) + (if decide (old = Slot_DELETED) then 1 else 0)
   = tombstones table + (if decide (s = Slot_DELETED) then 1 else 0))%nat.
Proof.
  intros Hat. destruct (set_slot_split table i old s Hat) as (pre & post & -> & ->).
  unfold tombstones. rewrite !filter_app, !filter_cons, !length_app.
  do 2 case_decide; simpl; lia.
Qed.

Lemma occupied_le table : (occupied table ≤ length table)%nat.
Proof. apply length_filter. Qed.

(** A table that is not full has a [NULL] slot. *)
Lemma exists_NULL table :
  (occupied table < length table)%nat →
  ∃ i, slot_at table i = Some Slot_NULL.
Proof.
  unfold occupied. induction table as [|s table IH]; simpl; [lia|].
  rewrite filter_cons. destruct (decide (s ≠ Slot_NULL)) as [Hs|Hs]; simpl.
  - intros Hlt. destruct IH as [i Hi]; [lia|].
    apply slot_at_Some in Hi as [Hi0 Hi]. exists (i + 1).
    apply slot_at_Some. split; [lia|].
    replace (Z.to_nat (i + 1)) with (S (Z.to_nat i)) by lia. exact Hi.
  - intros _. exists 0. apply dec_stable in Hs. by subst s.
Qed.

Lemma occupied_replicate n : occupied (replicate n Slot_NULL) = 0%nat.
Proof.
  unfold occupied. induction n as [|n IH]; [reflexivity|].
  simpl. rewrite filter_cons. by rewrite decide_False by (intros H; by apply H).
Qed.

Lemma canons_replicate n : canons (replicate n Slot_NULL) = [].
Proof. unfold canons. induction n as [|n IH]; [reflexivity|]. simpl. exact IH. Qed.

(* ------------------------------------------------------------------ *)
(** ** Synonym rings                                                   *)
(* ------------------------------------------------------------------ *)

Lemma linked_app mem l1 l2 back : linked mem (l1 ++ l2) back → linked mem l2 back.
Proof. induction l1 as [|x l1 IH]; [done|]. intros [_ H]. by apply IH. Qed.

Lemma linked_lookup mem l back x : linked mem l back → x ∈ l → is_Some (mem !! x).
Proof.
  induction l as [|y l IH]; intros Hl Hin; [by apply elem_of_nil in Hin|].
  destruct Hl as [(node & Hnode & _) Hl].
  apply elem_of_cons in Hin as [->|Hin]; [by exists node|by apply IH].
Qed.

Lemma NoDup_length_le_size (mem : gmap N REBSER) (l : list N) :
  NoDup l → (∀ x, x ∈ l → is_Some (mem !! x)) → (length l ≤ size mem)%nat.
Proof.
  intros Hnd Hin. rewrite <- (size_list_to_set (C:=gset N) l Hnd), <- size_dom.
  apply subseteq_size. intros x Hx. apply elem_of_list_to_set in Hx.
  by apply elem_of_dom, Hin.
Qed.

Lemma ring_length mem c syns : ring mem c syns → (length syns < size mem)%nat.
Proof.
  intros [Hl Hnd _ _ _].
  pose proof (NoDup_length_le_size mem (c :: syns) Hnd
                (λ x, linked_lookup mem _ c x Hl)) as Hle.
  simpl in Hle. lia.
Qed.

(** The walk over the synonyms finds the member spelled [bytes], or
    tells that there is none. *)
Lemma walk_synonyms_spec mem bytes c l :
  ∀ fuel, linked mem l c → c ∉ l → (length l < fuel)%nat →
    (∃ x nx, x ∈ l ∧ mem !! x = Some nx ∧ STR_HEAD nx = bytes
             ∧ walk_synonyms fuel mem bytes c (hd c l) = Some (Some x))
    ∨ ((∀ x nx, x ∈ l → mem !! x = Some nx → STR_HEAD nx ≠ bytes)
       ∧ walk_synonyms fuel mem bytes c (hd c l) = Some None).
Proof.
  induction l as [|y l IH]; intros fuel Hl Hc Hfuel.
  - right. split; [intros x nx Hx; by apply elem_of_nil in Hx|].
    destruct fuel; [simpl in Hfuel; lia|]. simpl. by rewrite N.eqb_refl.
  - destruct fuel as [|fuel]; [simpl in Hfuel; lia|].
    destruct Hl as [(node & Hnode & Hlink) Hl]. simpl.
    assert (y ≠ c) as Hyc by (intros ->; apply Hc; by left).
    rewrite (proj2 (N.eqb_neq y c) Hyc), Hnode.
    destruct (Compare_UTF8 (STR_HEAD node) bytes =? 0) eqn:Hcmp.
    + left. exists y, node. repeat split; [by left|done|].
      by apply Compare_exact, Z.eqb_eq.
    + rewrite Hlink.
      destruct (IH fuel Hl) as [(x & nx & Hx & Hnx & Hb & Hw)|[Hnone Hw]].
      * intros Hin. apply Hc. by right.
      * simpl in Hfuel. lia.
      * left. exists x, nx. repeat split; [by right|done|done|done].
      * right. split; [|done]. intros x nx [->|Hx]%elem_of_cons Hnx.
        -- rewrite Hnode in Hnx. injection Hnx as <-.
           intros Heq. apply Compare_exact in Heq. rewrite Heq in Hcmp. discriminate.
        -- by apply (Hnone x nx).
Qed.

Lemma STR_CANON_linked mem c l :
  ∀ fuel, linked mem l c →
    (∀ x nx, x ∈ l → mem !! x = Some nx → STRING_INFO_CANON nx = false) →
    (∃ nc, mem !! c = Some nc ∧ STRING_INFO_CANON nc = true) →
    (length l < fuel)%nat →
    STR_CANON fuel mem (hd c l) = Some c.
Proof.
  induction l as [|y l IH]; intros fuel Hl Hsyn (nc & Hnc & Hflag) Hfuel.
  - destruct fuel; [simpl in Hfuel; lia|]. simpl. by rewrite Hnc, Hflag.
  - destruct fuel as [|fuel]; [simpl in Hfuel; lia|].
    destruct Hl as [(node & Hnode & Hlink) Hl]. simpl.
    rewrite Hnode, (Hsyn y node (list_elem_of_here _ _) Hnode), Hlink.
    apply IH; [done| |by exists nc|simpl in Hfuel; lia].
    intros x nx Hx. apply Hsyn. by right.
Qed.

(** Every member of a ring has the canon of the ring as its canon. *)
Lemma STR_CANON_ring mem c syns a fuel :
  ring mem c syns → a ∈ c :: syns → (length syns < fuel)%nat →
  STR_CANON fuel mem a = Some c.
Proof.
  intros [Hl Hnd Hcanon Hsyns _] Hin Hfuel.
  apply elem_of_cons in Hin as [->|Hin].
  - destruct Hcanon as (nc & Hnc & Hflag).
    destruct fuel; [lia|]. simpl. by rewrite Hnc, Hflag.
  - apply list_elem_of_split in Hin as (pre & post & ->).
    change a with (hd c (a :: post)).
    apply STR_CANON_linked; [| |done|].
    + apply (linked_app mem (c :: pre)). exact Hl.
    + intros x nx Hx Hnx.
      destruct (Hsyns x) as (node & _ & Hnode & _ & Hflag & _).
      { apply elem_of_app. by right. }
      congruence.
    + rewrite length_app in Hfuel. simpl in *. lia.
Qed.

Lemma linked_unique mem c :
  ∀ l1 l2 x, linked mem (x :: l1) c → linked mem (x :: l2) c →
    c ∉ l1 → c ∉ l2 → l1 = l2.
Proof.
  induction l1 as [|y l1 IH]; intros l2 x [(n1 & Hn1 & Hk1) H1] [(n2 & Hn2 & Hk2) H2] Hc1 Hc2;
    rewrite Hn1 in Hn2; injection Hn2 as <-; rewrite Hk1 in Hk2.
  - destruct l2 as [|y' l2]; [done|]. simpl in Hk2. subst y'.
    exfalso. apply Hc2. by left.
  - destruct l2 as [|y' l2]; simpl in Hk2.
    + subst y. exfalso. apply Hc1. by left.
    + subst y'. f_equal. apply (IH l2 y); [done|done| |].
      * intros Hin. apply Hc1. by right.
      * intros Hin. apply Hc2. by right.
Qed.

Lemma ring_unique mem c syns1 syns2 : ring mem c syns1 → ring mem c syns2 → syns1 = syns2.
Proof.
  intros [Hl1 Hnd1 _ _ _] [Hl2 Hnd2 _ _ _].
  apply (linked_unique mem c syns1 syns2 c Hl1 Hl2).
  - by apply NoDup_cons in Hnd1 as [? _].
  - by apply NoDup_cons in Hnd2 as [? _].
Qed.

Lemma ring_ci mem c syns a na nc :
  ring mem c syns → a ∈ c :: syns → mem !! a = Some na → mem !! c = Some nc →
  ci_equal (STR_HEAD nc) (STR_HEAD na).
Proof.
  intros Hr [->|Hin]%elem_of_cons Ha Hc.
  - rewrite Ha in Hc. injection Hc as ->. apply ci_equal_refl.
  - destruct (ring_syns _ _ _ Hr a Hin) as (node & cnode & Hn & Hcn & _ & Hci & _).
    congruence.
Qed.

Lemma ring_sym mem c syns a na nc :
  ring mem c syns → a ∈ c :: syns → mem !! a = Some na → mem !! c = Some nc →
  header_sym na = header_sym nc.
Proof.
  intros Hr [->|Hin]%elem_of_cons Ha Hc.
  - congruence.
  - destruct (ring_syns _ _ _ Hr a Hin) as (node & cnode & Hn & Hcn & _ & _ & Hsym).
    congruence.
Qed.

(** ** Interned symbols of a well-formed state *)

Lemma registered_canon_node st a bytes c :
  registered st a bytes c →
  ∃ nc, series st !! c = Some nc ∧ STRING_INFO_CANON nc = true
        ∧ ci_equal (STR_HEAD nc) bytes.
Proof.
  intros (Hc & syns & node & Hr & Hin & Hnode & <-).
  destruct (ring_canon _ _ _ Hr) as (nc & Hnc & Hflag).
  exists nc. repeat split; [done|done|]. by apply (ring_ci (series st) c syns a node nc).
Qed.

Lemma registered_STR_CANON st a bytes c fuel :
  registered st a bytes c → (size (series st) ≤ fuel)%nat →
  STR_CANON fuel (series st) a = Some c.
Proof.
  intros (Hc & syns & node & Hr & Hin & Hnode & _) Hfuel.
  apply (STR_CANON_ring _ c syns); [done|done|].
  pose proof (ring_length _ _ _ Hr). lia.
Qed.

(** The canons of two interned symbols are the same exactly when their
    spellings are equal up to case. *)
Lemma registered_same_canon st a b s t ca cb :
  WF st → registered st a s ca → registered st b t cb →
  ca = cb ↔ ci_equal s t.
Proof.
  intros Hwf Ha Hb.
  destruct (registered_canon_node st a s ca Ha) as (na & Hna & _ & Hcia).
  destruct (registered_canon_node st b t cb Hb) as (nb & Hnb & _ & Hcib).
  split.
  - intros <-. rewrite Hna in Hnb. injection Hnb as <-.
    eapply ci_equal_trans; [apply ci_equal_sym; exact Hcia|exact Hcib].
  - intros Hst. apply (wf_class st Hwf ca cb na nb); [apply Ha|apply Hb|done|done|].
    eapply ci_equal_trans; [exact Hcia|].
    eapply ci_equal_trans; [exact Hst|]. by apply ci_equal_sym.
Qed.

(** A spelling is interned at most once. *)
Lemma registered_unique st a b s ca cb :
  WF st → registered st a s ca → registered st b s cb → a = b.
Proof.
  intros Hwf Ha Hb.
  assert (ca = cb) as <-
    by (apply (registered_same_canon st a b s s ca cb Hwf Ha Hb), ci_equal_refl).
  destruct Ha as (_ & syns & na & Hr & Hina & Hna & Hsa).
  destruct Hb as (_ & syns' & nb & Hr' & Hinb & Hnb & Hsb).
  rewrite <- (ring_unique _ _ _ _ Hr Hr') in Hinb.
  apply (ring_spellings _ _ _ Hr a b na nb); congruence.
Qed.

(* ------------------------------------------------------------------ *)
(** ** The probe loop of Intern_UTF8_Managed                           *)
(* ------------------------------------------------------------------ *)

(** A slot the probe for [bytes] steps over: a tombstone, or a canon
    that is not a casing of [bytes]. *)
Definition passed (st : interner) (bytes : list Z) (i : Z) : Prop :=
  slot_at (PG_Canons_By_Hash st) i = Some Slot_DELETED
  ∨ ∃ c node, slot_at (PG_Canons_By_Hash st) i = Some (Slot_Canon c)
      ∧ series st !! c = Some node ∧ Compare_UTF8 (STR_HEAD node) bytes < 0.

(** The [k]-th slot of the probe for [bytes] in the table of [st]. *)
Definition probe_slot (st : interner) (bytes : list Z) (k : nat) : Z :=
  let n := SER_LEN (PG_Canons_By_Hash st) in
  nth_probe n (First_Hash_Candidate_Slot (Hash_UTF8 bytes) n).2
    (First_Hash_Candidate_Slot (Hash_UTF8 bytes) n).1 k.

Definition deleted_seen (st : interner) (bytes : list Z) (k : nat) (d : option Z) : Prop :=
  d = None
  ∨ ∃ j, (j < k)%nat ∧ d = Some (probe_slot st bytes j)
         ∧ slot_at (PG_Canons_By_Hash st) (probe_slot st bytes j) = Some Slot_DELETED.

(** What is known when the probe loop ends. *)
Definition probe_post (st : interner) (bytes : list Z) (r : probe_end) : Prop :=
  match r with
  | Probe_Found a => ∃ c, registered st a bytes c
  | Probe_New_Synonym c =>
      c ∈ canons (PG_Canons_By_Hash st)
      ∧ ∃ nc syns, series st !! c = Some nc
          ∧ 0 < Compare_UTF8 (STR_HEAD nc) bytes
          ∧ ring (series st) c syns
          ∧ ∀ x nx, x ∈ c :: syns → series st !! x = Some nx → STR_HEAD nx ≠ bytes
  | Probe_Vacant s d =>
      ∃ k, s = probe_slot st bytes k
           ∧ slot_at (PG_Canons_By_Hash st) s = Some Slot_NULL
           ∧ (∀ j, (j < k)%nat → passed st bytes (probe_slot st bytes j))
           ∧ deleted_seen st bytes k d
           ∧ (k < Z.to_nat (SER_LEN (PG_Canons_By_Hash st)))%nat
  end.

Lemma probe_slot_range st bytes k :
  WF st → 0 ≤ probe_slot st bytes k < SER_LEN (PG_Canons_By_Hash st).
Proof.
  intros Hwf. pose proof (table_size_pos _ (wf_size st Hwf)) as Hn.
  apply nth_probe_range; [lia|apply slot_range; lia|apply skip_range; lia].
Qed.

Lemma probe_slot_S st bytes k :
  probe_slot st bytes (S k)
  = next_slot (SER_LEN (PG_Canons_By_Hash st))
      (First_Hash_Candidate_Slot (Hash_UTF8 bytes) (SER_LEN (PG_Canons_By_Hash st))).2
      (probe_slot st bytes k).
Proof. apply nth_probe_S. Qed.

#[local] Arguments walk_synonyms : simpl never.

Lemma probe_steps st bytes :
  WF st →
  ∀ m k fuel d,
    (m + size (series st) < fuel)%nat →
    (k + m < Z.to_nat (SER_LEN (PG_Canons_By_Hash st)))%nat →
    slot_at (PG_Canons_By_Hash st) (probe_slot st bytes (k + m)) = Some Slot_NULL →
    (∀ j, (j < k)%nat → passed st bytes (probe_slot st bytes j)) →
    deleted_seen st bytes k d →
    ∃ r, probe fuel st bytes
           (First_Hash_Candidate_Slot (Hash_UTF8 bytes) (SER_LEN (PG_Canons_By_Hash st))).2
           (probe_slot st bytes k) d = Some r
         ∧ probe_post st bytes r.
Proof.
  intros Hwf. induction m as [|m IH]; intros k fuel d Hfuel Hk HNULL Hpassed Hd.
  - rewrite Nat.add_0_r in HNULL, Hk. destruct fuel as [|fuel]; [lia|].
    simpl. rewrite HNULL. eexists. split; [reflexivity|].
    exists k. split_and!; done.
  - destruct fuel as [|fuel]; [lia|]. simpl.
    destruct (slot_at_is_Some (PG_Canons_By_Hash st) (probe_slot st bytes k)
                (probe_slot_range st bytes k Hwf)) as [s Hs].
    rewrite Hs.
    assert (∀ d', passed st bytes (probe_slot st bytes k) →
              deleted_seen st bytes (S k) d' →
              ∃ r, probe fuel st bytes
                     (First_Hash_Candidate_Slot (Hash_UTF8 bytes)
                        (SER_LEN (PG_Canons_By_Hash st))).2
                     (next_slot (SER_LEN (PG_Canons_By_Hash st))
                        (First_Hash_Candidate_Slot (Hash_UTF8 bytes)
                           (SER_LEN (PG_Canons_By_Hash st))).2
                        (probe_slot st bytes k)) d' = Some r
                   ∧ probe_post st bytes r) as Hnext.
    { intros d' Hp Hd'. rewrite <- probe_slot_S. apply IH; [lia|lia| | |done].
      - by replace (S k + m)%nat with (k + S m)%nat by lia.
      - intros j Hj. destruct (decide (j = k)) as [->|]; [done|]. apply Hpassed. lia. }
    destruct s as [| |c].
    + eexists. split; [reflexivity|]. exists k. split_and!; [done|done|done|done|lia].
    + apply Hnext; [by left|]. right. exists k. split_and!; [lia|done|done].
    + assert (c ∈ canons (PG_Canons_By_Hash st)) as Hc by (apply elem_of_canons; eauto).
      destruct (wf_ring st Hwf c Hc) as [syns Hr].
      destruct (ring_canon _ _ _ Hr) as (nc & Hnc & Hflag). rewrite Hnc.
      destruct (Compare_UTF8 (STR_HEAD nc) bytes =? 0) eqn:Hcmp0.
      { eexists. split; [reflexivity|]. exists c. split; [done|].
        exists syns, nc. split_and!; [done|by left|done|].
        by apply Compare_exact, Z.eqb_eq. }
      destruct (Compare_UTF8 (STR_HEAD nc) bytes <? 0) eqn:Hcmpn.
      { apply Hnext; [|destruct Hd as [->|(j & ? & ? & ?)];
                        [by left|right; exists j; split_and!; [lia|done|done]]].
        right. exists c, nc. split_and!; [done|done|lia]. }
      destruct (ring_linked _ _ _ Hr) as [(nc' & Hnc' & Hlink) Hl].
      rewrite Hnc in Hnc'. injection Hnc' as <-. rewrite Hlink.
      pose proof (ring_length _ _ _ Hr) as Hlen.
      destruct (walk_synonyms_spec (series st) bytes c syns (S fuel) Hl)
        as [(x & nx & Hx & Hnx & Hb & Hw)|[Hnone Hw]].
      * pose proof (ring_NoDup _ _ _ Hr) as Hnd. by apply NoDup_cons in Hnd as [? _].
      * lia.
      * rewrite Hw. eexists. split; [reflexivity|]. exists c. split; [done|].
        exists syns, nx. split_and!; [done|by right|done|done].
      * rewrite Hw. eexists. split; [reflexivity|]. split; [done|].
        exists nc, syns. split_and!; [done|lia|done|].
        intros x nx [->|Hx]%elem_of_cons Hnx.
        -- rewrite Hnc in Hnx. injection Hnx as <-. intros Heq.
           apply Compare_exact in Heq. rewrite Heq in Hcmp0. discriminate.
        -- by apply (Hnone x nx).
Qed.

(** With a free slot in the table and enough fuel the probe loop ends. *)
Lemma probe_total st bytes fuel :
  WF st →
  (occupied (PG_Canons_By_Hash st) < length (PG_Canons_By_Hash st))%nat →
  (length (PG_Canons_By_Hash st) + size (series st) < fuel)%nat →
  ∃ r, probe fuel st bytes
         (First_Hash_Candidate_Slot (Hash_UTF8 bytes) (SER_LEN (PG_Canons_By_Hash st))).2
         (First_Hash_Candidate_Slot (Hash_UTF8 bytes) (SER_LEN (PG_Canons_By_Hash st))).1
         None = Some r
       ∧ probe_post st bytes r.
Proof.
  intros Hwf Hfree Hfuel.
  destruct (exists_NULL _ Hfree) as [i Hi].
  destruct (probe_cover (Hash_UTF8 bytes) _ i (wf_size st Hwf) (slot_at_range _ _ _ Hi))
    as (k & Hk & Hki).
  apply (probe_steps st bytes Hwf k 0%nat fuel None).
  - unfold SER_LEN in Hk. lia.
  - simpl. lia.
  - simpl. unfold probe_slot. by rewrite Hki.
  - intros j Hj. lia.
  - by left.
Qed.

(** When the probe ends on a vacant slot, no canon of the table is a
    casing of the spelling. *)
Lemma vacant_no_match st bytes s d c nc :
  WF st → probe_post st bytes (Probe_Vacant s d) →
  c ∈ canons (PG_Canons_By_Hash st) → series st !! c = Some nc →
  ¬ ci_equal (STR_HEAD nc) bytes.
Proof.
  intros Hwf (k & -> & HNULL & Hpassed & _ & _) Hc Hnc Hci.
  destruct (wf_reach st Hwf c nc Hc Hnc) as (i & Hi & kc & Hkc & Hpc & Hnonnull).
  rewrite (Hash_ci _ _ Hci) in Hpc, Hnonnull.
  fold (probe_slot st bytes kc) in Hpc.
  destruct (Nat.lt_trichotomy kc k) as [Hlt|[->|Hgt]].
  - destruct (Hpassed kc Hlt) as [Hdel|(c' & nc' & Hc' & Hnc' & Hcmp)];
      rewrite Hpc, Hi in *; [discriminate|].
    injection Hc' as <-. rewrite Hnc in Hnc'. injection Hnc' as <-.
    unfold ci_equal in Hci. lia.
  - rewrite Hpc, Hi in HNULL. discriminate.
  - by apply (Hnonnull k Hgt).
Qed.

(** ** Frame properties of rings *)

(** The nodes of a ring are in the store. *)
Lemma ring_lookup mem c syns x : ring mem c syns → x ∈ c :: syns → is_Some (mem !! x).
Proof. intros Hr. apply (linked_lookup mem _ c), Hr. Qed.

(** A ring only depends on the nodes of its members. *)
Lemma linked_agree mem mem' l back :
  (∀ x, x ∈ l → mem' !! x = mem !! x) → linked mem l back → linked mem' l back.
Proof.
  induction l as [|y l IH]; intros Hag; [done|].
  intros [(node & Hnode & Hlink) Hl]. split.
  - exists node. split; [|done]. rewrite Hag; [done|by left].
  - apply IH; [|done]. intros x Hx. apply Hag. by right.
Qed.

Lemma ring_agree mem mem' c syns :
  (∀ x, x ∈ c :: syns → mem' !! x = mem !! x) → ring mem c syns → ring mem' c syns.
Proof.
  intros Hag [Hl Hnd Hcanon Hsyns Hsp]. split.
  - by apply (linked_agree mem).
  - done.
  - destruct Hcanon as (nc & Hnc & Hflag). exists nc.
    split; [|done]. rewrite Hag; [done|by left].
  - intros s Hs. destruct (Hsyns s Hs) as (node & cnode & Hn & Hcn & Hrest).
    exists node, cnode. split_and!; try tauto.
    + rewrite Hag; [done|by right].
    + rewrite Hag; [done|by left].
  - intros a b na nb Ha Hb Hna Hnb. apply Hsp; [done|done| |].
    + by rewrite <- Hag.
    + by rewrite <- Hag.
Qed.

(** A fresh node leaves the existing rings alone. *)
Lemma ring_insert_fresh mem c syns x node :
  mem !! x = None → ring mem c syns → ring (<[x := node]> mem) c syns.
Proof.
  intros Hx Hr. apply (ring_agree mem); [|done].
  intros y Hy. apply lookup_insert_ne. intros ->.
  destruct (ring_lookup mem c syns y Hr Hy) as [? ?]. congruence.
Qed.

Lemma ring_singleton mem c node :
  mem !! c = Some node → LINK_synonym node = c → STRING_INFO_CANON node = true →
  ring mem c [].
Proof.
  intros Hnode Hlink Hflag. split.
  - simpl. split; [|done]. by exists node.
  - apply NoDup_singleton.
  - by exists node.
  - intros s Hs. by apply elem_of_nil in Hs.
  - intros a b na nb Ha Hb _ _ _.
    apply list_elem_of_singleton in Ha, Hb. congruence.
Qed.

(* ------------------------------------------------------------------ *)
(** ** Installing a new canon                                          *)
(* ------------------------------------------------------------------ *)

Lemma reaches_set_slot table t s h i :
  0 ≤ t → s ≠ Slot_NULL → reaches table h i → reaches (set_slot table t s) h i.
Proof.
  intros Ht Hs (k & Hk & Hki & Hnn). unfold reaches. rewrite SER_LEN_set_slot.
  exists k. split_and!; [done|done|]. intros j Hj.
  destruct (decide (t = nth_probe (SER_LEN table)
                         (First_Hash_Candidate_Slot h (SER_LEN table)).2
                         (First_Hash_Candidate_Slot h (SER_LEN table)).1 j)) as [Heq|Hne].
  - rewrite <- Heq. intros Hat. apply slot_at_Some in Hat as [_ Hat].
    unfold set_slot in Hat. apply list_lookup_insert_Some in Hat.
    destruct Hat as [(_ & ? & _)|[? _]]; [congruence|lia].
  - rewrite slot_at_set_slot_ne by done. by apply Hnn.
Qed.

Lemma passed_not_NULL st bytes i : passed st bytes i → slot_at (PG_Canons_By_Hash st) i ≠ Some Slot_NULL.
Proof. intros [H|(c & nc & H & _)]; rewrite H; discriminate. Qed.

Definition new_canon_node (bytes : list Z) (intern : N) : REBSER :=
  mk_REBSER bytes true intern 0 (0, 0) true.

Lemma canon_in_store st c :
  WF st → c ∈ canons (PG_Canons_By_Hash st) →
  ∃ nc, series st !! c = Some nc ∧ STRING_INFO_CANON nc = true.
Proof. intros Hwf Hc. destruct (wf_ring st Hwf c Hc) as [syns Hr]. apply Hr. Qed.

Lemma insert_canon_WF st bytes x target old kt in_use' deleteds' :
  WF st → series st !! x = None →
  slot_at (PG_Canons_By_Hash st) target = Some old → slot_canon old = None →
  target = probe_slot st bytes kt →
  (kt < Z.to_nat (SER_LEN (PG_Canons_By_Hash st)))%nat →
  (∀ j, (j < kt)%nat → passed st bytes (probe_slot st bytes j)) →
  (∀ c nc, c ∈ canons (PG_Canons_By_Hash st) → series st !! c = Some nc →
           ¬ ci_equal (STR_HEAD nc) bytes) →
  in_use' = PG_Num_Canon_Slots_In_Use st + (if decide (old = Slot_NULL) then 1 else 0) →
  WF (mk_interner (set_slot (PG_Canons_By_Hash st) target (Slot_Canon x)) in_use'
        deleteds' (<[x := new_canon_node bytes x]> (series st))).
Proof.
  intros Hwf Hx Hold Hnc Htarget Hkt Hpassed Hnomatch Hin_use.
  pose proof (canons_set_canon _ _ _ x Hold Hnc) as Hperm.
  pose proof (slot_at_range _ _ _ Hold) as Hrange.
  assert (x ∉ canons (PG_Canons_By_Hash st)) as Hxnew.
  { intros Hin. destruct (canon_in_store st x Hwf Hin) as (? & ? & _). congruence. }
  assert (∀ c, c ∈ canons (PG_Canons_By_Hash st) → c ≠ x) as Hne
    by (intros c Hc ->; done).
  split; simpl.
  - rewrite SER_LEN_set_slot. apply Hwf.
  - pose proof (occupied_set_slot _ _ _ (Slot_Canon x) Hold) as Hocc.
    rewrite (wf_in_use st Hwf) in Hin_use.
    destruct old; try discriminate; repeat case_decide; try done; lia.
  - rewrite Hperm. apply NoDup_cons. split; [done|apply Hwf].
  - intros c Hc. rewrite Hperm in Hc. apply elem_of_cons in Hc as [->|Hc].
    + exists []. apply (ring_singleton _ _ (new_canon_node bytes x)); [|done|done].
      apply lookup_insert_eq.
    + destruct (wf_ring st Hwf c Hc) as [syns Hr]. exists syns.
      by apply ring_insert_fresh.
  - intros c c' node node' Hc Hc' Hnode Hnode' Hci.
    rewrite Hperm in Hc, Hc'.
    apply elem_of_cons in Hc as [->|Hc]; apply elem_of_cons in Hc' as [->|Hc'].
    + done.
    + rewrite lookup_insert_eq in Hnode. injection Hnode as <-.
      rewrite lookup_insert_ne in Hnode' by (intros ->; done).
      exfalso. apply (Hnomatch c' node' Hc' Hnode'). by apply ci_equal_sym.
    + rewrite lookup_insert_eq in Hnode'. injection Hnode' as <-.
      rewrite lookup_insert_ne in Hnode by (intros ->; done).
      exfalso. by apply (Hnomatch c node Hc Hnode).
    + rewrite lookup_insert_ne in Hnode by (intros ->; done).
      rewrite lookup_insert_ne in Hnode' by (intros ->; done).
      by apply (wf_class st Hwf c c' node node').
  - intros c node Hc Hnode. rewrite Hperm in Hc.
    apply elem_of_cons in Hc as [->|Hc].
    + rewrite lookup_insert_eq in Hnode. injection Hnode as <-. simpl.
      exists target. split; [by apply slot_at_set_slot_eq|].
      unfold reaches. rewrite SER_LEN_set_slot. exists kt. split_and!; [done|done|].
      intros j Hj. fold (probe_slot st bytes j).
      destruct (decide (target = probe_slot st bytes j)) as [<-|Hnej].
      * rewrite slot_at_set_slot_eq by done. discriminate.
      * rewrite slot_at_set_slot_ne by (done || lia).
        by apply (passed_not_NULL st bytes), Hpassed.
    + rewrite lookup_insert_ne in Hnode by (intros ->; done).
      destruct (wf_reach st Hwf c node Hc Hnode) as (i & Hi & Hreach).
      exists i. split.
      * rewrite slot_at_set_slot_ne; [done|lia|]. intros ->.
        rewrite Hold in Hi. injection Hi as ->. discriminate.
      * apply reaches_set_slot; [lia|discriminate|done].
Qed.

Lemma insert_canon_registered st bytes x target old in_use' deleteds' a s c :
  series st !! x = None →
  slot_at (PG_Canons_By_Hash st) target = Some old → slot_canon old = None →
  registered st a s c →
  registered (mk_interner (set_slot (PG_Canons_By_Hash st) target (Slot_Canon x)) in_use'
                deleteds' (<[x := new_canon_node bytes x]> (series st))) a s c.
Proof.
  intros Hx Hold Hnc (Hc & syns & node & Hr & Hin & Hnode & Hs).
  split; simpl.
  - rewrite (canons_set_canon _ _ _ x Hold Hnc). by right.
  - exists syns, node. split_and!; [by apply ring_insert_fresh|done| |done].
    rewrite lookup_insert_ne; [done|]. intros ->. congruence.
Qed.

Lemma insert_canon_registered_new st bytes x target old in_use' deleteds' :
  slot_at (PG_Canons_By_Hash st) target = Some old → slot_canon old = None →
  registered (mk_interner (set_slot (PG_Canons_By_Hash st) target (Slot_Canon x)) in_use'
                deleteds' (<[x := new_canon_node bytes x]> (series st))) x bytes x.
Proof.
  intros Hold Hnc. split; simpl.
  - rewrite (canons_set_canon _ _ _ x Hold Hnc). by left.
  - exists [], (new_canon_node bytes x). split_and!; [|by left|apply lookup_insert_eq|done].
    apply (ring_singleton _ _ (new_canon_node bytes x)); [apply lookup_insert_eq|done|done].
Qed.

(* ------------------------------------------------------------------ *)
(** ** Linking a new synonym                                           *)
(* ------------------------------------------------------------------ *)

Definition new_synonym_node (bytes : list Z) (cnode : REBSER) : REBSER :=
  mk_REBSER bytes false (LINK_synonym cnode) (header_sym cnode) (0, 0) true.

Definition with_synonym (mem : gmap N REBSER) (c x : N) (cnode : REBSER) (bytes : list Z)
  : gmap N REBSER :=
  <[c := set_link cnode x]> (<[x := new_synonym_node bytes cnode]> mem).

(** A canon is in no ring but its own. *)
Lemma canon_not_in_other_ring st c c' syns' :
  WF st → c ∈ canons (PG_Canons_By_Hash st) → ring (series st) c' syns' →
  c ∈ c' :: syns' → c = c'.
Proof.
  intros Hwf Hc Hr' Hin. apply elem_of_cons in Hin as [->|Hin]; [done|].
  destruct (canon_in_store st c Hwf Hc) as (nc & Hnc & Hflag).
  destruct (ring_syns _ _ _ Hr' c Hin) as (node & _ & Hnode & _ & Hfalse & _).
  congruence.
Qed.

Lemma with_synonym_other mem c x cnode bytes y :
  y ≠ c → y ≠ x → with_synonym mem c x cnode bytes !! y = mem !! y.
Proof. intros ? ?. unfold with_synonym. by rewrite !lookup_insert_ne. Qed.

Lemma with_synonym_canon mem c x cnode bytes :
  with_synonym mem c x cnode bytes !! c = Some (set_link cnode x).
Proof. apply lookup_insert_eq. Qed.

Lemma with_synonym_new mem c x cnode bytes :
  c ≠ x → with_synonym mem c x cnode bytes !! x = Some (new_synonym_node bytes cnode).
Proof. intros ?. unfold with_synonym. by rewrite lookup_insert_ne, lookup_insert_eq. Qed.

(** Apart from the new node, the store keeps every spelling. *)
Lemma with_synonym_old mem c x cnode bytes y ny :
  mem !! c = Some cnode → y ≠ x →
  with_synonym mem c x cnode bytes !! y = Some ny →
  ∃ ny0, mem !! y = Some ny0 ∧ STR_HEAD ny0 = STR_HEAD ny
         ∧ STRING_INFO_CANON ny0 = STRING_INFO_CANON ny
         ∧ header_sym ny0 = header_sym ny.
Proof.
  intros Hc Hyx Hy. destruct (decide (y = c)) as [->|Hyc].
  - rewrite with_synonym_canon in Hy. injection Hy as <-. by exists cnode.
  - rewrite with_synonym_other in Hy by done. by exists ny.
Qed.

Lemma ring_with_synonym mem c syns x cnode bytes :
  ring mem c syns → mem !! c = Some cnode → mem !! x = None →
  0 < Compare_UTF8 (STR_HEAD cnode) bytes →
  (∀ y ny, y ∈ c :: syns → mem !! y = Some ny → STR_HEAD ny ≠ bytes) →
  ring (with_synonym mem c x cnode bytes) c (x :: syns).
Proof.
  intros Hr Hc Hx Hcmp Hnew.
  assert (x ∉ c :: syns) as Hxout.
  { intros Hin. destruct (ring_lookup _ _ _ _ Hr Hin). congruence. }
  assert (c ≠ x) as Hcx by (intros ->; apply Hxout; by left).
  pose proof (ring_NoDup _ _ _ Hr) as Hnd.
  apply NoDup_cons in Hnd as [Hcs Hnds].
  destruct (ring_linked _ _ _ Hr) as [(nc & Hnc & Hlink) Hlsyns].
  rewrite Hc in Hnc. injection Hnc as <-.
  split.
  - simpl. split_and!.
    + exists (set_link cnode x). by rewrite with_synonym_canon.
    + exists (new_synonym_node bytes cnode). by rewrite with_synonym_new.
    + apply (linked_agree mem); [|done]. intros y Hy.
      apply with_synonym_other; intros ->; [done|]. apply Hxout. by right.
  - apply NoDup_cons. split; [|apply NoDup_cons; split; [|done]].
    + intros Hin. apply elem_of_cons in Hin as [?|?]; done.
    + intros Hin. apply Hxout. by right.
  - exists (set_link cnode x). split; [apply with_synonym_canon|].
    simpl. destruct (ring_canon _ _ _ Hr) as (nc & Hnc & Hflag). congruence.
  - intros s Hs. apply elem_of_cons in Hs as [->|Hs].
    + exists (new_synonym_node bytes cnode), (set_link cnode x).
      rewrite with_synonym_new, with_synonym_canon by done.
      split_and!; try done. simpl. unfold ci_equal. lia.
    + destruct (ring_syns _ _ _ Hr s Hs) as (node & cnode0 & Hn & Hcn & Hrest).
      rewrite Hc in Hcn. injection Hcn as <-.
      exists node, (set_link cnode x). rewrite with_synonym_canon.
      rewrite with_synonym_other; [done|by intros ->|].
      intros ->. apply Hxout. by right.
  - assert (∀ a na, a ∈ c :: syns →
              with_synonym mem c x cnode bytes !! a = Some na →
              ∃ na0, mem !! a = Some na0 ∧ STR_HEAD na0 = STR_HEAD na) as Hold.
    { intros a na Ha Hna.
      destruct (with_synonym_old mem c x cnode bytes a na Hc) as (na0 & ? & ? & _);
        [by intros ->|done|by exists na0]. }
    assert (∀ a, a ∈ c :: x :: syns → a = x ∨ a ∈ c :: syns) as Hcases.
    { intros a Ha. apply elem_of_cons in Ha as [->|Ha]; [right; by left|].
      apply elem_of_cons in Ha as [->|Ha]; [by left|right; by right]. }
    intros a b na nb Ha Hb Hna Hnb Heq.
    destruct (Hcases a Ha) as [->|Ha'], (Hcases b Hb) as [->|Hb']; [done| | |].
    + rewrite with_synonym_new in Hna by done. injection Hna as <-.
      destruct (Hold b nb Hb' Hnb) as (nb0 & Hnb0 & Hhead).
      exfalso. apply (Hnew b nb0 Hb' Hnb0). by rewrite Hhead, <- Heq.
    + rewrite with_synonym_new in Hnb by done. injection Hnb as <-.
      destruct (Hold a na Ha' Hna) as (na0 & Hna0 & Hhead).
      exfalso. apply (Hnew a na0 Ha' Hna0). by rewrite Hhead, Heq.
    + destruct (Hold a na Ha' Hna) as (na0 & Hna0 & Hheada).
      destruct (Hold b nb Hb' Hnb) as (nb0 & Hnb0 & Hheadb).
      apply (ring_spellings _ _ _ Hr a b na0 nb0); try done. congruence.
Qed.

Lemma ring_with_synonym_other st c c' syns' x cnode bytes :
  WF st → c ∈ canons (PG_Canons_By_Hash st) → series st !! x = None →
  ring (series st) c' syns' → c' ≠ c →
  ring (with_synonym (series st) c x cnode bytes) c' syns'.
Proof.
  intros Hwf Hc Hx Hr' Hne. apply (ring_agree (series st)); [|done].
  intros y Hy. apply with_synonym_other.
  - intros ->. apply Hne. symmetry.
    by apply (canon_not_in_other_ring st c c' syns').
  - intros ->. destruct (ring_lookup _ _ _ _ Hr' Hy). congruence.
Qed.

Lemma insert_synonym_WF st c cnode syns x bytes :
  WF st → c ∈ canons (PG_Canons_By_Hash st) → series st !! c = Some cnode →
  series st !! x = None → ring (series st) c syns →
  0 < Compare_UTF8 (STR_HEAD cnode) bytes →
  (∀ y ny, y ∈ c :: syns → series st !! y = Some ny → STR_HEAD ny ≠ bytes) →
  WF (mk_interner (PG_Canons_By_Hash st) (PG_Num_Canon_Slots_In_Use st)
        (PG_Num_Canon_Deleteds st) (with_synonym (series st) c x cnode bytes)).
Proof.
  intros Hwf Hc Hcnode Hx Hr Hcmp Hnew.
  assert (∀ y ny, y ∈ canons (PG_Canons_By_Hash st) →
            with_synonym (series st) c x cnode bytes !! y = Some ny →
            ∃ ny0, series st !! y = Some ny0 ∧ STR_HEAD ny0 = STR_HEAD ny) as Hold.
  { intros y ny Hy Hny.
    destruct (with_synonym_old (series st) c x cnode bytes y ny Hcnode) as (ny0 & ? & ? & _);
      [|done|by exists ny0].
    intros ->. destruct (canon_in_store st x Hwf Hy) as (? & ? & _). congruence. }
  split; simpl; try apply Hwf.
  - intros c' Hc'. destruct (decide (c' = c)) as [->|Hne].
    + exists (x :: syns). by apply ring_with_synonym.
    + destruct (wf_ring st Hwf c' Hc') as [syns' Hr']. exists syns'.
      by apply (ring_with_synonym_other st).
  - intros c1 c2 n1 n2 Hc1 Hc2 Hn1 Hn2 Hci.
    destruct (Hold c1 n1 Hc1 Hn1) as (m1 & Hm1 & Hh1).
    destruct (Hold c2 n2 Hc2 Hn2) as (m2 & Hm2 & Hh2).
    apply (wf_class st Hwf c1 c2 m1 m2); try done. by rewrite Hh1, Hh2.
  - intros c1 n1 Hc1 Hn1. destruct (Hold c1 n1 Hc1 Hn1) as (m1 & Hm1 & Hh1).
    rewrite <- Hh1. by apply (wf_reach st Hwf).
Qed.

Lemma insert_synonym_registered st c cnode syns x bytes a s c0 :
  WF st → c ∈ canons (PG_Canons_By_Hash st) → series st !! c = Some cnode →
  series st !! x = None → ring (series st) c syns →
  0 < Compare_UTF8 (STR_HEAD cnode) bytes →
  (∀ y ny, y ∈ c :: syns → series st !! y = Some ny → STR_HEAD ny ≠ bytes) →
  registered st a s c0 →
  registered (mk_interner (PG_Canons_By_Hash st) (PG_Num_Canon_Slots_In_Use st)
                (PG_Num_Canon_Deleteds st) (with_synonym (series st) c x cnode bytes))
    a s c0.
Proof.
  intros Hwf Hc Hcnode Hx Hr Hcmp Hnew (Hc0 & syns0 & node & Hr0 & Hin & Hnode & Hs).
  assert (a ≠ x) as Hax by (intros ->; congruence).
  split; [done|]. simpl. destruct (decide (c0 = c)) as [->|Hne].
  - rewrite (ring_unique _ _ _ _ Hr0 Hr) in Hin.
    destruct (decide (a = c)) as [->|Hac].
    + exists (x :: syns), (set_link cnode x). split_and!.
      * by apply ring_with_synonym.
      * by left.
      * apply with_synonym_canon.
      * simpl. congruence.
    + exists (x :: syns), node. split_and!.
      * by apply ring_with_synonym.
      * apply elem_of_cons in Hin as [?|?]; [done|]. right. by right.
      * by rewrite with_synonym_other.
      * done.
  - exists syns0, node. split_and!; try done.
    + by apply (ring_with_synonym_other st).
    + rewrite with_synonym_other; [done| |done].
      intros ->. apply Hne. symmetry.
      by apply (canon_not_in_other_ring st c c0 syns0).
Qed.

Lemma insert_synonym_registered_new st c cnode syns x bytes :
  c ∈ canons (PG_Canons_By_Hash st) → series st !! c = Some cnode →
  series st !! x = None → ring (series st) c syns →
  0 < Compare_UTF8 (STR_HEAD cnode) bytes →
  (∀ y ny, y ∈ c :: syns → series st !! y = Some ny → STR_HEAD ny ≠ bytes) →
  registered (mk_interner (PG_Canons_By_Hash st) (PG_Num_Canon_Slots_In_Use st)
                (PG_Num_Canon_Deleteds st) (with_synonym (series st) c x cnode bytes))
    x bytes c.
Proof.
  intros Hc Hcnode Hx Hr Hcmp Hnew. split; [done|]. simpl.
  exists (x :: syns), (new_synonym_node bytes cnode). split_and!.
  - by apply ring_with_synonym.
  - right. by left.
  - apply with_synonym_new. intros ->. congruence.
  - done.
Qed.

(* ------------------------------------------------------------------ *)
(** ** Growing the table                                               *)
(* ------------------------------------------------------------------ *)

(** Every canon of the table is found by the probe for its spelling. *)
Definition placed (mem : gmap N REBSER) (table : list canon_slot) : Prop :=
  ∀ c node, c ∈ canons table → mem !! c = Some node →
    ∃ i, slot_at table i = Some (Slot_Canon c)
         ∧ reaches table (Hash_UTF8 (STR_HEAD node)) i.

Lemma rehash_probe_spec table skip k0 : ∀ slot fuel,
  SER_LEN table ≤ 2 ^ 31 → 0 ≤ slot < SER_LEN table → 0 < skip ≤ SER_LEN table →
  slot_at table (nth_probe (SER_LEN table) skip slot k0) = Some Slot_NULL →
  (k0 < fuel)%nat →
  ∃ k, (k ≤ k0)%nat
       ∧ rehash_probe fuel table skip slot = Some (nth_probe (SER_LEN table) skip slot k)
       ∧ slot_at table (nth_probe (SER_LEN table) skip slot k) = Some Slot_NULL
       ∧ ∀ j, (j < k)%nat →
           slot_at table (nth_probe (SER_LEN table) skip slot j) ≠ Some Slot_NULL.
Proof.
  induction k0 as [|k0 IH]; intros slot fuel Hn Hslot Hskip HNULL Hfuel;
    (destruct fuel as [|fuel]; [lia|]).
  - exists 0%nat. simpl in *. rewrite HNULL. split_and!; [lia|done|done|lia].
  - destruct (slot_at_is_Some table slot Hslot) as [s Hs].
    destruct (decide (s = Slot_NULL)) as [->|Hnn].
    + exists 0%nat. simpl. rewrite Hs. split_and!; [lia|done|done|lia].
    + destruct (IH (next_slot (SER_LEN table) skip slot) fuel) as (k & Hk & Hrun & Hat & Hbefore);
        [done|by apply next_slot_range|done|done|lia|].
      exists (S k). split_and!; [lia| |done|].
      * simpl. rewrite Hs. by destruct s.
      * intros [|j] Hj; simpl; [congruence|]. apply Hbefore. lia.
Qed.

Lemma tombstones_cons s table :
  tombstones (s :: table)
  = ((if decide (s = Slot_DELETED) then 1 else 0) + tombstones table)%nat.
Proof. unfold tombstones. rewrite filter_cons. by case_decide. Qed.

Lemma occupied_cons s table :
  occupied (s :: table)
  = ((if decide (s ≠ Slot_NULL) then 1 else 0) + occupied table)%nat.
Proof. unfold occupied. rewrite filter_cons. by case_decide. Qed.

(** Slots in use are the live canons and the tombstones. *)
Lemma occupied_split table :
  occupied table = (length (canons table) + tombstones table)%nat.
Proof.
  induction table as [|s table IH]; [reflexivity|].
  rewrite occupied_cons, tombstones_cons, IH.
  destruct s; simpl; repeat case_decide; try done; lia.
Qed.

Lemma rehash_spec mem fuel old_slots : ∀ new_table in_use deleteds,
  table_size (SER_LEN new_table) →
  (∀ c, c ∈ canons old_slots → is_Some (mem !! c)) →
  (occupied new_table + length (canons old_slots) ≤ length new_table)%nat →
  tombstones new_table = 0%nat →
  placed mem new_table →
  (length new_table ≤ fuel)%nat →
  ∃ new',
    rehash fuel mem old_slots new_table in_use deleteds
    = Some (new', in_use - Z.of_nat (tombstones old_slots),
            deleteds - Z.of_nat (tombstones old_slots))
    ∧ length new' = length new_table
    ∧ canons new' ≡ₚ canons old_slots ++ canons new_table
    ∧ tombstones new' = 0%nat
    ∧ placed mem new'.
Proof.
  induction old_slots as [|s old_slots IH];
    intros new_table in_use deleteds Hsize Hmem Hroom Htomb Hplaced Hfuel.
  - exists new_table. simpl. split_and!; try done.
    change (tombstones []) with 0%nat. f_equal. f_equal; [f_equal|]; lia.
  - destruct s as [| |canon].
    + destruct (IH new_table in_use deleteds) as (new' & Hrun & Hrest); try done.
      exists new'. split; [|done]. simpl. rewrite Hrun, tombstones_cons.
      by rewrite decide_False by done.
    + destruct (IH new_table (in_use - 1) (deleteds - 1)) as (new' & Hrun & Hrest); try done.
      exists new'. split; [|done]. simpl. rewrite Hrun, tombstones_cons.
      rewrite decide_True by done. f_equal. f_equal; [f_equal|]; lia.
    + destruct (Hmem canon) as [node Hnode]; [by left|].
      pose proof (table_size_pos _ Hsize) as Hn.
      set (h := Hash_UTF8 (STR_HEAD node)).
      set (n := SER_LEN new_table) in *.
      destruct (exists_NULL new_table) as [t Ht]; [simpl in Hroom; lia|].
      destruct (probe_cover h n t Hsize (slot_at_range _ _ _ Ht)) as (k0 & Hk0 & Hpk0).
      destruct (rehash_probe_spec new_table (First_Hash_Candidate_Slot h n).2 k0
                  (First_Hash_Candidate_Slot h n).1 fuel)
        as (k & Hk & Hrun & Hat & Hbefore);
        [fold n; lia|apply slot_range; lia|apply skip_range; lia
        |fold n; by rewrite Hpk0|unfold n, SER_LEN in Hk0; lia|].
      fold n in Hrun, Hat, Hbefore.
      set (slot' := nth_probe n (First_Hash_Candidate_Slot h n).2
                      (First_Hash_Candidate_Slot h n).1 k) in *.
      pose proof (canons_set_canon _ _ _ canon Hat eq_refl) as Hperm.
      destruct (IH (set_slot new_table slot' (Slot_Canon canon)) in_use deleteds)
        as (new' & Hrun' & Hlen & Hcanons & Htomb' & Hplaced').
      * by rewrite SER_LEN_set_slot.
      * intros c Hc. apply Hmem. by right.
      * pose proof (occupied_set_slot _ _ _ (Slot_Canon canon) Hat) as Hocc.
        rewrite decide_False in Hocc by (intros H; by apply H).
        rewrite decide_True in Hocc by done.
        unfold set_slot in *. rewrite length_insert. simpl in Hroom. lia.
      * pose proof (tombstones_set_slot _ _ _ (Slot_Canon canon) Hat) as Hts.
        rewrite !decide_False in Hts by done. lia.
      * intros c nc Hc Hnc. rewrite Hperm in Hc.
        apply elem_of_cons in Hc as [->|Hc].
        -- rewrite Hnode in Hnc. injection Hnc as <-.
           exists slot'. split; [apply slot_at_set_slot_eq; by apply (slot_at_range _ _ _ Hat)|].
           unfold reaches. rewrite SER_LEN_set_slot. fold n h.
           exists k. split_and!; [lia|done|].
           intros j Hj.
           destruct (decide (slot' = nth_probe n (First_Hash_Candidate_Slot h n).2
                                        (First_Hash_Candidate_Slot h n).1 j)) as [<-|Hne].
           ++ rewrite slot_at_set_slot_eq by (by apply (slot_at_range _ _ _ Hat)).
              discriminate.
           ++ rewrite slot_at_set_slot_ne;
                [by apply Hbefore|by apply (slot_at_range _ _ _ Hat)|done].
        -- destruct (Hplaced c nc Hc Hnc) as (i & Hi & Hreach).
           exists i. split.
           ++ rewrite slot_at_set_slot_ne; [done|by apply (slot_at_range _ _ _ Hat)|].
              intros ->. rewrite Hat in Hi. discriminate.
           ++ apply reaches_set_slot;
                [by apply (slot_at_range _ _ _ Hat)|discriminate|done].
      * unfold set_slot. by rewrite length_insert.
      * exists new'. split_and!; try done.
        -- simpl. rewrite Hnode.
           destruct (First_Hash_Candidate_Slot
                       (Hash_UTF8 (STR_HEAD node)) (SER_LEN new_table)) as [sl sk] eqn:HF.
           fold h n in HF. rewrite HF in Hrun. simpl in Hrun. rewrite Hrun.
           rewrite Hrun'.
           rewrite tombstones_cons. by rewrite decide_False by done.
        -- rewrite Hlen. unfold set_slot. by rewrite length_insert.
        -- rewrite Hcanons, Hperm. simpl. by rewrite Permutation_middle.
Qed.

Lemma tombstones_replicate n : tombstones (replicate n Slot_NULL) = 0%nat.
Proof.
  induction n as [|n IH]; [reflexivity|].
  simpl. rewrite tombstones_cons, IH. by rewrite decide_False by done.
Qed.

Lemma SER_LEN_replicate n : 0 ≤ n → SER_LEN (replicate (Z.to_nat n) Slot_NULL) = n.
Proof. intros Hn. unfold SER_LEN. rewrite length_replicate. lia. Qed.

(** The size [Expand_Word_Table] asks for: the first prime of the table
    of primes above the old size. *)
Lemma next_table_size n :
  table_size n → n < 2 ^ 31 - 1 →
  table_size (wrap32 (Get_Hash_Prime (wrap32 (n + 1))))
  ∧ n < wrap32 (Get_Hash_Prime (wrap32 (n + 1)))
  ∧ wrap32 (Get_Hash_Prime (wrap32 (n + 1))) = first_prime_from Primes (n + 1).
Proof.
  intros [Hin Hlt] Hmax.
  assert (n ∈ 1 :: Primes) as Hin' by (destruct Hin as [->|?]; [by left|by right]).
  clear Hin. unfold Primes in Hin'.
  repeat (apply elem_of_cons in Hin' as [->|Hin'];
          [first [lia
                 |vm_compute; split_and!;
                  [right; repeat first [apply list_elem_of_here|apply list_elem_of_further]
                  |reflexivity|reflexivity|reflexivity]]|]).
  by apply elem_of_nil in Hin'.
Qed.

Lemma Expand_Word_Table_spec st fuel :
  WF st → SER_LEN (PG_Canons_By_Hash st) < 2 ^ 31 - 1 →
  (Z.to_nat (first_prime_from Primes (SER_LEN (PG_Canons_By_Hash st) + 1)) ≤ fuel)%nat →
  ∃ new',
    Expand_Word_Table fuel st
    = Some (Ok (mk_interner new'
                  (PG_Num_Canon_Slots_In_Use st
                   - Z.of_nat (tombstones (PG_Canons_By_Hash st)))
                  (PG_Num_Canon_Deleteds st
                   - Z.of_nat (tombstones (PG_Canons_By_Hash st)))
                  (series st)))
    ∧ SER_LEN new' = first_prime_from Primes (SER_LEN (PG_Canons_By_Hash st) + 1)
    ∧ SER_LEN (PG_Canons_By_Hash st) < SER_LEN new'
    ∧ table_size (SER_LEN new')
    ∧ canons new' ≡ₚ canons (PG_Canons_By_Hash st)
    ∧ tombstones new' = 0%nat
    ∧ placed (series st) new'.
Proof.
  intros Hwf Hmax Hfuel.
  destruct (next_table_size _ (wf_size st Hwf) Hmax) as (Hsize & Hlt & Hp).
  pose proof (table_size_pos _ (wf_size st Hwf)) as Hn.
  unfold Expand_Word_Table.
  set (p := wrap32 (Get_Hash_Prime (wrap32 (SER_LEN (PG_Canons_By_Hash st) + 1)))) in *.
  destruct (p =? 0) eqn:Hp0; [lia|].
  pose proof (occupied_split (PG_Canons_By_Hash st)) as Hsplit.
  pose proof (occupied_le (PG_Canons_By_Hash st)) as Hle.
  destruct (rehash_spec (series st) fuel (PG_Canons_By_Hash st)
              (replicate (Z.to_nat p) Slot_NULL)
              (PG_Num_Canon_Slots_In_Use st) (PG_Num_Canon_Deleteds st))
    as (new' & Hrun & Hlen & Hcanons & Htomb & Hplaced).
  - rewrite SER_LEN_replicate by lia. done.
  - intros c Hc. destruct (canon_in_store st c Hwf Hc) as (nc & Hnc & _). by exists nc.
  - rewrite occupied_replicate, length_replicate. unfold SER_LEN in Hlt. lia.
  - apply tombstones_replicate.
  - intros c node Hc. rewrite canons_replicate in Hc. by apply elem_of_nil in Hc.
  - rewrite length_replicate. lia.
  - exists new'. rewrite Hrun.
    assert (SER_LEN new' = p) as Hlen'.
    { unfold SER_LEN. rewrite Hlen, length_replicate. lia. }
    split_and!; try done.
    + by rewrite Hlen', <- Hp.
    + by rewrite Hlen'.
    + by rewrite Hlen'.
    + by rewrite Hcanons, canons_replicate, app_nil_r.
Qed.

(** The state after growing: same symbols, no tombstones. *)
Lemma expanded_WF st new' :
  WF st → table_size (SER_LEN new') →
  canons new' ≡ₚ canons (PG_Canons_By_Hash st) →
  tombstones new' = 0%nat → placed (series st) new' →
  WF (mk_interner new'
        (PG_Num_Canon_Slots_In_Use st - Z.of_nat (tombstones (PG_Canons_By_Hash st)))
        (PG_Num_Canon_Deleteds st - Z.of_nat (tombstones (PG_Canons_By_Hash st)))
        (series st)).
Proof.
  intros Hwf Hsize Hcanons Htomb Hplaced. split; simpl.
  - done.
  - rewrite (wf_in_use st Hwf), !occupied_split, Htomb, Hcanons. lia.
  - rewrite Hcanons. apply Hwf.
  - intros c Hc. rewrite Hcanons in Hc. by apply (wf_ring st Hwf).
  - intros c c' node node' Hc Hc'. rewrite Hcanons in Hc, Hc'.
    by apply (wf_class st Hwf).
  - done.
Qed.

Lemma expanded_registered st new' in_use deleteds a s c :
  canons new' ≡ₚ canons (PG_Canons_By_Hash st) →
  registered st a s c →
  registered (mk_interner new' in_use deleteds (series st)) a s c.
Proof. intros Hcanons [Hc Hrest]. split; [|done]. simpl. by rewrite Hcanons. Qed.

(* ------------------------------------------------------------------ *)
(** ** Interning                                                       *)
(* ------------------------------------------------------------------ *)

Lemma Make_Ser_Core_fresh (mem : gmap N REBSER) : mem !! Make_Ser_Core mem = None.
Proof. apply not_elem_of_dom. unfold Make_Ser_Core. apply is_fresh. Qed.

(** The growth step at the head of [Intern_UTF8_Managed]. *)
Lemma intern_expand_spec st fuel :
  WF st → SER_LEN (PG_Canons_By_Hash st) < 2 ^ 31 - 1 →
  (Z.to_nat (first_prime_from Primes (SER_LEN (PG_Canons_By_Hash st) + 1)) ≤ fuel)%nat →
  ∃ st1,
    (if PG_Num_Canon_Slots_In_Use st >? SER_LEN (PG_Canons_By_Hash st) / 2
     then Expand_Word_Table fuel st else Some (Ok st)) = Some (Ok st1)
    ∧ WF st1 ∧ series st1 = series st
    ∧ (occupied (PG_Canons_By_Hash st1) < length (PG_Canons_By_Hash st1))%nat
    ∧ (∀ b s c, registered st b s c → registered st1 b s c)
    ∧ SER_LEN (PG_Canons_By_Hash st1)
      = (if PG_Num_Canon_Slots_In_Use st >? SER_LEN (PG_Canons_By_Hash st) / 2
         then first_prime_from Primes (SER_LEN (PG_Canons_By_Hash st) + 1)
         else SER_LEN (PG_Canons_By_Hash st)).
Proof.
  intros Hwf Hmax Hfuel.
  pose proof (table_size_pos _ (wf_size st Hwf)) as Hn.
  destruct (PG_Num_Canon_Slots_In_Use st >? SER_LEN (PG_Canons_By_Hash st) / 2) eqn:Hload.
  - destruct (Expand_Word_Table_spec st fuel Hwf Hmax Hfuel)
      as (new' & Hrun & Hlen & Hlt & Hsize & Hcanons & Htomb & Hplaced).
    eexists. split; [exact Hrun|]. simpl. split_and!.
    + by apply expanded_WF.
    + done.
    + rewrite occupied_split, Htomb, Hcanons.
      pose proof (occupied_split (PG_Canons_By_Hash st)) as Hsplit.
      pose proof (occupied_le (PG_Canons_By_Hash st)) as Hle.
      unfold SER_LEN in Hlt. lia.
    + intros b s c. by apply expanded_registered.
    + done.
  - exists st. split_and!; try done.
    pose proof (wf_in_use st Hwf) as Hin_use. unfold SER_LEN in *.
    assert (Z.of_nat (length (PG_Canons_By_Hash st)) / 2
            < Z.of_nat (length (PG_Canons_By_Hash st))) by (apply Z.div_lt; lia).
    lia.
Qed.

Lemma Intern_UTF8_Managed_full st bytes fuel :
  WF st → SER_LEN (PG_Canons_By_Hash st) < 2 ^ 31 - 1 →
  (Z.to_nat (first_prime_from Primes (SER_LEN (PG_Canons_By_Hash st) + 1))
   + size (series st) < fuel)%nat →
  ∃ a st',
    Intern_UTF8_Managed fuel st bytes = Some (Ok (a, st'))
    ∧ WF st'
    ∧ (∃ c, registered st' a bytes c)
    ∧ (∀ b s c, registered st b s c → registered st' b s c)
    ∧ SER_LEN (PG_Canons_By_Hash st')
      = (if PG_Num_Canon_Slots_In_Use st >? SER_LEN (PG_Canons_By_Hash st) / 2
         then first_prime_from Primes (SER_LEN (PG_Canons_By_Hash st) + 1)
         else SER_LEN (PG_Canons_By_Hash st))
    ∧ (size (series st') ≤ S (size (series st)))%nat
    ∧ (series st !! a = None →
       ∃ na, series st' !! a = Some na
         ∧ ((STRING_INFO_CANON na = true ∧ header_sym na = 0)
            ∨ (∃ c nc, STRING_INFO_CANON na = false ∧ registered st' a bytes c
                 ∧ series st !! c = Some nc ∧ header_sym na = header_sym nc))).
Proof.
  intros Hwf Hmax Hfuel.
  destruct (next_table_size _ (wf_size st Hwf) Hmax) as (_ & Hlt & Hp).
  rewrite Hp in Hlt.
  destruct (intern_expand_spec st fuel Hwf Hmax)
    as (st1 & Hexp & Hwf1 & Hmem1 & Hfree & Hreg1 & Hlen1); [lia|].
  unfold Intern_UTF8_Managed. rewrite Hexp.
  destruct (probe_total st1 bytes fuel Hwf1 Hfree) as (r & Hrun & Hpost).
  { rewrite Hmem1. unfold SER_LEN in *.
    destruct (PG_Num_Canon_Slots_In_Use st >? _); lia. }
  destruct (First_Hash_Candidate_Slot (Hash_UTF8 bytes) (SER_LEN (PG_Canons_By_Hash st1)))
    as [slot skip] eqn:HF.
  simpl in Hrun. rewrite Hrun.
  destruct r as [a|canon|s d].
  - (* already interned *)
    exists a, st1. split_and!; try done; [rewrite Hmem1; lia|].
    intros Hnone. destruct Hpost as (c & _ & _ & na & _ & _ & Hna & _). congruence.
  - (* a new synonym of [canon] *)
    destruct Hpost as (Hc & nc & syns & Hnc & Hcmp & Hring & Hnew).
    rewrite Hnc. pose proof (Make_Ser_Core_fresh (series st1)) as Hfresh.
    set (x := Make_Ser_Core (series st1)) in *.
    eexists _, _. split; [reflexivity|].
    change (<[canon:=_]> (<[x:=_]> (series st1)))
      with (with_synonym (series st1) canon x nc bytes).
    split_and!.
    + by apply (insert_synonym_WF st1 canon nc syns).
    + exists canon. by apply (insert_synonym_registered_new st1 canon nc syns).
    + intros b s c Hb. apply (insert_synonym_registered st1 canon nc syns); try done.
      by apply Hreg1.
    + done.
    + simpl. unfold with_synonym. rewrite !map_size_insert.
      rewrite lookup_insert_ne by (intros ->; congruence).
      rewrite Hnc, Hfresh, Hmem1. done.
    + intros _. simpl. exists (new_synonym_node bytes nc). split.
      * apply with_synonym_new. intros ->. congruence.
      * right. exists canon, nc. split_and!; [done| |by rewrite <- Hmem1|done].
        by apply (insert_synonym_registered_new st1 canon nc syns).
  - (* a new canon *)
    destruct Hpost as (k & -> & HNULL & Hpassed & Hdel & Hk).
    pose proof (Make_Ser_Core_fresh (series st1)) as Hfresh.
    set (x := Make_Ser_Core (series st1)) in *.
    assert (∀ c nc, c ∈ canons (PG_Canons_By_Hash st1) → series st1 !! c = Some nc →
                    ¬ ci_equal (STR_HEAD nc) bytes) as Hnomatch.
    { intros c nc. apply (vacant_no_match st1 bytes (probe_slot st1 bytes k) d); [done|].
      exists k. by split_and!. }
    assert (size (<[x:=new_canon_node bytes x]> (series st1)) ≤ S (size (series st)))%nat
      as Hsize by (rewrite map_size_insert, Hfresh, Hmem1; done).
    destruct d as [dslot|].
    + destruct Hdel as [?|(j & Hj & [= ->] & Hdeleted)]; [done|].
      eexists _, _. split; [reflexivity|].
      change (mk_REBSER bytes true x 0 (0, 0) true) with (new_canon_node bytes x).
      split_and!; try done.
      * apply (insert_canon_WF st1 bytes x _ Slot_DELETED j); try done; [lia| |].
        -- intros j' Hj'. apply Hpassed. lia.
        -- rewrite decide_False by done. lia.
      * exists x. by apply (insert_canon_registered_new st1 bytes x _ Slot_DELETED).
      * intros b s c Hb.
        apply (insert_canon_registered st1 bytes x _ Slot_DELETED); try done.
        by apply Hreg1.
      * simpl. by rewrite SER_LEN_set_slot.
      * intros _. simpl. exists (new_canon_node bytes x).
        split; [apply lookup_insert_eq|by left].
    + eexists _, _. split; [reflexivity|].
      change (mk_REBSER bytes true x 0 (0, 0) true) with (new_canon_node bytes x).
      split_and!; try done.
      * apply (insert_canon_WF st1 bytes x _ Slot_NULL k); try done.
      * exists x. by apply (insert_canon_registered_new st1 bytes x _ Slot_NULL).
      * intros b s c Hb.
        apply (insert_canon_registered st1 bytes x _ Slot_NULL); try done.
        by apply Hreg1.
      * simpl. by rewrite SER_LEN_set_slot.
      * intros _. simpl. exists (new_canon_node bytes x).
        split; [apply lookup_insert_eq|by left].
Qed.

Lemma Intern_UTF8_Managed_spec st bytes fuel :
  WF st → SER_LEN (PG_Canons_By_Hash st) < 2 ^ 31 - 1 →
  (Z.to_nat (first_prime_from Primes (SER_LEN (PG_Canons_By_Hash st) + 1))
   + size (series st) < fuel)%nat →
  ∃ a st',
    Intern_UTF8_Managed fuel st bytes = Some (Ok (a, st'))
    ∧ WF st'
    ∧ (∃ c, registered st' a bytes c)
    ∧ (∀ b s c, registered st b s c → registered st' b s c)
    ∧ SER_LEN (PG_Canons_By_Hash st')
      = (if PG_Num_Canon_Slots_In_Use st >? SER_LEN (PG_Canons_By_Hash st) / 2
         then first_prime_from Primes (SER_LEN (PG_Canons_By_Hash st) + 1)
         else SER_LEN (PG_Canons_By_Hash st))
    ∧ (size (series st') ≤ S (size (series st)))%nat.
Proof.
  intros Hwf Hmax Hfuel.
  destruct (Intern_UTF8_Managed_full st bytes fuel Hwf Hmax Hfuel)
    as (a & st' & ? & ? & ? & ? & ? & ? & _).
  by exists a, st'.
Qed.

(** The table size after one growth step. *)
Definition grow (n : Z) : Z := first_prime_from Primes (n + 1).

Lemma grow_chain n :
  table_size n → n < 2 ^ 28 →
  n < grow n ∧ grow n < grow (grow n) ∧ grow (grow n) < grow (grow (grow n))
  ∧ grow (grow n) < 2 ^ 31 - 1.
Proof.
  intros [Hin Hlt] Hmax.
  assert (n ∈ 1 :: Primes) as Hin' by (destruct Hin as [->|?]; [by left|by right]).
  clear Hin. unfold Primes in Hin'.
  repeat (apply elem_of_cons in Hin' as [->|Hin'];
          [first [lia|vm_compute; split_and!; reflexivity]|]).
  by apply elem_of_nil in Hin'.
Qed.

(** A symbol has one spelling. *)
Lemma registered_spelling st a s t ca cb :
  registered st a s ca → registered st a t cb → s = t.
Proof.
  intros (_ & _ & na & _ & _ & Hna & <-) (_ & _ & nb & _ & _ & Hnb & <-). congruence.
Qed.

(** C2: interning the same bytes again, even after other spellings were
    interned, returns the same symbol; two interned symbols are the
    same exactly when their bytes are; and their canons are the same
    exactly when the spellings are equal up to case. The interner is in
    a well-formed state with fewer than 2^28 slots, and the loops are
    given enough steps. *)
Theorem interner_equivalence_classes st s t fuel :
  WF st → SER_LEN (PG_Canons_By_Hash st) < 2 ^ 28 →
  (Z.to_nat (grow (grow (grow (SER_LEN (PG_Canons_By_Hash st)))))
   + size (series st) + 2 < fuel)%nat →
  ∃ a st1 b st2 a' st3 ca cb,
    Intern_UTF8_Managed fuel st s = Some (Ok (a, st1))
    ∧ Intern_UTF8_Managed fuel st1 t = Some (Ok (b, st2))
    ∧ Intern_UTF8_Managed fuel st2 s = Some (Ok (a', st3))
    ∧ a' = a
    ∧ (a = b ↔ s = t)
    ∧ STR_CANON fuel (series st3) a = Some ca
    ∧ STR_CANON fuel (series st3) b = Some cb
    ∧ (ca = cb ↔ ci_equal s t).
Proof.
  intros Hwf Hmax Hfuel.
  destruct (grow_chain _ (wf_size st Hwf) Hmax) as (Hg1 & Hg2 & Hg3 & Hg4).
  unfold grow in *.
  destruct (Intern_UTF8_Managed_spec st s fuel Hwf)
    as (a & st1 & Hrun1 & Hwf1 & [ca Hreg1] & Hpres1 & Hlen1 & Hsz1); [lia|lia|].
  destruct (PG_Num_Canon_Slots_In_Use st >? _) in Hlen1.
  all: destruct (Intern_UTF8_Managed_spec st1 t fuel Hwf1)
    as (b & st2 & Hrun2 & Hwf2 & [cb Hreg2] & Hpres2 & Hlen2 & Hsz2);
    [rewrite Hlen1; lia|rewrite Hlen1; lia|].
  all: rewrite Hlen1 in Hlen2; destruct (PG_Num_Canon_Slots_In_Use st1 >? _) in Hlen2.
  all: destruct (Intern_UTF8_Managed_spec st2 s fuel Hwf2)
    as (a' & st3 & Hrun3 & Hwf3 & [ca' Hreg3] & Hpres3 & Hlen3 & Hsz3);
    [rewrite Hlen2; lia|rewrite Hlen2; lia|].
  all: pose proof (Hpres3 _ _ _ (Hpres2 _ _ _ Hreg1)) as Ha.
  all: pose proof (Hpres3 _ _ _ Hreg2) as Hb.
  all: exists a, st1, b, st2, a', st3, ca, cb; split_and!; try done.
  all: try (by apply (registered_unique st3 a' a s ca' ca)).
  all: try (by apply (registered_same_canon st3 a b)).
  all: try (apply (registered_STR_CANON st3 a s); [done|lia]).
  all: try (apply (registered_STR_CANON st3 b t); [done|lia]).
  all: split;
    [intros ->; by apply (registered_spelling st3 b s t ca cb)
    |intros <-; by apply (registered_unique st3 a b s ca cb)].
Qed.

(** The interner right after [Startup_Interning] is well formed. *)
Lemma Startup_Interning_WF n : table_size n → WF (Startup_Interning n).
Proof.
  intros Hsize. pose proof (table_size_pos _ Hsize) as Hn.
  split; simpl; rewrite ?canons_replicate, ?occupied_replicate.
  - by rewrite SER_LEN_replicate by lia.
  - done.
  - apply NoDup_nil_2.
  - intros c Hc. by apply elem_of_nil in Hc.
  - intros c c' ? ? Hc. by apply elem_of_nil in Hc.
  - intros c ? Hc. by apply elem_of_nil in Hc.
Qed.

(* ------------------------------------------------------------------ *)
(** ** The growth policy                                               *)
(* ------------------------------------------------------------------ *)

(** The table of primes is in increasing order. *)
Fixpoint ascending (l : list Z) : Prop :=
  match l with
  | [] => True
  | p :: l' => Forall (Z.lt p) l' ∧ ascending l'
  end.

Lemma Primes_ascending : ascending Primes.
Proof. unfold Primes. simpl. repeat (split; [repeat (constructor; [lia|]); constructor|]). done. Qed.

(** [Get_Hash_Prime] finds the least prime of the table that is not
    below the requested size. *)
Lemma first_prime_from_least primes size q :
  ascending primes → q ∈ primes → size ≤ q →
  first_prime_from primes size ∈ primes
  ∧ size ≤ first_prime_from primes size ≤ q.
Proof.
  induction primes as [|p primes IH]; intros Hasc Hq Hle.
  - by apply elem_of_nil in Hq.
  - destruct Hasc as [Hall Hs]. simpl. destruct (size >? p) eqn:Hgt.
    + apply elem_of_cons in Hq as [->|Hq]; [lia|].
      destruct (IH Hs Hq Hle) as [Hin Hb]. split; [by right|done].
    + split; [by left|]. split; [lia|].
      apply elem_of_cons in Hq as [->|Hq]; [lia|].
      rewrite Forall_forall in Hall. specialize (Hall q Hq). lia.
Qed.

Lemma first_prime_from_none primes size :
  (∀ p, p ∈ primes → p < size) → first_prime_from primes size = 0.
Proof.
  induction primes as [|p primes IH]; intros Hall; [reflexivity|].
  simpl. destruct (size >? p) eqn:Hgt.
  - apply IH. intros q Hq. apply Hall. by right.
  - assert (p < size) by (apply Hall; by left). lia.
Qed.

(** C7 (amended): interning grows the table exactly when the slots in
    use (live canons plus tombstones) exceed half the table size. The
    new size is the least prime of the table of primes above the old
    size (not necessarily double); the rehash keeps the canons and
    drops the tombstones, deducting them from both counters. When the
    table of primes has no larger prime, interning fails with the
    size-limit error for the old size plus one. *)
Theorem interner_growth_policy st bytes fuel :
  WF st → SER_LEN (PG_Canons_By_Hash st) < 2 ^ 31 - 1 →
  (Z.to_nat (grow (SER_LEN (PG_Canons_By_Hash st))) + size (series st) < fuel)%nat →
  let table := PG_Canons_By_Hash st in
  let n := SER_LEN table in
  let dead := Z.of_nat (tombstones table) in
  PG_Num_Canon_Slots_In_Use st = Z.of_nat (length (canons table)) + dead
  ∧ (∃ a st', Intern_UTF8_Managed fuel st bytes = Some (Ok (a, st'))
       ∧ SER_LEN (PG_Canons_By_Hash st')
         = if PG_Num_Canon_Slots_In_Use st >? n / 2 then grow n else n)
  ∧ (∃ new', Expand_Word_Table fuel st
       = Some (Ok (mk_interner new' (PG_Num_Canon_Slots_In_Use st - dead)
                     (PG_Num_Canon_Deleteds st - dead) (series st)))
       ∧ SER_LEN new' = grow n
       ∧ canons new' ≡ₚ canons table ∧ tombstones new' = 0%nat)
  ∧ (grow n ∈ Primes ∧ n < grow n ∧ ∀ p, p ∈ Primes → n < p → grow n ≤ p)
  ∧ (∀ st0 fuel0,
       PG_Num_Canon_Slots_In_Use st0 > SER_LEN (PG_Canons_By_Hash st0) / 2 →
       SER_LEN (PG_Canons_By_Hash st0) + 1 < 2 ^ 32 →
       (∀ p, p ∈ Primes → p ≤ SER_LEN (PG_Canons_By_Hash st0)) →
       Intern_UTF8_Managed fuel0 st0 bytes
       = Some (Fail (Error_Size_Limit (SER_LEN (PG_Canons_By_Hash st0) + 1)))).
Proof.
  intros Hwf Hmax Hfuel table n dead. unfold grow in *.
  destruct (next_table_size _ (wf_size st Hwf) Hmax) as (Hsize & Hlt & Hp).
  fold table n in Hsize, Hlt, Hp. rewrite Hp in Hsize, Hlt.
  split_and!.
  - rewrite (wf_in_use st Hwf). fold table. rewrite occupied_split. lia.
  - destruct (Intern_UTF8_Managed_spec st bytes fuel Hwf Hmax Hfuel)
      as (a & st' & Hrun & _ & _ & _ & Hlen & _).
    by exists a, st'.
  - destruct (Expand_Word_Table_spec st fuel Hwf Hmax)
      as (new' & Hrun & Hlen & _ & _ & Hcanons & Htomb & _); [lia|].
    by exists new'.
  - pose proof (table_size_pos _ (wf_size st Hwf)) as Hn. fold table n in Hn.
    destruct Hsize as [[H1|Hin] _]; [lia|done].
  - done.
  - intros p Hp' Hnp.
    destruct (first_prime_from_least Primes (n + 1) p Primes_ascending Hp') as [_ ?]; lia.
  - intros st0 fuel0 Hload Hmax0 Hnone.
    unfold Intern_UTF8_Managed, Expand_Word_Table.
    destruct (PG_Num_Canon_Slots_In_Use st0 >? SER_LEN (PG_Canons_By_Hash st0) / 2)
      eqn:Hgt; [|lia].
    assert (0 ≤ SER_LEN (PG_Canons_By_Hash st0)) by (unfold SER_LEN; lia).
    assert (wrap32 (SER_LEN (PG_Canons_By_Hash st0) + 1)
            = SER_LEN (PG_Canons_By_Hash st0) + 1) as ->
      by (unfold wrap32; apply Z.mod_small; lia).
    unfold Get_Hash_Prime. rewrite first_prime_from_none; [done|].
    intros p Hp'. specialize (Hnone p Hp'). lia.
Qed.

(* ------------------------------------------------------------------ *)
(** ** Removing an interning                                           *)
(* ------------------------------------------------------------------ *)


(** Two rings that share a member are the same ring. *)
Lemma ring_disjoint mem c c' syns syns' x :
  ring mem c syns → ring mem c' syns' → x ∈ c :: syns → x ∈ c' :: syns' → c = c'.
Proof.
  intros Hr Hr' Hx Hx'.
  pose proof (STR_CANON_ring mem c syns x (S (length syns + length syns')) Hr Hx) as H1.
  pose proof (STR_CANON_ring mem c' syns' x (S (length syns + length syns')) Hr' Hx') as H2.
  rewrite H1 in H2 by lia. assert (Some c = Some c') as [= ->] by (apply H2; lia). done.
Qed.





Lemma nth_probe_closed n skip : ∀ k slot,
  n ≤ 2 ^ 31 → 0 ≤ slot < n → 0 < skip ≤ n →
  nth_probe n skip slot k = (slot + Z.of_nat k * skip) mod n.
Proof.
  induction k as [|k IH]; intros slot Hn Hslot Hskip.
  - simpl. rewrite Z.add_0_r. symmetry. by apply Z.mod_small.
  - change (nth_probe n skip slot (S k))
      with (nth_probe n skip (next_slot n skip slot) k).
    rewrite IH by (done || by apply next_slot_range).
    rewrite next_slot_small by done.
    destruct (slot + skip >=? n).
    + replace (slot + Z.of_nat (S k) * skip)
        with (slot + skip - n + Z.of_nat k * skip + 1 * n) by lia.
      by rewrite Z_mod_plus_full.
    + f_equal. lia.
Qed.
















Lemma linked_same_links mem mem' l back :
  (∀ y n, y ∈ l → mem !! y = Some n →
     ∃ n', mem' !! y = Some n' ∧ LINK_synonym n' = LINK_synonym n) →
  linked mem l back → linked mem' l back.
Proof.
  induction l as [|y l IH]; intros Hsame; [done|].
  intros [(node & Hnode & Hlink) Hl]. split.
  - destruct (Hsame y node) as (n' & Hn' & Hlink'); [by left|done|].
    exists n'. split; [done|congruence].
  - apply IH; [|done]. intros z n Hz. apply Hsame. by right.
Qed.

(** Changes inside one ring leave the other rings alone. *)
Lemma other_ring_frame mem mem' c syns c' syns' :
  ring mem c syns → ring mem c' syns' → c' ≠ c →
  (∀ y, y ∉ c :: syns → mem' !! y = mem !! y) →
  ring mem' c' syns'.
Proof.
  intros Hr Hr' Hne Hframe. apply (ring_agree mem); [|done].
  intros y Hy. apply Hframe. intros Hin. apply Hne.
  by apply (ring_disjoint mem c' c syns' syns y).
Qed.

(** Well-formedness only looks at the rings and the spellings. *)
Lemma WF_relink st mem' :
  WF st →
  (∀ c, c ∈ canons (PG_Canons_By_Hash st) → ∃ syns, ring mem' c syns) →
  (∀ y ny', mem' !! y = Some ny' →
     ∃ ny, series st !! y = Some ny ∧ STR_HEAD ny = STR_HEAD ny') →
  WF (mk_interner (PG_Canons_By_Hash st) (PG_Num_Canon_Slots_In_Use st)
        (PG_Num_Canon_Deleteds st) mem').
Proof.
  intros Hwf Hrings Hheads. split; simpl; try apply Hwf; [done| |].
  - intros c1 c2 n1 n2 Hc1 Hc2 Hn1 Hn2 Hci.
    destruct (Hheads c1 n1 Hn1) as (m1 & Hm1 & Hh1).
    destruct (Hheads c2 n2 Hn2) as (m2 & Hm2 & Hh2).
    apply (wf_class st Hwf c1 c2 m1 m2); try done. by rewrite Hh1, Hh2.
  - intros c1 n1 Hc1 Hn1. destruct (Hheads c1 n1 Hn1) as (m1 & Hm1 & Hh1).
    rewrite <- Hh1. by apply (wf_reach st Hwf).
Qed.







(* ------------------------------------------------------------------ *)
(** ** Symbol numbers                                                  *)
(* ------------------------------------------------------------------ *)

Lemma SAME_SYM_NONZERO_set node sym :
  0 < sym < 2 ^ 16 → SAME_SYM_NONZERO (header_sym (set_sym node sym)) sym = true.
Proof.
  intros Hsym. unfold SAME_SYM_NONZERO. simpl. rewrite Z.mod_small by lia.
  rewrite Z.eqb_refl. apply negb_true_iff, Z.eqb_neq. lia.
Qed.

(** The tagging loop of [Startup_Symbols] over the ring members [l]. *)
Lemma tag_ring_spec c sym l : 0 < sym < 2 ^ 16 → ∀ fuel mem,
  (∀ y, y ∈ l → ∃ n, mem !! y = Some n ∧ header_sym n = 0) →
  l ≠ [] → linked mem l c → NoDup l → c ∉ tail l → (length l ≤ fuel)%nat →
  ∃ mem', tag_ring fuel mem c (hd c l) sym = Some mem'
    ∧ (∀ y, y ∈ l → ∃ n, mem !! y = Some n ∧ mem' !! y = Some (set_sym n sym))
    ∧ (∀ y, y ∉ l → mem' !! y = mem !! y).
Proof.
  intros Hsym.
  induction l as [|y l IH]; intros fuel mem Hzero Hne Hl Hnd Hc Hfuel; [done|].
  destruct fuel as [|fuel]; [simpl in Hfuel; lia|].
  destruct Hl as [(node & Hnode & Hlink) Hl].
  apply NoDup_cons in Hnd as [Hy Hnd].
  cbn [tag_ring hd]. rewrite Hnode.
  destruct (Hzero y) as (node0 & Hnode0 & Hz); [by left|].
  rewrite Hnode in Hnode0. injection Hnode0 as <-.
  rewrite Hz, (SAME_SYM_NONZERO_set node sym Hsym). simpl negb. cbv iota zeta.
  destruct l as [|z l].
  - simpl in Hlink. rewrite Hlink, N.eqb_refl. eexists. split; [done|]. split.
    + intros y' ->%list_elem_of_singleton. exists node. by rewrite lookup_insert_eq.
    + intros y' Hy'. apply lookup_insert_ne. intros ->. apply Hy'. by left.
  - simpl in Hlink, Hc. rewrite Hlink.
    destruct (N.eqb_spec z c) as [->|Hzc]; [exfalso; apply Hc; by left|].
    destruct (IH fuel (<[y := set_sym node sym]> mem)) as (mem' & Hrun & Hin & Hout).
    + intros y' Hy'. destruct (Hzero y') as (n & Hn & Hn0); [by right|].
      exists n. split; [|done]. rewrite lookup_insert_ne; [done|]. by intros ->.
    + done.
    + apply (linked_agree mem); [|done]. intros y' Hy'. apply lookup_insert_ne.
      by intros ->.
    + done.
    + simpl. intros Hin. apply Hc. by right.
    + simpl in *. lia.
    + exists mem'. split; [exact Hrun|]. split.
      * intros y' [->|Hy']%elem_of_cons.
        -- exists node. split; [done|]. rewrite Hout by done. apply lookup_insert_eq.
        -- destruct (Hin y' Hy') as (n & Hn & Hn'). exists n. split; [|done].
           rewrite lookup_insert_ne in Hn; [done|]. by intros ->.
      * intros y' Hy'. rewrite Hout.
        -- apply lookup_insert_ne. intros ->. apply Hy'. by left.
        -- intros Hin'. apply Hy'. by right.
Qed.

(** A store in which the members of the ring of [c] carry the symbol
    number [sym], and nothing else has changed. *)
Definition tagged (mem mem' : gmap N REBSER) (c : N) (syns : list N) (sym : Z) : Prop :=
  (∀ y, y ∈ c :: syns → ∃ n, mem !! y = Some n ∧ mem' !! y = Some (set_sym n sym))
  ∧ (∀ y, y ∉ c :: syns → mem' !! y = mem !! y).

Lemma tagged_data mem mem' c syns sym y ny' :
  tagged mem mem' c syns sym → mem' !! y = Some ny' →
  ∃ ny, mem !! y = Some ny ∧ STR_HEAD ny = STR_HEAD ny'
        ∧ STRING_INFO_CANON ny = STRING_INFO_CANON ny'
        ∧ LINK_synonym ny = LINK_synonym ny'
        ∧ (y ∈ c :: syns → header_sym ny' = sym mod 2 ^ 16)
        ∧ (y ∉ c :: syns → ny' = ny).
Proof.
  intros [Hin Hout] Hy. destruct (decide (y ∈ c :: syns)) as [Hyin|Hyout].
  - destruct (Hin y Hyin) as (n & Hn & Hn'). rewrite Hy in Hn'. injection Hn' as ->.
    exists n. by split_and!.
  - rewrite (Hout y Hyout) in Hy. exists ny'. by split_and!.
Qed.

Lemma tagged_ring mem mem' c syns sym :
  ring mem c syns → tagged mem mem' c syns sym → ring mem' c syns.
Proof.
  intros Hr Htag.
  assert (∀ y, y ∈ c :: syns → ∃ n, mem !! y = Some n ∧ mem' !! y = Some (set_sym n sym))
    as Hin by apply Htag.
  split.
  - apply (linked_same_links mem); [|apply Hr]. intros y n Hy Hn.
    destruct (Hin y Hy) as (n0 & Hn0 & Hn'). exists (set_sym n0 sym).
    split; [done|]. simpl. congruence.
  - apply Hr.
  - destruct (ring_canon _ _ _ Hr) as (nc & Hnc & Hflag).
    destruct (Hin c) as (n0 & Hn0 & Hn'); [by left|].
    exists (set_sym n0 sym). split; [done|]. simpl. congruence.
  - intros y Hy.
    destruct (ring_syns _ _ _ Hr y Hy) as (ny & nc & Hny & Hnc & Hflag & Hci & _).
    destruct (Hin y) as (ny0 & Hny0 & Hny'); [by right|].
    destruct (Hin c) as (nc0 & Hnc0 & Hnc'); [by left|].
    exists (set_sym ny0 sym), (set_sym nc0 sym). split_and!; try done; simpl; congruence.
  - intros a b na' nb' Ha Hb Hna' Hnb' Heq.
    destruct (tagged_data _ _ _ _ _ a na' Htag Hna') as (na & Hna & Hha & _).
    destruct (tagged_data _ _ _ _ _ b nb' Htag Hnb') as (nb & Hnb & Hhb & _).
    apply (ring_spellings _ _ _ Hr a b na nb); try done. congruence.
Qed.

Lemma tagged_WF st mem' c syns sym :
  WF st → c ∈ canons (PG_Canons_By_Hash st) → ring (series st) c syns →
  tagged (series st) mem' c syns sym →
  WF (mk_interner (PG_Canons_By_Hash st) (PG_Num_Canon_Slots_In_Use st)
        (PG_Num_Canon_Deleteds st) mem').
Proof.
  intros Hwf Hc Hr Htag. apply WF_relink; [done| |].
  - intros c' Hc'. destruct (decide (c' = c)) as [->|Hne].
    + exists syns. by apply (tagged_ring (series st) _ _ _ sym).
    + destruct (wf_ring st Hwf c' Hc') as [syns' Hr']. exists syns'.
      apply (other_ring_frame (series st) _ c syns); try done. apply Htag.
  - intros y ny' Hy.
    destruct (tagged_data _ _ _ _ _ y ny' Htag Hy) as (ny & ? & ? & _). by exists ny.
Qed.

Lemma tag_ring_tagged mem c syns sym fuel :
  ring mem c syns → (size mem ≤ fuel)%nat →
  0 < sym < 2 ^ 16 → header_sym <$> mem !! c = Some 0 →
  ∃ mem', tag_ring fuel mem c c sym = Some mem' ∧ tagged mem mem' c syns sym.
Proof.
  intros Hr Hfuel Hsym Hzero. pose proof (ring_length _ _ _ Hr) as Hlen.
  pose proof (ring_NoDup _ _ _ Hr) as Hnd.
  destruct (tag_ring_spec c sym (c :: syns) Hsym fuel mem)
    as (mem' & Hrun & Hin & Hout).
  - destruct (mem !! c) as [nc|] eqn:Hnc; [|done]. simpl in Hzero.
    injection Hzero as Hzero.
    intros y [->|Hy]%elem_of_cons; [by exists nc|].
    destruct (ring_syns _ _ _ Hr y Hy) as (ny & nc' & Hny & Hnc' & _ & _ & Hsame).
    exists ny. split; [done|]. congruence.
  - done.
  - apply Hr.
  - done.
  - simpl. by apply NoDup_cons in Hnd as [? _].
  - simpl. lia.
  - exists mem'. split; [exact Hrun|]. by split.
Qed.

Lemma tagged_size mem mem' c syns sym : tagged mem mem' c syns sym → size mem' = size mem.
Proof.
  intros Htag. rewrite <- !size_dom. f_equal. apply set_eq. intros y.
  rewrite !elem_of_dom. split.
  - intros [ny' Hy]. destruct (tagged_data _ _ _ _ _ y ny' Htag Hy) as (ny & ? & _).
    by exists ny.
  - intros [ny Hy]. destruct Htag as [Hin Hout].
    destruct (decide (y ∈ c :: syns)) as [Hyin|Hyout].
    + destruct (Hin y Hyin) as (n & _ & Hn'). by eexists.
    + rewrite (Hout y Hyout). by exists ny.
Qed.

Lemma tagged_registered st mem' c syns sym a bytes c' :
  WF st → c ∈ canons (PG_Canons_By_Hash st) → ring (series st) c syns →
  tagged (series st) mem' c syns sym →
  registered st a bytes c' →
  registered (mk_interner (PG_Canons_By_Hash st) (PG_Num_Canon_Slots_In_Use st)
                (PG_Num_Canon_Deleteds st) mem') a bytes c'.
Proof.
  intros Hwf Hc Hr Htag (Hc' & syns' & node & Hr' & Hin & Hnode & Hbytes).
  split; [done|]. simpl.
  assert (∃ node', mem' !! a = Some node' ∧ STR_HEAD node' = bytes) as (node' & Hnode' & Hb').
  { destruct Htag as [Hin' Hout]. destruct (decide (a ∈ c :: syns)) as [Hain|Haout].
    - destruct (Hin' a Hain) as (n & Hn & Hn'). exists (set_sym n sym).
      split; [done|]. simpl. congruence.
    - exists node. by rewrite (Hout a Haout). }
  exists syns', node'. split_and!; try done.
  destruct (decide (c' = c)) as [->|Hne].
  - rewrite (ring_unique _ _ _ _ Hr' Hr). by apply (tagged_ring (series st) _ _ _ sym).
  - apply (other_ring_frame (series st) _ c syns); try done. apply Htag.
Qed.

(** The loop of [Startup_Symbols] over the words: the ring of the
    [k]-th word gets the number [sym + k + 1], and the other rings keep
    their nodes. *)
Lemma Startup_Symbols_loop_spec fuel words : ∀ st sym symbol_canons,
  WF st → Forall (λ w, w ∈ canons (PG_Canons_By_Hash st)) words → NoDup words →
  Forall (λ w, STR_SYMBOL (series st) w = Some 0) words →
  0 ≤ sym → sym + Z.of_nat (length words) < 2 ^ 16 →
  (size (series st) ≤ fuel)%nat →
  ∃ mem' symbol_canons',
    Startup_Symbols_loop fuel (series st) words sym symbol_canons
    = Some (mem', symbol_canons')
    ∧ WF (mk_interner (PG_Canons_By_Hash st) (PG_Num_Canon_Slots_In_Use st)
            (PG_Num_Canon_Deleteds st) mem')
    ∧ (∀ a bytes c, registered st a bytes c →
         registered (mk_interner (PG_Canons_By_Hash st) (PG_Num_Canon_Slots_In_Use st)
                       (PG_Num_Canon_Deleteds st) mem') a bytes c)
    ∧ (∀ k w a bytes, words !! k = Some w → registered st a bytes w →
         ∃ na, mem' !! a = Some na ∧ header_sym na = sym + Z.of_nat k + 1)
    ∧ (∀ a bytes c, registered st a bytes c → c ∉ words → mem' !! a = series st !! a)
    ∧ size mem' = size (series st).
Proof.
  induction words as [|w words IH];
    intros st sym symbol_canons Hwf Hall Hnd Hzero Hsym Hmax Hfuel.
  - simpl. eexists _, _. split; [reflexivity|]. split_and!.
    + by destruct st.
    + intros a bytes c Hreg. by destruct st.
    + intros k w a bytes Hk. by rewrite lookup_nil in Hk.
    + done.
    + done.
  - apply Forall_cons in Hall as [Hw Hall]. apply NoDup_cons in Hnd as [Hwout Hnd].
    apply Forall_cons in Hzero as [Hw0 Hzero]. simpl length in Hmax.
    destruct (wf_ring st Hwf w Hw) as [syns Hr].
    destruct (tag_ring_tagged (series st) w syns (sym + 1) fuel Hr Hfuel)
      as (mem1 & Hrun1 & Htag); [lia|exact Hw0|].
    set (st1 := mk_interner (PG_Canons_By_Hash st) (PG_Num_Canon_Slots_In_Use st)
                  (PG_Num_Canon_Deleteds st) mem1).
    assert (WF st1) as Hwf1 by (by apply (tagged_WF st mem1 w syns (sym + 1))).
    assert (Forall (λ w', STR_SYMBOL (series st1) w' = Some 0) words) as Hzero1.
    { apply Forall_forall. intros w' Hw'.
      rewrite Forall_forall in Hzero. rewrite Forall_forall in Hall.
      unfold STR_SYMBOL. simpl. rewrite (proj2 Htag w'); [by apply Hzero|].
      intros Hin. destruct (wf_ring st Hwf w' (Hall w' Hw')) as [syns' Hr'].
      assert (w' = w) as ->; [|done].
      apply (ring_disjoint (series st) w' w syns' syns w' Hr' Hr); [by left|done]. }
    destruct (IH st1 (sym + 1) (<[Z.to_nat (sym + 1) := Some w]> symbol_canons))
      as (mem' & tbl' & Hrun & Hwf' & Hreg' & Hsym' & Hframe' & Hsize'); try done.
    { lia. }
    { lia. }
    { simpl. by rewrite (tagged_size _ _ _ _ _ Htag). }
    simpl in Hrun, Hwf', Hreg', Hsym', Hframe', Hsize'.
    assert (∀ a bytes c, registered st a bytes c → registered st1 a bytes c) as Hreg1.
    { intros a bytes c. by apply (tagged_registered st mem1 w syns (sym + 1)). }
    exists mem', tbl'. split_and!.
    + simpl. by rewrite Hrun1.
    + done.
    + intros a bytes c Hreg. by apply Hreg', Hreg1.
    + intros k w' a bytes Hk Hreg. destruct k as [|k]; simpl in Hk.
      * injection Hk as <-.
        rewrite (Hframe' a bytes w (Hreg1 _ _ _ Hreg) Hwout).
        destruct Hreg as (_ & syns' & node & Hr' & Hin & Hnode & _).
        rewrite (ring_unique _ _ _ _ Hr' Hr) in Hin.
        destruct Htag as [Hin' _]. destruct (Hin' a Hin) as (n & Hn & Hn').
        exists (set_sym n (sym + 1)). split; [done|]. simpl.
        rewrite Z.mod_small by lia. lia.
      * destruct (Hsym' k w' a bytes Hk (Hreg1 _ _ _ Hreg)) as (na & Hna & Hh).
        exists na. split; [done|]. rewrite Hh. lia.
    + intros a bytes c Hreg Hc.
      rewrite (Hframe' a bytes c (Hreg1 _ _ _ Hreg)).
      * simpl. apply Htag. intros Hin.
        destruct Hreg as (_ & syns' & node & Hr' & Hin' & _).
        apply Hc, elem_of_cons. left.
        by apply (ring_disjoint (series st) c w syns' syns a).
      * intros Hin. apply Hc. by right.
    + by rewrite Hsize', (tagged_size _ _ _ _ _ Htag).
Qed.

(** The table the loop fills: the word numbered [sym + k + 1] is in slot
    [sym + k + 1], except the last one, whose slot takes the terminating
    [NULL]. *)
Lemma Startup_Symbols_loop_table fuel words : ∀ mem sym tbl mem' tbl',
  0 ≤ sym →
  Startup_Symbols_loop fuel mem words sym tbl = Some (mem', tbl') →
  length tbl' = length tbl
  ∧ (∀ i, (i < Z.to_nat sym)%nat → tbl' !! i = tbl !! i)
  ∧ (words ≠ [] → tbl' !! Z.to_nat sym = tbl !! Z.to_nat sym)
  ∧ (∀ k w, words !! k = Some w → (S k < length words)%nat →
       (Z.to_nat sym + S k < length tbl)%nat →
       tbl' !! (Z.to_nat sym + S k)%nat = Some (Some w)).
Proof.
  induction words as [|w words IH]; intros mem sym tbl mem' tbl' Hsym; simpl.
  - intros [= <- <-]. split_and!.
    + apply length_insert.
    + intros i Hi. apply list_lookup_insert_ne. lia.
    + done.
    + intros k w Hk. by rewrite lookup_nil in Hk.
  - destruct (tag_ring fuel mem w w (sym + 1)) as [mem1|]; [|done].
    intros Hrun.
    destruct (IH mem1 (sym + 1) _ mem' tbl' ltac:(lia) Hrun)
      as (Hlen & Hlow & Hat & Hwords).
    rewrite length_insert in Hlen, Hwords.
    replace (Z.to_nat (sym + 1)) with (S (Z.to_nat sym)) in * by lia.
    split_and!.
    + done.
    + intros i Hi. rewrite Hlow by lia. apply list_lookup_insert_ne. lia.
    + intros _. rewrite Hlow by lia. apply list_lookup_insert_ne. lia.
    + intros k w' Hk Hlast Hin. destruct k as [|k]; simpl in Hk, Hlast.
      * injection Hk as <-.
        replace (Z.to_nat sym + 1)%nat with (S (Z.to_nat sym)) by lia.
        rewrite Hat by (destruct words; [simpl in Hlast; lia|done]).
        apply list_lookup_insert_eq. lia.
      * replace (Z.to_nat sym + S (S k))%nat with (S (Z.to_nat sym) + S k)%nat by lia.
        apply Hwords; [done|lia|lia].
Qed.

Lemma c_str_names :
  c_str name_blank_x = name_blank_x ∧ c_str name_true = name_true
  ∧ c_str name_open = name_open.
Proof. by split_and!. Qed.

(** The word numbered [sym] is in the list [words], is not the last
    one, and is spelled [name]. *)
Definition word_at (st : interner) (words : list N) (sym : Z) (name : list Z) : Prop :=
  0 < sym < Z.of_nat (length words)
  ∧ ∃ c node, words !! Z.to_nat (sym - 1) = Some c
              ∧ series st !! c = Some node ∧ STR_HEAD node = name.

(** What a sanity check that lets the routine go on has found. *)
Definition checked (mem : gmap N REBSER) (symbol_canons : list (option N))
    (sym : Z) (name : list Z) : Prop :=
  ∃ c node, Canon symbol_canons sym = Some c ∧ mem !! c = Some node
            ∧ c_str (STR_HEAD node) = name.

Lemma sanity_check_Ok {A : Type} mem tbl sym name (next : option (Result Panic A)) r :
  sanity_check mem tbl sym name next = Some (Ok r) →
  checked mem tbl sym name ∧ next = Some (Ok r).
Proof.
  unfold sanity_check, checked.
  destruct (Canon tbl sym) as [c|]; [|done].
  destruct (mem !! c) as [node|] eqn:Hnode; [|done].
  case_bool_decide as Hname; [|done]. intros ->. split; [|done]. by exists c, node.
Qed.

Lemma sanity_check_passes {A : Type} mem tbl sym name (next : option (Result Panic A)) :
  checked mem tbl sym name → sanity_check mem tbl sym name next = next.
Proof.
  intros (c & node & Hc & Hnode & Hname). unfold sanity_check.
  by rewrite Hc, Hnode, bool_decide_eq_true_2.
Qed.

(** In a ring, every member has the number of the canon. *)
Lemma registered_symbol st a bytes c :
  registered st a bytes c →
  ∃ sym, STR_SYMBOL (series st) a = Some sym ∧ STR_SYMBOL (series st) c = Some sym.
Proof.
  intros (_ & syns & na & Hr & Hin & Hna & _).
  destruct (ring_canon _ _ _ Hr) as (nc & Hnc & _).
  exists (header_sym nc). unfold STR_SYMBOL. rewrite Hna, Hnc. simpl.
  split; [|done]. f_equal. by apply (ring_sym (series st) c syns a).
Qed.

(** C10: every interned symbol reports the symbol number of its canon.
    This holds of every symbol of a well-formed interner; interning
    keeps it, a new synonym reporting the number its canon had and a new
    canon reporting 0; and [Startup_Symbols] keeps it: given fewer than
    2^16 words that are canons still numbered 0, with [blank!], [true]
    and [open] at their numbers (none of them the last word, whose slot
    of the table takes the terminator), it returns, and every member of
    the ring of the [k]-th word reports [k + 1] while the symbols of the
    other rings report what they did.  It returns only when its three
    sanity checks have found their spellings. *)
Theorem symbol_number_of_canon st fuel :
  WF st → (size (series st) < fuel)%nat →
  (∀ a bytes c, registered st a bytes c →
     STR_CANON fuel (series st) a = Some c
     ∧ ∃ sym, STR_SYMBOL (series st) a = Some sym
              ∧ STR_SYMBOL (series st) c = Some sym)
  ∧ (∀ bytes,
       SER_LEN (PG_Canons_By_Hash st) < 2 ^ 31 - 1 →
       (Z.to_nat (grow (SER_LEN (PG_Canons_By_Hash st))) + size (series st) < fuel)%nat →
       ∃ a st' c sym,
         Intern_UTF8_Managed fuel st bytes = Some (Ok (a, st')) ∧ WF st'
         ∧ STR_CANON fuel (series st') a = Some c
         ∧ STR_SYMBOL (series st') a = Some sym
         ∧ STR_SYMBOL (series st') c = Some sym
         ∧ (series st !! a = None → a = c → sym = 0)
         ∧ (series st !! a = None → a ≠ c → STR_SYMBOL (series st) c = Some sym))
  ∧ (∀ words,
       Forall (λ w, w ∈ canons (PG_Canons_By_Hash st)) words → NoDup words →
       Forall (λ w, STR_SYMBOL (series st) w = Some 0) words →
       Z.of_nat (length words) < 2 ^ 16 →
       word_at st words SYM_BLANK_X name_blank_x →
       word_at st words SYM_TRUE name_true →
       word_at st words SYM_OPEN name_open →
       ∃ st' symbol_canons,
         Startup_Symbols fuel st words = Some (Ok (st', symbol_canons)) ∧ WF st'
         ∧ (∀ a bytes c, registered st a bytes c →
              STR_CANON fuel (series st') a = Some c
              ∧ ∃ sym, STR_SYMBOL (series st') a = Some sym
                       ∧ STR_SYMBOL (series st') c = Some sym)
         ∧ (∀ k w a bytes, words !! k = Some w → registered st a bytes w →
              STR_SYMBOL (series st') a = Some (Z.of_nat k + 1))
         ∧ (∀ a bytes c, registered st a bytes c → c ∉ words →
              STR_SYMBOL (series st') a = STR_SYMBOL (series st) a))
  ∧ (∀ words st' symbol_canons,
       Startup_Symbols fuel st words = Some (Ok (st', symbol_canons)) →
       checked (series st') symbol_canons SYM_BLANK_X name_blank_x
       ∧ checked (series st') symbol_canons SYM_TRUE name_true
       ∧ checked (series st') symbol_canons SYM_OPEN name_open).
Proof.
  intros Hwf Hfuel. split_and!.
  - intros a bytes c Hreg. split; [|by apply (registered_symbol st a bytes c)].
    apply (registered_STR_CANON st a bytes c); [done|lia].
  - intros bytes Hmax Hfuel'. unfold grow in Hfuel'.
    destruct (Intern_UTF8_Managed_full st bytes fuel Hwf Hmax Hfuel')
      as (a & st' & Hrun & Hwf' & [c Hreg] & _ & _ & Hsize & Hnew).
    destruct (registered_symbol st' a bytes c Hreg) as (sym & Hsa & Hsc).
    destruct (registered_canon_node st' a bytes c Hreg) as (nc & Hnc & Hflagc & _).
    exists a, st', c, sym. split_and!; try done.
    + apply (registered_STR_CANON st' a bytes c); [done|lia].
    + intros Hnone ->. destruct (Hnew Hnone) as (na & Hna & [[_ Hzero]|Hsyn]).
      * unfold STR_SYMBOL in Hsa. rewrite Hna in Hsa. simpl in Hsa. congruence.
      * destruct Hsyn as (_ & _ & Hfalse & _). congruence.
    + intros Hnone Hne. destruct (Hnew Hnone) as (na & Hna & [[Htrue _]|Hsyn]).
      * exfalso. destruct Hreg as (_ & syns & na' & Hr & Hin & Hna' & _).
        apply elem_of_cons in Hin as [?|Hin]; [done|].
        destruct (ring_syns _ _ _ Hr a Hin) as (na'' & _ & Hna'' & _ & Hfalse & _).
        congruence.
      * destruct Hsyn as (c' & nc' & _ & Hreg' & Hnc' & Hsym).
        assert (c' = c) as ->
          by (apply (registered_same_canon st' a a bytes bytes c' c Hwf' Hreg' Hreg),
                ci_equal_refl).
        unfold STR_SYMBOL in *. rewrite Hna in Hsa. rewrite Hnc'. simpl in *. congruence.
  - intros words Hall Hnd Hzero Hlen Hblank Htrue Hopen.
    destruct (Startup_Symbols_loop_spec fuel words st 0
                (replicate (1 + length words) None) Hwf Hall Hnd Hzero)
      as (mem' & tbl' & Hrun & Hwf' & Hreg' & Hsym' & Hframe' & Hsize'); [lia|lia|lia|].
    destruct (Startup_Symbols_loop_table fuel words _ 0 _ mem' tbl' ltac:(lia) Hrun)
      as (Hlen' & _ & _ & Htable).
    rewrite length_replicate in Hlen', Htable.
    assert (∀ sym name, word_at st words sym name → c_str name = name →
              checked mem' tbl' sym name) as Hcheck.
    { intros sym name [Hrange (c & node & Hc & Hnode & Hname)] Hstr.
      assert (c ∈ canons (PG_Canons_By_Hash st)) as Hcanon.
      { rewrite Forall_forall in Hall. apply Hall. by apply list_elem_of_lookup_2 in Hc. }
      destruct (wf_ring st Hwf c Hcanon) as [syns Hr].
      assert (registered st c name c) as Hreg.
      { split; [done|]. exists syns, node. split_and!; try done. by left. }
      destruct (Hreg' c name c Hreg) as (_ & syns' & node' & _ & _ & Hnode' & Hname').
      exists c, node'. split_and!; [|done|by rewrite Hname'].
      unfold Canon. destruct (sym <? 0) eqn:Hneg; [lia|].
      specialize (Htable (Z.to_nat (sym - 1)) c Hc ltac:(lia) ltac:(simpl; lia)).
      replace (Z.to_nat 0 + S (Z.to_nat (sym - 1)))%nat with (Z.to_nat sym) in Htable
        by lia.
      by rewrite Htable. }
    destruct c_str_names as (Hs1 & Hs2 & Hs3).
    unfold Startup_Symbols. rewrite Hrun.
    rewrite !sanity_check_passes by (by apply Hcheck).
    eexists _, _. split; [reflexivity|].
    split_and!; [done| | |].
    + intros a bytes c Hreg. specialize (Hreg' a bytes c Hreg).
      split; [|by apply (registered_symbol _ a bytes c)].
      apply (registered_STR_CANON _ a bytes c); [done|]. simpl. lia.
    + intros k w a bytes Hk Hreg.
      destruct (Hsym' k w a bytes Hk Hreg) as (na & Hna & Hh).
      unfold STR_SYMBOL. simpl. rewrite Hna. simpl. by rewrite Hh, Z.add_0_l.
    + intros a bytes c Hreg Hc. unfold STR_SYMBOL. simpl.
      by rewrite (Hframe' a bytes c Hreg Hc).
  - intros words st' symbol_canons. unfold Startup_Symbols.
    destruct (Startup_Symbols_loop _ _ _ _ _) as [[mem tbl]|]; [|done].
    intros H.
    apply sanity_check_Ok in H as [H1 H].
    apply sanity_check_Ok in H as [H2 H].
    apply sanity_check_Ok in H as [H3 H].
    injection H as <- <-. by split_and!.
Qed.

End Interning.

(* ------------------------------------------------------------------ *)
(** ** An instance: ASCII case folding, linear probing                 *)
(* ------------------------------------------------------------------ *)

Definition demo_lower (b : Z) : Z := if (65 <=? b) && (b <=? 90) then b + 32 else b.

Definition demo_Compare_UTF8 (s t : list Z) : Z :=
  if decide (s = t) then 0
  else if decide (demo_lower <$> s = demo_lower <$> t) then 1 else -1.

Definition demo_Hash_UTF8 (s : list Z) : Z :=
  foldr (λ b acc, (b + acc) mod 2 ^ 32) 0 (demo_lower <$> s).

Definition demo_First_Hash_Candidate_Slot (h n : Z) : Z * Z := (h mod n, 1).

Lemma demo_Compare_exact s t : demo_Compare_UTF8 s t = 0 ↔ s = t.
Proof. unfold demo_Compare_UTF8. repeat case_decide; split; (done || lia). Qed.

Lemma demo_ci_equal s t :
  ci_equal demo_Compare_UTF8 s t ↔ demo_lower <$> s = demo_lower <$> t.
Proof.
  unfold ci_equal, demo_Compare_UTF8. repeat case_decide; split; try (done || lia).
  intros _. by subst.
Qed.

Lemma demo_ci_equal_sym s t :
  ci_equal demo_Compare_UTF8 s t → ci_equal demo_Compare_UTF8 t s.
Proof. rewrite !demo_ci_equal. done. Qed.

Lemma demo_ci_equal_trans s t u :
  ci_equal demo_Compare_UTF8 s t → ci_equal demo_Compare_UTF8 t u →
  ci_equal demo_Compare_UTF8 s u.
Proof. rewrite !demo_ci_equal. congruence. Qed.

Lemma demo_Hash_ci s t :
  ci_equal demo_Compare_UTF8 s t → demo_Hash_UTF8 s = demo_Hash_UTF8 t.
Proof. rewrite demo_ci_equal. unfold demo_Hash_UTF8. by intros ->. Qed.

Lemma demo_slot_range h n : 0 < n → 0 ≤ (demo_First_Hash_Candidate_Slot h n).1 < n.
Proof. intros Hn. simpl. by apply Z.mod_pos_bound. Qed.

Lemma demo_skip_range h n : 0 < n → 0 < (demo_First_Hash_Candidate_Slot h n).2 ≤ n.
Proof. intros Hn. simpl. lia. Qed.

Lemma demo_probe_cover h n t :
  table_size n → 0 ≤ t < n →
  ∃ k, (k < Z.to_nat n)%nat
       ∧ nth_probe n (demo_First_Hash_Candidate_Slot h n).2
           (demo_First_Hash_Candidate_Slot h n).1 k = t.
Proof.
  intros Hsize Ht. pose proof (table_size_pos _ Hsize) as Hn. simpl.
  pose proof (Z.mod_pos_bound h n (proj1 Hn)) as Hh.
  pose proof (Z.mod_pos_bound (t - h mod n) n (proj1 Hn)) as Hd.
  exists (Z.to_nat ((t - h mod n) mod n)). split; [lia|].
  rewrite nth_probe_closed by lia.
  rewrite Z2Nat.id, Z.mul_1_r by lia.
  rewrite Zplus_mod_idemp_r.
  replace (h mod n + (t - h mod n)) with t by lia.
  by apply Z.mod_small.
Qed.

(* ------------------------------------------------------------------ *)
(** ** A small interner                                             *)
(* ------------------------------------------------------------------ *)

Definition demo_fuel : nat := 100.

Definition demo_Intern (st : interner) (bytes : list Z) :=
  Intern_UTF8_Managed demo_Hash_UTF8 demo_First_Hash_Candidate_Slot demo_Compare_UTF8
    demo_fuel st bytes.


Definition demo_intern (st : interner) (bytes : list Z) : interner :=
  match demo_Intern st bytes with
  | Some (Ok (_, st')) => st'
  | _ => st
  end.

Definition demo_Foo : list Z := [70; 111; 111].
Definition demo_foo : list Z := [102; 111; 111].
Definition demo_FOO : list Z := [70; 79; 79].
Definition demo_bar : list Z := [98; 97; 114].
Definition demo_baz : list Z := [98; 97; 122].
Definition demo_qux : list Z := [113; 117; 120].

(** The interner after the words Foo, foo, bar, baz and qux: the
    symbols 0 to 4, with 1 (foo) a synonym of the canon 0 (Foo); four
    of the seven slots are in use. *)
Definition demo_st : interner :=
  foldl demo_intern (Startup_Interning 7) [demo_Foo; demo_foo; demo_bar; demo_baz; demo_qux].

Abbreviation demo_WF :=
  (WF demo_Hash_UTF8 demo_First_Hash_Candidate_Slot demo_Compare_UTF8) (only parsing).

Lemma demo_intern_WF st bytes :
  demo_WF st → SER_LEN (PG_Canons_By_Hash st) < 2 ^ 31 - 1 →
  (Z.to_nat (first_prime_from Primes (SER_LEN (PG_Canons_By_Hash st) + 1))
   + size (series st) < demo_fuel)%nat →
  demo_WF (demo_intern st bytes).
Proof.
  intros Hwf Hmax Hfuel.
  destruct (Intern_UTF8_Managed_spec demo_Hash_UTF8 demo_First_Hash_Candidate_Slot
              demo_Compare_UTF8 demo_Compare_exact demo_ci_equal_sym demo_Hash_ci
              demo_slot_range demo_skip_range demo_probe_cover st bytes demo_fuel
              Hwf Hmax Hfuel) as (a & st' & Hrun & Hwf' & _).
  unfold demo_intern, demo_Intern. by rewrite Hrun.
Qed.

Lemma demo_table_size : table_size 7.
Proof. split; [right; by left|lia]. Qed.

Lemma demo_st_WF : demo_WF demo_st.
Proof.
  unfold demo_st. cbv [foldl].
  do 5 (apply demo_intern_WF; [|vm_compute; reflexivity|vm_compute; lia]).
  apply Startup_Interning_WF, demo_table_size.
Qed.

Lemma demo_spellings :
  STR_HEAD <$> series demo_st !! 0%N = Some demo_Foo
  ∧ STR_HEAD <$> series demo_st !! 1%N = Some demo_foo.
Proof. split; vm_compute; reflexivity. Qed.

Lemma demo_ring : ring demo_Compare_UTF8 (series demo_st) 0 [1%N].
Proof.
  destruct demo_spellings as [H0 H1]. split.
  - split; [|split; [|exact I]]; (eexists; split; [vm_compute; reflexivity|reflexivity]).
  - apply NoDup_cons. split; [|apply NoDup_singleton].
    intros Hin%list_elem_of_singleton. discriminate.
  - eexists. split; [vm_compute; reflexivity|reflexivity].
  - intros s ->%list_elem_of_singleton. eexists _, _.
    split_and!; [vm_compute; reflexivity|vm_compute; reflexivity|reflexivity| |reflexivity].
    apply demo_ci_equal. vm_compute. reflexivity.
  - intros a b na nb Ha Hb Hna Hnb Heq.
    apply elem_of_cons in Ha as [->|Ha%list_elem_of_singleton];
      apply elem_of_cons in Hb as [->|Hb%list_elem_of_singleton]; subst;
      [reflexivity| | |reflexivity];
      rewrite Hna in *; rewrite Hnb in *; cbn [fmap option_fmap option_map] in *;
      unfold demo_Foo, demo_foo in *; congruence.
Qed.

Lemma demo_canon : (0%N : N) ∈ canons (PG_Canons_By_Hash demo_st).
Proof. apply elem_of_canons. exists 2. vm_compute. reflexivity. Qed.

Lemma demo_registered : registered demo_Compare_UTF8 demo_st 1 demo_foo 0.
Proof.
  split; [apply demo_canon|]. eexists [1%N], _.
  split_and!; [apply demo_ring|right; by left|vm_compute; reflexivity|reflexivity].
Qed.

Lemma interner_equivalence_classes_witness :
  ∃ a st1 b st2 a' st3 ca cb,
    demo_Intern demo_st demo_FOO = Some (Ok (a, st1))
    ∧ demo_Intern st1 demo_bar = Some (Ok (b, st2))
    ∧ demo_Intern st2 demo_FOO = Some (Ok (a', st3))
    ∧ a' = a
    ∧ (a = b ↔ demo_FOO = demo_bar)
    ∧ STR_CANON demo_fuel (series st3) a = Some ca
    ∧ STR_CANON demo_fuel (series st3) b = Some cb
    ∧ (ca = cb ↔ ci_equal demo_Compare_UTF8 demo_FOO demo_bar).
Proof.
  apply (interner_equivalence_classes demo_Hash_UTF8 demo_First_Hash_Candidate_Slot
           demo_Compare_UTF8 demo_Compare_exact demo_ci_equal_sym demo_ci_equal_trans
           demo_Hash_ci demo_slot_range demo_skip_range demo_probe_cover
           demo_st demo_FOO demo_bar demo_fuel demo_st_WF).
  - vm_compute. reflexivity.
  - vm_compute. lia.
Defined.

Lemma interner_growth_policy_witness :
  ∃ a st', demo_Intern demo_st [120] = Some (Ok (a, st'))
           ∧ SER_LEN (PG_Canons_By_Hash st') = 13.
Proof.
  pose proof (interner_growth_policy demo_Hash_UTF8 demo_First_Hash_Candidate_Slot
                demo_Compare_UTF8 demo_Compare_exact demo_ci_equal_sym
                demo_Hash_ci demo_slot_range demo_skip_range demo_probe_cover
                demo_st [120] demo_fuel demo_st_WF) as H.
  cbv zeta in H.
  destruct H as (_ & (a & st' & Hrun & Hlen) & _).
  - vm_compute. reflexivity.
  - vm_compute. lia.
  - exists a, st'. split; [exact Hrun|]. rewrite Hlen. vm_compute. reflexivity.
Defined.

Lemma growth_less_than_double :
  ∃ a st', demo_Intern demo_st [120] = Some (Ok (a, st'))
    ∧ PG_Num_Canon_Slots_In_Use demo_st > SER_LEN (PG_Canons_By_Hash demo_st) / 2
    ∧ SER_LEN (PG_Canons_By_Hash st') < 2 * SER_LEN (PG_Canons_By_Hash demo_st).
Proof. eexists _, _. split_and!; vm_compute; reflexivity. Qed.








Lemma demo_fuel_enough : (size (series demo_st) < demo_fuel)%nat.
Proof. vm_compute. lia. Qed.

Definition demo_TRUE : list Z := [84; 82; 85; 69].

(** The interner after the words blank!, true, TRUE, open and bar: the
    symbols 0 to 4, with 2 (TRUE) a synonym of the canon 1 (true). *)
Definition demo_boot : interner :=
  foldl demo_intern (Startup_Interning 7)
    [name_blank_x; name_true; demo_TRUE; name_open; demo_bar].

Lemma demo_boot_WF : demo_WF demo_boot.
Proof.
  unfold demo_boot. cbv [foldl].
  do 5 (apply demo_intern_WF; [|vm_compute; reflexivity|vm_compute; lia]).
  apply Startup_Interning_WF, demo_table_size.
Qed.

Lemma demo_boot_fuel : (size (series demo_boot) < demo_fuel)%nat.
Proof. vm_compute. lia. Qed.

Lemma demo_boot_canon (c : N) (i : Z) :
  slot_at (PG_Canons_By_Hash demo_boot) i = Some (Slot_Canon c) →
  c ∈ canons (PG_Canons_By_Hash demo_boot).
Proof. intros Hi. apply elem_of_canons. by exists i. Qed.

Lemma demo_boot_ring : ring demo_Compare_UTF8 (series demo_boot) 1 [2%N].
Proof.
  split.
  - split; [|split; [|exact I]]; (eexists; split; [vm_compute; reflexivity|reflexivity]).
  - apply NoDup_cons. split; [|apply NoDup_singleton].
    intros Hin%list_elem_of_singleton. discriminate.
  - eexists. split; [vm_compute; reflexivity|reflexivity].
  - intros s ->%list_elem_of_singleton. eexists _, _.
    split_and!; [vm_compute; reflexivity|vm_compute; reflexivity|reflexivity| |reflexivity].
    apply demo_ci_equal. vm_compute. reflexivity.
  - assert (STR_HEAD <$> series demo_boot !! 1%N = Some name_true) as H1
      by (vm_compute; reflexivity).
    assert (STR_HEAD <$> series demo_boot !! 2%N = Some demo_TRUE) as H2
      by (vm_compute; reflexivity).
    intros a b na nb Ha Hb Hna Hnb Heq.
    apply elem_of_cons in Ha as [->|Ha%list_elem_of_singleton];
      apply elem_of_cons in Hb as [->|Hb%list_elem_of_singleton]; subst;
      [reflexivity| | |reflexivity];
      rewrite Hna in *; rewrite Hnb in *; cbn [fmap option_fmap option_map] in *;
      unfold name_true, demo_TRUE in *; congruence.
Qed.

Lemma demo_boot_registered : registered demo_Compare_UTF8 demo_boot 2 demo_TRUE 1.
Proof.
  split; [apply (demo_boot_canon 1 1); vm_compute; reflexivity|]. eexists [2%N], _.
  split_and!; [apply demo_boot_ring|right; by left|vm_compute; reflexivity|reflexivity].
Qed.

Lemma symbol_number_of_canon_witness :
  ∃ st' symbol_canons,
    Startup_Symbols 1 2 3 demo_fuel demo_boot [0%N; 1%N; 3%N; 4%N]
    = Some (Ok (st', symbol_canons))
    ∧ STR_SYMBOL (series st') 2 = Some 2 ∧ STR_SYMBOL (series st') 1 = Some 2
    ∧ STR_CANON demo_fuel (series st') 2 = Some 1%N
    ∧ checked (series st') symbol_canons 2 name_true.
Proof.
  pose proof (symbol_number_of_canon demo_Hash_UTF8 demo_First_Hash_Candidate_Slot
                demo_Compare_UTF8 1 2 3 demo_Compare_exact demo_ci_equal_sym
                demo_ci_equal_trans demo_Hash_ci demo_slot_range demo_skip_range
                demo_probe_cover demo_boot demo_fuel demo_boot_WF demo_boot_fuel) as H.
  destruct H as (_ & _ & Hstartup & Hchecked).
  destruct (Hstartup [0%N; 1%N; 3%N; 4%N]) as (st' & tbl & Hrun & _ & Hcanon & Hsym & _).
  - apply Forall_cons. split; [apply (demo_boot_canon 0 0); vm_compute; reflexivity|].
    apply Forall_cons. split; [apply (demo_boot_canon 1 1); vm_compute; reflexivity|].
    apply Forall_cons. split; [apply (demo_boot_canon 3 2); vm_compute; reflexivity|].
    apply Forall_cons. split; [apply (demo_boot_canon 4 3); vm_compute; reflexivity|].
    apply Forall_nil_2.
  - apply (bool_decide_unpack _). vm_compute. exact I.
  - apply Forall_cons. split; [vm_compute; reflexivity|].
    apply Forall_cons. split; [vm_compute; reflexivity|].
    apply Forall_cons. split; [vm_compute; reflexivity|].
    apply Forall_cons. split; [vm_compute; reflexivity|].
    apply Forall_nil_2.
  - vm_compute. reflexivity.
  - split; [vm_compute; split; reflexivity|].
    eexists _, _. split; [|split]; vm_compute; reflexivity.
  - split; [vm_compute; split; reflexivity|].
    eexists _, _. split; [|split]; vm_compute; reflexivity.
  - split; [vm_compute; split; reflexivity|].
    eexists _, _. split; [|split]; vm_compute; reflexivity.
  - exists st', tbl. split; [exact Hrun|].
    pose proof (Hsym 1%nat 1%N 2%N demo_TRUE eq_refl demo_boot_registered) as H1.
    destruct (Hcanon 2%N demo_TRUE 1%N demo_boot_registered) as (Hc & sym & Ha & Hb).
    rewrite H1 in Ha. injection Ha as <-.
    split; [exact H1|]. split; [exact Hb|]. split; [exact Hc|].
    exact (proj1 (proj2 (Hchecked _ _ _ Hrun))).
Defined.

(** With [open] the last word, its slot of the table holds the
    terminator when the sanity check reads it. *)
Lemma Startup_Symbols_last_word :
  Startup_Symbols 1 2 3 demo_fuel demo_boot [0%N; 1%N; 3%N] = None.
Proof. vm_compute. reflexivity. Qed.

End Interner.

(* ================================================================== *)
(** * QUOTED! values (t-quoted.c)                                      *)
(* ================================================================== *)

Module Quoted.

(** The step of the kind byte per quoting level. *)
Definition REB_64 : Z := 64.

(** The payload of a cell: [payload.quoted] (the cell of the singular
    array and the depth) for a [REB_QUOTED] cell, the two words of any
    other kind otherwise. *)
Inductive Reb_Payload : Type :=
| Payload_Other (bits : Z)
| Payload_Quoted (cell : N) (depth : Z).

Record RELVAL : Type := mk_RELVAL {
  KIND_BYTE : Z;
  extra : Z;                 (* the binding, 0 when there is none *)
  payload : Reb_Payload
}.

Definition mutable_KIND_BYTE (v : RELVAL) (kind_byte : Z) : RELVAL :=
  mk_RELVAL kind_byte (extra v) (payload v).

(** The singular arrays that hold the inner cells of deep quotes, by
    node. *)
Abbreviation singulars := (gmap N RELVAL) (only parsing).

Inductive Error : Type :=
| Error_Invalid (count : Z).

Section Quoting.

(** The number of the kind QUOTED! (the enumeration of the kinds is in a
    generated header), a real kind below 64. *)
Variable REB_QUOTED : Z.
Hypothesis REB_QUOTED_kind : 0 < REB_QUOTED < REB_64.

(** Whether a cell of the kind has a binding in [extra]. *)
Variable Is_Bindable : RELVAL → bool.

(** Modelled from the spec: [VAL_NUM_QUOTES] is in a header outside the
    excerpt. "depth is observable as a small integer": the levels are in
    the kind byte ("kind byte +64 per quoting level, up to depth 3") or,
    for a [REB_QUOTED] cell, in [payload.quoted.depth], as the marking of
    m-gc.c reads it. *)
Definition VAL_NUM_QUOTES (v : RELVAL) : Z :=
  if KIND_BYTE v =? REB_QUOTED then
    match payload v with
    | Payload_Quoted _ depth => depth
    | Payload_Other _ => 0
    end
  else KIND_BYTE v / REB_64.

(** Modelled from the spec: [Quotify] is in a header outside the excerpt.
    "depth 1-3 is in-place (kind byte += 64*n); depth >= 4 allocates a
    singular wrapper", and "quoted cells of depth > 3 always occupy a
    singular array whose one inner cell is the unquoted form; all
    bindable inner cells share their binding with the wrapping quoted
    cell". A cell that is already [REB_QUOTED] is not wrapped again:
    "REB_QUOTED should not be contained in a quoted; instead, the depth of
    the existing literal should just have been incremented" (m-gc.c). *)
Definition Quotify (mem : singulars) (v : RELVAL) (depth : Z) : RELVAL * singulars :=
  if KIND_BYTE v =? REB_QUOTED then
    match payload v with
    | Payload_Quoted cell d =>
        (mk_RELVAL REB_QUOTED (extra v) (Payload_Quoted cell (d + depth)), mem)
    | Payload_Other _ => (v, mem)
    end
  else if KIND_BYTE v / REB_64 + depth <=? 3 then
    (mutable_KIND_BYTE v (KIND_BYTE v + REB_64 * depth), mem)
  else
    let a := fresh (dom mem) in
    let cell := mutable_KIND_BYTE v (KIND_BYTE v mod REB_64) in
    (mk_RELVAL REB_QUOTED (if Is_Bindable cell then extra cell else 0)
       (Payload_Quoted a (KIND_BYTE v / REB_64 + depth)),
     <[a := cell]> mem).

(** Modelled from the spec: [Unquotify] is in a header outside the
    excerpt. "unquote yields the inner value": levels in the kind byte
    are taken off the kind byte; a [REB_QUOTED] cell keeps its singular
    array while more than 3 levels are left, and otherwise becomes the
    inner cell with the levels that are left in its kind byte. Taking off
    more levels than there are is an error. *)
Definition Unquotify (mem : singulars) (v : RELVAL) (unquotes : Z) : option RELVAL :=
  if KIND_BYTE v =? REB_QUOTED then
    match payload v with
    | Payload_Quoted cell d =>
        if d <? unquotes then None
        else if d - unquotes >? 3 then
          Some (mk_RELVAL REB_QUOTED (extra v) (Payload_Quoted cell (d - unquotes)))
        else
          match mem !! cell with
          | Some inner =>
              Some (mutable_KIND_BYTE inner (KIND_BYTE inner + REB_64 * (d - unquotes)))
          | None => None
          end
    | Payload_Other _ => None
    end
  else if KIND_BYTE v / REB_64 <? unquotes then None
  else Some (mutable_KIND_BYTE v (KIND_BYTE v - REB_64 * unquotes)).

(** [Move_Value] copies the cell. *)
Definition Move_Value (v : RELVAL) : RELVAL := v.

(** [REBNATIVE(uneval)]; [count] is [VAL_INT32(ARG(count))]. *)
Definition uneval (mem : singulars) (optional : RELVAL) (REF_depth : bool) (count : Z)
  : Result Error (RELVAL * singulars) :=
  let depth := if REF_depth then count else 1 in
  if depth <? 0 then Fail (Error_Invalid count)
  else Ok (Quotify mem (Move_Value optional) depth).

(** [REBNATIVE(dequote)] *)
Definition dequote (mem : singulars) (optional : RELVAL) : option RELVAL :=
  Unquotify mem optional (VAL_NUM_QUOTES optional).

(** The cells the quoting routines hand out and take: a kind byte, with
    at most 3 levels in it; a [REB_QUOTED] cell has more than 3 levels
    and its singular array holds a cell with no level. *)
Definition wf_cell (mem : singulars) (v : RELVAL) : Prop :=
  0 ≤ KIND_BYTE v < 256
  ∧ (KIND_BYTE v = REB_QUOTED →
     ∃ cell depth inner,
       payload v = Payload_Quoted cell depth ∧ 3 < depth
       ∧ mem !! cell = Some inner ∧ 0 ≤ KIND_BYTE inner < REB_64
       ∧ KIND_BYTE inner ≠ REB_QUOTED).

Lemma mutable_KIND_BYTE_id v : mutable_KIND_BYTE v (KIND_BYTE v) = v.
Proof. by destruct v. Qed.

Lemma Quotify_num_quotes mem v depth :
  wf_cell mem v → 0 ≤ depth →
  VAL_NUM_QUOTES (Quotify mem v depth).1 = VAL_NUM_QUOTES v + depth.
Proof.
  intros [Hbyte Hq] Hd. unfold Quotify, VAL_NUM_QUOTES, REB_64 in *.
  destruct (Z.eqb_spec (KIND_BYTE v) REB_QUOTED) as [Heq|Hne].
  - destruct (Hq Heq) as (cell & d & inner & -> & _). simpl.
    by rewrite Z.eqb_refl.
  - destruct (KIND_BYTE v / 64 + depth <=? 3) eqn:Hle; simpl.
    + destruct (Z.eqb_spec (KIND_BYTE v + 64 * depth) REB_QUOTED) as [Heq|_].
      * assert (depth = 0) as -> by lia. lia.
      * rewrite (Z.mul_comm 64), Z.div_add by lia. done.
    + by rewrite Z.eqb_refl.
Qed.

Lemma Quotify_Unquotify mem v depth :
  wf_cell mem v → 0 ≤ depth →
  Unquotify (Quotify mem v depth).2 (Quotify mem v depth).1 depth = Some v.
Proof.
  intros [Hbyte Hq] Hd. unfold Quotify, Unquotify, REB_64 in *.
  destruct (Z.eqb_spec (KIND_BYTE v) REB_QUOTED) as [Heq|Hne].
  - destruct (Hq Heq) as (cell & d & inner & Hp & Hdepth & _). rewrite Hp. simpl.
    rewrite Z.eqb_refl.
    destruct (d + depth <? depth) eqn:Hlt; [lia|].
    replace (d + depth - depth) with d by lia.
    destruct (d >? 3) eqn:Hgt; [|lia].
    destruct v as [kb e p]. simpl in *. by subst.
  - assert (0 ≤ KIND_BYTE v / 64 ≤ 3) as Hlevels.
    { split; [apply Z.div_pos; lia|]. apply Z.lt_succ_r, Z.div_lt_upper_bound; lia. }
    destruct (KIND_BYTE v / 64 + depth <=? 3) eqn:Hle; simpl.
    + destruct (Z.eqb_spec (KIND_BYTE v + 64 * depth) REB_QUOTED) as [Heq|_].
      { assert (depth = 0) as -> by lia. lia. }
      rewrite (Z.mul_comm 64 depth), Z.div_add by lia.
      destruct (KIND_BYTE v / 64 + depth <? depth) eqn:Hlt; [lia|].
      unfold mutable_KIND_BYTE. simpl.
      rewrite Z.add_simpl_r.
      by destruct v.
    + rewrite Z.eqb_refl.
      destruct (KIND_BYTE v / 64 + depth <? depth) eqn:Hlt; [lia|].
      replace (KIND_BYTE v / 64 + depth - depth) with (KIND_BYTE v / 64) by lia.
      destruct (KIND_BYTE v / 64 >? 3) eqn:Hgt; [lia|].
      rewrite lookup_insert_eq. unfold mutable_KIND_BYTE. simpl.
      rewrite (Z.add_comm (KIND_BYTE v mod 64)), <- Z.div_mod by lia.
      by destruct v.
Qed.

Lemma Quotify_dequote mem v depth :
  wf_cell mem v → 0 ≤ depth →
  dequote (Quotify mem v depth).2 (Quotify mem v depth).1 = dequote mem v.
Proof.
  intros Hwf Hd. unfold dequote. rewrite Quotify_num_quotes by done.
  destruct Hwf as [Hbyte Hq].
  unfold Quotify, Unquotify, VAL_NUM_QUOTES, REB_64 in *.
  destruct (Z.eqb_spec (KIND_BYTE v) REB_QUOTED) as [Heq|Hne].
  - destruct (Hq Heq) as (cell & d & inner & Hp & Hdepth & _). rewrite Hp. simpl.
    rewrite Z.eqb_refl.
    destruct (d + depth <? d + depth) eqn:Hlt; [lia|].
    destruct (d <? d) eqn:Hlt'; [lia|].
    replace (d + depth - (d + depth)) with 0 by lia.
    replace (d - d) with 0 by lia. done.
  - assert (0 ≤ KIND_BYTE v / 64 ≤ 3) as Hlevels.
    { split; [apply Z.div_pos; lia|]. apply Z.lt_succ_r, Z.div_lt_upper_bound; lia. }
    destruct (KIND_BYTE v / 64 <? KIND_BYTE v / 64) eqn:Hlt0; [lia|].
    destruct (KIND_BYTE v / 64 + depth <=? 3) eqn:Hle; simpl.
    + destruct (Z.eqb_spec (KIND_BYTE v + 64 * depth) REB_QUOTED) as [Heq|_].
      { assert (depth = 0) as -> by lia. lia. }
      rewrite (Z.mul_comm 64 depth), Z.div_add by lia.
      destruct (KIND_BYTE v / 64 + depth <? KIND_BYTE v / 64 + depth) eqn:Hlt; [lia|].
      unfold mutable_KIND_BYTE. simpl. do 2 f_equal. lia.
    + rewrite Z.eqb_refl.
      destruct (KIND_BYTE v / 64 + depth <? KIND_BYTE v / 64 + depth) eqn:Hlt; [lia|].
      replace (KIND_BYTE v / 64 + depth - (KIND_BYTE v / 64 + depth)) with 0 by lia.
      simpl. rewrite lookup_insert_eq. unfold mutable_KIND_BYTE. simpl.
      do 2 f_equal. rewrite Z.mod_eq by lia. lia.
Qed.

(** C1 (amended): unquoting [d] levels from the result of quoting a
    value by [d] levels gives the value again, and the quote depth of the
    quoted result is the depth of the value plus [d], which is [d] for a
    value that carried no quote level. UNEVAL applies the levels it is
    asked for (one by default, an error for a negative count), and
    DEQUOTE takes all the levels off: it gives the value back when the
    value carried no level, and in general what DEQUOTE gives for the
    value itself. *)
Theorem quote_round_trip mem v d :
  wf_cell mem v → 0 ≤ d →
  let q := (Quotify mem v d).1 in
  let mem' := (Quotify mem v d).2 in
  Unquotify mem' q d = Some v
  ∧ VAL_NUM_QUOTES q = VAL_NUM_QUOTES v + d
  ∧ uneval mem v true d = Ok (q, mem')
  ∧ uneval mem v false d = Ok (Quotify mem v 1)
  ∧ (∀ n, n < 0 → uneval mem v true n = Fail (Error_Invalid n))
  ∧ dequote mem' q = dequote mem v
  ∧ (VAL_NUM_QUOTES v = 0 → dequote mem' q = Some v).
Proof.
  intros Hwf Hd q mem'. split_and!.
  - by apply Quotify_Unquotify.
  - by apply Quotify_num_quotes.
  - unfold uneval, Move_Value. destruct (d <? 0) eqn:Hlt; [lia|].
    subst q mem'. by destruct (Quotify mem v d).
  - done.
  - intros n Hn. unfold uneval. by destruct (n <? 0) eqn:Hlt; [|lia].
  - by apply Quotify_dequote.
  - intros Hzero. subst q mem'. rewrite Quotify_dequote by done.
    unfold dequote. rewrite Hzero.
    pose proof (Quotify_Unquotify mem v 0 Hwf (Z.le_refl 0)) as Hrt.
    destruct Hwf as [Hbyte Hq].
    unfold Quotify, Unquotify, VAL_NUM_QUOTES, REB_64 in *.
    destruct (Z.eqb_spec (KIND_BYTE v) REB_QUOTED) as [Heq|Hne].
    + destruct (Hq Heq) as (cell & depth & inner & Hp & Hdepth & _).
      rewrite Hp in Hzero. lia.
    + destruct (KIND_BYTE v / 64 <? 0) eqn:Hlt; [lia|].
      f_equal. rewrite Z.mul_0_r, Z.sub_0_r. apply mutable_KIND_BYTE_id.
Qed.

End Quoting.

(** ** An instance *)

(** A number for the kind QUOTED!, and cells whose binding is in use
    exactly when it is not 0. *)
Definition demo_REB_QUOTED : Z := 46.
Definition demo_Is_Bindable (v : RELVAL) : bool := negb (extra v =? 0).

(** A plain cell of kind 21, and the same cell with one quote level. *)
Definition demo_cell : RELVAL := mk_RELVAL 21 7 (Payload_Other 5).
Definition demo_quoted_cell : RELVAL := mk_RELVAL (21 + 64) 7 (Payload_Other 5).

Lemma demo_REB_QUOTED_kind : 0 < demo_REB_QUOTED < REB_64.
Proof. unfold demo_REB_QUOTED, REB_64. lia. Qed.

Lemma demo_wf_cell : wf_cell demo_REB_QUOTED ∅ demo_quoted_cell.
Proof. split; [simpl; lia|]. simpl. unfold demo_REB_QUOTED. lia. Qed.

Lemma quote_round_trip_witness :
  Unquotify demo_REB_QUOTED
    (Quotify demo_REB_QUOTED demo_Is_Bindable ∅ demo_quoted_cell 5).2
    (Quotify demo_REB_QUOTED demo_Is_Bindable ∅ demo_quoted_cell 5).1 5
  = Some demo_quoted_cell
  ∧ VAL_NUM_QUOTES demo_REB_QUOTED
      (Quotify demo_REB_QUOTED demo_Is_Bindable ∅ demo_quoted_cell 5).1 = 6.
Proof.
  pose proof (quote_round_trip demo_REB_QUOTED demo_REB_QUOTED_kind demo_Is_Bindable
                ∅ demo_quoted_cell 5 demo_wf_cell ltac:(lia)) as H.
  cbv zeta in H. destruct H as (Hrt & Hdepth & _).
  split; [exact Hrt|]. rewrite Hdepth. reflexivity.
Defined.

(** Quoting a value that has a quote level by one level gives depth 2,
    not 1, and DEQUOTE of the result is the cell without any level, not
    the value that was quoted. *)
Lemma quote_depth_adds_up :
  ∃ q mem',
    uneval demo_REB_QUOTED demo_Is_Bindable ∅ demo_quoted_cell true 1 = Ok (q, mem')
    ∧ VAL_NUM_QUOTES demo_REB_QUOTED q = 2
    ∧ VAL_NUM_QUOTES demo_REB_QUOTED q ≠ 1
    ∧ dequote demo_REB_QUOTED mem' q = Some demo_cell
    ∧ dequote demo_REB_QUOTED mem' q ≠ Some demo_quoted_cell.
Proof. eexists _, _. split_and!; [reflexivity|reflexivity|done|reflexivity|done]. Qed.

End Quoted.

(* ================================================================== *)
(** * The garbage collector (m-gc.c)                                   *)
(* ================================================================== *)

Module GC.

(** The node flags of the first byte of a header, [FLAG_LEFT_BIT(0)] to
    [FLAG_LEFT_BIT(3)]: after [FIRST_BYTE(header) >> 4] they are 8, 4, 2
    and 1, as the static assertions of [Sweep_Series] say. *)
Definition NODE_FLAG_NODE : Z := 128.
Definition NODE_FLAG_FREE : Z := 64.
Definition NODE_FLAG_MANAGED : Z := 32.
Definition NODE_FLAG_MARKED : Z := 16.

(** What the marking of a cell, or of a link or misc field, does to a
    node. Nodes are named by their place in the series pool. *)
Inductive Ref : Type :=
| Ref_Array (a : nat)     (* Queue_Mark_Array_Deep: a plain array *)
| Ref_Subclass (a : nat)  (* Queue_Mark_Array_Subclass_Deep and its typed
                             forms: a varlist, paramlist, pairlist, keylist *)
| Ref_Series (s : nat)    (* Mark_Rebser_Only: a string, binary, spelling,
                             hash list, quoted singular *)
| Ref_Node (s : nat).     (* header.bits |= NODE_FLAG_MARKED: a pairing, the
                             singular of a handle *)

(** A unit of the series pool. [contents] lists, in order, what
    [Propagate_All_GC_Marks] marks for an array (its subclass fields:
    details, underlying, specialty, meta, keylist, ancestor, hash list;
    then its cells, none for an inaccessible array), and what
    [Mark_Root_Series] marks for an API handle or an unmanaged array.
    [LINK_file] is the file of an array with [ARRAY_FLAG_FILE_LINE],
    [LINK_owner] the owner of an API handle. The array subclass flags
    and the dynamic flag, which the collector reads only in assertions
    about the shape of a series, are not kept. *)
Record REBSER : Type := mk_REBSER {
  FIRST_BYTE : Z;
  NODE_FLAG_CELL : bool;
  NODE_FLAG_ROOT : bool;
  NODE_FLAG_STACK : bool;
  IS_SER_ARRAY : bool;
  SERIES_INFO_INACCESSIBLE : bool;
  VARLIST_FLAG_FRAME_FAILED : bool;
  LINK_owner : option nat;
  LINK_file : option nat;
  contents : list Ref
}.

Definition GET_SER_FLAG (s : REBSER) (flag : Z) : bool :=
  negb (Z.land (FIRST_BYTE s) flag =? 0).

Definition IS_FREE_NODE (s : REBSER) : bool := GET_SER_FLAG s NODE_FLAG_FREE.

Definition set_FIRST_BYTE (s : REBSER) (byte : Z) : REBSER :=
  mk_REBSER byte (NODE_FLAG_CELL s) (NODE_FLAG_ROOT s) (NODE_FLAG_STACK s)
    (IS_SER_ARRAY s) (SERIES_INFO_INACCESSIBLE s) (VARLIST_FLAG_FRAME_FAILED s)
    (LINK_owner s) (LINK_file s) (contents s).

(** [s->header.bits |= NODE_FLAG_MARKED] *)
Definition SET_MARKED (s : REBSER) : REBSER :=
  set_FIRST_BYTE s (Z.lor (FIRST_BYTE s) NODE_FLAG_MARKED).

(** [s->header.bits &= ~NODE_FLAG_MARKED] *)
Definition CLEAR_MARKED (s : REBSER) : REBSER :=
  set_FIRST_BYTE s (Z.land (FIRST_BYTE s) (Z.lnot NODE_FLAG_MARKED)).

(** What the marking phase reads and writes: the units of the series
    pool in segment order, and the mark stack (top first). *)
Record gc : Type := mk_gc {
  pool : list REBSER;
  GC_Mark_Stack : list nat
}.

(** The rest of the collector's view of the interpreter. [root_set] is
    what the passes after [Mark_Root_Series] start from, one group for
    each propagation: the natives, the symbol canons, the data stack,
    each guarded node, each frame, the devices. *)
Record state : Type := mk_state {
  mem : gc;
  TG_Reuse : list nat;
  GC_Disabled : bool;
  SIG_RECYCLE : bool;
  root_set : list (list Ref)
}.

(** [panic (s)], and a failed [assert] of the debug build. *)
Inductive Error : Type :=
| Panic (s : nat)
| Assertion (s : nat).

(** A routine that may panic, and that may run out of steps. *)
Definition M (A : Type) : Type := option (Result Error A).

Definition ret {A} (a : A) : M A := Some (Ok a).
Definition raise {A} (e : Error) : M A := Some (Fail e).
Definition bind {A B} (m : M A) (f : A → M B) : M B :=
  match m with
  | None => None
  | Some (Fail e) => Some (Fail e)
  | Some (Ok a) => f a
  end.

#[local] Notation "'let*' x ':=' m 'in' k" := (bind m (λ x, k))
  (at level 10, x name, m at level 100, k at level 200).

Section Collector.

(** The first byte of a freed unit: the node and free flags, a "special
    illegal UTF-8 byte". *)
Variable FREED_SERIES_BYTE : Z.
Hypothesis FREED_SERIES_BYTE_nibble : Z.shiftr FREED_SERIES_BYTE 4 = 12.

(** [Mem_Pools[SER_POOL].units]: the units of a segment. *)
Variable units : nat.

(** Modelled from the spec: [Free_Node] and [GC_Kill_Series] are in
    files outside the excerpt. The unit goes back to the pool: its header
    is the freed signature and what it held is gone. *)
Definition free_node : REBSER :=
  mk_REBSER FREED_SERIES_BYTE false false false false false false None None [].

Definition GC_Kill_Series (p : list REBSER) (s : nat) : list REBSER :=
  <[s := free_node]> p.

(** [Mark_Rebser_Only], with the checks of the debug build. *)
Definition Mark_Rebser_Only (s : nat) (st : gc) : M gc :=
  match pool st !! s with
  | None => raise (Panic s)
  | Some node =>
      if IS_FREE_NODE node then raise (Panic s)
      else if negb (GET_SER_FLAG node NODE_FLAG_MANAGED) then raise (Panic s)
      else ret (mk_gc (<[s := SET_MARKED node]> (pool st)) (GC_Mark_Stack st))
  end.

(** [s->header.bits |= NODE_FLAG_MARKED], where the source sets the bit
    with no check. *)
Definition Mark_Node (s : nat) (st : gc) : M gc :=
  match pool st !! s with
  | None => raise (Panic s)
  | Some node => ret (mk_gc (<[s := SET_MARKED node]> (pool st)) (GC_Mark_Stack st))
  end.

(** [Queue_Mark_Array_Subclass_Deep] *)
Definition Queue_Mark_Array_Subclass_Deep (a : nat) (st : gc) : M gc :=
  match pool st !! a with
  | None => raise (Panic a)
  | Some node =>
      if negb (IS_SER_ARRAY node) then raise (Panic a)
      else if GET_SER_FLAG node NODE_FLAG_MARKED then ret st
      else
        let* st' := Mark_Rebser_Only a st in
        ret (mk_gc (pool st') (a :: GC_Mark_Stack st'))
  end.

(** [Queue_Mark_Array_Deep] *)
Definition Queue_Mark_Array_Deep (a : nat) (st : gc) : M gc :=
  match pool st !! a with
  | None => raise (Panic a)
  | Some node =>
      let* st' :=
        match LINK_file node with
        | Some file => Mark_Node file st
        | None => ret st
        end in
      Queue_Mark_Array_Subclass_Deep a st'
  end.

(** One reference of a cell, as [Queue_Mark_Opt_End_Cell_Deep] treats
    it. *)
Definition Queue_Mark (r : Ref) (st : gc) : M gc :=
  match r with
  | Ref_Array a => Queue_Mark_Array_Deep a st
  | Ref_Subclass a => Queue_Mark_Array_Subclass_Deep a st
  | Ref_Series s => Mark_Rebser_Only s st
  | Ref_Node s => Mark_Node s st
  end.

(** [for (; NOT_END(v); ++v) Queue_Mark_Opt_Value_Deep(v);] *)
Fixpoint Queue_Mark_Values (refs : list Ref) (st : gc) : M gc :=
  match refs with
  | [] => ret st
  | r :: refs' => let* st' := Queue_Mark r st in Queue_Mark_Values refs' st'
  end.

(** [Propagate_All_GC_Marks] *)
Fixpoint Propagate_All_GC_Marks (fuel : nat) (st : gc) : M gc :=
  match fuel with
  | O => None
  | S fuel' =>
      match GC_Mark_Stack st with
      | [] => ret st
      | a :: stack =>
          match pool st !! a with
          | None => raise (Panic a)
          | Some node =>
              if negb (GET_SER_FLAG node NODE_FLAG_MARKED) then raise (Assertion a)
              else if negb (IS_SER_ARRAY node) then raise (Assertion a)
              else if IS_FREE_NODE node then raise (Assertion a)
              else
                let* st' := Queue_Mark_Values (contents node) (mk_gc (pool st) stack) in
                Propagate_All_GC_Marks fuel' st'
          end
      end
  end.

(** The body of the loop of [Mark_Root_Series], for the unit [s]. A
    managed API handle with no owner would be read through a null
    pointer: it is a panic here. *)
Definition Mark_Root_Unit (s : nat) (st : gc) : M gc :=
  match pool st !! s with
  | None => raise (Panic s)
  | Some node =>
      if IS_FREE_NODE node then ret st
      else if NODE_FLAG_ROOT node then
        if GET_SER_FLAG node NODE_FLAG_MARKED then raise (Assertion s)
        else if negb (GET_SER_FLAG node NODE_FLAG_MANAGED) then
          match LINK_owner node with
          | Some _ => raise (Assertion s)
          | None => Queue_Mark_Values (contents node) st
          end
        else
          match LINK_owner node with
          | None => raise (Panic s)
          | Some owner =>
              match pool st !! owner with
              | None => raise (Panic s)
              | Some onode =>
                  if negb (GET_SER_FLAG onode NODE_FLAG_MANAGED)
                  then raise (Assertion s)
                  else if SERIES_INFO_INACCESSIBLE onode then
                    if negb (VARLIST_FLAG_FRAME_FAILED onode) then raise (Panic s)
                    else ret (mk_gc (GC_Kill_Series (pool st) s) (GC_Mark_Stack st))
                  else
                    Queue_Mark_Values (contents node)
                      (mk_gc (<[s := SET_MARKED node]> (pool st)) (GC_Mark_Stack st))
              end
          end
      else if NODE_FLAG_CELL node then
        if NODE_FLAG_STACK node then raise (Assertion s)
        else if GET_SER_FLAG node NODE_FLAG_MANAGED then ret st
        else raise (Assertion s)
      else if IS_SER_ARRAY node then
        if GET_SER_FLAG node NODE_FLAG_MANAGED || NODE_FLAG_STACK node then ret st
        else
          let* st' :=
            match LINK_file node with
            | Some file => Mark_Node file st
            | None => ret st
            end in
          Queue_Mark_Values (contents node) st'
      else ret st
  end.

(** [Mark_Root_Series]: the units in segment order from [s] on, with a
    propagation at the end of each segment; [n] counts the units left in
    the segment. *)
Fixpoint Mark_Root_Units (fuel : nat) (count : nat) (s n : nat) (st : gc) : M gc :=
  match count with
  | O => ret st
  | S count' =>
      let* st' := Mark_Root_Unit s st in
      match n with
      | 1%nat => let* st'' := Propagate_All_GC_Marks fuel st' in
                 Mark_Root_Units fuel count' (S s) units st''
      | _ => Mark_Root_Units fuel count' (S s) (pred n) st'
      end
  end.

Definition Mark_Root_Series (fuel : nat) (st : gc) : M gc :=
  Mark_Root_Units fuel (length (pool st)) 0 units st.

(** [Mark_Natives], [Mark_Symbol_Series], [Mark_Data_Stack],
    [Mark_Guarded_Nodes], [Mark_Frame_Stack_Deep] and
    [Mark_Devices_Deep]: the references of each group are marked, then
    the marks are propagated. *)
Fixpoint Mark_Root_Set (fuel : nat) (groups : list (list Ref)) (st : gc) : M gc :=
  match groups with
  | [] => ret st
  | refs :: groups' =>
      let* st' := Queue_Mark_Values refs st in
      let* st'' := Propagate_All_GC_Marks fuel st' in
      Mark_Root_Set fuel groups' st''
  end.

(** One unit of [Sweep_Series]: the unit after the sweep, and what it
    adds to the count. *)
Definition Sweep_Unit (s : nat) (node : REBSER) : Result Error (REBSER * Z) :=
  match Z.shiftr (FIRST_BYTE node) 4 with
  | 8 => Ok (node, 0)
  | 10 =>
      if NODE_FLAG_CELL node && NODE_FLAG_ROOT node then Fail (Assertion s)
      else Ok (free_node, 1)
  | 11 => Ok (CLEAR_MARKED node, 0)
  | 12 =>
      if FIRST_BYTE node =? FREED_SERIES_BYTE then Ok (node, 0)
      else Fail (Assertion s)
  | _ => Fail (Panic s)
  end.

(** [Sweep_Series], from the unit [s] on. *)
Fixpoint Sweep_Units (s : nat) (p : list REBSER) (count : Z)
  : Result Error (list REBSER * Z) :=
  match p with
  | [] => Ok ([], count)
  | node :: p' =>
      match Sweep_Unit s node with
      | Fail e => Fail e
      | Ok (node', n) =>
          match Sweep_Units (S s) p' (wrap32 (count + n)) with
          | Fail e => Fail e
          | Ok (p'', count') => Ok (node' :: p'', count')
          end
      end
  end.

Definition Sweep_Series (p : list REBSER) : Result Error (list REBSER * Z) :=
  Sweep_Units 0 p 0.

(** [Recycle_Core(false, NULL)] *)
Definition Recycle_Core (fuel : nat) (st : state) : M (Z * state) :=
  if GC_Disabled st then
    ret (0, mk_state (mem st) (TG_Reuse st) (GC_Disabled st) true (root_set st))
  else
    match GC_Mark_Stack (mem st) with
    | _ :: _ => raise (Assertion 0)
    | [] =>
        let culled := foldl GC_Kill_Series (pool (mem st)) (TG_Reuse st) in
        let* st1 := Mark_Root_Series fuel (mk_gc culled []) in
        let* st2 := Mark_Root_Set fuel (root_set st) st1 in
        match GC_Mark_Stack st2 with
        | _ :: _ => raise (Assertion 0)
        | [] =>
            match Sweep_Series (pool st2) with
            | Fail e => raise e
            | Ok (p, count) =>
                ret (count, mk_state (mk_gc p []) [] (GC_Disabled st) (SIG_RECYCLE st)
                              (root_set st))
            end
        end
    end.

(** [Recycle], with or without [DOUBLE_RECYCLE_TEST]. *)
Definition Recycle (DOUBLE_RECYCLE_TEST : bool) (fuel : nat) (st : state)
  : M (Z * state) :=
  let* r := Recycle_Core fuel st in
  if DOUBLE_RECYCLE_TEST then
    let* r2 := Recycle_Core fuel r.2 in
    if r2.1 =? 0 then ret (r.1, r2.2) else raise (Assertion 0)
  else ret r.

(** ** Notions used in the proofs *)

Definition nibble (s : REBSER) : Z := Z.shiftr (FIRST_BYTE s) 4.

(** A unit is left alone, marked, or (an API handle whose frame failed)
    killed. *)
Definition node_step (n n' : REBSER) : Prop :=
  n' = n ∨ n' = SET_MARKED n
  ∨ ((n' = free_node ∨ n' = SET_MARKED free_node)
     ∧ GET_SER_FLAG n NODE_FLAG_MARKED = false
     ∧ GET_SER_FLAG n NODE_FLAG_MANAGED = true
     ∧ IS_FREE_NODE n = false).

Definition pool_step (p p' : list REBSER) : Prop := Forall2 node_step p p'.

(** The units that are not marked; the marking phase goes on for at most
    twice their number plus the height of the mark stack. *)
Fixpoint unmarked (p : list REBSER) : nat :=
  match p with
  | [] => 0
  | n :: p' => (if GET_SER_FLAG n NODE_FLAG_MARKED then 0 else 1) + unmarked p'
  end.

Definition potential (st : gc) : nat :=
  2 * unmarked (pool st) + length (GC_Mark_Stack st).

(** The pool with the units of [D] freed. *)
Definition free_set (D : nat → bool) (p : list REBSER) : list REBSER :=
  imap (λ i n, if D i then free_node else n) p.

Definition freed (D : nat → bool) (st : gc) : gc :=
  mk_gc (free_set D (pool st)) (GC_Mark_Stack st).

(** What holds of the units [D] that a recycle frees, and of the units
    [F] that were free before it, all along the marking phase... *)
Record Inv (D : nat → bool) (F : nat → Prop) (p : list REBSER) : Prop := {
  Inv_dead : ∀ i n, D i = true → p !! i = Some n →
    IS_FREE_NODE n = true ∨ GET_SER_FLAG n NODE_FLAG_MANAGED = true;
  Inv_owner : ∀ s n o on,
    D s = false → p !! s = Some n → IS_FREE_NODE n = false →
    NODE_FLAG_ROOT n = true → GET_SER_FLAG n NODE_FLAG_MANAGED = true →
    LINK_owner n = Some o → p !! o = Some on →
    GET_SER_FLAG on NODE_FLAG_MANAGED = true →
    SERIES_INFO_INACCESSIBLE on = false → D o = false;
  Inv_free : ∀ i n, F i → p !! i = Some n → IS_FREE_NODE n = true
}.

(** ... and at its end. *)
Record settled (D : nat → bool) (F : nat → Prop) (p : list REBSER) : Prop := {
  settled_dead : ∀ i n, D i = true → p !! i = Some n →
    GET_SER_FLAG n NODE_FLAG_MARKED = false;
  settled_kept : ∀ i n, D i = false → p !! i = Some n →
    IS_FREE_NODE n = true → F i
}.

(** A marking routine is [good] when it only marks or kills, does not
    raise the potential, and runs the same on a pool where units that
    stay unmarked have been freed. *)
Definition good (f : gc → M gc) : Prop :=
  ∀ st st', f st = Some (Ok st') →
    pool_step (pool st) (pool st')
    ∧ (potential st' ≤ potential st)%nat
    ∧ ∀ D F, Inv D F (pool st) → settled D F (pool st') →
        f (freed D st) = Some (Ok (freed D st')).

Definition target (r : Ref) : nat :=
  match r with
  | Ref_Array a | Ref_Subclass a => a
  | Ref_Series s | Ref_Node s => s
  end.

Definition is_marked (p : list REBSER) (s : nat) : Prop :=
  ∃ n, p !! s = Some n ∧ GET_SER_FLAG n NODE_FLAG_MARKED = true.

(** The units that are managed, not free and not marked. *)
Definition is_garbage (n : REBSER) : bool :=
  GET_SER_FLAG n NODE_FLAG_MANAGED && negb (IS_FREE_NODE n)
  && negb (GET_SER_FLAG n NODE_FLAG_MARKED).

Fixpoint garbage (p : list REBSER) : nat :=
  match p with
  | [] => 0
  | n :: p' => (if is_garbage n then 1 else 0) + garbage p'
  end.

Definition swept (n : REBSER) : REBSER :=
  if nibble n =? 10 then free_node else CLEAR_MARKED n.

(** The units on which the sweep does not stop. *)
Definition sweepable (n : REBSER) : Prop :=
  nibble n = 8
  ∨ (nibble n = 10 ∧ NODE_FLAG_CELL n && NODE_FLAG_ROOT n = false)
  ∨ nibble n = 11
  ∨ (nibble n = 12 ∧ FIRST_BYTE n = FREED_SERIES_BYTE).

Definition returns {A} (m : M A) : Prop := ∃ r, m = Some r.

(** The units that a recycle frees: those the sweep finds managed and
    not marked, and the API handles killed by [Mark_Root_Series]. *)
Definition dead_units (p0 pe : list REBSER) (i : nat) : bool :=
  match p0 !! i, pe !! i with
  | Some n0, Some ne =>
      (nibble ne =? 10) || (IS_FREE_NODE ne && negb (IS_FREE_NODE n0))
  | _, _ => false
  end.

Definition free_units (p0 : list REBSER) (i : nat) : Prop :=
  ∃ n0, p0 !! i = Some n0 ∧ IS_FREE_NODE n0 = true.

(** A reference is served when its target is marked and, for a plain
    array, the file of the array is marked too. *)
Definition ref_marked (p : list REBSER) (r : Ref) : Prop :=
  is_marked p (target r)
  ∧ match r with
    | Ref_Array a =>
        ∀ x f, p !! a = Some x → LINK_file x = Some f → is_marked p f
    | _ => True
    end.

(** A unit that is marked without being queued has nothing to
    propagate. *)
Definition leaf (p : list REBSER) (s : nat) : Prop :=
  ∀ x, p !! s = Some x → contents x = [].

Definition leaf_ref (p : list REBSER) (r : Ref) : Prop :=
  match r with
  | Ref_Series s | Ref_Node s => leaf p s
  | _ => True
  end.

Definition typed (p : list REBSER) : Prop :=
  ∀ i x, p !! i = Some x →
    (∀ r, r ∈ contents x → leaf_ref p r)
    ∧ (∀ f, LINK_file x = Some f → leaf p f).

(** Every marked unit is on the mark stack, or what it refers to is
    marked or is to be marked next ([todo]). *)
Definition closed (st : gc) (todo : list Ref) : Prop :=
  ∀ a x r, pool st !! a = Some x → GET_SER_FLAG x NODE_FLAG_MARKED = true →
    r ∈ contents x →
    a ∈ GC_Mark_Stack st ∨ ref_marked (pool st) r ∨ r ∈ todo.

(** What the roots reach in a pool. *)
Inductive reachable (p : list REBSER) (groups : list (list Ref)) : Ref → Prop :=
| reach_root g r : g ∈ groups → r ∈ g → reachable p groups r
| reach_contents r x r' :
    reachable p groups r → p !! target r = Some x → r' ∈ contents x →
    reachable p groups r'
| reach_file a x f :
    reachable p groups (Ref_Array a) → p !! a = Some x → LINK_file x = Some f →
    reachable p groups (Ref_Node f).




(** ** The flags of the first byte *)

Lemma flag_testbit b m :
  0 ≤ m → negb (Z.land b (2 ^ m) =? 0) = Z.testbit b m.
Proof.
  intros Hm. destruct (Z.testbit b m) eqn:Hb.
  - apply negb_true_iff, Z.eqb_neq. intros H0.
    assert (Z.testbit (Z.land b (2 ^ m)) m = true) as H
      by (by rewrite Z.land_spec, Hb, Z.pow2_bits_true).
    by rewrite H0, Z.bits_0 in H.
  - apply negb_false_iff, Z.eqb_eq, Z.bits_inj'. intros j Hj.
    rewrite Z.land_spec, Z.bits_0, Z.pow2_bits_eqb by done.
    destruct (Z.eqb_spec m j) as [->|_]; [by rewrite Hb|apply andb_false_r].
Qed.

Lemma flag_nibble s k :
  0 ≤ k → GET_SER_FLAG s (2 ^ (k + 4)) = Z.testbit (nibble s) k.
Proof.
  intros Hk. unfold GET_SER_FLAG, nibble.
  rewrite flag_testbit by lia. by rewrite Z.shiftr_spec by done.
Qed.

Lemma MARKED_nibble s : GET_SER_FLAG s NODE_FLAG_MARKED = Z.testbit (nibble s) 0.
Proof. by apply (flag_nibble s 0). Qed.

Lemma MANAGED_nibble s : GET_SER_FLAG s NODE_FLAG_MANAGED = Z.testbit (nibble s) 1.
Proof. by apply (flag_nibble s 1). Qed.

Lemma FREE_nibble s : IS_FREE_NODE s = Z.testbit (nibble s) 2.
Proof. by apply (flag_nibble s 2). Qed.

Lemma nibble_SET_MARKED s : nibble (SET_MARKED s) = Z.lor (nibble s) 1.
Proof. unfold nibble. simpl. by rewrite Z.shiftr_lor. Qed.

Lemma nibble_CLEAR_MARKED s : nibble (CLEAR_MARKED s) = Z.land (nibble s) (-2).
Proof. unfold nibble. simpl. by rewrite Z.shiftr_land. Qed.

Lemma SET_MARKED_MARKED s : GET_SER_FLAG (SET_MARKED s) NODE_FLAG_MARKED = true.
Proof.
  rewrite MARKED_nibble, nibble_SET_MARKED, Z.lor_spec. apply orb_true_r.
Qed.

Lemma SET_MARKED_MANAGED s :
  GET_SER_FLAG (SET_MARKED s) NODE_FLAG_MANAGED = GET_SER_FLAG s NODE_FLAG_MANAGED.
Proof.
  rewrite !MANAGED_nibble, nibble_SET_MARKED, Z.lor_spec. apply orb_false_r.
Qed.

Lemma SET_MARKED_FREE s : IS_FREE_NODE (SET_MARKED s) = IS_FREE_NODE s.
Proof.
  rewrite !FREE_nibble, nibble_SET_MARKED, Z.lor_spec. apply orb_false_r.
Qed.

Lemma SET_MARKED_idemp s : SET_MARKED (SET_MARKED s) = SET_MARKED s.
Proof.
  unfold SET_MARKED, set_FIRST_BYTE. simpl.
  by rewrite <- Z.lor_assoc, Z.lor_diag.
Qed.

Lemma CLEAR_MARKED_unmarked s :
  GET_SER_FLAG s NODE_FLAG_MARKED = false → CLEAR_MARKED s = s.
Proof.
  unfold GET_SER_FLAG, NODE_FLAG_MARKED. change 16 with (2 ^ 4).
  rewrite flag_testbit by done. intros Hb.
  destruct s as [b ? ? ? ? ? ? ? ? ?]. unfold CLEAR_MARKED, set_FIRST_BYTE.
  cbn [FIRST_BYTE NODE_FLAG_CELL NODE_FLAG_ROOT NODE_FLAG_STACK IS_SER_ARRAY
       SERIES_INFO_INACCESSIBLE VARLIST_FLAG_FRAME_FAILED LINK_owner LINK_file
       contents] in *.
  f_equal. apply Z.bits_inj'. intros j Hj.
  change NODE_FLAG_MARKED with (2 ^ 4).
  rewrite Z.land_spec, Z.lnot_spec, Z.pow2_bits_eqb by done.
  destruct (Z.eqb_spec 4 j) as [<-|_]; [by rewrite Hb|apply andb_true_r].
Qed.

Lemma CLEAR_MARKED_SET_MARKED s :
  GET_SER_FLAG s NODE_FLAG_MARKED = false → CLEAR_MARKED (SET_MARKED s) = s.
Proof.
  unfold GET_SER_FLAG, NODE_FLAG_MARKED. change 16 with (2 ^ 4).
  rewrite flag_testbit by done. intros Hb.
  destruct s as [b ? ? ? ? ? ? ? ? ?]. unfold CLEAR_MARKED, SET_MARKED, set_FIRST_BYTE.
  cbn [FIRST_BYTE NODE_FLAG_CELL NODE_FLAG_ROOT NODE_FLAG_STACK IS_SER_ARRAY
       SERIES_INFO_INACCESSIBLE VARLIST_FLAG_FRAME_FAILED LINK_owner LINK_file
       contents] in *.
  f_equal. apply Z.bits_inj'. intros j Hj.
  change NODE_FLAG_MARKED with (2 ^ 4).
  rewrite Z.land_spec, Z.lor_spec, Z.lnot_spec, Z.pow2_bits_eqb by done.
  destruct (Z.eqb_spec 4 j) as [<-|_]; [by rewrite Hb|].
  by rewrite orb_false_r, andb_true_r.
Qed.

Lemma CLEAR_MARKED_MARKED s : GET_SER_FLAG (CLEAR_MARKED s) NODE_FLAG_MARKED = false.
Proof.
  rewrite MARKED_nibble, nibble_CLEAR_MARKED, Z.land_spec. apply andb_false_r.
Qed.

Lemma free_node_nibble : nibble free_node = 12.
Proof. exact FREED_SERIES_BYTE_nibble. Qed.

Lemma free_node_MARKED : GET_SER_FLAG free_node NODE_FLAG_MARKED = false.
Proof. by rewrite MARKED_nibble, free_node_nibble. Qed.

Lemma free_node_MANAGED : GET_SER_FLAG free_node NODE_FLAG_MANAGED = false.
Proof. by rewrite MANAGED_nibble, free_node_nibble. Qed.

Lemma free_node_FREE : IS_FREE_NODE free_node = true.
Proof. by rewrite FREE_nibble, free_node_nibble. Qed.

(** ** What the marking phase does to a unit *)

Lemma node_step_refl n : node_step n n.
Proof. by left. Qed.

Lemma node_step_trans n1 n2 n3 :
  node_step n1 n2 → node_step n2 n3 → node_step n1 n3.
Proof.
  intros [->|[->|(Hk & Hm & Hg & Hf)]] H23; [done| |].
  - destruct H23 as [->|[->|(Hk & Hm & _)]].
    + by right; left.
    + right; left. apply SET_MARKED_idemp.
    + by rewrite SET_MARKED_MARKED in Hm.
  - right; right. split; [|done].
    destruct H23 as [->|[->|(_ & _ & _ & Hf3)]]; [done| |].
    + right. destruct Hk as [->| ->]; [done|apply SET_MARKED_idemp].
    + destruct Hk as [->| ->];
        by rewrite ?SET_MARKED_FREE, free_node_FREE in Hf3.
Qed.

Lemma node_step_MARKED n n' :
  node_step n n' → GET_SER_FLAG n NODE_FLAG_MARKED = true →
  GET_SER_FLAG n' NODE_FLAG_MARKED = true.
Proof.
  intros [->|[->|(_ & Hm & _)]] H; [done|apply SET_MARKED_MARKED|congruence].
Qed.

Lemma node_step_FREE n n' :
  node_step n n' → IS_FREE_NODE n = true → IS_FREE_NODE n' = true.
Proof.
  intros [->|[->|(_ & _ & _ & Hf)]] H;
    [done|by rewrite SET_MARKED_FREE|congruence].
Qed.

Lemma node_step_live n n' :
  node_step n n' → IS_FREE_NODE n' = false → n' = n ∨ n' = SET_MARKED n.
Proof.
  intros [->|[->|([->| ->] & _)]] H; auto;
    by rewrite ?SET_MARKED_FREE, free_node_FREE in H.
Qed.

Lemma node_step_MANAGED n n' :
  node_step n n' → GET_SER_FLAG n' NODE_FLAG_MANAGED = true →
  n' = n ∨ n' = SET_MARKED n.
Proof.
  intros [->|[->|([->| ->] & _)]] H; auto;
    by rewrite ?SET_MARKED_MANAGED, free_node_MANAGED in H.
Qed.

Lemma pool_step_refl p : pool_step p p.
Proof. apply Forall_Forall2_diag, Forall_forall. intros. apply node_step_refl. Qed.

Lemma pool_step_trans p1 p2 p3 :
  pool_step p1 p2 → pool_step p2 p3 → pool_step p1 p3.
Proof. apply Forall2_trans, node_step_trans. Qed.

Lemma pool_step_insert p s n n' :
  p !! s = Some n → node_step n n' → pool_step p (<[s := n']> p).
Proof.
  intros Hs Hn. rewrite <- (list_insert_id p s n) at 1 by done.
  apply Forall2_insert; [apply pool_step_refl|done].
Qed.

Lemma pool_step_lookup p p' i n :
  pool_step p p' → p !! i = Some n → ∃ n', p' !! i = Some n' ∧ node_step n n'.
Proof. intros H. by apply Forall2_lookup_l. Qed.

Lemma pool_step_lookup_r p p' i n' :
  pool_step p p' → p' !! i = Some n' → ∃ n, p !! i = Some n ∧ node_step n n'.
Proof. intros H. by apply Forall2_lookup_r. Qed.

Lemma pool_step_unmarked p p' : pool_step p p' → (unmarked p' ≤ unmarked p)%nat.
Proof.
  induction 1 as [|n n' p p' Hn _ IH]; [done|]. simpl.
  destruct (GET_SER_FLAG n NODE_FLAG_MARKED) eqn:Hm.
  - by rewrite (node_step_MARKED _ _ Hn Hm).
  - destruct (GET_SER_FLAG n' NODE_FLAG_MARKED); lia.
Qed.

Lemma unmarked_insert p s n :
  p !! s = Some n → GET_SER_FLAG n NODE_FLAG_MARKED = false →
  S (unmarked (<[s := SET_MARKED n]> p)) = unmarked p.
Proof.
  revert s. induction p as [|x p IH]; intros [|s] Hs Hm; try done; simpl in *.
  - injection Hs as ->. by rewrite SET_MARKED_MARKED, Hm.
  - rewrite <- (IH s Hs Hm). lia.
Qed.

Lemma lookup_free_set D p i :
  free_set D p !! i = (λ n, if D i then free_node else n) <$> p !! i.
Proof. apply list_lookup_imap. Qed.

Lemma free_set_insert D p s n :
  D s = false → free_set D (<[s := n]> p) = <[s := n]> (free_set D p).
Proof.
  intros Hs. apply list_eq. intros i. rewrite lookup_free_set.
  destruct (decide (i = s)) as [->|Hne].
  - destruct (p !! s) as [x|] eqn:Hx.
    + apply lookup_lt_Some in Hx as Hlt.
      rewrite !list_lookup_insert_eq, Hs; [done| |done].
      unfold free_set. by rewrite length_imap.
    + apply lookup_ge_None in Hx as Hge.
      rewrite !list_insert_ge, ?lookup_free_set, ?Hx; [done| |done].
      unfold free_set. by rewrite length_imap.
  - by rewrite !list_lookup_insert_ne, lookup_free_set.
Qed.

Lemma free_set_kill D p s n :
  D s = true → free_set D (<[s := n]> p) = free_set D p.
Proof.
  intros Hs. apply list_eq. intros i. rewrite !lookup_free_set.
  destruct (decide (i = s)) as [->|Hne].
  - rewrite Hs. destruct (p !! s) as [x|] eqn:Hx.
    + apply lookup_lt_Some in Hx as Hlt. by rewrite list_lookup_insert_eq.
    + apply lookup_ge_None in Hx as Hge. by rewrite list_insert_ge, Hx.
  - by rewrite list_lookup_insert_ne.
Qed.

Lemma Inv_step D F p p' : Inv D F p → pool_step p p' → Inv D F p'.
Proof.
  intros [Hd Ho Hf] Hs. split.
  - intros i n' Hi Hn'.
    destruct (pool_step_lookup_r _ _ _ _ Hs Hn') as (n & Hn & Hnn).
    destruct (IS_FREE_NODE n') eqn:Hfree; [by left|right].
    destruct (node_step_live _ _ Hnn Hfree) as [->| ->];
      rewrite ?SET_MARKED_FREE, ?SET_MARKED_MANAGED in *;
      destruct (Hd i n Hi Hn); congruence.
  - intros s n' o on' Hsd Hn' Hfree Hroot Hman Hown Hon' Hmo Hacc.
    destruct (pool_step_lookup_r _ _ _ _ Hs Hn') as (n & Hn & Hnn).
    destruct (pool_step_lookup_r _ _ _ _ Hs Hon') as (on & Hon & Hoo).
    assert (IS_FREE_NODE n = false ∧ NODE_FLAG_ROOT n = true
            ∧ GET_SER_FLAG n NODE_FLAG_MANAGED = true ∧ LINK_owner n = Some o)
      as (? & ? & ? & ?).
    { destruct (node_step_live _ _ Hnn Hfree) as [->| ->];
        by rewrite ?SET_MARKED_FREE, ?SET_MARKED_MANAGED in *. }
    assert (GET_SER_FLAG on NODE_FLAG_MANAGED = true
            ∧ SERIES_INFO_INACCESSIBLE on = false) as (? & ?).
    { destruct (node_step_MANAGED _ _ Hoo Hmo) as [->| ->];
        by rewrite ?SET_MARKED_MANAGED in *. }
    by apply (Ho s n o on).
  - intros i n' Hi Hn'.
    destruct (pool_step_lookup_r _ _ _ _ Hs Hn') as (n & Hn & Hnn).
    apply (node_step_FREE _ _ Hnn), (Hf i n Hi Hn).
Qed.

Lemma settled_back D F p p' : settled D F p' → pool_step p p' → settled D F p.
Proof.
  intros [Hd Hk] Hs. split.
  - intros i n Hi Hn.
    destruct (pool_step_lookup _ _ _ _ Hs Hn) as (n' & Hn' & Hnn).
    destruct (GET_SER_FLAG n NODE_FLAG_MARKED) eqn:Hm; [|done].
    rewrite <- (Hd i n' Hi Hn'). symmetry. by apply (node_step_MARKED n).
  - intros i n Hi Hn Hfree.
    destruct (pool_step_lookup _ _ _ _ Hs Hn) as (n' & Hn' & Hnn).
    apply (Hk i n' Hi Hn'), (node_step_FREE _ _ Hnn Hfree).
Qed.

Lemma settled_marked D F p i n :
  settled D F p → p !! i = Some n → GET_SER_FLAG n NODE_FLAG_MARKED = true →
  D i = false.
Proof.
  intros [Hd _] Hn Hm. destruct (D i) eqn:Hi; [|done].
  by rewrite (Hd i n Hi Hn) in Hm.
Qed.

Lemma good_ret : good ret.
Proof.
  intros st st' [= <-]. split; [apply pool_step_refl|]. by split.
Qed.

Lemma good_bind f g : good f → good g → good (λ st, bind (f st) g).
Proof.
  intros Hf Hg st st' H. unfold bind in H.
  destruct (f st) as [[st1|e]|] eqn:Hf1; try done.
  destruct (Hf _ _ Hf1) as (Hs1 & Hp1 & Hsim1).
  destruct (Hg _ _ H) as (Hs2 & Hp2 & Hsim2).
  split; [by apply (pool_step_trans _ (pool st1))|]. split; [lia|].
  intros D F HI Hset. unfold bind.
  rewrite (Hsim1 D F HI (settled_back D F _ _ Hset Hs2)).
  apply (Hsim2 D F); [by apply (Inv_step D F (pool st))|done].
Qed.

(** ** The marking routines are good *)

Lemma mark_good s n st :
  pool st !! s = Some n →
  pool_step (pool st) (<[s := SET_MARKED n]> (pool st))
  ∧ (unmarked (<[s := SET_MARKED n]> (pool st)) ≤ unmarked (pool st))%nat
  ∧ ∀ D F, settled D F (<[s := SET_MARKED n]> (pool st)) →
      free_set D (pool st) !! s = Some n
      ∧ free_set D (<[s := SET_MARKED n]> (pool st))
        = <[s := SET_MARKED n]> (free_set D (pool st)).
Proof.
  intros Hs.
  assert (pool_step (pool st) (<[s := SET_MARKED n]> (pool st))) as Hstep
    by (apply (pool_step_insert _ _ n); [done|by right; left]).
  split; [done|]. split; [by apply pool_step_unmarked|].
  intros D F Hset.
  assert (D s = false) as HD.
  { apply (settled_marked D F _ s (SET_MARKED n) Hset); [|apply SET_MARKED_MARKED].
    apply list_lookup_insert_eq. by apply lookup_lt_Some in Hs. }
  split; [by rewrite lookup_free_set, Hs, HD|by apply free_set_insert].
Qed.

Lemma good_Mark_Rebser_Only s : good (Mark_Rebser_Only s).
Proof.
  intros st st' H. unfold Mark_Rebser_Only in H.
  destruct (pool st !! s) as [n|] eqn:Hs; [|done].
  destruct (IS_FREE_NODE n) eqn:Hfree; [done|].
  destruct (GET_SER_FLAG n NODE_FLAG_MANAGED) eqn:Hman; [|done].
  injection H as <-. destruct (mark_good s n st Hs) as (Hstep & Hu & Hsim).
  split; [done|]. split; [unfold potential; simpl; lia|].
  intros D F _ Hset. destruct (Hsim D F Hset) as (Hq & Heq).
  unfold Mark_Rebser_Only, freed. simpl. by rewrite Hq, Hfree, Hman, Heq.
Qed.

Lemma good_Mark_Node s : good (Mark_Node s).
Proof.
  intros st st' H. unfold Mark_Node in H.
  destruct (pool st !! s) as [n|] eqn:Hs; [|done].
  injection H as <-. destruct (mark_good s n st Hs) as (Hstep & Hu & Hsim).
  split; [done|]. split; [unfold potential; simpl; lia|].
  intros D F _ Hset. destruct (Hsim D F Hset) as (Hq & Heq).
  unfold Mark_Node, freed. simpl. by rewrite Hq, Heq.
Qed.

Lemma good_Queue_Mark_Array_Subclass_Deep a :
  good (Queue_Mark_Array_Subclass_Deep a).
Proof.
  intros st st' H. unfold Queue_Mark_Array_Subclass_Deep in H.
  destruct (pool st !! a) as [n|] eqn:Hs; [|done].
  destruct (IS_SER_ARRAY n) eqn:Harr; [|done]. simpl in H.
  destruct (GET_SER_FLAG n NODE_FLAG_MARKED) eqn:Hm.
  - injection H as <-. split; [apply pool_step_refl|]. split; [done|].
    intros D F _ Hset. unfold Queue_Mark_Array_Subclass_Deep, freed. simpl.
    rewrite lookup_free_set, Hs, (settled_marked D F _ a n Hset Hs Hm). simpl.
    by rewrite Harr, Hm.
  - unfold Mark_Rebser_Only in H. rewrite Hs in H.
    destruct (IS_FREE_NODE n) eqn:Hfree; [done|].
    destruct (GET_SER_FLAG n NODE_FLAG_MANAGED) eqn:Hman; [|done].
    injection H as <-. destruct (mark_good a n st Hs) as (Hstep & Hu & Hsim).
    split; [done|]. split.
    { unfold potential. simpl. pose proof (unmarked_insert _ _ _ Hs Hm). lia. }
    intros D F _ Hset. destruct (Hsim D F Hset) as (Hq & Heq).
    unfold Queue_Mark_Array_Subclass_Deep, Mark_Rebser_Only, freed. simpl.
    rewrite Hq. simpl. by rewrite Harr, Hm, Hfree, Hman, <- Heq.
Qed.

Lemma good_Mark_file file :
  good (λ st, match file with Some f => Mark_Node f st | None => ret st end).
Proof. destruct file; [apply good_Mark_Node|apply good_ret]. Qed.

Lemma good_Queue_Mark_Array_Deep a : good (Queue_Mark_Array_Deep a).
Proof.
  intros st st' H. unfold Queue_Mark_Array_Deep in H.
  destruct (pool st !! a) as [n|] eqn:Hs; [|done].
  destruct (good_bind _ _ (good_Mark_file (LINK_file n))
              (good_Queue_Mark_Array_Subclass_Deep a) st st' H)
    as (Hstep & Hp & Hsim).
  split; [done|]. split; [done|]. intros D F HI Hset.
  unfold Queue_Mark_Array_Deep.
  change (pool (freed D st)) with (free_set D (pool st)).
  assert (free_set D (pool st) !! a = Some n) as ->; [|by apply (Hsim D F)].
  rewrite lookup_free_set, Hs. simpl. f_equal.
  unfold bind in H.
  destruct (match LINK_file n with Some f => Mark_Node f st | None => ret st end)
    as [[st1|?]|] eqn:H1; try done.
  destruct (good_Mark_file _ _ _ H1) as (Hs1 & _).
  destruct (good_Queue_Mark_Array_Subclass_Deep a _ _ H) as (Hs2 & _).
  unfold Queue_Mark_Array_Subclass_Deep in H.
  destruct (pool_step_lookup _ _ _ _ Hs1 Hs) as (n1 & Hn1 & Hnn1).
  rewrite Hn1 in H. destruct (IS_SER_ARRAY n1) eqn:Harr; [|done]. simpl in H.
  assert (∃ n', pool st' !! a = Some n'
                ∧ GET_SER_FLAG n' NODE_FLAG_MARKED = true) as (n' & Hn' & Hm').
  { destruct (GET_SER_FLAG n1 NODE_FLAG_MARKED) eqn:Hm1.
    - injection H as <-. by exists n1.
    - unfold Mark_Rebser_Only in H. rewrite Hn1 in H.
      destruct (IS_FREE_NODE n1); [done|].
      destruct (GET_SER_FLAG n1 NODE_FLAG_MANAGED); [|done].
      injection H as <-. exists (SET_MARKED n1). simpl.
      split; [|apply SET_MARKED_MARKED].
      apply list_lookup_insert_eq. by apply lookup_lt_Some in Hn1. }
  by rewrite (settled_marked D F _ a n' Hset Hn' Hm').
Qed.

Lemma good_Queue_Mark r : good (Queue_Mark r).
Proof.
  destruct r; simpl.
  - apply good_Queue_Mark_Array_Deep.
  - apply good_Queue_Mark_Array_Subclass_Deep.
  - apply good_Mark_Rebser_Only.
  - apply good_Mark_Node.
Qed.

Lemma good_Queue_Mark_Values refs : good (Queue_Mark_Values refs).
Proof.
  induction refs as [|r refs IH]; [apply good_ret|].
  apply (good_bind _ _ (good_Queue_Mark r) IH).
Qed.

Lemma good_Propagate_All_GC_Marks fuel : good (Propagate_All_GC_Marks fuel).
Proof.
  induction fuel as [|fuel IH]; intros st st' H; [done|]. simpl in H.
  destruct st as [p [|a stack]]; simpl in H.
  { injection H as <-. split; [apply pool_step_refl|]. by split. }
  destruct (p !! a) as [n|] eqn:Hs; [|done].
  destruct (GET_SER_FLAG n NODE_FLAG_MARKED) eqn:Hm; [|done].
  destruct (IS_SER_ARRAY n) eqn:Harr; [|done].
  destruct (IS_FREE_NODE n) eqn:Hfree; [done|]. simpl in H.
  destruct (good_bind _ _ (good_Queue_Mark_Values (contents n)) IH _ _ H)
    as (Hstep & Hp & Hsim).
  split; [done|]. split; [unfold potential in *; simpl in *; lia|].
  intros D F HI Hset. simpl. unfold freed at 1. simpl.
  rewrite lookup_free_set, Hs. simpl.
  rewrite (settled_marked D F p a n (settled_back D F _ _ Hset Hstep) Hs Hm).
  rewrite Hm, Harr, Hfree. simpl. by apply (Hsim D F).
Qed.

Lemma good_Mark_Root_Unit s : good (Mark_Root_Unit s).
Proof.
  intros st st' H. unfold Mark_Root_Unit in H.
  destruct (pool st !! s) as [n|] eqn:Hs; [|done].
  assert (∀ D, pool (freed D st) !! s = Some (if D s then free_node else n))
    as Hq by (intros D; simpl; by rewrite lookup_free_set, Hs).
  destruct (IS_FREE_NODE n) eqn:Hfree.
  { injection H as <-. split; [apply pool_step_refl|]. split; [done|].
    intros D F _ _. unfold Mark_Root_Unit. rewrite Hq.
    destruct (D s); by rewrite ?free_node_FREE, ?Hfree. }
  destruct (NODE_FLAG_ROOT n) eqn:Hroot.
  - destruct (GET_SER_FLAG n NODE_FLAG_MARKED) eqn:Hm; [done|].
    destruct (GET_SER_FLAG n NODE_FLAG_MANAGED) eqn:Hman; simpl in H.
    + destruct (LINK_owner n) as [o|] eqn:Hown; [|done].
      destruct (pool st !! o) as [on|] eqn:Hon; [|done].
      destruct (GET_SER_FLAG on NODE_FLAG_MANAGED) eqn:Hmo; [|done]. simpl in H.
      destruct (SERIES_INFO_INACCESSIBLE on) eqn:Hacc.
      * destruct (VARLIST_FLAG_FRAME_FAILED on); [|done]. simpl in H.
        injection H as <-. unfold GC_Kill_Series. simpl.
        assert (pool_step (pool st) (<[s := free_node]> (pool st))) as Hstep.
        { apply (pool_step_insert _ _ n); [done|]. right; right. by split; [left|]. }
        split; [done|].
        split; [unfold potential; simpl; apply pool_step_unmarked in Hstep; lia|].
        intros D F HI Hset. simpl in Hset. destruct (D s) eqn:HD.
        -- unfold Mark_Root_Unit. rewrite Hq, HD, free_node_FREE.
           unfold freed. simpl. by rewrite free_set_kill.
        -- assert (F s) as HF.
           { apply (settled_kept D F _ Hset s free_node HD); [|apply free_node_FREE].
             apply list_lookup_insert_eq. by apply lookup_lt_Some in Hs. }
           by rewrite (Inv_free D F _ HI s n HF Hs) in Hfree.
      * destruct (good_Queue_Mark_Values _ _ _ H) as (Hs2 & Hp2 & Hsim2).
        destruct (mark_good s n st Hs) as (Hs1 & Hu1 & Hsim1). simpl in *.
        split; [by apply (pool_step_trans _ _ _ Hs1)|].
        split; [unfold potential in *; simpl in *; lia|].
        intros D F HI Hset.
        pose proof (settled_back D F _ _ Hset Hs2) as Hset1.
        destruct (Hsim1 D F Hset1) as (Hqs & Heq).
        assert (D s = false) as HD.
        { apply (settled_marked D F _ s (SET_MARKED n) Hset1);
            [|apply SET_MARKED_MARKED].
          apply list_lookup_insert_eq. by apply lookup_lt_Some in Hs. }
        assert (D o = false) as HDo by (by apply (Inv_owner D F _ HI s n o on)).
        unfold Mark_Root_Unit.
        change (pool (freed D st)) with (free_set D (pool st)).
        rewrite Hqs, Hfree, Hroot, Hm, Hman. simpl.
        rewrite Hown, lookup_free_set, Hon, HDo. simpl. rewrite Hmo, Hacc. simpl.
        rewrite <- Heq. apply (Hsim2 D F); [|done].
        by apply (Inv_step D F (pool st)).
    + destruct (LINK_owner n) eqn:Hown; [done|].
      destruct (good_Queue_Mark_Values _ _ _ H) as (? & ? & Hsim).
      split; [done|]. split; [done|]. intros D F HI Hset.
      unfold Mark_Root_Unit. rewrite Hq. destruct (D s) eqn:HD.
      * destruct (Inv_dead D F _ HI s n HD Hs); congruence.
      * rewrite Hfree, Hroot, Hm, Hman. simpl. rewrite Hown. by apply (Hsim D F).
  - destruct (NODE_FLAG_CELL n) eqn:Hcell.
    + destruct (NODE_FLAG_STACK n) eqn:Hstack; [done|].
      destruct (GET_SER_FLAG n NODE_FLAG_MANAGED) eqn:Hman; [|done].
      injection H as <-. split; [apply pool_step_refl|]. split; [done|].
      intros D F _ _. unfold Mark_Root_Unit. rewrite Hq.
      destruct (D s); by rewrite ?free_node_FREE, ?Hfree, ?Hroot, ?Hcell, ?Hstack, ?Hman.
    + destruct (IS_SER_ARRAY n) eqn:Harr.
      * destruct (GET_SER_FLAG n NODE_FLAG_MANAGED || NODE_FLAG_STACK n) eqn:Hms.
        -- injection H as <-. split; [apply pool_step_refl|]. split; [done|].
           intros D F _ _. unfold Mark_Root_Unit. rewrite Hq.
           destruct (D s);
             by rewrite ?free_node_FREE, ?Hfree, ?Hroot, ?Hcell, ?Harr, ?Hms.
        -- destruct (good_bind _ _ (good_Mark_file (LINK_file n))
                       (good_Queue_Mark_Values (contents n)) st st' H)
             as (? & ? & Hsim).
           split; [done|]. split; [done|]. intros D F HI Hset.
           unfold Mark_Root_Unit. rewrite Hq. destruct (D s) eqn:HD.
           ++ apply orb_false_iff in Hms as [Hman _].
              destruct (Inv_dead D F _ HI s n HD Hs); congruence.
           ++ rewrite Hfree, Hroot, Hcell, Harr, Hms. by apply (Hsim D F).
      * injection H as <-. split; [apply pool_step_refl|]. split; [done|].
        intros D F _ _. unfold Mark_Root_Unit. rewrite Hq.
        destruct (D s); by rewrite ?free_node_FREE, ?Hfree, ?Hroot, ?Hcell, ?Harr.
Qed.

Lemma good_Mark_Root_Units fuel count :
  ∀ s n, good (Mark_Root_Units fuel count s n).
Proof.
  induction count as [|count IH]; intros s n; [apply good_ret|]. simpl.
  destruct n as [|[|n]].
  - apply (good_bind _ _ (good_Mark_Root_Unit s) (IH (S s) _)).
  - apply (good_bind _ _ (good_Mark_Root_Unit s)).
    apply (good_bind _ _ (good_Propagate_All_GC_Marks fuel) (IH (S s) _)).
  - apply (good_bind _ _ (good_Mark_Root_Unit s) (IH (S s) _)).
Qed.

Lemma good_Mark_Root_Set fuel groups : good (Mark_Root_Set fuel groups).
Proof.
  induction groups as [|refs groups IH]; [apply good_ret|]. simpl.
  apply (good_bind _ _ (good_Queue_Mark_Values refs)).
  apply (good_bind _ _ (good_Propagate_All_GC_Marks fuel) IH).
Qed.

(** ** What is referenced from a root is marked *)

Lemma is_marked_step p p' s : pool_step p p' → is_marked p s → is_marked p' s.
Proof.
  intros Hstep (n & Hn & Hm).
  destruct (pool_step_lookup _ _ _ _ Hstep Hn) as (n' & Hn' & Hnn).
  exists n'. split; [done|]. by apply (node_step_MARKED n).
Qed.

Lemma is_marked_insert p s n :
  p !! s = Some n → is_marked (<[s := SET_MARKED n]> p) s.
Proof.
  intros Hs. exists (SET_MARKED n). split; [|apply SET_MARKED_MARKED].
  apply list_lookup_insert_eq. by apply lookup_lt_Some in Hs.
Qed.

Lemma Queue_Mark_Array_Subclass_Deep_marks a st st' :
  Queue_Mark_Array_Subclass_Deep a st = Some (Ok st') → is_marked (pool st') a.
Proof.
  unfold Queue_Mark_Array_Subclass_Deep, Mark_Rebser_Only. intros H.
  destruct (pool st !! a) as [n|] eqn:Hs; [|done].
  destruct (IS_SER_ARRAY n); [|done]. simpl in H.
  destruct (GET_SER_FLAG n NODE_FLAG_MARKED) eqn:Hm.
  - injection H as <-. by exists n.
  - destruct (IS_FREE_NODE n); [done|].
    destruct (GET_SER_FLAG n NODE_FLAG_MANAGED); [|done].
    injection H as <-. by apply is_marked_insert.
Qed.

Lemma Queue_Mark_marks r st st' :
  Queue_Mark r st = Some (Ok st') → is_marked (pool st') (target r).
Proof.
  destruct r as [a|a|s|s]; simpl; intros H.
  - unfold Queue_Mark_Array_Deep, bind in H.
    destruct (pool st !! a) as [n|]; [|done].
    destruct (match LINK_file n with Some f => Mark_Node f st | None => ret st end)
      as [[st1|?]|]; try done.
    by apply (Queue_Mark_Array_Subclass_Deep_marks a st1).
  - by apply (Queue_Mark_Array_Subclass_Deep_marks a st).
  - unfold Mark_Rebser_Only in H. destruct (pool st !! s) as [n|] eqn:Hs; [|done].
    destruct (IS_FREE_NODE n); [done|].
    destruct (GET_SER_FLAG n NODE_FLAG_MANAGED); [|done].
    injection H as <-. by apply is_marked_insert.
  - unfold Mark_Node in H. destruct (pool st !! s) as [n|] eqn:Hs; [|done].
    injection H as <-. by apply is_marked_insert.
Qed.

Lemma Queue_Mark_Values_marks refs st st' r :
  Queue_Mark_Values refs st = Some (Ok st') → r ∈ refs →
  is_marked (pool st') (target r).
Proof.
  revert st. induction refs as [|r0 refs IH]; intros st H Hr.
  { by apply elem_of_nil in Hr. }
  simpl in H. unfold bind in H.
  destruct (Queue_Mark r0 st) as [[st1|?]|] eqn:H1; try done.
  apply elem_of_cons in Hr as [->|Hr]; [|by apply (IH st1)].
  destruct (good_Queue_Mark_Values refs _ _ H) as (Hstep & _).
  apply (is_marked_step _ _ _ Hstep), (Queue_Mark_marks _ _ _ H1).
Qed.

Lemma Mark_Root_Set_marks fuel groups st st' g r :
  Mark_Root_Set fuel groups st = Some (Ok st') → g ∈ groups → r ∈ g →
  is_marked (pool st') (target r).
Proof.
  revert st. induction groups as [|g0 groups IH]; intros st H Hg Hr.
  { by apply elem_of_nil in Hg. }
  simpl in H. unfold bind in H.
  destruct (Queue_Mark_Values g0 st) as [[st1|?]|] eqn:H1; try done.
  destruct (Propagate_All_GC_Marks fuel st1) as [[st2|?]|] eqn:H2; try done.
  apply elem_of_cons in Hg as [->|Hg]; [|by apply (IH st2)].
  destruct (good_Propagate_All_GC_Marks fuel _ _ H2) as (Hstep2 & _).
  destruct (good_Mark_Root_Set fuel groups _ _ H) as (Hstep3 & _).
  apply (is_marked_step _ _ _ Hstep3), (is_marked_step _ _ _ Hstep2).
  by apply (Queue_Mark_Values_marks _ st _ _ H1).
Qed.

(** ** The sweep *)

Lemma sweepable_garbage n : sweepable n → is_garbage n = (nibble n =? 10).
Proof.
  unfold is_garbage. rewrite MANAGED_nibble, FREE_nibble, MARKED_nibble.
  by intros [E|[[E _]|[E|[E _]]]]; rewrite E.
Qed.

Lemma Sweep_Unit_spec s n n' z :
  Sweep_Unit s n = Ok (n', z) →
  sweepable n ∧ n' = swept n ∧ z = (if nibble n =? 10 then 1 else 0).
Proof.
  unfold Sweep_Unit, sweepable, swept. fold (nibble n). intros H.
  pose proof (MARKED_nibble n) as Hm.
  destruct (nibble n) as [|[[[[]|[]|]|[[]|[]|]|]|[[[]|[]|]|[[]|[]|]|]|]|];
    try discriminate H; simpl in *;
    repeat match type of H with
    | context [if ?b then _ else _] => destruct b eqn:?
    end; try discriminate H; injection H as <- <-;
    (split; [|by rewrite ?CLEAR_MARKED_unmarked by done]).
  - by right; right; left.
  - by right; left.
  - right; right; right. split; [done|by apply Z.eqb_eq].
  - by left.
Qed.

Lemma Sweep_Unit_sweepable s n :
  sweepable n → Sweep_Unit s n = Ok (swept n, if nibble n =? 10 then 1 else 0).
Proof.
  unfold Sweep_Unit, swept. fold (nibble n). pose proof (MARKED_nibble n) as Hm.
  intros [E|[[E Hc]|[E|[E Hb]]]]; rewrite E in *; simpl.
  - by rewrite CLEAR_MARKED_unmarked.
  - by rewrite Hc.
  - done.
  - apply Z.eqb_eq in Hb. by rewrite Hb, CLEAR_MARKED_unmarked.
Qed.

Lemma Sweep_Units_spec p : ∀ s c p' c',
  Sweep_Units s p c = Ok (p', c') →
  Forall sweepable p ∧ p' = map swept p
  ∧ wrap32 c' = wrap32 (c + Z.of_nat (garbage p)).
Proof.
  induction p as [|n p IH]; intros s c p' c' H; simpl in H.
  { injection H as <- <-. split; [done|]. split; [done|]. simpl. f_equal. lia. }
  destruct (Sweep_Unit s n) as [[n' z]|] eqn:Hn; [|done].
  destruct (Sweep_Units (S s) p (wrap32 (c + z))) as [[p1 c1]|] eqn:Hp; [|done].
  injection H as <- <-.
  destruct (Sweep_Unit_spec _ _ _ _ Hn) as (Hsw & -> & ->).
  destruct (IH _ _ _ _ Hp) as (Hall & -> & Hc).
  split; [by constructor|]. split; [done|]. rewrite Hc. unfold wrap32. simpl garbage.
  rewrite Zplus_mod_idemp_l, (sweepable_garbage n Hsw). f_equal.
  destruct (nibble n =? 10); lia.
Qed.

Lemma Sweep_Units_range p : ∀ s c p' c',
  Sweep_Units s p c = Ok (p', c') → 0 ≤ c < 2 ^ 32 → 0 ≤ c' < 2 ^ 32.
Proof.
  induction p as [|n p IH]; intros s c p' c' H Hc; simpl in H.
  { by injection H as <- <-. }
  destruct (Sweep_Unit s n) as [[n' z]|] eqn:Hn; [|done].
  destruct (Sweep_Units (S s) p (wrap32 (c + z))) as [[p1 c1]|] eqn:Hp; [|done].
  injection H as <- <-. apply (IH _ _ _ _ Hp). unfold wrap32.
  apply Z.mod_pos_bound. lia.
Qed.

Lemma Sweep_Units_sweepable p : ∀ s c,
  Forall sweepable p → ∃ r, Sweep_Units s p c = Ok r.
Proof.
  induction p as [|n p IH]; intros s c Hall; simpl; [by eexists|].
  apply Forall_cons in Hall as [Hn Hall].
  rewrite (Sweep_Unit_sweepable s n Hn).
  destruct (IH (S s) (wrap32 (c + (if nibble n =? 10 then 1 else 0))) Hall)
    as ([p1 c1] & ->). by eexists.
Qed.

Lemma free_node_sweepable : sweepable free_node.
Proof. right; right; right. by split; [apply free_node_nibble|]. Qed.

Lemma free_set_cons D n p :
  free_set D (n :: p) = (if D 0%nat then free_node else n) :: free_set (D ∘ S) p.
Proof. done. Qed.

(** Sweeping once more a pool where the units [D] are free and no
    other unit is garbage frees nothing. *)
Lemma Sweep_Units_again p : ∀ D s,
  Forall sweepable p →
  (∀ i n, p !! i = Some n → D i = false → nibble n ≠ 10) →
  Sweep_Units s (free_set D p) 0 = Ok (free_set D (map swept p), 0).
Proof.
  induction p as [|n p IH]; intros D s Hall HD; [done|].
  apply Forall_cons in Hall as [Hn Hall]. simpl map.
  rewrite !free_set_cons. simpl Sweep_Units.
  assert (Sweep_Unit s (if D 0%nat then free_node else n)
          = Ok (if D 0%nat then free_node else swept n, 0)) as ->.
  { destruct (D 0%nat) eqn:HD0.
    - rewrite (Sweep_Unit_sweepable _ _ free_node_sweepable).
      unfold swept. rewrite free_node_nibble. simpl.
      by rewrite CLEAR_MARKED_unmarked by apply free_node_MARKED.
    - rewrite (Sweep_Unit_sweepable _ _ Hn).
      pose proof (HD 0%nat n eq_refl HD0) as Hne.
      by destruct (Z.eqb_spec (nibble n) 10). }
  change (wrap32 (0 + 0)) with 0.
  rewrite (IH (D ∘ S) (S s) Hall); [done|].
  intros i x Hx. apply (HD (S i) x Hx).
Qed.

(** ** The marking phase ends *)

Lemma returns_bind {A B} (m : M A) (k : A → M B) :
  returns m → (∀ a, m = Some (Ok a) → returns (k a)) → returns (bind m k).
Proof. intros [[a|e] ->] Hk; simpl; [by apply Hk|by eexists]. Qed.

Lemma Mark_Rebser_Only_returns s st : returns (Mark_Rebser_Only s st).
Proof. unfold Mark_Rebser_Only. repeat case_match; by eexists. Qed.

Lemma Mark_Node_returns s st : returns (Mark_Node s st).
Proof. unfold Mark_Node. repeat case_match; by eexists. Qed.

Lemma Queue_Mark_Array_Subclass_Deep_returns a st :
  returns (Queue_Mark_Array_Subclass_Deep a st).
Proof.
  unfold Queue_Mark_Array_Subclass_Deep. repeat case_match; try by eexists.
  apply returns_bind; [apply Mark_Rebser_Only_returns|]. by eexists.
Qed.

Lemma Mark_file_returns file st :
  returns (match file with Some f => Mark_Node f st | None => ret st end).
Proof. destruct file; [apply Mark_Node_returns|by eexists]. Qed.

Lemma Queue_Mark_returns r st : returns (Queue_Mark r st).
Proof.
  destruct r; simpl.
  - unfold Queue_Mark_Array_Deep. case_match; [|by eexists].
    apply returns_bind; [apply Mark_file_returns|].
    intros. apply Queue_Mark_Array_Subclass_Deep_returns.
  - apply Queue_Mark_Array_Subclass_Deep_returns.
  - apply Mark_Rebser_Only_returns.
  - apply Mark_Node_returns.
Qed.

Lemma Queue_Mark_Values_returns refs : ∀ st, returns (Queue_Mark_Values refs st).
Proof.
  induction refs as [|r refs IH]; intros st; simpl; [by eexists|].
  apply returns_bind; [apply Queue_Mark_returns|]. intros. apply IH.
Qed.

Lemma Propagate_All_GC_Marks_returns fuel : ∀ st,
  (potential st < fuel)%nat → returns (Propagate_All_GC_Marks fuel st).
Proof.
  induction fuel as [|fuel IH]; intros st Hlt; [lia|]. simpl.
  destruct st as [p [|a stack]]; simpl; [by eexists|].
  repeat case_match; try by eexists.
  apply returns_bind; [apply Queue_Mark_Values_returns|].
  intros st1 Hst1. apply IH.
  destruct (good_Queue_Mark_Values _ _ _ Hst1) as (_ & Hp & _).
  unfold potential in *. simpl in *. lia.
Qed.

Lemma Mark_Root_Unit_returns s st : returns (Mark_Root_Unit s st).
Proof.
  unfold Mark_Root_Unit. repeat case_match; try by eexists.
  all: try apply Queue_Mark_Values_returns.
  all: apply returns_bind; [first [apply Mark_Node_returns|by eexists]|].
  all: intros; apply Queue_Mark_Values_returns.
Qed.

Lemma Mark_Root_Units_returns fuel count : ∀ s n st,
  (potential st < fuel)%nat → returns (Mark_Root_Units fuel count s n st).
Proof.
  induction count as [|count IH]; intros s n st Hlt; simpl; [by eexists|].
  apply returns_bind; [apply Mark_Root_Unit_returns|]. intros st1 H1.
  destruct (good_Mark_Root_Unit _ _ _ H1) as (_ & Hp1 & _).
  destruct n as [|[|n]]; try (apply IH; lia).
  apply returns_bind; [apply Propagate_All_GC_Marks_returns; lia|].
  intros st2 H2. destruct (good_Propagate_All_GC_Marks _ _ _ H2) as (_ & Hp2 & _).
  apply IH. lia.
Qed.

Lemma Mark_Root_Set_returns fuel groups : ∀ st,
  (potential st < fuel)%nat → returns (Mark_Root_Set fuel groups st).
Proof.
  induction groups as [|g groups IH]; intros st Hlt; simpl; [by eexists|].
  apply returns_bind; [apply Queue_Mark_Values_returns|]. intros st1 H1.
  destruct (good_Queue_Mark_Values _ _ _ H1) as (_ & Hp1 & _).
  apply returns_bind; [apply Propagate_All_GC_Marks_returns; lia|].
  intros st2 H2. destruct (good_Propagate_All_GC_Marks _ _ _ H2) as (_ & Hp2 & _).
  apply IH. lia.
Qed.

Lemma unmarked_length p : (unmarked p ≤ length p)%nat.
Proof.
  induction p as [|n p IH]; simpl; [done|].
  destruct (GET_SER_FLAG n NODE_FLAG_MARKED); lia.
Qed.

Lemma culled_length reuse : ∀ p, length (foldl GC_Kill_Series p reuse) = length p.
Proof.
  induction reuse as [|v reuse IH]; intros p; simpl; [done|].
  rewrite IH. unfold GC_Kill_Series. apply length_insert.
Qed.

Lemma culled_lookup reuse : ∀ p i n,
  foldl GC_Kill_Series p reuse !! i = Some n → n = free_node ∨ p !! i = Some n.
Proof.
  induction reuse as [|v reuse IH]; intros p i n H; simpl in H; [by right|].
  destruct (IH _ _ _ H) as [->|H']; [by left|].
  unfold GC_Kill_Series in H'.
  apply list_lookup_insert_Some in H' as [(_ & <- & _)|[_ H']]; [by left|by right].
Qed.

(** ** A second recycle *)

Lemma unit_fate n0 ne :
  GET_SER_FLAG n0 NODE_FLAG_MARKED = false → node_step n0 ne → sweepable ne →
  let d := (nibble ne =? 10) || (IS_FREE_NODE ne && negb (IS_FREE_NODE n0)) in
  swept ne = (if d then free_node else n0)
  ∧ (d = true → GET_SER_FLAG ne NODE_FLAG_MARKED = false
       ∧ (IS_FREE_NODE n0 = true ∨ GET_SER_FLAG n0 NODE_FLAG_MANAGED = true))
  ∧ (d = false → IS_FREE_NODE ne = true → IS_FREE_NODE n0 = true)
  ∧ (d = false → nibble ne ≠ 10).
Proof.
  intros Hm0 Hstep Hsw.
  pose proof (MARKED_nibble ne) as Hm. pose proof (MANAGED_nibble ne) as Hg.
  pose proof (FREE_nibble ne) as Hf. unfold swept.
  destruct Hstep as [->|[->|(Hk & _ & Hg0 & Hf0)]].
  - rewrite Hf.
    destruct Hsw as [E|[[E _]|[E|[E _]]]]; rewrite E in *;
      simpl (Z.testbit _ _) in *; simpl; try congruence.
    + rewrite CLEAR_MARKED_unmarked by done. split; [done|]. split; [done|].
      by split.
    + split; [done|]. split; [by auto|]. by split.
    + rewrite CLEAR_MARKED_unmarked by done. split; [done|]. split; [done|].
      by split.
  - rewrite SET_MARKED_MARKED in Hm. rewrite Hf.
    destruct Hsw as [E|[[E _]|[E|[E _]]]]; rewrite E in *;
      simpl (Z.testbit _ _) in *; simpl; try congruence.
    rewrite CLEAR_MARKED_SET_MARKED by done. split; [done|]. split; [done|].
    by split.
  - rewrite Hf0. destruct Hk as [->| ->].
    + rewrite free_node_FREE, free_node_nibble. simpl.
      rewrite CLEAR_MARKED_unmarked by apply free_node_MARKED.
      split; [done|]. split; [|done]. intros _. split; [apply free_node_MARKED|auto].
    + rewrite SET_MARKED_MARKED in Hm.
      destruct Hsw as [E|[[E _]|[E|[E _]]]]; rewrite E in *;
        simpl (Z.testbit _ _) in *; try congruence.
      rewrite nibble_SET_MARKED, free_node_nibble in E. done.
Qed.

Lemma free_set_idemp D p : free_set D (free_set D p) = free_set D p.
Proof.
  apply list_eq. intros i. rewrite !lookup_free_set.
  destruct (p !! i); simpl; [|done]. by destruct (D i) eqn:HD; rewrite ?HD.
Qed.

Lemma free_set_length D p : length (free_set D p) = length p.
Proof. apply length_imap. Qed.

(** After a marking phase that started with no unit marked and that
    marked the owner of every API handle it kept, the sweep leaves the
    pool it started from with the dead units freed; the dead units and
    the free ones are as the marking routines expect. *)
Lemma sweep_after_marking p0 pe ps c :
  pool_step p0 pe →
  (∀ i n, p0 !! i = Some n → GET_SER_FLAG n NODE_FLAG_MARKED = false) →
  (∀ s n o on, p0 !! s = Some n → IS_FREE_NODE n = false →
     NODE_FLAG_ROOT n = true → GET_SER_FLAG n NODE_FLAG_MANAGED = true →
     LINK_owner n = Some o → p0 !! o = Some on →
     GET_SER_FLAG on NODE_FLAG_MANAGED = true →
     SERIES_INFO_INACCESSIBLE on = false → is_marked pe o) →
  Sweep_Series pe = Ok (ps, c) →
  ps = free_set (dead_units p0 pe) p0
  ∧ Inv (dead_units p0 pe) (free_units p0) p0
  ∧ settled (dead_units p0 pe) (free_units p0) pe
  ∧ Sweep_Series (free_set (dead_units p0 pe) pe) = Ok (ps, 0).
Proof.
  intros Hstep Hmarks Howner Hsweep.
  destruct (Sweep_Units_spec _ _ _ _ _ Hsweep) as (Hall & -> & _).
  assert (∀ i n0 ne, p0 !! i = Some n0 → pe !! i = Some ne →
    let d := dead_units p0 pe i in
    swept ne = (if d then free_node else n0)
    ∧ (d = true → GET_SER_FLAG ne NODE_FLAG_MARKED = false
         ∧ (IS_FREE_NODE n0 = true ∨ GET_SER_FLAG n0 NODE_FLAG_MANAGED = true))
    ∧ (d = false → IS_FREE_NODE ne = true → IS_FREE_NODE n0 = true)
    ∧ (d = false → nibble ne ≠ 10)) as Hfate.
  { intros i n0 ne H0 He. unfold dead_units. rewrite H0, He.
    apply unit_fate; [by apply (Hmarks i)| |].
    - destruct (pool_step_lookup _ _ _ _ Hstep H0) as (ne' & He' & Hnn).
      by simplify_eq.
    - by apply (Forall_lookup_1 _ _ _ _ Hall He). }
  assert (map swept pe = free_set (dead_units p0 pe) p0) as Heq.
  { apply list_eq. intros i. rewrite list_lookup_fmap, lookup_free_set.
    destruct (p0 !! i) as [n0|] eqn:H0.
    - destruct (pool_step_lookup _ _ _ _ Hstep H0) as (ne & He & _).
      rewrite He. simpl. f_equal. by apply Hfate.
    - destruct (pe !! i) as [ne|] eqn:He; [|done].
      destruct (pool_step_lookup_r _ _ _ _ Hstep He) as (n0 & H0' & _).
      congruence. }
  split; [done|]. split; [|split].
  - split.
    + intros i n0 HD H0.
      destruct (pool_step_lookup _ _ _ _ Hstep H0) as (ne & He & _).
      by apply (Hfate i n0 ne H0 He).
    + intros s n o on HD Hn Hfree Hroot Hman Hown Hon Hmo Hacc.
      destruct (Howner s n o on) as (oe & Hoe & Hm); try done.
      destruct (dead_units p0 pe o) eqn:HDo; [|done].
      destruct (Hfate o on oe Hon Hoe) as (_ & Hd & _).
      rewrite HDo in Hd. destruct (Hd eq_refl). congruence.
    + by intros i n (n0 & H0 & Hf) ?; simplify_eq.
  - split.
    + intros i ne HD He.
      destruct (pool_step_lookup_r _ _ _ _ Hstep He) as (n0 & H0 & _).
      by apply (Hfate i n0 ne H0 He).
    + intros i ne HD He Hfree.
      destruct (pool_step_lookup_r _ _ _ _ Hstep He) as (n0 & H0 & _).
      exists n0. split; [done|]. by apply (Hfate i n0 ne H0 He).
  - unfold Sweep_Series. rewrite Sweep_Units_again; [|done|].
    + by rewrite Heq, free_set_idemp.
    + intros i ne He HD.
      destruct (pool_step_lookup_r _ _ _ _ Hstep He) as (n0 & H0 & _).
      by apply (Hfate i n0 ne H0 He).
Qed.

(** X1: when [Sweep_Series] runs through a pool, every unit that is
    managed, not free and not marked is freed, every other unit is kept
    with its mark cleared, no unit is left marked, and the count returned
    is the number of units freed (as a 32-bit unsigned number). *)
Theorem Sweep_Series_contract p p' count :
  Sweep_Series p = Ok (p', count) →
  length p' = length p
  ∧ (∀ i x, p !! i = Some x →
       p' !! i = Some (if is_garbage x then free_node else CLEAR_MARKED x))
  ∧ (∀ i x', p' !! i = Some x' → GET_SER_FLAG x' NODE_FLAG_MARKED = false)
  ∧ count = wrap32 (Z.of_nat (garbage p)).
Proof.
  intros Hsweep.
  destruct (Sweep_Units_spec _ _ _ _ _ Hsweep) as (Hall & -> & Hc).
  split; [apply length_map|]. split; [|split].
  - intros i x Hx. rewrite list_lookup_fmap, Hx. simpl. f_equal.
    unfold swept.
    by rewrite (sweepable_garbage x) by apply (Forall_lookup_1 _ _ _ _ Hall Hx).
  - intros i x' Hx'. apply list_lookup_fmap_Some in Hx' as (x & -> & Hx).
    unfold swept. destruct (nibble x =? 10);
      [apply free_node_MARKED|apply CLEAR_MARKED_MARKED].
  - rewrite Z.add_0_l in Hc. rewrite <- Hc. unfold wrap32. symmetry. apply Z.mod_small.
    by apply (Sweep_Units_range _ _ _ _ _ Hsweep).
Qed.

(** X2: [Sweep_Series] runs through a pool exactly when the first byte of
    every unit is one the sweep allows: unmanaged and unmarked, managed
    (and then not an API pairing when unmarked), or the freed signature;
    on every other pool it panics or fails an assertion. *)
Theorem Sweep_Series_runs_iff p :
  (∃ r, Sweep_Series p = Ok r) ↔ Forall sweepable p.
Proof.
  split; [|apply Sweep_Units_sweepable].
  intros [[p' c] Hsweep]. by apply (Sweep_Units_spec _ _ _ _ _ Hsweep).
Qed.

(** X3: [Recycle_Core] returns (a count, a panic or a failed assertion)
    when it is given more than twice as many steps as the pool has
    units: the marking phase ends. *)
Theorem Recycle_Core_terminates fuel st :
  (2 * length (pool (mem st)) < fuel)%nat → ∃ r, Recycle_Core fuel st = Some r.
Proof.
  intros Hlt. change (returns (Recycle_Core fuel st)). unfold Recycle_Core. destruct (GC_Disabled st); [by eexists|].
  destruct (GC_Mark_Stack (mem st)); [|by eexists].
  set (culled := foldl GC_Kill_Series (pool (mem st)) (TG_Reuse st)).
  assert (potential (mk_gc culled []) < fuel)%nat as Hp.
  { unfold potential. simpl. pose proof (unmarked_length culled) as Hu.
    unfold culled in Hu at 2. rewrite culled_length in Hu. lia. }
  apply returns_bind; [by apply Mark_Root_Units_returns|]. intros st1 H1.
  destruct (good_Mark_Root_Units _ _ _ _ _ _ H1) as (_ & Hp1 & _).
  apply returns_bind; [apply Mark_Root_Set_returns; lia|]. intros st2 H2.
  repeat case_match; by eexists.
Qed.

(** X4: when a recycle has returned, from a state where no unit was
    marked and where the owner of every API handle, when accessible, is
    referenced from the root set, a second recycle right after it frees
    nothing and leaves the state as it is: the assertion of
    [DOUBLE_RECYCLE_TEST] holds. *)
Theorem second_recycle_frees_nothing fuel st n st' :
  (∀ i x, pool (mem st) !! i = Some x → GET_SER_FLAG x NODE_FLAG_MARKED = false) →
  (∀ s x o ox,
     pool (mem st) !! s = Some x → IS_FREE_NODE x = false →
     NODE_FLAG_ROOT x = true → GET_SER_FLAG x NODE_FLAG_MANAGED = true →
     LINK_owner x = Some o → pool (mem st) !! o = Some ox →
     GET_SER_FLAG ox NODE_FLAG_MANAGED = true →
     SERIES_INFO_INACCESSIBLE ox = false →
     ∃ g r, g ∈ root_set st ∧ r ∈ g ∧ target r = o) →
  Recycle_Core fuel st = Some (Ok (n, st')) →
  Recycle_Core fuel st' = Some (Ok (0, st'))
  ∧ Recycle true fuel st = Some (Ok (n, st')).
Proof.
  intros Hmarks Howner Hrun.
  assert (Recycle_Core fuel st' = Some (Ok (0, st'))) as Hagain.
  { unfold Recycle_Core in Hrun. destruct (GC_Disabled st) eqn:Hdis.
    { by injection Hrun as <- <-. }
    destruct (GC_Mark_Stack (mem st)) eqn:Hstack; [|done]. cbv zeta in Hrun.
    set (p0 := foldl GC_Kill_Series (pool (mem st)) (TG_Reuse st)) in *.
    unfold bind in Hrun.
    destruct (Mark_Root_Series fuel (mk_gc p0 [])) as [[st1|?]|] eqn:H1; try done.
    destruct (Mark_Root_Set fuel (root_set st) st1) as [[st2|?]|] eqn:H2; try done.
    destruct (GC_Mark_Stack st2) eqn:Hstack2; [|done].
    destruct (Sweep_Series (pool st2)) as [[ps c]|] eqn:Hsweep; [|done].
    injection Hrun as <- <-.
    destruct (good_Mark_Root_Units _ _ _ _ _ _ H1) as (Hs1 & _ & Hsim1).
    destruct (good_Mark_Root_Set _ _ _ _ H2) as (Hs2 & _ & Hsim2).
    simpl in Hs1, Hsim1.
    destruct (sweep_after_marking p0 (pool st2) ps c) as (Hps & HInv & Hset & Hsw2);
      [by apply (pool_step_trans _ (pool st1))| | |done|].
    { intros i x Hx. destruct (culled_lookup _ _ _ _ Hx) as [->|Hx'];
        [apply free_node_MARKED|by apply (Hmarks i)]. }
    { intros s x o ox Hx Hfree Hroot Hman Hown Hox Hmo Hacc.
      destruct (culled_lookup _ _ _ _ Hx) as [->|Hx'];
        [by rewrite free_node_FREE in Hfree|].
      destruct (culled_lookup _ _ _ _ Hox) as [->|Hox'];
        [by rewrite free_node_MANAGED in Hmo|].
      destruct (Howner s x o ox) as (g & r & Hg & Hr & <-); try done.
      by apply (Mark_Root_Set_marks fuel (root_set st) st1 st2 g r). }
    set (D := dead_units p0 (pool st2)) in *.
    set (F := free_units p0) in *.
    unfold Recycle_Core.
    cbn [GC_Disabled mem GC_Mark_Stack TG_Reuse root_set SIG_RECYCLE pool foldl].
    cbv zeta.
    change (mk_gc ps []) with (mk_gc ps (GC_Mark_Stack (mk_gc p0 []))).
    rewrite Hps. change (mk_gc (free_set D p0) (GC_Mark_Stack (mk_gc p0 [])))
      with (freed D (mk_gc p0 [])).
    unfold Mark_Root_Series in *. cbn [pool freed] in *.
    rewrite free_set_length.
    rewrite (Hsim1 D F HInv (settled_back D F _ _ Hset Hs2)). unfold bind.
    rewrite (Hsim2 D F (Inv_step D F _ _ HInv Hs1) Hset).
    unfold freed. cbn [GC_Mark_Stack pool]. by rewrite Hstack2, Hsw2, <- Hps. }
  split; [done|]. unfold Recycle, bind. rewrite Hrun. simpl. by rewrite Hagain.
Qed.

(** ** What is reachable from the roots is marked *)

Lemma node_step_data n n' :
  node_step n n' →
  (contents n' = contents n ∧ LINK_file n' = LINK_file n)
  ∨ (contents n' = [] ∧ LINK_file n' = None).
Proof. intros [->|[->|([->| ->] & _)]]; auto. Qed.

Lemma ref_marked_step p p' r : pool_step p p' → ref_marked p r → ref_marked p' r.
Proof.
  intros Hstep [Hm Hf]. split; [by apply (is_marked_step p)|].
  destruct r as [a| | |]; try done. intros x' f Hx' Hfile.
  destruct (pool_step_lookup_r _ _ _ _ Hstep Hx') as (x & Hx & Hxx).
  apply (is_marked_step p); [done|]. apply (Hf x f Hx).
  destruct (node_step_data _ _ Hxx) as [[_ <-]|[_ Hnone]]; congruence.
Qed.

Lemma leaf_step p p' s : pool_step p p' → leaf p s → leaf p' s.
Proof.
  intros Hstep Hl x' Hx'.
  destruct (pool_step_lookup_r _ _ _ _ Hstep Hx') as (x & Hx & Hxx).
  destruct (node_step_data _ _ Hxx) as [[-> _]|[-> _]]; [by apply Hl|done].
Qed.

Lemma leaf_ref_step p p' r : pool_step p p' → leaf_ref p r → leaf_ref p' r.
Proof. destruct r; simpl; try done; apply leaf_step. Qed.

Lemma typed_step p p' : pool_step p p' → typed p → typed p'.
Proof.
  intros Hstep Ht i x' Hx'.
  destruct (pool_step_lookup_r _ _ _ _ Hstep Hx') as (x & Hx & Hxx).
  destruct (Ht i x Hx) as [Hc Hf].
  destruct (node_step_data _ _ Hxx) as [[-> ->]|[-> ->]];
    [|split; [intros r Hr; by apply elem_of_nil in Hr|done]].
  split.
  - intros r Hr. by apply (leaf_ref_step p), Hc.
  - intros f Hfile. by apply (leaf_step p), Hf.
Qed.

Lemma closed_served st r todo :
  closed st (r :: todo) → ref_marked (pool st) r → closed st todo.
Proof.
  intros Hc Hr a x r' Hx Hm Hr'.
  destruct (Hc a x r' Hx Hm Hr') as [?|[?|Hin]]; auto.
  apply elem_of_cons in Hin as [->|?]; auto.
Qed.

Lemma closed_weaken st todo todo' :
  todo ⊆ todo' → closed st todo → closed st todo'.
Proof.
  intros Hsub Hc a x r Hx Hm Hr.
  destruct (Hc a x r Hx Hm Hr) as [?|[?|Hin]]; auto.
Qed.

(** Marking a leaf keeps the pool closed; so does marking a unit that
    is pushed on the mark stack, or whose references are all to do. *)
Lemma closed_mark p stack stack' s n todo :
  p !! s = Some n →
  stack ⊆ stack' →
  contents n = [] ∨ s ∈ stack' ∨ contents n ⊆ todo →
  closed (mk_gc p stack) todo →
  closed (mk_gc (<[s := SET_MARKED n]> p) stack') todo.
Proof.
  intros Hs Hsub Hn Hc a x r Hx Hm Hr. simpl in *.
  assert (pool_step p (<[s := SET_MARKED n]> p)) as Hstep
    by (apply (pool_step_insert _ _ n); [done|by right; left]).
  destruct (decide (a = s)) as [->|Hne].
  - rewrite list_lookup_insert_eq in Hx by (by apply lookup_lt_Some in Hs).
    injection Hx as <-. simpl in Hr.
    destruct Hn as [Hn|[Hn|Hn]];
      [rewrite Hn in Hr; by apply elem_of_nil in Hr|by left|right; right; auto].
  - rewrite list_lookup_insert_ne in Hx by done.
    destruct (Hc a x r Hx Hm Hr) as [?|[?|?]]; auto.
    right; left. by apply (ref_marked_step p).
Qed.

Lemma closed_Mark_Rebser_Only s st st' todo :
  leaf (pool st) s → closed st todo → Mark_Rebser_Only s st = Some (Ok st') →
  closed st' todo.
Proof.
  intros Hl Hc H. unfold Mark_Rebser_Only in H.
  destruct (pool st !! s) as [n|] eqn:Hs; [|done].
  destruct (IS_FREE_NODE n); [done|].
  destruct (GET_SER_FLAG n NODE_FLAG_MANAGED); [|done]. injection H as <-.
  destruct st as [p stack]. apply (closed_mark p stack); auto.
Qed.

Lemma closed_Mark_Node s st st' todo :
  leaf (pool st) s → closed st todo → Mark_Node s st = Some (Ok st') →
  closed st' todo.
Proof.
  intros Hl Hc H. unfold Mark_Node in H.
  destruct (pool st !! s) as [n|] eqn:Hs; [|done]. injection H as <-.
  destruct st as [p stack]. apply (closed_mark p stack); auto.
Qed.

Lemma closed_Queue_Mark_Array_Subclass_Deep a st st' todo :
  closed st todo → Queue_Mark_Array_Subclass_Deep a st = Some (Ok st') →
  closed st' todo.
Proof.
  intros Hc H. unfold Queue_Mark_Array_Subclass_Deep, Mark_Rebser_Only in H.
  destruct (pool st !! a) as [n|] eqn:Hs; [|done].
  destruct (IS_SER_ARRAY n); [|done]. simpl in H.
  destruct (GET_SER_FLAG n NODE_FLAG_MARKED); [by injection H as <-|].
  destruct (IS_FREE_NODE n); [done|].
  destruct (GET_SER_FLAG n NODE_FLAG_MANAGED); [|done]. injection H as <-.
  destruct st as [p stack]. simpl in *. apply (closed_mark p stack); auto.
  - set_solver.
  - right; left. set_solver.
Qed.

Lemma closed_Mark_file file st st' todo :
  (∀ f, file = Some f → leaf (pool st) f) → closed st todo →
  match file with Some f => Mark_Node f st | None => ret st end = Some (Ok st') →
  closed st' todo.
Proof.
  intros Hl Hc H. destruct file as [f|]; [|by injection H as <-].
  by apply (closed_Mark_Node f st); [apply Hl| |].
Qed.

Lemma closed_Queue_Mark r st st' todo :
  typed (pool st) → leaf_ref (pool st) r → closed st todo →
  Queue_Mark r st = Some (Ok st') → closed st' todo.
Proof.
  intros Ht Hl Hc H. destruct r as [a|a|s|s]; simpl in *.
  - unfold Queue_Mark_Array_Deep, bind in H.
    destruct (pool st !! a) as [n|] eqn:Hs; [|done].
    destruct (match LINK_file n with Some f => Mark_Node f st | None => ret st end)
      as [[st1|?]|] eqn:H1; try done.
    apply (closed_Queue_Mark_Array_Subclass_Deep a st1); [|done].
    apply (closed_Mark_file (LINK_file n) st); [|done|done].
    intros f Hf. by apply (Ht a n Hs).
  - by apply (closed_Queue_Mark_Array_Subclass_Deep a st).
  - by apply (closed_Mark_Rebser_Only s st).
  - by apply (closed_Mark_Node s st).
Qed.

Lemma Queue_Mark_ref_marked r st st' :
  Queue_Mark r st = Some (Ok st') → ref_marked (pool st') r.
Proof.
  intros H. split; [by apply (Queue_Mark_marks r st)|].
  destruct r as [a| | |]; try done. intros x' f Hx' Hfile.
  destruct (good_Queue_Mark _ _ _ H) as (Hstep & _).
  simpl in H. unfold Queue_Mark_Array_Deep, bind in H.
  destruct (pool st !! a) as [n|] eqn:Hs; [|done].
  destruct (pool_step_lookup _ _ _ _ Hstep Hs) as (x'' & Hx'' & Hxx).
  assert (x'' = x') as -> by congruence.
  assert (LINK_file n = Some f) as Hn.
  { destruct (node_step_data _ _ Hxx) as [[_ <-]|[_ Hnone]]; congruence. }
  rewrite Hn in H.
  destruct (Mark_Node f st) as [[st1|?]|] eqn:H1; try done.
  destruct (good_Queue_Mark_Array_Subclass_Deep _ _ _ H) as (Hstep2 & _).
  apply (is_marked_step _ _ _ Hstep2).
  unfold Mark_Node in H1. destruct (pool st !! f) as [nf|] eqn:Hf; [|done].
  injection H1 as <-. by apply is_marked_insert.
Qed.

Lemma closed_Queue_Mark_Values refs : ∀ st st' todo,
  typed (pool st) → (∀ r, r ∈ refs → leaf_ref (pool st) r) →
  closed st (refs ++ todo) →
  Queue_Mark_Values refs st = Some (Ok st') → closed st' todo.
Proof.
  induction refs as [|r refs IH]; intros st st' todo Ht Hl Hc H; simpl in H.
  { by injection H as <-. }
  unfold bind in H. destruct (Queue_Mark r st) as [[st1|?]|] eqn:H1; try done.
  destruct (good_Queue_Mark _ _ _ H1) as (Hstep & _).
  apply (IH st1); [by apply (typed_step (pool st))| | |done].
  - intros r' Hr'. apply (leaf_ref_step (pool st)); [done|]. apply Hl. set_solver.
  - apply (closed_served st1 r); [|by apply (Queue_Mark_ref_marked r st)].
    apply (closed_Queue_Mark r st); [done|apply Hl; set_solver|done|done].
Qed.

Lemma closed_Propagate_All_GC_Marks fuel : ∀ st st',
  typed (pool st) → closed st [] →
  Propagate_All_GC_Marks fuel st = Some (Ok st') →
  closed st' [] ∧ GC_Mark_Stack st' = [].
Proof.
  induction fuel as [|fuel IH]; intros st st' Ht Hc H; [done|]. simpl in H.
  destruct st as [p [|a stack]]; simpl in H; [by injection H as <-|].
  destruct (p !! a) as [n|] eqn:Hs; [|done].
  destruct (GET_SER_FLAG n NODE_FLAG_MARKED) eqn:Hm; [|done].
  destruct (IS_SER_ARRAY n) eqn:Harr; [|done].
  destruct (IS_FREE_NODE n) eqn:Hfree; [done|]. simpl in H. unfold bind in H.
  destruct (Queue_Mark_Values (contents n) (mk_gc p stack)) as [[st1|?]|] eqn:H1;
    try done.
  destruct (good_Queue_Mark_Values _ _ _ H1) as (Hstep & _).
  apply (IH st1); [by apply (typed_step p)| |done].
  apply (closed_Queue_Mark_Values (contents n) (mk_gc p stack)); [done| |
                                                                    |done].
  - intros r Hr. by apply (Ht a n Hs).
  - rewrite app_nil_r. intros b x r Hx Hmx Hr. simpl in *.
    destruct (Hc b x r Hx Hmx Hr) as [Hin|[?|Hin]]; auto.
    + apply elem_of_cons in Hin as [->|?]; [|by left].
      right; right. congruence.
    + by apply elem_of_nil in Hin.
Qed.

Lemma closed_Mark_Root_Unit s st st' :
  typed (pool st) → closed st [] → Mark_Root_Unit s st = Some (Ok st') →
  closed st' [].
Proof.
  intros Ht Hc H. unfold Mark_Root_Unit in H.
  destruct (pool st !! s) as [n|] eqn:Hs; [|done].
  destruct (Ht s n Hs) as [Hleaf Hfile].
  destruct (IS_FREE_NODE n) eqn:Hfree; [by injection H as <-|].
  destruct (NODE_FLAG_ROOT n) eqn:Hroot.
  - destruct (GET_SER_FLAG n NODE_FLAG_MARKED) eqn:Hm; [done|].
    destruct (GET_SER_FLAG n NODE_FLAG_MANAGED) eqn:Hman; simpl in H.
    + destruct (LINK_owner n) as [o|] eqn:Hown; [|done].
      destruct (pool st !! o) as [on|] eqn:Hon; [|done].
      destruct (GET_SER_FLAG on NODE_FLAG_MANAGED) eqn:Hmo; [|done]. simpl in H.
      destruct (SERIES_INFO_INACCESSIBLE on) eqn:Hacc.
      * destruct (VARLIST_FLAG_FRAME_FAILED on); [|done]. simpl in H.
        injection H as <-. unfold GC_Kill_Series. intros a x r Hx Hmx Hr.
        simpl in *.
        assert (pool_step (pool st) (<[s := free_node]> (pool st))) as Hstep.
        { apply (pool_step_insert _ _ n); [done|]. right; right. by split; [left|]. }
        destruct (decide (a = s)) as [->|Hne].
        -- rewrite list_lookup_insert_eq in Hx by (by apply lookup_lt_Some in Hs).
           injection Hx as <-. by rewrite free_node_MARKED in Hmx.
        -- rewrite list_lookup_insert_ne in Hx by done.
           destruct (Hc a x r Hx Hmx Hr) as [?|[?|?]]; auto.
           right; left. by apply (ref_marked_step (pool st)).
      * destruct st as [p stack]. simpl in *.
        assert (pool_step p (<[s := SET_MARKED n]> p)) as Hstep
          by (apply (pool_step_insert _ _ n); [done|by right; left]).
        apply (closed_Queue_Mark_Values (contents n)
                 (mk_gc (<[s := SET_MARKED n]> p) stack)); [| | |done].
        -- by apply (typed_step p).
        -- intros r Hr. apply (leaf_ref_step p); auto.
        -- apply (closed_mark p stack); [done|done| |].
           ++ right; right. set_solver.
           ++ by apply (closed_weaken _ []); [set_solver|].
    + destruct (LINK_owner n); [done|].
      apply (closed_Queue_Mark_Values (contents n) st); [done|done| |done].
      by apply (closed_weaken _ []); [set_solver|].
  - destruct (NODE_FLAG_CELL n).
    + destruct (NODE_FLAG_STACK n); [done|].
      destruct (GET_SER_FLAG n NODE_FLAG_MANAGED); [|done]. by injection H as <-.
    + destruct (IS_SER_ARRAY n); [|by injection H as <-].
      destruct (GET_SER_FLAG n NODE_FLAG_MANAGED || NODE_FLAG_STACK n);
        [by injection H as <-|].
      unfold bind in H.
      destruct (match LINK_file n with Some f => Mark_Node f st | None => ret st end)
        as [[st1|?]|] eqn:H1; try done.
      destruct (good_Mark_file _ _ _ H1) as (Hstep & _).
      apply (closed_Queue_Mark_Values (contents n) st1); [| | |done].
      * by apply (typed_step (pool st)).
      * intros r Hr. apply (leaf_ref_step (pool st)); auto.
      * apply (closed_weaken _ []); [set_solver|].
        by apply (closed_Mark_file (LINK_file n) st).
Qed.

Lemma closed_Mark_Root_Units fuel count : ∀ s n st st',
  typed (pool st) → closed st [] →
  Mark_Root_Units fuel count s n st = Some (Ok st') → closed st' [].
Proof.
  induction count as [|count IH]; intros s n st st' Ht Hc H; simpl in H.
  { by injection H as <-. }
  unfold bind in H. destruct (Mark_Root_Unit s st) as [[st1|?]|] eqn:H1; try done.
  destruct (good_Mark_Root_Unit _ _ _ H1) as (Hstep1 & _).
  pose proof (typed_step _ _ Hstep1 Ht) as Ht1.
  pose proof (closed_Mark_Root_Unit _ _ _ Ht Hc H1) as Hc1.
  destruct n as [|[|n]]; cbn [Init.Nat.pred] in H;
    [exact (IH _ _ _ _ Ht1 Hc1 H)| |exact (IH _ _ _ _ Ht1 Hc1 H)].
  unfold bind in H.
  destruct (Propagate_All_GC_Marks fuel st1) as [[st2|?]|] eqn:H2; try done.
  destruct (good_Propagate_All_GC_Marks _ _ _ H2) as (Hstep2 & _).
  destruct (closed_Propagate_All_GC_Marks _ _ _ Ht1 Hc1 H2) as (Hc2 & _).
  exact (IH _ _ _ _ (typed_step _ _ Hstep2 Ht1) Hc2 H).
Qed.

Lemma Queue_Mark_Values_ref_marked refs st st' r :
  Queue_Mark_Values refs st = Some (Ok st') → r ∈ refs → ref_marked (pool st') r.
Proof.
  revert st. induction refs as [|r0 refs IH]; intros st H Hr.
  { by apply elem_of_nil in Hr. }
  simpl in H. unfold bind in H.
  destruct (Queue_Mark r0 st) as [[st1|?]|] eqn:H1; try done.
  apply elem_of_cons in Hr as [->|Hr]; [|by apply (IH st1)].
  destruct (good_Queue_Mark_Values refs _ _ H) as (Hstep & _).
  apply (ref_marked_step _ _ _ Hstep), (Queue_Mark_ref_marked _ _ _ H1).
Qed.

Lemma closed_Mark_Root_Set fuel groups : ∀ st st',
  typed (pool st) →
  (∀ g r, g ∈ groups → r ∈ g → leaf_ref (pool st) r) →
  closed st [] →
  Mark_Root_Set fuel groups st = Some (Ok st') →
  closed st' [] ∧ ∀ g r, g ∈ groups → r ∈ g → ref_marked (pool st') r.
Proof.
  induction groups as [|g0 groups IH]; intros st st' Ht Hl Hc H; simpl in H.
  { injection H as <-. split; [done|]. intros g r Hg. by apply elem_of_nil in Hg. }
  unfold bind in H.
  destruct (Queue_Mark_Values g0 st) as [[st1|?]|] eqn:H1; try done.
  destruct (Propagate_All_GC_Marks fuel st1) as [[st2|?]|] eqn:H2; try done.
  destruct (good_Queue_Mark_Values _ _ _ H1) as (Hstep1 & _).
  destruct (good_Propagate_All_GC_Marks _ _ _ H2) as (Hstep2 & _).
  destruct (good_Mark_Root_Set _ _ _ _ H) as (Hstep3 & _).
  pose proof (typed_step _ _ Hstep1 Ht) as Ht1.
  assert (closed st1 []) as Hc1.
  { apply (closed_Queue_Mark_Values g0 st); [done| | |done].
    - intros r Hr. apply (Hl g0); [set_solver|done].
    - by apply (closed_weaken _ []); [set_solver|]. }
  destruct (closed_Propagate_All_GC_Marks _ _ _ Ht1 Hc1 H2) as (Hc2 & _).
  destruct (IH st2 st') as (Hc3 & Hm3); [by apply (typed_step (pool st1))| |done|done|].
  { intros g r Hg Hr. apply (leaf_ref_step (pool st1)); [done|].
    apply (leaf_ref_step (pool st)); [done|]. apply (Hl g); [set_solver|done]. }
  split; [done|]. intros g r Hg Hr.
  apply elem_of_cons in Hg as [->|Hg]; [|by apply (Hm3 g)].
  apply (ref_marked_step _ _ _ Hstep3), (ref_marked_step _ _ _ Hstep2).
  by apply (Queue_Mark_Values_ref_marked _ st _ _ H1).
Qed.

Lemma leaf_culled reuse : ∀ p s, leaf p s → leaf (foldl GC_Kill_Series p reuse) s.
Proof.
  intros p s Hl x Hx. destruct (culled_lookup _ _ _ _ Hx) as [->|Hx']; [done|].
  by apply Hl.
Qed.

Lemma typed_culled reuse p : typed p → typed (foldl GC_Kill_Series p reuse).
Proof.
  intros Ht i x Hx. destruct (culled_lookup _ _ _ _ Hx) as [->|Hx'].
  { split; [intros r Hr; by apply elem_of_nil in Hr|done]. }
  destruct (Ht i x Hx') as [Hc Hf]. split.
  - intros r Hr. specialize (Hc r Hr). destruct r; try done; by apply leaf_culled.
  - intros f Hfile. by apply leaf_culled, Hf.
Qed.

(** X5: a recycle keeps what the roots reach. From a state where no
    unit is marked and where what is marked without being queued (a
    string, a file name, a pairing...) refers to nothing, every unit
    reached from the root set through the contents of arrays is, after a
    recycle that returned, in the pool as it was: managed, not free and
    not marked. *)
Theorem recycle_keeps_reachable fuel st n st' r :
  GC_Disabled st = false →
  (∀ i y, pool (mem st) !! i = Some y → GET_SER_FLAG y NODE_FLAG_MARKED = false) →
  typed (pool (mem st)) →
  (∀ g r, g ∈ root_set st → r ∈ g → leaf_ref (pool (mem st)) r) →
  Recycle_Core fuel st = Some (Ok (n, st')) →
  reachable (pool (mem st)) (root_set st) r →
  ∃ x, pool (mem st) !! target r = Some x
       ∧ pool (mem st') !! target r = Some x
       ∧ IS_FREE_NODE x = false
       ∧ GET_SER_FLAG x NODE_FLAG_MANAGED = true.
Proof.
  intros Hdis Hmarks Ht Hroots Hrun Hreach.
  unfold Recycle_Core in Hrun. rewrite Hdis in Hrun.
  destruct (GC_Mark_Stack (mem st)) eqn:Hstack; [|done]. cbv zeta in Hrun.
  set (p0 := foldl GC_Kill_Series (pool (mem st)) (TG_Reuse st)) in *.
  unfold bind in Hrun.
  destruct (Mark_Root_Series fuel (mk_gc p0 [])) as [[st1|?]|] eqn:H1; try done.
  destruct (Mark_Root_Set fuel (root_set st) st1) as [[st2|?]|] eqn:H2; try done.
  destruct (GC_Mark_Stack st2) eqn:Hstack2; [|done].
  destruct (Sweep_Series (pool st2)) as [[ps c]|] eqn:Hsweep; [|done].
  injection Hrun as <- <-. simpl.
  destruct (good_Mark_Root_Units _ _ _ _ _ _ H1) as (Hs1 & _).
  destruct (good_Mark_Root_Set _ _ _ _ H2) as (Hs2 & _). simpl in Hs1.
  pose proof (pool_step_trans _ _ _ Hs1 Hs2) as Hstep.
  destruct (Sweep_Units_spec _ _ _ _ _ Hsweep) as (Hall & -> & _).
  assert (typed p0) as Ht0 by (by apply typed_culled).
  assert (closed (mk_gc p0 []) []) as Hc0.
  { intros a x r' Hx Hm _. simpl in Hx.
    destruct (culled_lookup _ _ _ _ Hx) as [->|Hx'];
      [by rewrite free_node_MARKED in Hm|by rewrite (Hmarks a x Hx') in Hm]. }
  unfold Mark_Root_Series in H1.
  pose proof (closed_Mark_Root_Units _ _ _ _ (mk_gc p0 []) _ Ht0 Hc0 H1) as Hc1.
  destruct (closed_Mark_Root_Set fuel (root_set st) st1 st2) as (Hc2 & Hm2);
    [by apply (typed_step p0)| |done|done|].
  { intros g r' Hg Hr'. apply (leaf_ref_step p0); [done|].
    specialize (Hroots g r' Hg Hr'). destruct r'; try done; by apply leaf_culled. }
  (* a unit that is marked at the end is the one the recycle started with *)
  assert (∀ t, is_marked (pool st2) t →
    ∃ x, pool (mem st) !! t = Some x ∧ pool st2 !! t = Some (SET_MARKED x)
         ∧ GET_SER_FLAG x NODE_FLAG_MARKED = false
         ∧ IS_FREE_NODE x = false ∧ GET_SER_FLAG x NODE_FLAG_MANAGED = true)
    as Hsurv.
  { intros t (xe & Hxe & Hme).
    destruct (pool_step_lookup_r _ _ _ _ Hstep Hxe) as (x0 & Hx0 & Hxx).
    pose proof (Forall_lookup_1 _ _ _ _ Hall Hxe) as Hsw.
    assert (nibble xe = 11) as E.
    { rewrite MARKED_nibble in Hme.
      by destruct Hsw as [E|[[E _]|[E|[E _]]]]; rewrite E in Hme. }
    assert (IS_FREE_NODE xe = false) as Hfe by (by rewrite FREE_nibble, E).
    assert (GET_SER_FLAG xe NODE_FLAG_MANAGED = true) as Hge
      by (by rewrite MANAGED_nibble, E).
    assert (GET_SER_FLAG x0 NODE_FLAG_MARKED = false) as Hm0.
    { destruct (culled_lookup _ _ _ _ Hx0) as [->|Hx'];
        [apply free_node_MARKED|by apply (Hmarks t)]. }
    assert (xe = SET_MARKED x0) as ->.
    { destruct (node_step_live _ _ Hxx Hfe) as [->| ->]; [congruence|done]. }
    rewrite SET_MARKED_FREE in Hfe. rewrite SET_MARKED_MANAGED in Hge.
    exists x0. split; [|done].
    destruct (culled_lookup _ _ _ _ Hx0) as [->|Hx']; [|done].
    by rewrite free_node_FREE in Hfe. }
  assert (ref_marked (pool st2) r) as Hr.
  { induction Hreach as [g r Hg Hr|r x r' _ IH Hx Hr'|a x f _ IH Hx Hf].
    - by apply (Hm2 g).
    - destruct (Hsurv _ (proj1 IH)) as (x' & Hx' & Hxe & _).
      assert (x' = x) as -> by congruence.
      destruct (Hc2 (target r) (SET_MARKED x) r' Hxe (SET_MARKED_MARKED x) Hr')
        as [Hin|[?|Hin]]; [|done|by apply elem_of_nil in Hin].
      rewrite Hstack2 in Hin. by apply elem_of_nil in Hin.
    - destruct (Hsurv _ (proj1 IH)) as (x' & Hx' & Hxe & _). simpl in Hx'.
      assert (x' = x) as -> by congruence.
      split; [|done]. by apply (proj2 IH (SET_MARKED x) f). }
  destruct (Hsurv _ (proj1 Hr)) as (x & Hx & Hxe & Hm & Hfree & Hman).
  exists x. split; [done|]. split; [|done].
  rewrite list_lookup_fmap, Hxe. simpl. f_equal. unfold swept.
  rewrite nibble_SET_MARKED.
  assert ((Z.lor (nibble x) 1 =? 10) = false) as ->.
  { apply Z.eqb_neq. intros E.
    assert (Z.testbit (Z.lor (nibble x) 1) 0 = true) as Hb
      by (rewrite Z.lor_spec; apply orb_true_r).
    by rewrite E in Hb. }
  by apply CLEAR_MARKED_SET_MARKED.
Qed.

(** ** What is marked can be reached *)

Section Soundness.

Variable p0 : list REBSER.
Variable groups : list (list Ref).
















End Soundness.

Lemma culled_other reuse : ∀ p i x,
  p !! i = Some x → i ∉ reuse → foldl GC_Kill_Series p reuse !! i = Some x.
Proof.
  induction reuse as [|v reuse IH]; intros p i x Hx Hi; simpl; [done|].
  apply IH; [|intros ?; apply Hi; by right].
  unfold GC_Kill_Series. rewrite list_lookup_insert_ne; [done|].
  intros ->. apply Hi. by left.
Qed.


(** What a recycle that returns has gone through. *)
Lemma Recycle_Core_phases fuel st n st' :
  GC_Disabled st = false →
  Recycle_Core fuel st = Some (Ok (n, st')) →
  let p0 := foldl GC_Kill_Series (pool (mem st)) (TG_Reuse st) in
  ∃ st1 st2,
    Mark_Root_Series fuel (mk_gc p0 []) = Some (Ok st1)
    ∧ Mark_Root_Set fuel (root_set st) st1 = Some (Ok st2)
    ∧ pool_step p0 (pool st2)
    ∧ Forall sweepable (pool st2)
    ∧ pool (mem st') = map swept (pool st2).
Proof.
  intros Hdis Hrun p0. unfold Recycle_Core in Hrun. rewrite Hdis in Hrun.
  destruct (GC_Mark_Stack (mem st)) eqn:Hstack; [|done]. cbv zeta in Hrun.
  fold p0 in Hrun. unfold bind in Hrun.
  destruct (Mark_Root_Series fuel (mk_gc p0 [])) as [[st1|?]|] eqn:H1; try done.
  destruct (Mark_Root_Set fuel (root_set st) st1) as [[st2|?]|] eqn:H2; try done.
  destruct (GC_Mark_Stack st2) eqn:Hstack2; [|done].
  destruct (Sweep_Series (pool st2)) as [[ps c]|] eqn:Hsweep; [|done].
  injection Hrun as <- <-. simpl.
  destruct (good_Mark_Root_Units _ _ _ _ _ _ H1) as (Hs1 & _).
  destruct (good_Mark_Root_Set _ _ _ _ H2) as (Hs2 & _). simpl in Hs1.
  destruct (Sweep_Units_spec _ _ _ _ _ Hsweep) as (Hall & -> & _).
  exists st1, st2. split_and!; try done. by apply (pool_step_trans _ (pool st1)).
Qed.

(** X20: a recycle that returns leaves every unit that is in use and
    not managed exactly as it was, unless the unit is on the list of
    series to reuse, which it frees first. *)
Theorem recycle_leaves_unmanaged fuel st n st' i x :
  Recycle_Core fuel st = Some (Ok (n, st')) →
  pool (mem st) !! i = Some x → i ∉ TG_Reuse st →
  GET_SER_FLAG x NODE_FLAG_MANAGED = false → IS_FREE_NODE x = false →
  pool (mem st') !! i = Some x.
Proof.
  intros Hrun Hx Hi Hman Hfree.
  destruct (GC_Disabled st) eqn:Hdis.
  { unfold Recycle_Core in Hrun. rewrite Hdis in Hrun. by injection Hrun as <- <-. }
  destruct (Recycle_Core_phases fuel st n st' Hdis Hrun)
    as (st1 & st2 & _ & _ & Hstep & Hall & ->).
  pose proof (culled_other _ _ _ _ Hx Hi) as Hx0.
  destruct (pool_step_lookup _ _ _ _ Hstep Hx0) as (xe & Hxe & Hxx).
  pose proof (Forall_lookup_1 _ _ _ _ Hall Hxe) as Hsw.
  rewrite list_lookup_fmap, Hxe. simpl. f_equal.
  rewrite MANAGED_nibble in Hman. rewrite FREE_nibble in Hfree.
  destruct Hxx as [->|[->|(_ & _ & Hm & _)]].
  - unfold swept.
    destruct Hsw as [E|[[E _]|[E|[E _]]]]; rewrite E in Hman, Hfree; try done.
    rewrite E. simpl. apply CLEAR_MARKED_unmarked. by rewrite MARKED_nibble, E.
  - exfalso. unfold sweepable in Hsw. rewrite nibble_SET_MARKED in Hsw.
    assert (Z.testbit (Z.lor (nibble x) 1) 0 = true) as H0
      by (rewrite Z.lor_spec; apply orb_true_r).
    assert (Z.testbit (Z.lor (nibble x) 1) 1 = false) as H1
      by (by rewrite Z.lor_spec, Hman).
    by destruct Hsw as [E|[[E _]|[E|[E _]]]]; rewrite E in H0, H1.
  - by rewrite MANAGED_nibble, Hman in Hm.
Qed.


End Collector.

(** ** A small pool *)

Definition demo_FREED_SERIES_BYTE : Z := 192.

Definition demo_units : nat := 4.

Definition demo_array (refs : list Ref) : REBSER :=
  mk_REBSER 160 false false false true false false None None refs.

(** Two arrays that refer to each other and to a string, kept by the
    root set; an array that only refers to itself; an API handle owned
    by the first array; a free unit. *)
Definition demo_pool : list REBSER :=
  [ demo_array [Ref_Array 1%nat; Ref_Series 2%nat];
    demo_array [Ref_Array 0%nat];
    mk_REBSER 160 false false false false false false None None [];
    demo_array [Ref_Array 3%nat];
    mk_REBSER 160 false true false true false false (Some 0%nat) None
      [Ref_Array 1%nat];
    mk_REBSER 192 false false false false false false None None [] ].

Definition demo_recycled : list REBSER :=
  <[3%nat := free_node demo_FREED_SERIES_BYTE]> demo_pool.

Definition demo_state (p : list REBSER) : state :=
  mk_state (mk_gc p []) [] false false [[Ref_Subclass 0%nat]].

Lemma demo_nibble : Z.shiftr demo_FREED_SERIES_BYTE 4 = 12.
Proof. reflexivity. Qed.

Lemma demo_unmarked i x :
  demo_pool !! i = Some x → GET_SER_FLAG x NODE_FLAG_MARKED = false.
Proof.
  revert i x. apply Forall_lookup. unfold demo_pool.
  repeat (apply Forall_cons; split; [reflexivity|]). apply Forall_nil_2.
Qed.

Lemma demo_owner s x o ox :
  demo_pool !! s = Some x → IS_FREE_NODE x = false →
  NODE_FLAG_ROOT x = true → GET_SER_FLAG x NODE_FLAG_MANAGED = true →
  LINK_owner x = Some o → demo_pool !! o = Some ox →
  GET_SER_FLAG ox NODE_FLAG_MANAGED = true →
  SERIES_INFO_INACCESSIBLE ox = false →
  ∃ g r, g ∈ [[Ref_Subclass 0%nat]] ∧ r ∈ g ∧ target r = o.
Proof.
  intros Hs _ Hroot _ Hown _ _ _.
  destruct s as [|[|[|[|[|[|s]]]]]]; try discriminate Hs;
    injection Hs as <-; try discriminate Hroot.
  injection Hown as <-. exists [Ref_Subclass 0%nat], (Ref_Subclass 0%nat).
  split; [apply list_elem_of_singleton; reflexivity|].
  split; [apply list_elem_of_singleton; reflexivity|reflexivity].
Qed.

Lemma demo_leaf_2 : leaf demo_pool 2.
Proof. by intros x [= <-]. Qed.

Lemma demo_typed : typed demo_pool.
Proof.
  intros i x Hx.
  destruct i as [|[|[|[|[|[|i]]]]]]; try discriminate Hx;
    injection Hx as <-; (split; [|done]);
    intros r Hr; simpl in Hr;
    repeat (apply elem_of_cons in Hr as [->|Hr]; [try exact I; try exact demo_leaf_2|]);
    by apply elem_of_nil in Hr.
Qed.

Lemma demo_roots_leaf g r :
  g ∈ [[Ref_Subclass 0%nat]] → r ∈ g → leaf_ref demo_pool r.
Proof.
  intros ->%list_elem_of_singleton ->%list_elem_of_singleton. exact I.
Qed.

Lemma demo_Recycle_Core :
  Recycle_Core demo_FREED_SERIES_BYTE demo_units 20 (demo_state demo_pool)
  = Some (Ok (1, demo_state demo_recycled)).
Proof. vm_compute. reflexivity. Qed.

Lemma Sweep_Series_contract_witness :
  Sweep_Series demo_FREED_SERIES_BYTE
    [SET_MARKED (demo_array []); demo_array []]
  = Ok ([demo_array []; free_node demo_FREED_SERIES_BYTE], 1)
  ∧ 1 = wrap32 (Z.of_nat (garbage [SET_MARKED (demo_array []); demo_array []])).
Proof.
  assert (Sweep_Series demo_FREED_SERIES_BYTE
            [SET_MARKED (demo_array []); demo_array []]
          = Ok ([demo_array []; free_node demo_FREED_SERIES_BYTE], 1)) as H
    by (vm_compute; reflexivity).
  split; [exact H|].
  exact (proj2 (proj2 (proj2
    (Sweep_Series_contract demo_FREED_SERIES_BYTE demo_nibble _ _ _ H)))).
Defined.

Lemma Recycle_Core_terminates_witness :
  ∃ r, Recycle_Core demo_FREED_SERIES_BYTE demo_units 20 (demo_state demo_pool)
       = Some r.
Proof.
  apply (Recycle_Core_terminates demo_FREED_SERIES_BYTE demo_nibble).
  simpl. lia.
Defined.

Lemma second_recycle_frees_nothing_witness :
  Recycle_Core demo_FREED_SERIES_BYTE demo_units 20 (demo_state demo_recycled)
  = Some (Ok (0, demo_state demo_recycled))
  ∧ Recycle demo_FREED_SERIES_BYTE demo_units true 20 (demo_state demo_pool)
    = Some (Ok (1, demo_state demo_recycled)).
Proof.
  exact (second_recycle_frees_nothing demo_FREED_SERIES_BYTE demo_nibble
           demo_units 20 (demo_state demo_pool) 1 (demo_state demo_recycled)
           demo_unmarked demo_owner demo_Recycle_Core).
Defined.

Lemma demo_reachable :
  reachable demo_pool [[Ref_Subclass 0%nat]] (Ref_Series 2%nat).
Proof.
  apply (reach_contents _ _ (Ref_Subclass 0%nat) (demo_array [Ref_Array 1%nat; Ref_Series 2%nat]));
    [|reflexivity|].
  - apply (reach_root _ _ [Ref_Subclass 0%nat]); apply list_elem_of_singleton;
      reflexivity.
  - apply elem_of_cons. right. apply list_elem_of_singleton. reflexivity.
Qed.

Lemma recycle_keeps_reachable_witness :
  ∃ x, demo_pool !! 2%nat = Some x
       ∧ demo_recycled !! 2%nat = Some x
       ∧ IS_FREE_NODE x = false
       ∧ GET_SER_FLAG x NODE_FLAG_MANAGED = true.
Proof.
  exact (recycle_keeps_reachable demo_FREED_SERIES_BYTE demo_nibble
           demo_units 20 (demo_state demo_pool) 1 (demo_state demo_recycled)
           (Ref_Series 2%nat) eq_refl demo_unmarked demo_typed demo_roots_leaf
           demo_Recycle_Core demo_reachable).
Defined.


(** The same pool with a string that is not managed at its end. *)
Definition demo_unmanaged : REBSER :=
  mk_REBSER 128 false false false false false false None None [].

Lemma demo_Recycle_Core_unmanaged :
  Recycle_Core demo_FREED_SERIES_BYTE demo_units 20
    (demo_state (demo_pool ++ [demo_unmanaged]))
  = Some (Ok (1, demo_state (demo_recycled ++ [demo_unmanaged]))).
Proof. vm_compute. reflexivity. Qed.

Lemma recycle_leaves_unmanaged_witness :
  (demo_recycled ++ [demo_unmanaged]) !! 6%nat = Some demo_unmanaged.
Proof.
  apply (recycle_leaves_unmanaged demo_FREED_SERIES_BYTE demo_nibble demo_units 20
           (demo_state (demo_pool ++ [demo_unmanaged])) 1
           (demo_state (demo_recycled ++ [demo_unmanaged])) 6 demo_unmanaged
           demo_Recycle_Core_unmanaged);
    [reflexivity|apply not_elem_of_nil|reflexivity|reflexivity].
Defined.





End GC.


(* ================================================================== *)
(** * Typesets (t-typeset.c, sys-typeset.h)                            *)
(* ================================================================== *)

Module TypesetOps.
Import Quoted.

(** The cells are those of the quoting above, whose kind byte is a
    number, so that the quote levels of an item can be read; the flag of
    kind [n] is bit [n] of a [REBU64] (see [Typeset.FLAGIT_KIND]). *)
Definition FLAGIT_KIND (n : Z) : Z := wrap64 (Z.shiftl 1 n).

(** [payload.typeset.bits] and [payload.datatype.kind]: two readings of
    the payload of a cell. The payload of a [REB_QUOTED] cell read as
    bits is not modelled (0 here); the properties below are about cells
    that hold bits. *)
Definition VAL_TYPESET_BITS (v : RELVAL) : Z :=
  match payload v with
  | Payload_Other bits => bits
  | Payload_Quoted _ _ => 0
  end.

Definition VAL_TYPE_KIND (v : RELVAL) : Z := VAL_TYPESET_BITS v.

(** [VAL_TYPESET_BITS(v) = bits] *)
Definition set_TYPESET_BITS (v : RELVAL) (bits : Z) : RELVAL :=
  mk_RELVAL (KIND_BYTE v) (extra v) (Payload_Other bits).

(** [#define TYPE_CHECK(v,n) (did (VAL_TYPESET_BITS(v) & FLAGIT_KIND(n)))] *)
Definition TYPE_CHECK (v : RELVAL) (n : Z) : bool :=
  negb (Z.land (VAL_TYPESET_BITS v) (FLAGIT_KIND n) =? 0).

(** [#define TYPE_SET(v,n) (VAL_TYPESET_BITS(v) |= FLAGIT_KIND(n))] *)
Definition TYPE_SET (v : RELVAL) (n : Z) : RELVAL :=
  set_TYPESET_BITS v (Z.lor (VAL_TYPESET_BITS v) (FLAGIT_KIND n)).

(** [#define TYPE_CLEAR(v,n) (VAL_TYPESET_BITS(v) &= ~FLAGIT_KIND(n))] *)
Definition TYPE_CLEAR (v : RELVAL) (n : Z) : RELVAL :=
  set_TYPESET_BITS v (Z.land (VAL_TYPESET_BITS v) (wrap64 (Z.lnot (FLAGIT_KIND n)))).

(** [#define EQUAL_TYPESET(v,w)] *)
Definition EQUAL_TYPESET (v w : RELVAL) : bool :=
  VAL_TYPESET_BITS v =? VAL_TYPESET_BITS w.

(** [CT_Typeset] *)
Definition CT_Typeset (a b : RELVAL) (mode : Z) : Z :=
  if mode <? 0 then -1 else if EQUAL_TYPESET a b then 1 else 0.

(** The verbs [REBTYPE(Typeset)] tells apart. *)
Inductive Verb : Type :=
| SYM_FIND
| SYM_INTERSECT
| SYM_UNION
| SYM_DIFFERENCE
| SYM_COMPLEMENT
| SYM_OTHER (sym : Z).

Inductive Error : Type :=
| Error_Invalid (arg : RELVAL)
| Error_Illegal_Action (kind : Z) (verb : Verb)
| Error_Bad_Make (kind : Z) (arg : RELVAL).

(** What a generic leaves in [D_OUT]: a value, or [nullptr]. *)
Inductive REB_R : Type :=
| R_OUT (v : RELVAL)
| R_NULL.

Inductive Make_Error : Type :=
| Error_No_Value_Core (word : RELVAL)
| Error_User (message : string)
| Error_Invalid_Core (item : RELVAL)
| Error_Bad_Make_Typeset (arg : RELVAL).

Section Typesets.

(** The numbers of the kinds, of the pseudotypes that are flags of a
    parameter, and of the class of a hard-quoted parameter, from a
    generated header. *)
Variable REB_QUOTED REB_WORD REB_PATH REB_TAG REB_BLOCK : Z.
Variable REB_BAR REB_BLANK REB_DATATYPE REB_TYPESET REB_MAX_NULLED : Z.
Variable REB_TS_VARIADIC REB_TS_ENDABLE REB_TS_NOOP_IF_BLANK : Z.
Variable REB_TS_SKIPPABLE REB_TS_QUOTED_WORD REB_TS_QUOTED_PATH : Z.
Variable REB_P_HARD_QUOTE : Z.

(** The first and the last of the classes of a parameter. *)
Variable REB_P_NORMAL REB_P_RETURN : Z.

(** Modelled from the spec: [VAL_TYPE] is in a header outside the
    excerpt; a cell with quote levels in its kind byte is a QUOTED!. *)
Definition VAL_TYPE (v : RELVAL) : Z :=
  if KIND_BYTE v >=? REB_64 then REB_QUOTED else KIND_BYTE v.

Definition IS_DATATYPE (v : RELVAL) : bool := VAL_TYPE v =? REB_DATATYPE.
Definition IS_TYPESET (v : RELVAL) : bool := VAL_TYPE v =? REB_TYPESET.

(** [Init_Bar], [Init_Blank], [Init_Datatype], [Init_Typeset] *)
Definition Init_Bar : RELVAL := mk_RELVAL REB_BAR 0 (Payload_Other 0).
Definition Init_Blank : RELVAL := mk_RELVAL REB_BLANK 0 (Payload_Other 0).
Definition Init_Datatype (kind : Z) : RELVAL :=
  mk_RELVAL REB_DATATYPE 0 (Payload_Other kind).
Definition Init_Typeset (bits : Z) : RELVAL :=
  mk_RELVAL REB_TYPESET 0 (Payload_Other bits).

(** [REBTYPE(Typeset)]: [val] is [D_ARG(1)] and [arg] is [D_ARG(2)] when
    there is one. Reading an argument that is not there is undefined
    ([None]). *)
Definition T_Typeset (val : RELVAL) (arg : option RELVAL) (verb : Verb)
  : option (Result Error REB_R) :=
  match verb with
  | SYM_FIND =>
      match arg with
      | None => None
      | Some arg =>
          if negb (IS_DATATYPE arg) then Some (Fail (Error_Invalid arg))
          else if TYPE_CHECK val (VAL_TYPE_KIND arg) then Some (Ok (R_OUT Init_Bar))
          else Some (Ok R_NULL)
      end
  | SYM_INTERSECT | SYM_UNION | SYM_DIFFERENCE =>
      match arg with
      | None => None
      | Some arg =>
          let checked : Result Error RELVAL :=
            if IS_DATATYPE arg
            then Ok (set_TYPESET_BITS arg (FLAGIT_KIND (VAL_TYPE arg)))
            else if negb (IS_TYPESET arg) then Fail (Error_Invalid arg)
            else Ok arg in
          match checked with
          | Fail e => Some (Fail e)
          | Ok arg' =>
              let bits :=
                match verb with
                | SYM_UNION => Z.lor (VAL_TYPESET_BITS val) (VAL_TYPESET_BITS arg')
                | SYM_INTERSECT => Z.land (VAL_TYPESET_BITS val) (VAL_TYPESET_BITS arg')
                | _ => Z.lxor (VAL_TYPESET_BITS val) (VAL_TYPESET_BITS arg')
                end in
              Some (Ok (R_OUT (set_TYPESET_BITS val bits)))
          end
      end
  | SYM_COMPLEMENT =>
      Some (Ok (R_OUT (set_TYPESET_BITS val (wrap64 (Z.lnot (VAL_TYPESET_BITS val))))))
  | SYM_OTHER _ => Some (Fail (Error_Illegal_Action REB_TYPESET verb))
  end.

(** The loop of [Typeset_To_Array], from [n] on for [count] kinds; the
    cells pushed, in order. *)
Fixpoint Typeset_To_Array_loop (tset : RELVAL) (n : Z) (count : nat) : list RELVAL :=
  match count with
  | O => []
  | S count' =>
      (if TYPE_CHECK tset n
       then [if n =? REB_MAX_NULLED then Init_Blank else Init_Datatype n]
       else [])
      ++ Typeset_To_Array_loop tset (n + 1) count'
  end.

(** [Typeset_To_Array]: [for (n = 1; n < REB_MAX_NULLED; ++n)] *)
Definition Typeset_To_Array (tset : RELVAL) : list RELVAL :=
  Typeset_To_Array_loop tset 1 (Z.to_nat (REB_MAX_NULLED - 1)).

(** ** MAKE TYPESET! *)

(** The tags of the root context, and the comparison of strings. *)
Variable Root_Ellipsis_Tag Root_End_Tag Root_Blank_Tag : RELVAL.
Variable Root_Opt_Tag Root_Skip_Tag : RELVAL.
Variable Compare_String_Vals : RELVAL → RELVAL → bool → Z.

(** [Get_Opt_Var_May_Fail(unescaped, specifier)]: the value of the
    variable, [None] for a variable that is not set; it may fail. *)
Variable Get_Opt_Var_May_Fail : RELVAL → Result Make_Error (option RELVAL).

(** [VAL_ARRAY_AT(arg)], up to the end marker. *)
Variable VAL_ARRAY_AT : RELVAL → list RELVAL.

(** The singular arrays of the deep quotes. *)
Variable mem : gmap N RELVAL.

(** Modelled from the spec: [CELL_KIND] and [VAL_UNESCAPED] are in a
    header outside the excerpt. The kind of a cell is "mod 64 of byte",
    and the cell under the quotes of a [REB_QUOTED] value is
    [payload.quoted.cell] (both as m-gc.c reads them); a dangling cell
    is undefined ([None]). *)
Definition CELL_KIND (v : RELVAL) : Z := KIND_BYTE v mod REB_64.

Definition VAL_UNESCAPED (v : RELVAL) : option RELVAL :=
  if KIND_BYTE v =? REB_QUOTED then
    match payload v with
    | Payload_Quoted cell _ => mem !! cell
    | Payload_Other _ => None
    end
  else Some v.

Definition IS_TAG (v : RELVAL) : bool := VAL_TYPE v =? REB_TAG.
Definition IS_QUOTED (v : RELVAL) : bool := VAL_TYPE v =? REB_QUOTED.
Definition IS_BLOCK (v : RELVAL) : bool := VAL_TYPE v =? REB_BLOCK.

(** [IS_PARAM_KIND(k)] and [IS_PARAM(v)] *)
Definition IS_PARAM_KIND (k : Z) : bool := (REB_P_NORMAL <=? k) && (k <=? REB_P_RETURN).
Definition IS_PARAM (v : RELVAL) : bool := IS_PARAM_KIND (KIND_BYTE v).

(** [VAL_PARAM_CLASS]: the kind byte of a parameter cell; [None] is its
    [assert(IS_PARAM(v))] violated. *)
Definition VAL_PARAM_CLASS (v : RELVAL) : option Z :=
  if IS_PARAM v then Some (KIND_BYTE v) else None.

(** The two places that turn a quoted WORD! or PATH! datatype into a
    flag of the typeset. *)
Definition quoted_datatype (typeset cell : RELVAL) : Result Make_Error RELVAL :=
  if VAL_TYPE_KIND cell =? REB_WORD then Ok (TYPE_SET typeset REB_TS_QUOTED_WORD)
  else if VAL_TYPE_KIND cell =? REB_PATH then Ok (TYPE_SET typeset REB_TS_QUOTED_PATH)
  else Fail (Error_User "WORD!/PATH! quote typechecking only, use QUOTED!").

(** One turn of the loop of [Update_Typeset_Bits_Core]. *)
Definition Update_item (typeset maybe_word : RELVAL)
  : option (Result Make_Error RELVAL) :=
  let num_quotes := VAL_NUM_QUOTES REB_QUOTED maybe_word in
  match VAL_UNESCAPED maybe_word with
  | None => None
  | Some unescaped =>
      let looked_up : Result Make_Error RELVAL :=
        if CELL_KIND unescaped =? REB_WORD then
          match Get_Opt_Var_May_Fail unescaped with
          | Fail e => Fail e
          | Ok None => Fail (Error_No_Value_Core maybe_word)
          | Ok (Some item) => Ok item
          end
        else Ok maybe_word in
      match looked_up with
      | Fail e => Some (Fail e)
      | Ok item =>
          if IS_TAG item then
            if Compare_String_Vals item Root_Ellipsis_Tag true =? 0
            then Some (Ok (TYPE_SET typeset REB_TS_VARIADIC))
            else if Compare_String_Vals item Root_End_Tag true =? 0
            then Some (Ok (TYPE_SET typeset REB_TS_ENDABLE))
            else if Compare_String_Vals item Root_Blank_Tag true =? 0
            then Some (Ok (TYPE_SET typeset REB_TS_NOOP_IF_BLANK))
            else if Compare_String_Vals item Root_Opt_Tag true =? 0
            then Some (Ok (TYPE_SET typeset REB_MAX_NULLED))
            else if Compare_String_Vals item Root_Skip_Tag true =? 0 then
              match VAL_PARAM_CLASS typeset with
              | None => None
              | Some class =>
                  if negb (class =? REB_P_HARD_QUOTE)
                  then Some (Fail (Error_User
                         "Only hard-quoted parameters are <skip>-able"))
                  else Some (Ok (TYPE_SET (TYPE_SET typeset REB_TS_SKIPPABLE)
                                   REB_TS_ENDABLE))
              end
            else Some (Ok typeset)
          else if IS_DATATYPE item then
            if num_quotes =? 0 then Some (Ok (TYPE_SET typeset (VAL_TYPE_KIND item)))
            else
              match VAL_UNESCAPED item with
              | None => None
              | Some cell =>
                  if num_quotes >? 1
                  then Some (Fail (Error_User
                         "General type quoting not supported, use QUOTED!"))
                  else Some (quoted_datatype typeset cell)
              end
          else if IS_TYPESET item then
            if negb (num_quotes =? 0)
            then Some (Fail (Error_User
                   "General typeset quoting not supported, use QUOTED!"))
            else Some (Ok (set_TYPESET_BITS typeset
                             (Z.lor (VAL_TYPESET_BITS typeset) (VAL_TYPESET_BITS item))))
          else if IS_QUOTED item then
            match VAL_UNESCAPED item with
            | None => None
            | Some cell =>
                if negb (CELL_KIND cell =? REB_DATATYPE)
                then Some (Fail (Error_User
                       "General typeset quoting not supported, use QUOTED!"))
                else Some (quoted_datatype typeset cell)
            end
          else Some (Fail (Error_Invalid_Core item))
      end
  end.

Fixpoint Update_loop (typeset : RELVAL) (head : list RELVAL)
  : option (Result Make_Error RELVAL) :=
  match head with
  | [] => Some (Ok typeset)
  | maybe_word :: rest =>
      match Update_item typeset maybe_word with
      | None => None
      | Some (Fail e) => Some (Fail e)
      | Some (Ok typeset') => Update_loop typeset' rest
      end
  end.

(** [Update_Typeset_Bits_Core]: the typeset as it is left (the routine
    answers [true] when it returns). *)
Definition Update_Typeset_Bits_Core (typeset : RELVAL) (head : list RELVAL)
  : option (Result Make_Error RELVAL) :=
  Update_loop (set_TYPESET_BITS typeset 0) head.

(** [MAKE_Typeset] *)
Definition MAKE_Typeset (arg : RELVAL) : option (Result Make_Error RELVAL) :=
  if IS_TYPESET arg then Some (Ok arg)
  else if negb (IS_BLOCK arg) then Some (Fail (Error_Bad_Make_Typeset arg))
  else Update_Typeset_Bits_Core (Init_Typeset 0) (VAL_ARRAY_AT arg).


(** A cell whose payload holds typeset bits. *)
Definition is_bits (t : RELVAL) : Prop := ∃ b, payload t = Payload_Other b.


(** The bits an item adds to a typeset of the class of [t], when the
    item is accepted. *)
Definition item_bits (t item : RELVAL) : option Z :=
  match Update_item (set_TYPESET_BITS t 0) item with
  | Some (Ok t') => Some (VAL_TYPESET_BITS t')
  | _ => None
  end.

(** The bits the items of a block add together. *)
Definition block_bits (t : RELVAL) (head : list RELVAL) : Z :=
  foldr (λ item acc, Z.lor (default 0 (item_bits t item)) acc) 0 head.

(** ** The bits of a typeset *)

Lemma bits_set v b : VAL_TYPESET_BITS (set_TYPESET_BITS v b) = b.
Proof. done. Qed.

Lemma FLAGIT_KIND_power n : 0 ≤ n < 64 → FLAGIT_KIND n = 2 ^ n.
Proof.
  intros Hn. unfold FLAGIT_KIND, wrap64. rewrite Z.shiftl_1_l.
  apply Z.mod_small. split; [lia|]. apply Z.pow_lt_mono_r; lia.
Qed.

Lemma land_pow2_testbit b n :
  0 ≤ n → negb (Z.land b (2 ^ n) =? 0) = Z.testbit b n.
Proof.
  intros Hn. destruct (Z.testbit b n) eqn:Hb.
  - apply negb_true_iff, Z.eqb_neq. intros H0.
    assert (Z.testbit (Z.land b (2 ^ n)) n = true) as H
      by (by rewrite Z.land_spec, Hb, Z.pow2_bits_true).
    by rewrite H0, Z.bits_0 in H.
  - apply negb_false_iff, Z.eqb_eq, Z.bits_inj'. intros j Hj.
    rewrite Z.land_spec, Z.bits_0, Z.pow2_bits_eqb by done.
    destruct (Z.eqb_spec n j) as [->|_]; [by rewrite Hb|apply andb_false_r].
Qed.

Lemma TYPE_CHECK_bit v n :
  0 ≤ n < 64 → TYPE_CHECK v n = Z.testbit (VAL_TYPESET_BITS v) n.
Proof.
  intros Hn. unfold TYPE_CHECK. rewrite FLAGIT_KIND_power by done.
  apply land_pow2_testbit. lia.
Qed.

Lemma wrap64_range b : wrap64 b = b ↔ 0 ≤ b < 2 ^ 64.
Proof.
  unfold wrap64. split; [intros <-; apply Z.mod_pos_bound; lia|apply Z.mod_small].
Qed.

Lemma wrap64_high b i : 0 ≤ b < 2 ^ 64 → 64 ≤ i → Z.testbit b i = false.
Proof.
  intros Hb Hi. rewrite <- (proj2 (wrap64_range b) Hb). unfold wrap64.
  apply Z.mod_pow2_bits_high. lia.
Qed.

Lemma bitwise_range (f : Z → Z → Z) (g : bool → bool → bool) a b :
  (∀ x y i, 0 ≤ i → Z.testbit (f x y) i = g (Z.testbit x i) (Z.testbit y i)) →
  g false false = false →
  0 ≤ a < 2 ^ 64 → 0 ≤ b < 2 ^ 64 → 0 ≤ f a b < 2 ^ 64.
Proof.
  intros Hf Hg Ha Hb. apply wrap64_range. unfold wrap64.
  apply Z.bits_inj'. intros i Hi. rewrite Z.testbit_mod_pow2 by lia.
  destruct (Z.ltb_spec i 64) as [Hlt|Hge]; [done|]. simpl.
  by rewrite Hf, (wrap64_high a), (wrap64_high b) by done.
Qed.

Lemma lor_range a b : 0 ≤ a < 2 ^ 64 → 0 ≤ b < 2 ^ 64 → 0 ≤ Z.lor a b < 2 ^ 64.
Proof. apply (bitwise_range Z.lor orb); [intros; apply Z.lor_spec|done]. Qed.

Lemma land_range a b : 0 ≤ a < 2 ^ 64 → 0 ≤ b < 2 ^ 64 → 0 ≤ Z.land a b < 2 ^ 64.
Proof. apply (bitwise_range Z.land andb); [intros; apply Z.land_spec|done]. Qed.

Lemma lxor_range a b : 0 ≤ a < 2 ^ 64 → 0 ≤ b < 2 ^ 64 → 0 ≤ Z.lxor a b < 2 ^ 64.
Proof. apply (bitwise_range Z.lxor xorb); [intros; apply Z.lxor_spec|done]. Qed.

Lemma wrap64_bounds b : 0 ≤ wrap64 b < 2 ^ 64.
Proof. unfold wrap64. apply Z.mod_pos_bound. lia. Qed.

Lemma wrap64_lnot_testbit b i :
  0 ≤ i < 64 → Z.testbit (wrap64 (Z.lnot b)) i = negb (Z.testbit b i).
Proof.
  intros Hi. unfold wrap64. rewrite Z.mod_pow2_bits_low by lia.
  apply Z.lnot_spec. lia.
Qed.

Lemma wrap64_lnot_involutive b :
  0 ≤ b < 2 ^ 64 → wrap64 (Z.lnot (wrap64 (Z.lnot b))) = b.
Proof.
  intros Hb. apply Z.bits_inj'. intros i Hi.
  destruct (Z.ltb_spec i 64) as [Hlt|Hge].
  - rewrite !wrap64_lnot_testbit by lia. apply negb_involutive.
  - rewrite (wrap64_high b) by done. unfold wrap64 at 1.
    apply Z.mod_pow2_bits_high. lia.
Qed.

Lemma TYPE_CHECK_TYPE_SET v n m :
  0 ≤ n < 64 → 0 ≤ m < 64 →
  TYPE_CHECK (TYPE_SET v n) m = (TYPE_CHECK v m || (m =? n)).
Proof.
  intros Hn Hm. rewrite !TYPE_CHECK_bit by done.
  unfold TYPE_SET. rewrite bits_set, FLAGIT_KIND_power by done.
  rewrite Z.lor_spec, Z.pow2_bits_eqb by lia. by rewrite (Z.eqb_sym m n).
Qed.

(** X6: [TYPE_SET] and [TYPE_CLEAR] change the answer of [TYPE_CHECK]
    for the kind they are given and for no other kind, and keep the bits
    within 64 bits. *)
Theorem TYPE_SET_CLEAR_CHECK v n m :
  0 ≤ n < 64 → 0 ≤ m < 64 →
  TYPE_CHECK (TYPE_SET v n) m = (TYPE_CHECK v m || (m =? n))
  ∧ TYPE_CHECK (TYPE_CLEAR v n) m = (TYPE_CHECK v m && negb (m =? n))
  ∧ (0 ≤ VAL_TYPESET_BITS v < 2 ^ 64 →
     0 ≤ VAL_TYPESET_BITS (TYPE_SET v n) < 2 ^ 64
     ∧ 0 ≤ VAL_TYPESET_BITS (TYPE_CLEAR v n) < 2 ^ 64).
Proof.
  intros Hn Hm. split; [by apply TYPE_CHECK_TYPE_SET|].
  rewrite !TYPE_CHECK_bit by done.
  unfold TYPE_SET, TYPE_CLEAR. rewrite !bits_set.
  rewrite FLAGIT_KIND_power by done. split.
  - rewrite Z.land_spec, wrap64_lnot_testbit, Z.pow2_bits_eqb by lia.
    by rewrite (Z.eqb_sym m n).
  - intros Hv. split.
    + apply lor_range; [done|]. split; [lia|]. apply Z.pow_lt_mono_r; lia.
    + apply land_range; [done|apply wrap64_bounds].
Qed.


(** X7: on two typesets, UNION, INTERSECT and DIFFERENCE answer a
    typeset that holds a kind exactly when one, both, or exactly one of
    the arguments holds it, and COMPLEMENT one that holds the kinds its
    argument does not; the complement of the complement is the typeset
    itself. *)
Theorem typeset_set_algebra val arg :
  IS_TYPESET arg = true →
  IS_DATATYPE arg = false →
  0 ≤ VAL_TYPESET_BITS val < 2 ^ 64 → 0 ≤ VAL_TYPESET_BITS arg < 2 ^ 64 →
  ∃ u i d c,
    T_Typeset val (Some arg) SYM_UNION
      = Some (Ok (R_OUT u))
    ∧ T_Typeset val (Some arg) SYM_INTERSECT
      = Some (Ok (R_OUT i))
    ∧ T_Typeset val (Some arg) SYM_DIFFERENCE
      = Some (Ok (R_OUT d))
    ∧ T_Typeset val None SYM_COMPLEMENT
      = Some (Ok (R_OUT c))
    ∧ T_Typeset c None SYM_COMPLEMENT
      = Some (Ok (R_OUT (set_TYPESET_BITS val (VAL_TYPESET_BITS val))))
    ∧ (∀ x, x ∈ [u; i; d; c] →
         KIND_BYTE x = KIND_BYTE val ∧ 0 ≤ VAL_TYPESET_BITS x < 2 ^ 64)
    ∧ ∀ k, 0 ≤ k < 64 →
        TYPE_CHECK u k = (TYPE_CHECK val k || TYPE_CHECK arg k)
        ∧ TYPE_CHECK i k = (TYPE_CHECK val k && TYPE_CHECK arg k)
        ∧ TYPE_CHECK d k = xorb (TYPE_CHECK val k) (TYPE_CHECK arg k)
        ∧ TYPE_CHECK c k = negb (TYPE_CHECK val k).
Proof.
  intros Hts Hdt Hv Ha. unfold T_Typeset. rewrite Hdt, Hts. simpl.
  eexists _, _, _, _. split_and!; try reflexivity.
  - by rewrite bits_set, wrap64_lnot_involutive.
  - intros x Hx. repeat (apply elem_of_cons in Hx as [->|Hx]);
      [..|by apply elem_of_nil in Hx]; (split; [done|]); rewrite bits_set.
    + by apply lor_range.
    + by apply land_range.
    + by apply lxor_range.
    + apply wrap64_bounds.
  - intros k Hk. rewrite !TYPE_CHECK_bit by done.
    rewrite !bits_set.
    rewrite Z.lor_spec, Z.land_spec, Z.lxor_spec, wrap64_lnot_testbit by done.
    done.
Qed.


(** X8: for UNION, INTERSECT and DIFFERENCE a DATATYPE! argument stands
    for the one bit [FLAGIT_KIND(VAL_TYPE(arg))], the bit of the kind
    DATATYPE! itself, whatever kind the datatype names: after the union
    of a typeset with a datatype, FIND answers as before for every kind
    but DATATYPE!. *)
Theorem typeset_datatype_argument val arg probe :
  0 ≤ REB_DATATYPE < 64 →
  IS_DATATYPE arg = true →
  IS_DATATYPE probe = true →
  0 ≤ VAL_TYPE_KIND probe < 64 →
  ∃ u,
    T_Typeset val (Some arg) SYM_UNION
      = Some (Ok (R_OUT u))
    ∧ u = TYPE_SET val REB_DATATYPE
    ∧ T_Typeset u (Some probe) SYM_FIND
      = Some (Ok (if TYPE_CHECK val (VAL_TYPE_KIND probe)
                     || (VAL_TYPE_KIND probe =? REB_DATATYPE)
                  then R_OUT Init_Bar else R_NULL)).
Proof.
  intros Hd Harg Hprobe Hk. exists (TYPE_SET val REB_DATATYPE).
  unfold T_Typeset. rewrite Harg, Hprobe. simpl.
  apply Z.eqb_eq in Harg. rewrite Harg, bits_set.
  split; [done|]. split; [done|].
  rewrite (TYPE_CHECK_TYPE_SET val REB_DATATYPE (VAL_TYPE_KIND probe) Hd Hk).
  by destruct (TYPE_CHECK val (VAL_TYPE_KIND probe) || (VAL_TYPE_KIND probe =? REB_DATATYPE)).
Qed.

Lemma Typeset_To_Array_loop_spec tset count : ∀ n,
  n + Z.of_nat count ≤ REB_MAX_NULLED →
  Typeset_To_Array_loop tset n count
  = Init_Datatype
      <$> filter (λ k, TYPE_CHECK tset k = true) (seqZ n (Z.of_nat count)).
Proof.
  induction count as [|count IH]; intros n Hn; [done|].
  rewrite Nat2Z.inj_succ, seqZ_cons, Z.pred_succ by lia. simpl.
  rewrite IH by lia. rewrite filter_cons.
  destruct (Z.eqb_spec n REB_MAX_NULLED) as [->|_]; [lia|].
  destruct (TYPE_CHECK tset n) eqn:Hc.
  - by rewrite decide_True by done.
  - by rewrite decide_False by done.
Qed.

(** X9: [Typeset_To_Array] lists, as datatypes and in increasing
    order, exactly the kinds from 1 to [REB_MAX_NULLED - 1] that the
    typeset holds; it lists no blank (the test for [REB_MAX_NULLED] in
    its loop is never true), and neither the bit of kind 0 nor a bit
    from [REB_MAX_NULLED] on shows in the block. *)
Theorem Typeset_To_Array_lists tset :
  Typeset_To_Array tset
  = Init_Datatype
      <$> filter (λ k, TYPE_CHECK tset k = true) (seqZ 1 (REB_MAX_NULLED - 1)).
Proof.
  unfold Typeset_To_Array. destruct (Z.le_gt_cases 1 REB_MAX_NULLED).
  - rewrite Typeset_To_Array_loop_spec by lia. unfold seqZ. by rewrite Nat2Z.id.
  - unfold seqZ. by replace (Z.to_nat (REB_MAX_NULLED - 1)) with 0%nat by lia.
Qed.

Lemma set_TYPESET_BITS_id t : is_bits t → set_TYPESET_BITS t (VAL_TYPESET_BITS t) = t.
Proof. destruct t as [k e p]. intros [b Hb]. simpl in Hb. by subst. Qed.

Lemma set_TYPESET_BITS_set t a b :
  set_TYPESET_BITS (set_TYPESET_BITS t a) b = set_TYPESET_BITS t b.
Proof. done. Qed.

Lemma is_bits_set t b : is_bits (set_TYPESET_BITS t b).
Proof. by exists b. Qed.

(** What an item does to a typeset is to add bits that depend on the
    item and on the class of the typeset, not on the bits it holds. *)
Lemma Update_item_adds t item t1 :
  is_bits t → Update_item t item = Some (Ok t1) →
  ∃ c, ∀ t', is_bits t' → KIND_BYTE t' = KIND_BYTE t →
    Update_item t' item
    = Some (Ok (set_TYPESET_BITS t' (Z.lor (VAL_TYPESET_BITS t') c))).
Proof.
  intros Ht H.
  unfold Update_item, quoted_datatype, VAL_PARAM_CLASS, IS_PARAM, TYPE_SET in *.
  repeat match type of H with
         | context [match ?x with _ => _ end] => destruct x eqn:?
         end; try discriminate H.
  all: try (eexists; intros t' Ht' Hk; rewrite ?Hk;
            repeat match goal with
                   | E : ?x = _ |- context [?x] => rewrite E
                   end;
            rewrite ?bits_set, ?set_TYPESET_BITS_set, <- ?Z.lor_assoc; reflexivity).
  all: exists 0; intros t' Ht' Hk; rewrite ?Hk;
    repeat match goal with
           | E : ?x = _ |- context [?x] => rewrite E
           end;
    by rewrite Z.lor_0_r, set_TYPESET_BITS_id.
Qed.

Lemma Update_item_item_bits t t' item r :
  is_bits t' → KIND_BYTE t' = KIND_BYTE t →
  Update_item t' item = Some (Ok r)
  ↔ ∃ c, item_bits t item = Some c
         ∧ r = set_TYPESET_BITS t' (Z.lor (VAL_TYPESET_BITS t') c).
Proof.
  intros Ht' Hk. unfold item_bits. split.
  - intros H. destruct (Update_item_adds _ _ _ Ht' H) as [c Hc].
    exists c. rewrite (Hc (set_TYPESET_BITS t 0)); [|apply is_bits_set|by rewrite Hk].
    rewrite !bits_set, Z.lor_0_l. split; [done|].
    rewrite (Hc t' Ht' eq_refl) in H. by simplify_eq.
  - intros (c & Hc & ->).
    destruct (Update_item (set_TYPESET_BITS t 0) item) as [[u|]|] eqn:Hu; try done.
    simplify_eq.
    destruct (Update_item_adds _ _ _ (is_bits_set t 0) Hu) as [c Hc].
    rewrite (Hc _ (is_bits_set t 0) eq_refl) in Hu. simplify_eq.
    rewrite (Hc t' Ht'); [|by rewrite Hk].
    by rewrite set_TYPESET_BITS_set, !bits_set, Z.lor_0_l.
Qed.

Lemma Update_loop_block_bits t head : ∀ t' r,
  is_bits t' → KIND_BYTE t' = KIND_BYTE t →
  Update_loop t' head = Some (Ok r)
  ↔ Forall (λ item, is_Some (item_bits t item)) head
    ∧ r = set_TYPESET_BITS t' (Z.lor (VAL_TYPESET_BITS t') (block_bits t head)).
Proof.
  induction head as [|item head IH]; intros t' r Ht' Hk; simpl.
  - rewrite Z.lor_0_r, set_TYPESET_BITS_id by done. split.
    + intros ?. by simplify_eq.
    + by intros [_ ->].
  - split.
    + intros H. destruct (Update_item t' item) as [[u|]|] eqn:Hu; try done.
      apply (Update_item_item_bits t) in Hu as (c & Hc & ->); [|done..].
      apply IH in H as [Hall ->]; [|apply is_bits_set|done].
      split; [constructor; by eauto|].
      by rewrite Hc, set_TYPESET_BITS_set, bits_set, Z.lor_assoc.
    + intros [Hall ->]. apply Forall_cons in Hall as [[c Hc] Hall].
      assert (Hu : Update_item t' item
                   = Some (Ok (set_TYPESET_BITS t' (Z.lor (VAL_TYPESET_BITS t') c))))
        by (apply (Update_item_item_bits t); eauto).
      rewrite Hu. apply IH; [apply is_bits_set|done|]. split; [done|].
      by rewrite Hc, set_TYPESET_BITS_set, bits_set, Z.lor_assoc.
Qed.

Lemma block_bits_testbit t head i :
  Z.testbit (block_bits t head) i = true
  ↔ ∃ item, item ∈ head ∧ Z.testbit (default 0 (item_bits t item)) i = true.
Proof.
  induction head as [|x head IH]; simpl.
  - rewrite Z.bits_0. split; [done|]. intros (? & H & _). by apply elem_of_nil in H.
  - rewrite Z.lor_spec, orb_true_iff, IH. split.
    + intros [H|(y & Hy & H)]; [exists x|exists y]; (split; [|done]);
        [by left|by right].
    + intros (y & Hy & H). apply elem_of_cons in Hy as [->|Hy]; [by left|right; eauto].
Qed.

(** X10: the typeset [Update_Typeset_Bits_Core] leaves depends on which
    items the block has, not on their order, on how often an item is
    repeated, or on the bits the typeset held before: when it returns
    for one block, it returns the same typeset for any block of the same
    items, and the typeset has the bits the items add, and no other. *)
Theorem Update_Typeset_Bits_Core_items typeset head head' r :
  (∀ item, item ∈ head ↔ item ∈ head') →
  Update_Typeset_Bits_Core typeset head = Some (Ok r) →
  (∀ bits, Update_Typeset_Bits_Core (set_TYPESET_BITS typeset bits) head' = Some (Ok r))
  ∧ KIND_BYTE r = KIND_BYTE typeset
  ∧ ∀ i, Z.testbit (VAL_TYPESET_BITS r) i = true
         ↔ ∃ item c, item ∈ head ∧ item_bits typeset item = Some c
                      ∧ Z.testbit c i = true.
Proof.
  intros Hsame H. unfold Update_Typeset_Bits_Core in H |- *.
  apply (Update_loop_block_bits typeset) in H as [Hall ->];
    [|apply is_bits_set|done].
  rewrite bits_set, Z.lor_0_l. split; [|split; [done|]].
  - intros bits. rewrite set_TYPESET_BITS_set.
    apply (Update_loop_block_bits typeset); [apply is_bits_set|done|]. split.
    + rewrite Forall_forall in Hall |- *. intros x Hx. apply Hall, Hsame, Hx.
    + rewrite bits_set, Z.lor_0_l. f_equal. apply Z.bits_inj'. intros i _.
      apply eq_true_iff_eq. rewrite !block_bits_testbit.
      split; intros (x & Hx & Hi); exists x; (split; [by apply Hsame|done]).
  - intros i. rewrite bits_set, block_bits_testbit. split.
    + intros (x & Hx & Hi). rewrite Forall_forall in Hall.
      destruct (Hall x Hx) as [c Hc]. rewrite Hc in Hi. by exists x, c.
    + intros (x & c & Hx & Hc & Hi). exists x. by rewrite Hc.
Qed.

Lemma Update_item_datatype typeset k :
  0 ≤ REB_DATATYPE < 64 →
  REB_DATATYPE ≠ REB_QUOTED → REB_DATATYPE ≠ REB_WORD → REB_DATATYPE ≠ REB_TAG →
  Update_item typeset (Init_Datatype k) = Some (Ok (TYPE_SET typeset k)).
Proof.
  intros Hd Hq Hw Ht.
  unfold Update_item, VAL_UNESCAPED, VAL_NUM_QUOTES, CELL_KIND, IS_TAG,
    IS_DATATYPE, VAL_TYPE, Init_Datatype, REB_64. cbn [KIND_BYTE payload].
  rewrite (proj2 (Z.eqb_neq _ _) Hq). cbn [KIND_BYTE payload].
  rewrite Z.mod_small, (proj2 (Z.eqb_neq _ _) Hw) by done. cbn [KIND_BYTE payload].
  replace (REB_DATATYPE >=? 64) with false by (symmetry; rewrite Z.geb_leb; apply Z.leb_gt; lia).
  rewrite (proj2 (Z.eqb_neq _ _) Ht), Z.eqb_refl, Z.div_small by done.
  done.
Qed.

Lemma Update_loop_datatypes ks : ∀ typeset,
  0 ≤ REB_DATATYPE < 64 →
  REB_DATATYPE ≠ REB_QUOTED → REB_DATATYPE ≠ REB_WORD → REB_DATATYPE ≠ REB_TAG →
  Forall (λ k, 0 ≤ k < 64) ks →
  ∃ r, Update_loop typeset (Init_Datatype <$> ks) = Some (Ok r)
       ∧ KIND_BYTE r = KIND_BYTE typeset
       ∧ ∀ m, 0 ≤ m < 64 →
           TYPE_CHECK r m = (TYPE_CHECK typeset m || bool_decide (m ∈ ks)).
Proof.
  induction ks as [|k ks IH]; intros typeset Hd Hq Hw Ht Hks; simpl.
  - exists typeset. split; [done|]. split; [done|]. intros m _.
    by rewrite orb_false_r.
  - apply Forall_cons in Hks as [Hk Hks].
    rewrite Update_item_datatype by done.
    destruct (IH (TYPE_SET typeset k) Hd Hq Hw Ht Hks) as (r & Hr & Hkind & Hbits).
    exists r. split; [done|]. split; [done|]. intros m Hm.
    rewrite Hbits, TYPE_CHECK_TYPE_SET by done. rewrite <- orb_assoc. f_equal.
    destruct (Z.eqb_spec m k) as [->|Hne].
    + rewrite (bool_decide_eq_true_2 (k ∈ k :: ks)) by set_solver. done.
    + simpl. apply bool_decide_ext. set_solver.
Qed.

(** X11: making a typeset from the block [Typeset_To_Array] gives for a
    typeset does not always give the typeset back: the typeset made
    holds the kinds from 1 to [REB_MAX_NULLED - 1] that the first one
    held, and nothing else; the bit of kind 0 and the bits from
    [REB_MAX_NULLED] on (the optional bit and the flags of a parameter)
    are lost. *)
Theorem MAKE_Typeset_of_Typeset_To_Array arg tset :
  0 ≤ REB_DATATYPE < 64 →
  REB_DATATYPE ≠ REB_QUOTED → REB_DATATYPE ≠ REB_WORD → REB_DATATYPE ≠ REB_TAG →
  REB_MAX_NULLED ≤ 64 →
  IS_TYPESET arg = false → IS_BLOCK arg = true →
  VAL_ARRAY_AT arg = Typeset_To_Array tset →
  ∃ r, MAKE_Typeset arg = Some (Ok r)
       ∧ KIND_BYTE r = REB_TYPESET
       ∧ ∀ m, 0 ≤ m < 64 →
           TYPE_CHECK r m
           = (TYPE_CHECK tset m && (1 <=? m) && (m <? REB_MAX_NULLED)).
Proof.
  intros Hd Hq Hw Ht Hmax Hts Hblock Harr.
  unfold MAKE_Typeset, Update_Typeset_Bits_Core. rewrite Hts, Hblock, Harr. simpl.
  set (ks := filter (λ k, TYPE_CHECK tset k = true) (seqZ 1 (REB_MAX_NULLED - 1))).
  assert (Typeset_To_Array tset = Init_Datatype <$> ks) as ->.
  { unfold Typeset_To_Array, ks, seqZ. destruct (Z.le_gt_cases 1 REB_MAX_NULLED).
    - rewrite Typeset_To_Array_loop_spec by lia. unfold seqZ. by rewrite Nat2Z.id.
    - by replace (Z.to_nat (REB_MAX_NULLED - 1)) with 0%nat by lia. }
  assert (Hin : ∀ m, m ∈ ks ↔ TYPE_CHECK tset m = true ∧ 1 ≤ m < REB_MAX_NULLED).
  { intros m. unfold ks. rewrite list_elem_of_filter, elem_of_seqZ. intuition lia. }
  destruct (Update_loop_datatypes ks (set_TYPESET_BITS (Init_Typeset 0) 0)
              Hd Hq Hw Ht) as (r & Hr & Hkind & Hbits).
  { apply Forall_forall. intros k Hk. apply Hin in Hk. lia. }
  exists r. split; [done|]. split; [done|]. intros m Hm. rewrite (Hbits m Hm).
  rewrite TYPE_CHECK_bit, bits_set, Z.bits_0 by done. simpl.
  destruct (TYPE_CHECK tset m) eqn:Hc; simpl.
  - destruct (Z.leb_spec 1 m), (Z.ltb_spec m REB_MAX_NULLED); simpl;
      first [apply bool_decide_eq_true_2, Hin; split; [done|lia]
            |apply bool_decide_eq_false_2; rewrite Hin; lia].
  - apply bool_decide_eq_false_2. rewrite Hin. intros [? _]. congruence.
Qed.

End Typesets.

(** ** A small instance

    Kind numbers (with [demo_REB_QUOTED] of the quoting above), tags and
    a block, to run the definitions on. *)

Definition demo_REB_WORD : Z := 4.
Definition demo_REB_PATH : Z := 8.
Definition demo_REB_BLOCK : Z := 13.
Definition demo_REB_TAG : Z := 20.
Definition demo_REB_BAR : Z := 24.
Definition demo_REB_BLANK : Z := 25.
Definition demo_REB_DATATYPE : Z := 30.
Definition demo_REB_TYPESET : Z := 31.
Definition demo_REB_MAX_NULLED : Z := 50.
Definition demo_REB_TS_VARIADIC : Z := 51.
Definition demo_REB_TS_ENDABLE : Z := 52.
Definition demo_REB_TS_NOOP_IF_BLANK : Z := 53.
Definition demo_REB_TS_SKIPPABLE : Z := 54.
Definition demo_REB_TS_QUOTED_WORD : Z := 55.
Definition demo_REB_TS_QUOTED_PATH : Z := 56.
Definition demo_REB_P_HARD_QUOTE : Z := 58.
Definition demo_REB_P_NORMAL : Z := 57.
Definition demo_REB_P_RETURN : Z := 61.

(** Tags are told apart by a number in the payload here. *)
Definition demo_tag (n : Z) : RELVAL := mk_RELVAL demo_REB_TAG 0 (Payload_Other n).
Definition demo_Compare_String_Vals (a b : RELVAL) (_ : bool) : Z :=
  VAL_TYPESET_BITS a - VAL_TYPESET_BITS b.
Definition demo_Get_Opt_Var_May_Fail (_ : RELVAL)
  : Result Make_Error (option RELVAL) := Ok None.

Definition demo_datatype (kind : Z) : RELVAL := Init_Datatype demo_REB_DATATYPE kind.
Definition demo_typeset (bits : Z) : RELVAL := Init_Typeset demo_REB_TYPESET bits.
Definition demo_block : RELVAL := mk_RELVAL demo_REB_BLOCK 0 (Payload_Other 0).
Definition demo_VAL_ARRAY_AT (_ : RELVAL) : list RELVAL :=
  [demo_datatype demo_REB_WORD; demo_datatype demo_REB_BLOCK].

Definition demo_Update_Typeset : RELVAL → list RELVAL → _ :=
  Update_Typeset_Bits_Core demo_REB_QUOTED demo_REB_WORD demo_REB_PATH
    demo_REB_TAG demo_REB_DATATYPE demo_REB_TYPESET demo_REB_MAX_NULLED
    demo_REB_TS_VARIADIC demo_REB_TS_ENDABLE demo_REB_TS_NOOP_IF_BLANK
    demo_REB_TS_SKIPPABLE demo_REB_TS_QUOTED_WORD demo_REB_TS_QUOTED_PATH
    demo_REB_P_HARD_QUOTE demo_REB_P_NORMAL demo_REB_P_RETURN
    (demo_tag 1) (demo_tag 2) (demo_tag 3) (demo_tag 4) (demo_tag 5) demo_Compare_String_Vals demo_Get_Opt_Var_May_Fail ∅.

Definition demo_MAKE_Typeset : RELVAL → _ :=
  MAKE_Typeset demo_REB_QUOTED demo_REB_WORD demo_REB_PATH
    demo_REB_TAG demo_REB_BLOCK demo_REB_DATATYPE demo_REB_TYPESET
    demo_REB_MAX_NULLED
    demo_REB_TS_VARIADIC demo_REB_TS_ENDABLE demo_REB_TS_NOOP_IF_BLANK
    demo_REB_TS_SKIPPABLE demo_REB_TS_QUOTED_WORD demo_REB_TS_QUOTED_PATH
    demo_REB_P_HARD_QUOTE demo_REB_P_NORMAL demo_REB_P_RETURN
    (demo_tag 1) (demo_tag 2) (demo_tag 3) (demo_tag 4) (demo_tag 5) demo_Compare_String_Vals demo_Get_Opt_Var_May_Fail
    demo_VAL_ARRAY_AT ∅.

Definition demo_T_Typeset : RELVAL → option RELVAL → Verb → _ :=
  T_Typeset demo_REB_QUOTED demo_REB_BAR demo_REB_DATATYPE demo_REB_TYPESET.

Lemma TYPE_SET_CLEAR_CHECK_witness :
  TYPE_CHECK (TYPE_SET (demo_typeset 0) 13) 13 = true
  ∧ TYPE_CHECK (TYPE_CLEAR (demo_typeset (2 ^ 13 + 2 ^ 4)) 13) 4 = true.
Proof.
  destruct (TYPE_SET_CLEAR_CHECK (demo_typeset 0) 13 13) as (Hs & _); [lia..|].
  destruct (TYPE_SET_CLEAR_CHECK (demo_typeset (2 ^ 13 + 2 ^ 4)) 13 4)
    as (_ & Hc & _); [lia..|].
  split; [exact Hs|exact Hc].
Defined.

Lemma typeset_set_algebra_witness :
  ∃ u, demo_T_Typeset (demo_typeset 6) (Some (demo_typeset 12)) SYM_UNION
       = Some (Ok (R_OUT u))
       ∧ TYPE_CHECK u 3 = true.
Proof.
  destruct (typeset_set_algebra demo_REB_QUOTED demo_REB_BAR demo_REB_DATATYPE
              demo_REB_TYPESET (demo_typeset 6) (demo_typeset 12))
    as (u & i & d & c & Hu & _ & _ & _ & _ & _ & Hk);
    [reflexivity|reflexivity
    |cbv [demo_typeset Init_Typeset VAL_TYPESET_BITS payload]; lia..|].
  exists u. split; [exact Hu|].
  destruct (Hk 3) as [H3 _]; [lia|]. exact H3.
Defined.

Lemma typeset_datatype_argument_witness :
  ∃ u, demo_T_Typeset (demo_typeset 0) (Some (demo_datatype demo_REB_WORD)) SYM_UNION
       = Some (Ok (R_OUT u))
       ∧ demo_T_Typeset u (Some (demo_datatype demo_REB_WORD)) SYM_FIND
         = Some (Ok R_NULL)
       ∧ demo_T_Typeset u (Some (demo_datatype demo_REB_DATATYPE)) SYM_FIND
         = Some (Ok (R_OUT (Init_Bar demo_REB_BAR))).
Proof.
  destruct (typeset_datatype_argument demo_REB_QUOTED demo_REB_BAR
              demo_REB_DATATYPE demo_REB_TYPESET (demo_typeset 0)
              (demo_datatype demo_REB_WORD) (demo_datatype demo_REB_WORD))
    as (u & Hu & Hset & Hfind);
    [unfold demo_REB_DATATYPE; lia|reflexivity|reflexivity
    |cbv [demo_datatype Init_Datatype VAL_TYPE_KIND VAL_TYPESET_BITS payload demo_REB_WORD]; lia|].
  exists u. split; [exact Hu|]. split; [exact Hfind|].
  rewrite Hset. reflexivity.
Defined.

Lemma demo_same_items :
  ∀ item : RELVAL,
    item ∈ [demo_datatype 4; demo_datatype 13; demo_tag 2]
    ↔ item ∈ [demo_tag 2; demo_datatype 13; demo_datatype 4; demo_datatype 4].
Proof. intros item. rewrite !elem_of_cons, !elem_of_nil. tauto. Qed.

Lemma Update_Typeset_Bits_Core_items_witness :
  demo_Update_Typeset (demo_typeset 7)
    [demo_tag 2; demo_datatype 13; demo_datatype 4; demo_datatype 4]
  = Some (Ok (demo_typeset (2 ^ 4 + 2 ^ 13 + 2 ^ 52))).
Proof.
  assert (demo_Update_Typeset (demo_typeset 0)
            [demo_datatype 4; demo_datatype 13; demo_tag 2]
          = Some (Ok (demo_typeset (2 ^ 4 + 2 ^ 13 + 2 ^ 52)))) as H
    by (vm_compute; reflexivity).
  exact (proj1 (Update_Typeset_Bits_Core_items _ _ _ _ _ _ _ _ _ _ _ _ _ _ _ _
                  _ _ _ _ _ _ _ _ _ _ _ _ demo_same_items H) 7).
Defined.

Lemma MAKE_Typeset_of_Typeset_To_Array_witness :
  ∃ r, demo_MAKE_Typeset demo_block = Some (Ok r)
       ∧ TYPE_CHECK r 13 = true ∧ TYPE_CHECK r 52 = false.
Proof.
  destruct (MAKE_Typeset_of_Typeset_To_Array demo_REB_QUOTED demo_REB_WORD
              demo_REB_PATH demo_REB_TAG demo_REB_BLOCK demo_REB_BLANK
              demo_REB_DATATYPE demo_REB_TYPESET demo_REB_MAX_NULLED
              demo_REB_TS_VARIADIC demo_REB_TS_ENDABLE demo_REB_TS_NOOP_IF_BLANK
              demo_REB_TS_SKIPPABLE demo_REB_TS_QUOTED_WORD
              demo_REB_TS_QUOTED_PATH demo_REB_P_HARD_QUOTE
              demo_REB_P_NORMAL demo_REB_P_RETURN
              (demo_tag 1) (demo_tag 2) (demo_tag 3) (demo_tag 4) (demo_tag 5)
              demo_Compare_String_Vals demo_Get_Opt_Var_May_Fail
              demo_VAL_ARRAY_AT ∅ demo_block
              (demo_typeset (2 ^ 4 + 2 ^ 13 + 2 ^ 52 + 1)))
    as (r & Hr & _ & Hbits);
    [unfold demo_REB_DATATYPE; lia|discriminate|discriminate|discriminate
    |unfold demo_REB_MAX_NULLED; lia|reflexivity|reflexivity
    |vm_compute; reflexivity|].
  exists r. split; [exact Hr|].
  split; [rewrite (Hbits 13) by lia|rewrite (Hbits 52) by lia]; reflexivity.
Defined.

End TypesetOps.

(* ================================================================== *)
(** * The table of canons: sizes, counters, shutdown (c-word.c)        *)
(* ================================================================== *)

Module WordTable.
Import Interner.

(** The counters say what the table holds: the slots in use are the
    slots that are not [NULL], and the deleteds are the tombstones. *)
Definition accounted (st : interner) : Prop :=
  PG_Num_Canon_Slots_In_Use st = Z.of_nat (occupied (PG_Canons_By_Hash st))
  ∧ PG_Num_Canon_Deleteds st = Z.of_nat (tombstones (PG_Canons_By_Hash st)).

(** The loop of the leak check of [Shutdown_Interning]: the first slot
    that holds a canon. *)
Fixpoint first_canon (table : list canon_slot) : option N :=
  match table with
  | [] => None
  | Slot_Canon canon :: _ => Some canon
  | _ :: table' => first_canon table'
  end.

(** [Shutdown_Interning], as debug builds have it: [Fail canon] is
    [panic (canon)]. *)
Definition Shutdown_Interning (st : interner) : Result N unit :=
  if negb (PG_Num_Canon_Slots_In_Use st - PG_Num_Canon_Deleteds st =? 0) then
    match first_canon (PG_Canons_By_Hash st) with
    | Some canon => Fail canon
    | None => Ok tt
    end
  else Ok tt.

Section Counters.

Variable Hash_UTF8 : list Z → Z.
Variable First_Hash_Candidate_Slot : Z → Z → Z * Z.
Variable Compare_UTF8 : list Z → list Z → Z.

Lemma probe_vacant fuel st bytes skip : ∀ slot d s d',
  probe Compare_UTF8 fuel st bytes skip slot d = Some (Probe_Vacant s d') →
  (∀ j, d = Some j → slot_at (PG_Canons_By_Hash st) j = Some Slot_DELETED) →
  slot_at (PG_Canons_By_Hash st) s = Some Slot_NULL
  ∧ ∀ j, d' = Some j → slot_at (PG_Canons_By_Hash st) j = Some Slot_DELETED.
Proof.
  induction fuel as [|fuel IH]; intros slot d s d' H Hd; [done|].
  simpl in H.
  destruct (slot_at (PG_Canons_By_Hash st) slot) as [[| |canon]|] eqn:Hslot; try done.
  - by simplify_eq.
  - apply IH in H; [done|]. intros j [= <-]. done.
  - destruct (series st !! canon) as [node|]; [|done].
    destruct (Compare_UTF8 (STR_HEAD node) bytes =? 0); [done|].
    destruct (Compare_UTF8 (STR_HEAD node) bytes <? 0); [by apply IH in H|].
    by repeat case_match.
Qed.

Lemma rehash_probe_vacant fuel table skip : ∀ slot slot',
  rehash_probe fuel table skip slot = Some slot' →
  slot_at table slot' = Some Slot_NULL.
Proof.
  induction fuel as [|fuel IH]; intros slot slot' H; [done|].
  simpl in H. destruct (slot_at table slot) as [[| |canon]|] eqn:Hslot; try done.
  - by simplify_eq.
  - by apply IH in H.
  - by apply IH in H.
Qed.

Lemma rehash_counts fuel mem old_slots : ∀ new_table in_use deleteds new' in_use' deleteds',
  rehash Hash_UTF8 First_Hash_Candidate_Slot fuel mem old_slots new_table in_use deleteds
  = Some (new', in_use', deleteds') →
  in_use' = in_use - Z.of_nat (tombstones old_slots)
  ∧ deleteds' = deleteds - Z.of_nat (tombstones old_slots)
  ∧ occupied new' = (occupied new_table + length (canons old_slots))%nat
  ∧ tombstones new' = tombstones new_table.
Proof.
  induction old_slots as [|s old_slots IH]; intros new_table in_use deleteds
    new' in_use' deleteds' H; simpl in H.
  - simplify_eq. unfold tombstones. simpl. split_and!; lia.
  - rewrite tombstones_cons. destruct s as [| |canon].
    + apply IH in H. rewrite decide_False by done. done.
    + apply IH in H as (-> & -> & Ho & Ht). rewrite decide_True by done.
      split_and!; [lia|lia|done|done].
    + destruct (mem !! canon) as [node|]; [|done].
      destruct (First_Hash_Candidate_Slot _ _) as [slot skip].
      destruct (rehash_probe fuel new_table skip slot) as [slot'|] eqn:Hp; [|done].
      apply rehash_probe_vacant in Hp.
      apply IH in H as (-> & -> & Ho & Ht). rewrite decide_False by done.
      pose proof (occupied_set_slot new_table slot' _ (Slot_Canon canon) Hp) as Ho'.
      pose proof (tombstones_set_slot new_table slot' _ (Slot_Canon canon) Hp) as Ht'.
      rewrite decide_False in Ho' by (intros E; by apply E).
      rewrite decide_True in Ho' by done.
      rewrite !decide_False in Ht' by done.
      change (canons (Slot_Canon canon :: old_slots)) with (canon :: canons old_slots).
      simpl. split_and!; lia.
Qed.

Lemma Expand_Word_Table_accounted fuel st st' :
  accounted st →
  Expand_Word_Table Hash_UTF8 First_Hash_Candidate_Slot fuel st = Some (Ok st') →
  accounted st'.
Proof.
  intros [Hin Hdel] H. unfold Expand_Word_Table in H.
  destruct (_ =? 0); [done|].
  destruct (rehash _ _ _ _ _ _ _ _) as [[[new' in_use'] deleteds']|] eqn:Hr; [|done].
  simplify_eq. apply rehash_counts in Hr as (-> & -> & Ho & Ht).
  rewrite occupied_replicate in Ho. rewrite tombstones_replicate in Ht.
  pose proof (occupied_split (PG_Canons_By_Hash st)).
  split; simpl; lia.
Qed.

Lemma find_slot_found fuel table intern skip : ∀ slot slot',
  find_slot fuel table intern skip slot = Some slot' →
  slot_at table slot' = Some (Slot_Canon intern).
Proof.
  induction fuel as [|fuel IH]; intros slot slot' H; [done|].
  simpl in H. destruct (slot_at table slot) as [s|] eqn:Hslot; [|done].
  destruct (decide (s = Slot_Canon intern)) as [->|]; [by simplify_eq|].
  by apply IH in H.
Qed.

Lemma ripple_one_slot fuel skip previous_slot : ∀ table slot table',
  ripple fuel table skip previous_slot slot = Some table' →
  set_slot table' previous_slot Slot_DELETED
  = set_slot table previous_slot Slot_DELETED.
Proof.
  induction fuel as [|fuel IH]; intros table slot table' H; [done|].
  simpl in H. destruct (slot_at table slot) as [[| |canon]|] eqn:Hslot; try done.
  - by simplify_eq.
  - destruct (slot_at table (next_slot _ _ _)) as [moved|]; [|done].
    apply IH in H. rewrite H. unfold set_slot. by rewrite list_insert_insert_eq.
  - destruct (slot_at table (next_slot _ _ _)) as [moved|]; [|done].
    apply IH in H. rewrite H. unfold set_slot. by rewrite list_insert_insert_eq.
Qed.

Lemma Intern_UTF8_Managed_accounted fuel st bytes a st' :
  accounted st →
  Intern_UTF8_Managed Hash_UTF8 First_Hash_Candidate_Slot Compare_UTF8 fuel st bytes
  = Some (Ok (a, st')) →
  accounted st'.
Proof.
  intros Hacc H. unfold Intern_UTF8_Managed in H.
  destruct (if PG_Num_Canon_Slots_In_Use st >? _ then _ else _)
    as [[st1|]|] eqn:Hexp; try done.
  assert (accounted st1) as [Hin Hdel].
  { destruct (PG_Num_Canon_Slots_In_Use st >? _).
    - by apply (Expand_Word_Table_accounted fuel st).
    - by simplify_eq. }
  destruct (First_Hash_Candidate_Slot _ _) as [slot skip].
  destruct (probe _ _ _ _ _ _ _) as [[s|canon|slot' d]|] eqn:Hprobe; try done.
  - by simplify_eq.
  - destruct (series st1 !! canon); [|done]. by simplify_eq.
  - apply probe_vacant in Hprobe as [Hnull Hd]; [|done].
    destruct d as [d|]; simplify_eq; unfold accounted; simpl.
    + specialize (Hd d eq_refl).
      pose proof (occupied_set_slot _ d _ (Slot_Canon (Make_Ser_Core (series st1))) Hd) as Ho.
      pose proof (tombstones_set_slot _ d _ (Slot_Canon (Make_Ser_Core (series st1))) Hd) as Ht.
      rewrite !decide_True in Ho by done.
      rewrite decide_True, decide_False in Ht by done. lia.
    + pose proof (occupied_set_slot _ slot' _ (Slot_Canon (Make_Ser_Core (series st1))) Hnull) as Ho.
      pose proof (tombstones_set_slot _ slot' _ (Slot_Canon (Make_Ser_Core (series st1))) Hnull) as Ht.
      rewrite decide_False in Ho by (intros E; by apply E).
      rewrite decide_True in Ho by done.
      rewrite !decide_False in Ht by done. lia.
Qed.

Lemma GC_Kill_Interning_accounted fuel st intern st' :
  accounted st →
  GC_Kill_Interning Hash_UTF8 First_Hash_Candidate_Slot fuel st intern = Some st' →
  accounted st'.
Proof.
  intros [Hin Hdel] H. unfold GC_Kill_Interning in H.
  destruct (series st !! intern) as [inode|]; [|done].
  destruct (find_predecessor _ _ _ _) as [temp|]; [|done].
  destruct (series st !! temp) as [tnode|]; [|done].
  destruct (negb (STRING_INFO_CANON inode)); [by simplify_eq|].
  destruct (negb (((MISC_bind_index inode).1 =? 0) && ((MISC_bind_index inode).2 =? 0)));
    [done|].
  destruct (First_Hash_Candidate_Slot _ _) as [slot0 skip].
  destruct (find_slot _ _ _ _ _) as [slot|] eqn:Hfind; [|done].
  apply find_slot_found in Hfind.
  destruct (negb (LINK_synonym inode =? intern)%N).
  - destruct (_ !! LINK_synonym inode) as [snode|]; [|done]. simplify_eq.
    pose proof (occupied_set_slot _ slot _ (Slot_Canon (LINK_synonym inode)) Hfind) as Ho.
    pose proof (tombstones_set_slot _ slot _ (Slot_Canon (LINK_synonym inode)) Hfind) as Ht.
    rewrite !decide_True in Ho by done. rewrite !decide_False in Ht by done.
    split; simpl; lia.
  - destruct (ripple _ _ _ _ _) as [table'|] eqn:Hripple; [|done]. simplify_eq.
    apply ripple_one_slot in Hripple. unfold accounted. simpl. rewrite Hripple.
    pose proof (occupied_set_slot _ slot _ Slot_DELETED Hfind) as Ho.
    pose proof (tombstones_set_slot _ slot _ Slot_DELETED Hfind) as Ht.
    rewrite !decide_True in Ho by done.
    rewrite decide_False, decide_True in Ht by done. lia.
Qed.

Lemma first_canon_canons table : first_canon table = head (canons table).
Proof.
  induction table as [|[| |c] table IH]; simpl; try done.
Qed.

(** X13: the two counters of the interner stay accurate. They are right
    after [Startup_Interning], and when they are right before an
    interning (with or without a growth of the table) or before the
    removal of a symbol, they are right after it: the slots in use are
    the slots that are not [NULL], the deleteds are the tombstones. *)
Theorem interner_counters_accurate st fuel :
  accounted st →
  (∀ n, accounted (Startup_Interning n))
  ∧ (∀ bytes a st',
       Intern_UTF8_Managed Hash_UTF8 First_Hash_Candidate_Slot Compare_UTF8
         fuel st bytes = Some (Ok (a, st')) → accounted st')
  ∧ (∀ intern st',
       GC_Kill_Interning Hash_UTF8 First_Hash_Candidate_Slot fuel st intern
       = Some st' → accounted st').
Proof.
  intros Hacc. split_and!.
  - intros n. unfold accounted, Startup_Interning. simpl.
    by rewrite occupied_replicate, tombstones_replicate.
  - intros bytes a st'. by apply Intern_UTF8_Managed_accounted.
  - intros intern st'. by apply GC_Kill_Interning_accounted.
Qed.

(** X14: with accurate counters, the leak check of [Shutdown_Interning]
    (debug builds) panics exactly when the table still holds a canon,
    and on the first one in slot order; tombstones alone do not make it
    panic. *)
Theorem Shutdown_Interning_leak_check st :
  accounted st →
  Shutdown_Interning st
  = match canons (PG_Canons_By_Hash st) with
    | [] => Ok tt
    | canon :: _ => Fail canon
    end.
Proof.
  intros [Hin Hdel]. unfold Shutdown_Interning.
  rewrite first_canon_canons, Hin, Hdel, occupied_split.
  destruct (canons (PG_Canons_By_Hash st)) as [|c l] eqn:Hc; simpl.
  - by destruct (_ =? 0).
  - match goal with |- context [?x =? 0] => destruct (Z.eqb_spec x 0) end; [lia|done].
Qed.

End Counters.




Lemma demo_st_accounted : accounted demo_st.
Proof. split; vm_compute; reflexivity. Qed.

Lemma interner_counters_accurate_witness :
  ∃ st', GC_Kill_Interning demo_Hash_UTF8 demo_First_Hash_Candidate_Slot
           demo_fuel demo_st 2 = Some st'
         ∧ accounted st'.
Proof.
  assert (∃ st', GC_Kill_Interning demo_Hash_UTF8 demo_First_Hash_Candidate_Slot
                   demo_fuel demo_st 2 = Some st') as [st' H]
    by (eexists; vm_compute; reflexivity).
  exists st'. split; [exact H|].
  destruct (interner_counters_accurate demo_Hash_UTF8 demo_First_Hash_Candidate_Slot
              demo_Compare_UTF8 demo_st demo_fuel demo_st_accounted)
    as (_ & _ & Hkill).
  exact (Hkill 2%N st' H).
Defined.

Lemma Shutdown_Interning_leak_check_witness :
  ∃ canon, Shutdown_Interning demo_st = Fail canon.
Proof.
  rewrite (Shutdown_Interning_leak_check demo_st demo_st_accounted).
  eexists. vm_compute. reflexivity.
Defined.

End WordTable.

(* ================================================================== *)
(** * QUOTED! values: path dispatch and the natives (t-quoted.c)       *)
(* ================================================================== *)

Module QuotedOps.
Import Quoted.

Inductive Assertion : Type :=
| Assert_quoted_kind_byte.       (* assert(KIND_BYTE(pvs->out) >= REB_MAX) *)

Section Natives.

Variable REB_QUOTED : Z.
Variable REB_MAX : Z.
Variable Is_Bindable : RELVAL → bool.

(** [PD_Quoted]: what is left in [pvs->out] before the dispatch is
    redone ([R_REDO_UNCHECKED]); reading [payload.quoted.cell] of a
    dangling cell, or of a payload that is not a quoted one, is
    undefined ([None]). The assertion is that of debug builds. *)
Definition PD_Quoted (mem : singulars) (out : RELVAL)
  : option (Result Assertion RELVAL) :=
  if KIND_BYTE out =? REB_QUOTED then
    match payload out with
    | Payload_Quoted cell _ =>
        match mem !! cell with
        | Some inner => Some (Ok (Move_Value inner))
        | None => None
        end
    | Payload_Other _ => None
    end
  else if negb (KIND_BYTE out >=? REB_MAX) then Some (Fail Assert_quoted_kind_byte)
  else Some (Ok (mutable_KIND_BYTE out (KIND_BYTE out mod REB_64))).

(** [MAKE_Quoted] *)
Definition MAKE_Quoted (mem : singulars) (arg : RELVAL) : RELVAL * singulars :=
  Quotify REB_QUOTED Is_Bindable mem (Move_Value arg) 1.

(** [REBNATIVE(quoted_q)] *)
Definition quoted_q (optional : RELVAL) : bool :=
  TypesetOps.VAL_TYPE REB_QUOTED optional =? REB_QUOTED.

(** The cells of [wf_cell] whose kind byte does not carry levels on top
    of the kind QUOTED! itself. *)
Definition proper_cell (mem : singulars) (v : RELVAL) : Prop :=
  wf_cell REB_QUOTED mem v
  ∧ (KIND_BYTE v mod REB_64 = REB_QUOTED → KIND_BYTE v = REB_QUOTED).

Hypothesis REB_QUOTED_kind : 0 < REB_QUOTED < REB_64.

(** X15: on a quoted value the path dispatch of QUOTED! leaves in
    [pvs->out] what DEQUOTE gives for it: the value with all its quote
    levels taken off, whose kind byte is below 64. *)
Theorem PD_Quoted_dequotes mem out :
  wf_cell REB_QUOTED mem out → REB_MAX ≤ REB_64 →
  0 < VAL_NUM_QUOTES REB_QUOTED out →
  ∃ r, PD_Quoted mem out = Some (Ok r)
       ∧ dequote REB_QUOTED mem out = Some r
       ∧ 0 ≤ KIND_BYTE r < REB_64.
Proof.
  intros [Hbyte Hq] Hmax Hquotes.
  unfold PD_Quoted, dequote, Unquotify, VAL_NUM_QUOTES, REB_64 in *.
  destruct (Z.eqb_spec (KIND_BYTE out) REB_QUOTED) as [Heq|Hne].
  - destruct (Hq Heq) as (cell & d & inner & -> & Hd & -> & Hinner & _).
    exists inner. rewrite Z.ltb_irrefl, Z.sub_diag, Z.mul_0_r, Z.add_0_r.
    by rewrite mutable_KIND_BYTE_id.
  - assert (64 ≤ KIND_BYTE out) as Hk.
    { destruct (Z.lt_ge_cases (KIND_BYTE out) 64); [|done].
      rewrite Z.div_small in Hquotes by lia. lia. }
    replace (KIND_BYTE out >=? REB_MAX) with true
      by (symmetry; rewrite Z.geb_leb; apply Z.leb_le; lia).
    rewrite Z.ltb_irrefl. simpl. eexists. split; [done|]. split.
    + do 2 f_equal. rewrite Z.mod_eq by lia. done.
    + simpl. apply Z.mod_pos_bound. lia.
Qed.

(** X16: QUOTED? answers true exactly for the values that carry a quote
    level. So it is true for what MAKE QUOTED! returns, for any value,
    and false for what DEQUOTE returns. *)
Theorem quoted_q_levels mem v :
  proper_cell mem v →
  quoted_q v = (0 <? VAL_NUM_QUOTES REB_QUOTED v)
  ∧ quoted_q (MAKE_Quoted mem v).1 = true
  ∧ ∀ r, dequote REB_QUOTED mem v = Some r → quoted_q r = false.
Proof.
  intros [[Hbyte Hq] Hproper].
  assert (Hlevels : 0 ≤ KIND_BYTE v / 64 ≤ 3).
  { split; [apply Z.div_pos; lia|]. apply Z.lt_succ_r, Z.div_lt_upper_bound; lia. }
  unfold quoted_q, MAKE_Quoted, Move_Value, dequote, Quotify, Unquotify,
    TypesetOps.VAL_TYPE, VAL_NUM_QUOTES, REB_64 in *.
  destruct (Z.eqb_spec (KIND_BYTE v) REB_QUOTED) as [Heq|Hne].
  - destruct (Hq Heq) as (cell & d & inner & -> & Hd & -> & Hinner & Hnq).
    cbn [fst KIND_BYTE]. rewrite Heq.
    replace (REB_QUOTED >=? 64) with false
      by (symmetry; rewrite Z.geb_leb; apply Z.leb_gt; lia).
    rewrite Z.eqb_refl.
    split; [symmetry; apply Z.ltb_lt; lia|]. split; [done|].
    intros r. rewrite Z.ltb_irrefl, Z.sub_diag. simpl (0 >? 3).
    rewrite Z.mul_0_r, Z.add_0_r, mutable_KIND_BYTE_id. intros [= <-].
    replace (KIND_BYTE inner >=? 64) with false
      by (symmetry; rewrite Z.geb_leb; apply Z.leb_gt; lia).
    by apply Z.eqb_neq.
  - split; [|split].
    + destruct (Z.geb_spec (KIND_BYTE v) 64) as [Hge|Hlt].
      * rewrite Z.eqb_refl. symmetry. apply Z.ltb_lt.
        apply Z.div_str_pos. lia.
      * rewrite (proj2 (Z.eqb_neq _ _) Hne), Z.div_small by lia. done.
    + replace (KIND_BYTE v / 64 + 1 <=? 3) with (KIND_BYTE v / 64 <=? 2)
        by (apply eq_true_iff_eq; rewrite !Z.leb_le; lia).
      destruct (KIND_BYTE v / 64 <=? 2); simpl.
      * replace (KIND_BYTE v + 64 * 1 >=? 64) with true
          by (symmetry; rewrite Z.geb_leb; apply Z.leb_le; lia).
        apply Z.eqb_refl.
      * destruct (REB_QUOTED >=? 64); apply Z.eqb_refl.
    + intros r. rewrite Z.ltb_irrefl. intros [= <-]. simpl.
      assert (KIND_BYTE v - 64 * (KIND_BYTE v / 64) = KIND_BYTE v mod 64) as ->
        by (rewrite Z.mod_eq; lia).
      pose proof (Z.mod_pos_bound (KIND_BYTE v) 64 ltac:(lia)) as Hmod.
      replace (KIND_BYTE v mod 64 >=? 64) with false
        by (symmetry; rewrite Z.geb_leb; apply Z.leb_gt; lia).
      apply Z.eqb_neq. intros E. apply Hne, Hproper, E.
Qed.

End Natives.

(** ** An instance, on the cells of the instance above *)

Definition demo_REB_MAX : Z := 50.

Lemma demo_proper_cell : proper_cell demo_REB_QUOTED ∅ demo_quoted_cell.
Proof. split; [exact demo_wf_cell|]. vm_compute. discriminate. Qed.

Lemma PD_Quoted_dequotes_witness :
  ∃ r, PD_Quoted demo_REB_QUOTED demo_REB_MAX ∅ demo_quoted_cell = Some (Ok r)
       ∧ dequote demo_REB_QUOTED ∅ demo_quoted_cell = Some r.
Proof.
  destruct (PD_Quoted_dequotes demo_REB_QUOTED demo_REB_MAX demo_REB_QUOTED_kind
              ∅ demo_quoted_cell demo_wf_cell) as (r & Hpd & Hdq & _).
  - unfold demo_REB_MAX, REB_64. lia.
  - vm_compute. reflexivity.
  - exists r. split; [exact Hpd|exact Hdq].
Defined.

Lemma quoted_q_levels_witness :
  quoted_q demo_REB_QUOTED demo_quoted_cell = true
  ∧ quoted_q demo_REB_QUOTED
      (MAKE_Quoted demo_REB_QUOTED demo_Is_Bindable ∅ demo_quoted_cell).1 = true.
Proof.
  destruct (quoted_q_levels demo_REB_QUOTED demo_Is_Bindable demo_REB_QUOTED_kind
              ∅ demo_quoted_cell demo_proper_cell) as (Hq & Hmake & _).
  split; [rewrite Hq; reflexivity|exact Hmake].
Defined.

End QuotedOps.

(* ================================================================== *)
(** * The words of a function and the index of a parameter
      (c-function.c)                                                   *)
(* ================================================================== *)

Module FuncOps.
Import Cell Typeset Dispatch Paramlist.

(** The [switch (VAL_PARAM_CLASS(param))] of [List_Func_Words]: the
    kind of word a parameter is listed as, [Some None] for [continue];
    [None] is the [assert(FALSE)] of the default case. *)
Definition word_kind (pure_locals : bool) (param : REBVAL)
  : option (option Reb_Kind) :=
  match VAL_PARAM_CLASS param with
  | PARAM_CLASS_NORMAL => Some (Some REB_WORD)
  | PARAM_CLASS_TIGHT => Some (Some REB_ISSUE)
  | PARAM_CLASS_REFINEMENT => Some (Some REB_REFINEMENT)
  | PARAM_CLASS_HARD_QUOTE => Some (Some REB_GET_WORD)
  | PARAM_CLASS_SOFT_QUOTE => Some (Some REB_LIT_WORD)
  | PARAM_CLASS_LOCAL | PARAM_CLASS_RETURN | PARAM_CLASS_LEAVE =>
      if negb pure_locals then Some None else Some (Some REB_SET_WORD)
  | PARAM_CLASS_0 => None
  end.

(** The loop of [List_Func_Words] over the parameters. *)
Fixpoint List_Func_Words_loop (params : list REBVAL) (pure_locals : bool)
  : option (list REBVAL) :=
  match params with
  | [] => Some []
  | param :: params' =>
      match word_kind pure_locals param with
      | None => None
      | Some None => List_Func_Words_loop params' pure_locals
      | Some (Some kind) =>
          match List_Func_Words_loop params' pure_locals with
          | None => None
          | Some array => Some (V_Any_Word kind (VAL_PARAM_SPELLING param) :: array)
          end
      end
  end.

(** [List_Func_Words]; the function is given by the cells of its
    paramlist, and "skips 0th entry". *)
Definition List_Func_Words (paramlist : list REBVAL) (pure_locals : bool)
  : option (list REBVAL) :=
  List_Func_Words_loop (drop 1 paramlist) pure_locals.

Section Words.

Variable kind_num : Reb_Kind → Z.
Variable NDEBUG : bool.
Variable STR_CANON : REBSTR → REBSTR.
Variable STR_SYMBOL : REBSTR → Z.
Variable Canon : Z → REBSTR.
Variable SYM_RETURN : Z.
Variable SYM_LEAVE : Z.
Variable is_with_tag : REBVAL → bool.
Variable is_local_tag : REBVAL → bool.
Variable Update_Typeset_Bits_Core : REBVAL → REBVAL → Result Error Z.
Variable Copy_Array_At_Deep_Managed : REBARR → nat → N.

(** The loop of [Find_Param_Index], at parameter [n]. *)
Fixpoint Find_Param_Index_loop (spelling : REBSTR) (params : list REBVAL) (n : nat)
  : nat :=
  match params with
  | [] => 0
  | param :: params' =>
      if (spelling =? VAL_PARAM_SPELLING param)%N
         || (STR_CANON spelling =? VAL_PARAM_CANON STR_CANON param)%N
      then n
      else Find_Param_Index_loop spelling params' (S n)
  end.

(** [Find_Param_Index] *)
Definition Find_Param_Index (paramlist : list REBVAL) (spelling : REBSTR) : nat :=
  Find_Param_Index_loop spelling (drop 1 paramlist) 1.

(** A parameter answers to a spelling. *)
Definition answers (spelling : REBSTR) (param : REBVAL) : Prop :=
  spelling = VAL_PARAM_SPELLING param
  ∨ STR_CANON spelling = VAL_PARAM_CANON STR_CANON param.

(** The words that stand for arguments in a spec. *)
Definition arg_word (item : REBVAL) : Prop :=
  ∃ k s, item = V_Any_Word k s
         ∧ k ∈ [REB_WORD; REB_GET_WORD; REB_LIT_WORD; REB_REFINEMENT; REB_ISSUE].

(** The parameter cell the spec loop makes of an argument word. *)
Definition param_of (fl : MKF) (item : REBVAL) : REBVAL :=
  V_Typeset (default PARAM_CLASS_0 (class_of_word (VAL_TYPE item) SPEC_MODE_NORMAL))
    (if MKF_ANY_VALUE fl then ALL_64 else default_bits kind_num)
    (VAL_WORD_SPELLING item).

(** The triples of the arguments on the stack, top first. *)
Definition triples (fl : MKF) (done : list REBVAL) : DS :=
  flat_map (λ item, [EMPTY_STRING; EMPTY_BLOCK; param_of fl item]) (rev done).

Abbreviation Make_Paramlist :=
  (Make_Paramlist_Managed_May_Fail kind_num NDEBUG STR_CANON STR_SYMBOL Canon
     SYM_RETURN SYM_LEAVE is_with_tag is_local_tag Update_Typeset_Bits_Core
     Copy_Array_At_Deep_Managed).

(** The state of the spec loop while only argument words have been
    seen, under flags without RETURN, LEAVE and FAKE_RETURN. *)
Record plain (fl : MKF) (l : locals) : Prop := mk_plain {
  plain_mode : mode l = SPEC_MODE_NORMAL;
  plain_RETURN : MKF_RETURN (flags l) = false;
  plain_LEAVE : MKF_LEAVE (flags l) = false;
  plain_FAKE : MKF_FAKE_RETURN (flags l) = false;
  plain_ANY : MKF_ANY_VALUE (flags l) = MKF_ANY_VALUE fl;
  plain_return_dsp : definitional_return_dsp l = 0%nat;
  plain_leave_dsp : definitional_leave_dsp l = 0%nat
}.

Lemma Find_Param_Index_loop_spec spelling params : ∀ n,
  (Find_Param_Index_loop spelling params n = 0%nat
   ∧ (n ≠ 0%nat → Forall (λ p, ¬ answers spelling p) params))
  ∨ ∃ i p, Find_Param_Index_loop spelling params n = (n + i)%nat
           ∧ params !! i = Some p ∧ answers spelling p
           ∧ ∀ j q, (j < i)%nat → params !! j = Some q → ¬ answers spelling q.
Proof.
  induction params as [|param params IH]; intros n; simpl.
  - left. split; [done|]. intros _. constructor.
  - destruct ((spelling =? VAL_PARAM_SPELLING param)%N
              || (STR_CANON spelling =? VAL_PARAM_CANON STR_CANON param)%N) eqn:Hm.
    + right. exists 0%nat, param. split_and!; [lia|done| |intros; lia].
      apply orb_true_iff in Hm as [Hm|Hm]; apply N.eqb_eq in Hm; [by left|by right].
    + assert (¬ answers spelling param) as Hno.
      { apply orb_false_iff in Hm as [H1 H2].
        apply N.eqb_neq in H1, H2. by intros [?|?]. }
      destruct (IH (S n)) as [[H0 Hall]|(i & p & Hr & Hp & Hans & Hfirst)].
      * left. split; [done|]. intros _. constructor; [done|]. by apply Hall.
      * right. exists (S i), p. split_and!; [lia|done|done|].
        intros [|j] q Hj Hq; simpl in Hq; [by simplify_eq|].
        apply (Hfirst j q); [lia|done].
Qed.

(** X17: [Find_Param_Index] answers 0 exactly when no parameter has the
    spelling or its canon; otherwise it answers the index (from 1,
    below the length of the paramlist) of the first parameter that
    does. Slot 0 of the paramlist is never looked at. *)
Theorem Find_Param_Index_contract paramlist spelling :
  let n := Find_Param_Index paramlist spelling in
  (n = 0%nat ↔
     ∀ i p, (1 ≤ i)%nat → paramlist !! i = Some p → ¬ answers spelling p)
  ∧ (n ≠ 0%nat →
       (n < length paramlist)%nat
       ∧ ∃ p, paramlist !! n = Some p ∧ answers spelling p
              ∧ ∀ i q, (1 ≤ i < n)%nat → paramlist !! i = Some q →
                       ¬ answers spelling q).
Proof.
  unfold Find_Param_Index.
  destruct (Find_Param_Index_loop_spec spelling (drop 1 paramlist) 1)
    as [[H0 Hall]|(i & p & Hr & Hp & Hans & Hfirst)]; cbn zeta.
  - rewrite H0. split; [|done]. split; [|done]. intros _ i q Hi Hq.
    specialize (Hall ltac:(lia)). rewrite Forall_forall in Hall. apply Hall.
    apply list_elem_of_lookup. exists (i - 1)%nat. rewrite lookup_drop.
    by replace (1 + (i - 1))%nat with i by lia.
  - rewrite Hr. rewrite lookup_drop in Hp. split.
    + split; [lia|]. intros Hnone. exfalso. by apply (Hnone (1 + i)%nat p); [lia| |].
    + intros _. split; [by apply lookup_lt_Some in Hp|].
      exists p. split_and!; [done|done|]. intros j q Hj Hq.
      apply (Hfirst (j - 1)%nat q); [lia|]. rewrite lookup_drop.
      by replace (1 + (j - 1))%nat with j by lia.
Qed.

Lemma List_Func_Words_loop_None params :
  List_Func_Words_loop params true = None
  ↔ ∃ p, p ∈ params ∧ VAL_PARAM_CLASS p = PARAM_CLASS_0.
Proof.
  induction params as [|p params IH]; simpl.
  - split; [done|]. intros (p & Hp & _). by apply elem_of_nil in Hp.
  - unfold word_kind. destruct (VAL_PARAM_CLASS p) eqn:Hc; simpl.
    { split; [|done]. intros _. exists p. split; [by left|done]. }
    all: destruct (List_Func_Words_loop params true) as [all'|].
    all: split; try done.
    all: try (intros _; destruct (proj1 IH eq_refl) as (q & Hq & Hq0);
              exists q; split; [by right|done]).
    all: intros (q & Hq & Hq0); apply elem_of_cons in Hq as [->|Hq]; [congruence|].
    all: exfalso; destruct IH as [_ IH]; by discriminate IH; [exists q].
Qed.

Lemma List_Func_Words_loop_locals params all :
  List_Func_Words_loop params true = Some all →
  length all = length params
  ∧ List_Func_Words_loop params false
    = Some (filter (λ w, VAL_TYPE w ≠ REB_SET_WORD) all).
Proof.
  revert all. induction params as [|p params IH]; intros all; simpl.
  - by intros [= <-].
  - unfold word_kind. destruct (VAL_PARAM_CLASS p) eqn:Hc; simpl; [done|..].
    all: destruct (List_Func_Words_loop params true) as [all'|]; [|done].
    all: intros [= <-]; destruct (IH all' eq_refl) as [Hlen Hf].
    all: (split; [simpl; lia|]); rewrite Hf, filter_cons; simpl.
    all: by rewrite ?decide_True, ?decide_False by (simpl; congruence).
Qed.

Lemma item_word_arg fl l item :
  arg_word item → plain fl l →
  ∃ l', item_word kind_num NDEBUG STR_CANON STR_SYMBOL SYM_RETURN SYM_LEAVE l item
        = Ok l'
        ∧ stack l' = param_of fl item :: flesh_out (stack l)
        ∧ plain fl l'.
Proof.
  intros (k & s & -> & Hk) [Hmode Hret Hleave Hfake Hany Hrd Hld].
  unfold item_word, param_of, flesh_out, Init_Typeset. rewrite Hmode, Hany, Hrd, Hld.
  rewrite (bool_decide_eq_true_2 (0%nat = 0%nat)) by done.
  change (negb NDEBUG && negb true) with (negb NDEBUG && false).
  rewrite andb_false_r.
  repeat (apply elem_of_cons in Hk as [->|Hk]); [..|by apply elem_of_nil in Hk].
  all: cbn [ANY_WORD negb IS_SET_WORD IS_REFINEMENT VAL_TYPE VAL_WORD_SPELLING
            class_of_word default from_option].
  all: rewrite ?decide_True by done.
  all: destruct ((STR_SYMBOL _ =? SYM_RETURN) && _);
    [|destruct ((STR_SYMBOL _ =? SYM_LEAVE) && _)].
  all: cbn.
  all: eexists; split; [reflexivity|]; split; [reflexivity|].
  all: by constructor.
Qed.

Lemma flesh_out_param t ds :
  VAL_TYPE t = REB_TYPESET →
  flesh_out (t :: ds) = EMPTY_STRING :: EMPTY_BLOCK :: t :: ds.
Proof.
  intros Ht. unfold flesh_out, DS_TOP, DS_PUSH, IS_TYPESET, IS_BLOCK. simpl.
  by rewrite Ht.
Qed.

Lemma spec_loop_args fl d base ws : ∀ l done,
  Forall arg_word ws → plain fl l →
  flesh_out (stack l) = triples fl done ++ base →
  ∃ l', spec_loop kind_num NDEBUG STR_CANON STR_SYMBOL SYM_RETURN SYM_LEAVE
          is_with_tag is_local_tag Update_Typeset_Bits_Core
          Copy_Array_At_Deep_Managed d l ws
        = Ok l'
        ∧ plain fl l'
        ∧ flesh_out (stack l') = triples fl (done ++ ws) ++ base.
Proof.
  induction ws as [|w ws IH]; intros l done Hws Hplain Hstack; simpl.
  - exists l. by rewrite app_nil_r.
  - apply Forall_cons in Hws as [Hw Hws].
    destruct (item_word_arg fl l w Hw Hplain) as (l1 & Hrun & Hst & Hplain1).
    assert (spec_item kind_num NDEBUG STR_CANON STR_SYMBOL SYM_RETURN SYM_LEAVE
              is_with_tag is_local_tag Update_Typeset_Bits_Core
              Copy_Array_At_Deep_Managed d l w
            = Ok l1) as ->.
    { destruct Hw as (k & s & -> & Hk).
      repeat (apply elem_of_cons in Hk as [->|Hk]); [..|by apply elem_of_nil in Hk];
        exact Hrun. }
    destruct (IH l1 (done ++ [w]) Hws Hplain1) as (l' & Hloop & Hplain' & Hst').
    { rewrite Hst, flesh_out_param by done. rewrite Hstack.
      unfold triples. rewrite rev_app_distr. reflexivity. }
    exists l'. by rewrite <- app_assoc in Hst'.
Qed.

Lemma length_triples fl ws : length (triples fl ws) = (3 * length ws)%nat.
Proof.
  unfold triples. rewrite <- (length_rev ws).
  induction (rev ws) as [|w l IH]; simpl; lia.
Qed.

Lemma rev_triples fl ws :
  rev (triples fl ws)
  = flat_map (λ item, [param_of fl item; EMPTY_BLOCK; EMPTY_STRING]) ws.
Proof.
  unfold triples. induction ws as [|w ws IH]; [done|].
  simpl. rewrite flat_map_app, rev_app_distr, IH. simpl. reflexivity.
Qed.

Lemma every_third_params fl ws : ∀ i,
  map snd (every_third i
             (flat_map (λ item, [param_of fl item; EMPTY_BLOCK; EMPTY_STRING]) ws))
  = map (param_of fl) ws.
Proof.
  induction ws as [|w ws IH]; intros i; [done|]. simpl. by rewrite IH.
Qed.

Lemma param_srcs_triples fl ws ds0 :
  map snd (param_srcs (length ds0)
             (triples fl ws ++ [EMPTY_STRING; EMPTY_BLOCK; V_Unreadable_Blank] ++ ds0))
  = map (param_of fl) ws.
Proof.
  unfold param_srcs, DSP. rewrite app_assoc.
  rewrite take_app_length'.
  2: { rewrite !length_app. simpl. lia. }
  rewrite rev_app_distr. simpl. rewrite rev_triples. apply every_third_params.
Qed.

Lemma add_loop_all srcs : ∀ binder duplicate dest,
  (add_loop STR_CANON 0 srcs binder duplicate dest).2 = dest ++ map snd srcs.
Proof.
  induction srcs as [|[i src] srcs IH]; intros binder duplicate dest; simpl.
  - by rewrite app_nil_r.
  - destruct (Try_Add_Binder_Index _ _ _) as [added binder'].
    rewrite IH, <- app_assoc. reflexivity.
Qed.

Lemma add_loop_no_duplicate srcs : ∀ binder dest,
  NoDup (canons_of STR_CANON srcs) →
  (∀ c, c ∈ canons_of STR_CANON srcs → binder !! c = None) →
  (add_loop STR_CANON 0 srcs binder None dest).1.2 = None.
Proof.
  induction srcs as [|[i src] srcs IH]; intros binder dest Hnd Hfresh; [done|].
  simpl in *. apply NoDup_cons in Hnd as [Hnotin Hnd].
  unfold Try_Add_Binder_Index. rewrite (Hfresh _ (list_elem_of_here _ _)).
  simpl. apply IH; [done|]. intros c Hc.
  rewrite lookup_insert_ne; [apply Hfresh; by right|]. by intros <-.
Qed.

Lemma List_Func_Words_loop_args fl ws :
  Forall arg_word ws →
  List_Func_Words_loop (map (param_of fl) ws) false = Some ws.
Proof.
  induction 1 as [|w ws (k & s & -> & Hk) _ IH]; [done|].
  simpl. rewrite IH.
  repeat (apply elem_of_cons in Hk as [->|Hk]); [..|by apply elem_of_nil in Hk];
    reflexivity.
Qed.

Lemma Find_Param_Index_loop_args fl ws : ∀ n i w,
  NoDup (map (VAL_WORD_CANON STR_CANON) ws) →
  ws !! i = Some w →
  Find_Param_Index_loop (VAL_WORD_SPELLING w) (map (param_of fl) ws) n = (n + i)%nat.
Proof.
  induction ws as [|x ws IH]; intros n i w Hnd Hi; [done|].
  simpl in Hnd. apply NoDup_cons in Hnd as [Hnotin Hnd].
  destruct i as [|i]; simpl in Hi.
  - simplify_eq. simpl. rewrite N.eqb_refl. simpl. lia.
  - simpl.
    assert (VAL_WORD_CANON STR_CANON w ≠ VAL_WORD_CANON STR_CANON x) as Hne.
    { intros E. apply Hnotin. rewrite <- E. apply list_elem_of_fmap. exists w.
      split; [done|]. by apply list_elem_of_lookup_2 in Hi. }
    unfold VAL_WORD_CANON, VAL_PARAM_CANON in Hne |- *.
    change (VAL_PARAM_SPELLING (param_of fl x)) with (VAL_WORD_SPELLING x).
    destruct (N.eqb_spec (VAL_WORD_SPELLING w) (VAL_WORD_SPELLING x)) as [E|_];
      [by rewrite E in Hne|].
    destruct (N.eqb_spec (STR_CANON (VAL_WORD_SPELLING w))
                (STR_CANON (VAL_WORD_SPELLING x))) as [E|_]; [done|].
    simpl. rewrite (IH (S n) i w Hnd Hi). lia.
Qed.

(** X18: a spec that is a list of argument words (WORD!, GET-WORD!,
    LIT-WORD!, REFINEMENT!, ISSUE!) with pairwise different canons,
    made into a paramlist without the RETURN, LEAVE and FAKE_RETURN
    flags, gives one parameter per word after the archetype, and the
    words come back: [List_Func_Words] of the paramlist (locals left
    out) is the spec, and [Find_Param_Index] of the spelling of the
    word at position [i] of the spec is [i + 1]. *)
Theorem words_of_paramlist self spec fl ds0 :
  Forall arg_word spec →
  NoDup (map (VAL_WORD_CANON STR_CANON) spec) →
  MKF_RETURN fl = false → MKF_LEAVE fl = false → MKF_FAKE_RETURN fl = false →
  ∃ archetype,
    result (Make_Paramlist self spec fl ds0)
    = Ok (archetype :: map (param_of fl) spec)
    ∧ VAL_TYPE archetype = REB_FUNCTION
    ∧ List_Func_Words (archetype :: map (param_of fl) spec) false = Some spec
    ∧ ∀ i w, spec !! i = Some w →
        Find_Param_Index (archetype :: map (param_of fl) spec) (VAL_WORD_SPELLING w)
        = S i.
Proof.
  intros Hargs Hnd Hret Hleave Hfake.
  set (base := [EMPTY_STRING; EMPTY_BLOCK; V_Unreadable_Blank] ++ ds0).
  assert (entry_flags NDEBUG fl = (mk_func_flags false false false, fl)) as Hentry.
  { unfold entry_flags. by rewrite Hfake, andb_false_r. }
  destruct (spec_loop_args fl (DSP ds0) base spec (initial_locals NDEBUG fl ds0) [])
    as (l & Hloop & [Hmode Hr Hl Hf Hany Hrd Hld] & Hstack); [done| |done|].
  { unfold initial_locals. rewrite Hentry. by constructor. }
  simpl in Hstack.
  assert (entry_assert NDEBUG fl = true) as Hassert.
  { unfold entry_assert. rewrite Hfake. by destruct NDEBUG. }
  unfold Make_Paramlist_Managed_May_Fail, first_pass, parse_spec.
  rewrite Hassert, Hloop.
  unfold definitional_leave, definitional_return. cbn [flags with_stack].
  rewrite Hl. cbv beta iota zeta. cbn [flags with_stack]. rewrite Hr, Hentry.
  cbn [fst].
  eexists. split; [|split; [|split]].
  - unfold second_pass, copy_return.
    cbn [stack flags definitional_return_dsp with_stack].
    rewrite Hrd, Hstack, Hf.
    pose proof (param_srcs_triples fl spec ds0) as Hsrcs. fold base in Hsrcs.
    assert (((DSP (triples fl spec ++ base) - DSP ds0) / 3)%nat = S (length spec)) as Hn.
    { unfold DSP, base. rewrite !length_app, length_triples.
      cbn [length].
      replace (3 * length spec + (3 + length ds0) - length ds0)%nat
        with (S (length spec) * 3)%nat by lia.
      apply Nat.div_mul. lia. }
    rewrite Hn. unfold DSP.
    pose proof (add_loop_all (param_srcs (length ds0) (triples fl spec ++ base))
                  INIT_BINDER None [V_Function (mk_func_flags false false false) self 0%N])
      as Hdest.
    pose proof (add_loop_no_duplicate (param_srcs (length ds0) (triples fl spec ++ base))
                  INIT_BINDER [V_Function (mk_func_flags false false false) self 0%N])
      as Hdup.
    destruct (add_loop _ _ _ _ _ _) as [[binder duplicate] dest].
    cbn [fst snd] in Hdest, Hdup. rewrite Hdup.
    + rewrite bool_decide_eq_false_2 by (intros E; by apply E).
      cbn [andb result]. rewrite Hdest, Hsrcs, Nat.sub_0_r. f_equal. apply take_ge.
      simpl. by rewrite length_map.
    + unfold canons_of. rewrite <- (map_map snd (VAL_PARAM_CANON STR_CANON)), Hsrcs.
      rewrite map_map. exact Hnd.
    + intros c _. apply lookup_empty.
  - reflexivity.
  - unfold List_Func_Words. simpl. rewrite drop_0.
    by apply List_Func_Words_loop_args.
  - intros i w Hi. unfold Find_Param_Index. simpl. rewrite drop_0.
    by rewrite (Find_Param_Index_loop_args fl spec 1 i w Hnd Hi).
Qed.

(** ** The parameters of any paramlist that was made *)

Lemma every_third_lookup : ∀ k region i iv,
  every_third i region !! k = Some iv →
  iv.1 = (i + 3 * k)%nat ∧ region !! (3 * k)%nat = Some iv.2.
Proof.
  induction k as [|k IH]; intros region i iv H.
  - destruct region as [|v rest]; [done|]. simpl in H. injection H as <-.
    split; [simpl; lia|done].
  - destruct region as [|v [|b [|s rest]]]; try done. simpl in H.
    apply IH in H as [Hi Hv]. split; [lia|].
    replace (3 * S k)%nat with (S (S (S (3 * k)))) by lia. exact Hv.
Qed.

Lemma rev_lookup (l : list REBVAL) i :
  (i < length l)%nat → rev l !! i = l !! (length l - S i)%nat.
Proof.
  intros Hi. rewrite rev_alt. change (rev_append l []) with (reverse l).
  by apply reverse_lookup.
Qed.

Lemma param_srcs_cells d ds q k iv :
  length ds = (d + 3 * (q + 1))%nat →
  param_srcs d ds !! k = Some iv →
  iv.1 = (d + 4 + 3 * k)%nat ∧ (k < q)%nat ∧ DS_AT ds iv.1 = Some iv.2.
Proof.
  intros Hlen H.
  assert (k < q)%nat as Hk.
  { apply lookup_lt_Some in H.
    rewrite <- (length_map fst), (param_srcs_indexes d ds q Hlen), length_map,
      length_seq in H. exact H. }
  unfold param_srcs in H. apply every_third_lookup in H as [Hi Hv].
  split; [done|]. split; [done|].
  unfold DS_AT. rewrite decide_True by lia. rewrite <- Hv, Hi.
  unfold DSP. rewrite lookup_drop, rev_lookup by (rewrite length_take; lia).
  rewrite length_take, lookup_take_lt by lia. f_equal. lia.
Qed.

Lemma add_loop_dest ret srcs : ∀ binder duplicate dest,
  (add_loop STR_CANON ret srcs binder duplicate dest).2
  = dest ++ map snd (filter (λ iv, ¬ (ret ≠ 0%nat ∧ iv.1 = ret)) srcs).
Proof.
  induction srcs as [|[i src] srcs IH]; intros binder duplicate dest; simpl.
  - by rewrite app_nil_r.
  - destruct (Try_Add_Binder_Index _ _ _) as [added binder'].
    rewrite filter_cons. simpl.
    destruct (decide (ret ≠ 0%nat)) as [Hr|Hr];
      destruct (decide (i = ret)) as [Hi|Hi].
    + rewrite !bool_decide_eq_true_2 by done. simpl.
      rewrite decide_False by tauto. apply IH.
    + rewrite (bool_decide_eq_false_2 (i = ret)) by done. rewrite andb_false_r.
      rewrite decide_True by tauto. rewrite IH, <- app_assoc. reflexivity.
    + rewrite (bool_decide_eq_false_2 (ret ≠ 0%nat)) by done. simpl.
      rewrite decide_True by tauto. rewrite IH, <- app_assoc. reflexivity.
    + rewrite (bool_decide_eq_false_2 (ret ≠ 0%nat)) by done. simpl.
      rewrite decide_True by tauto. rewrite IH, <- app_assoc. reflexivity.
Qed.

Lemma filter_keep_all (srcs : list (nat * REBVAL)) ret :
  ret ∉ map fst srcs →
  filter (λ iv, ¬ (ret ≠ 0%nat ∧ iv.1 = ret)) srcs = srcs.
Proof.
  induction srcs as [|[i v] srcs IH]; intros Hnotin; [done|].
  simpl in Hnotin. apply not_elem_of_cons in Hnotin as [Hne Hnotin].
  rewrite filter_cons. simpl. rewrite decide_True by (intros [_ E]; by apply Hne).
  by rewrite IH.
Qed.

Lemma filter_one_out (srcs : list (nat * REBVAL)) ret c :
  ret ≠ 0%nat → NoDup (map fst srcs) → (ret, c) ∈ srcs →
  map snd (filter (λ iv, ¬ (ret ≠ 0%nat ∧ iv.1 = ret)) srcs) ++ [c]
  ≡ₚ map snd srcs.
Proof.
  intros Hr. induction srcs as [|[i v] srcs IH]; intros Hnd Hin.
  { by apply elem_of_nil in Hin. }
  simpl in Hnd. apply NoDup_cons in Hnd as [Hnotin Hnd].
  rewrite filter_cons. simpl.
  apply elem_of_cons in Hin as [Heq|Hin].
  - injection Heq as <- <-. rewrite decide_False by tauto.
    rewrite filter_keep_all by done. symmetry. apply Permutation_cons_append.
  - assert (i ≠ ret) as Hne.
    { intros ->. apply Hnotin. apply list_elem_of_fmap. by exists (ret, c). }
    rewrite decide_True by tauto. simpl. apply perm_skip. by apply IH.
Qed.

Lemma Find_Param_Index_loop_own params : ∀ n j p,
  NoDup (map (VAL_PARAM_CANON STR_CANON) params) →
  params !! j = Some p →
  Find_Param_Index_loop (VAL_PARAM_SPELLING p) params n = (n + j)%nat.
Proof.
  induction params as [|x params IH]; intros n j p Hnd Hj; [done|].
  simpl in Hnd. apply NoDup_cons in Hnd as [Hnotin Hnd].
  destruct j as [|j]; simpl in Hj.
  - simplify_eq. simpl. rewrite N.eqb_refl. simpl. lia.
  - assert (VAL_PARAM_CANON STR_CANON p ≠ VAL_PARAM_CANON STR_CANON x) as Hne.
    { intros E. apply Hnotin. rewrite <- E. apply list_elem_of_fmap. exists p.
      split; [done|]. by apply list_elem_of_lookup_2 in Hj. }
    simpl. unfold VAL_PARAM_CANON in Hne |- *.
    destruct (N.eqb_spec (VAL_PARAM_SPELLING p) (VAL_PARAM_SPELLING x)) as [E|_];
      [by rewrite E in Hne|].
    destruct (N.eqb_spec (STR_CANON (VAL_PARAM_SPELLING p))
                (STR_CANON (VAL_PARAM_SPELLING x))) as [E|_]; [done|].
    simpl. rewrite (IH (S n) j p Hnd Hj). lia.
Qed.

Lemma first_pass_slots spec fl ds0 l hdr :
  first_pass kind_num NDEBUG STR_CANON STR_SYMBOL Canon SYM_RETURN SYM_LEAVE
    is_with_tag is_local_tag Update_Typeset_Bits_Core Copy_Array_At_Deep_Managed
    spec fl ds0 = Ok (l, hdr) →
  ∃ q, length (stack l) = (DSP ds0 + 3 * (q + 1))%nat
       ∧ (definitional_return_dsp l = 0%nat
          ∨ ∃ m, (m < q)%nat
                 ∧ definitional_return_dsp l = (DSP ds0 + 3 * m + 4)%nat).
Proof.
  unfold first_pass.
  destruct (parse_spec _ _ _ _ _ _ _ _ _ _ spec fl ds0) as [l0|e] eqn:Hparse; [|done].
  destruct (parse_spec_Inv kind_num NDEBUG STR_CANON STR_SYMBOL Canon SYM_RETURN
              SYM_LEAVE is_with_tag is_local_tag Update_Typeset_Bits_Core
              Copy_Array_At_Deep_Managed spec fl ds0 l0 Hparse)
    as [(loc & rest & Hst & Hlen & Hsh) Hlv Hslot].
  rewrite Hst in Hslot.
  destruct (flesh_out_complete STR_CANON STR_SYMBOL Canon SYM_RETURN is_with_tag
              is_local_tag Update_Typeset_Bits_Core (DSP ds0) loc rest _ Hsh Hslot)
    as (loc2 & Hfl & Hc2 & Hslot2).
  destruct (complete_length loc2 Hc2) as [q Hq].
  set (l1 := with_stack l0 (flesh_out (stack l0))).
  assert (length (stack l1) = (DSP ds0 + 3 * (q + 1))%nat) as Hlen1.
  { simpl. rewrite Hst, Hfl, length_app. lia. }
  assert (definitional_return_dsp l1 = 0%nat
          ∨ ∃ m, (m < q)%nat
                 ∧ definitional_return_dsp l1 = (DSP ds0 + 3 * m + 4)%nat) as Hret1.
  { simpl. destruct Hslot2 as [?|[[m Hm] (bits & s & Hat)]]; [by left|right].
    exists m. split; [|done].
    apply (DS_AT_Some STR_CANON STR_SYMBOL Canon SYM_RETURN is_with_tag
             is_local_tag Update_Typeset_Bits_Core) in Hat as [Hrange _].
    rewrite length_app in Hrange. lia. }
  clearbody l1. clear Hparse Hst Hsh Hlv Hslot Hfl Hc2 Hslot2 Hq loc loc2.
  (* the leave *)
  assert (∃ q2, length (stack (definitional_leave kind_num Canon SYM_LEAVE l1
                                 (entry_flags NDEBUG fl).1).1)
                = (DSP ds0 + 3 * (q2 + 1))%nat
                ∧ (definitional_return_dsp
                     (definitional_leave kind_num Canon SYM_LEAVE l1
                        (entry_flags NDEBUG fl).1).1 = 0%nat
                   ∨ ∃ m, (m < q2)%nat
                          ∧ definitional_return_dsp
                              (definitional_leave kind_num Canon SYM_LEAVE l1
                                 (entry_flags NDEBUG fl).1).1
                            = (DSP ds0 + 3 * m + 4)%nat)) as (q2 & Hlen2 & Hret2).
  { unfold definitional_leave. destruct (MKF_LEAVE (flags l1)); [|by exists q].
    destruct (decide (definitional_leave_dsp l1 = 0%nat)); simpl.
    - exists (S q). split; [unfold DS_PUSH; simpl; lia|].
      destruct Hret1 as [?|(m & Hm & ?)]; [by left|right]. exists m. split; [lia|done].
    - exists q. by rewrite length_reclassify. }
  destruct (definitional_leave kind_num Canon SYM_LEAVE l1 (entry_flags NDEBUG fl).1)
    as [l2 hdr2]. simpl in Hlen2, Hret2.
  (* the return *)
  intros [= Heq]. unfold definitional_return in Heq.
  destruct (MKF_RETURN (flags l2)); injection Heq as <- _; [|by exists q2].
  destruct (decide (definitional_return_dsp l2 = 0%nat)); simpl.
  - exists (S q2). split; [unfold DS_PUSH; simpl; lia|]. right.
    exists q2. split; [lia|]. unfold DSP, DS_PUSH in *. simpl. lia.
  - exists q2. by rewrite length_reclassify.
Qed.

(** X22: in any paramlist [Make_Paramlist_Managed_May_Fail] returns,
    whatever the spec and the flags, no two parameters have the same
    canon; so [Find_Param_Index] of the spelling of the parameter at
    index [i] is [i]. *)
Theorem paramlist_parameters_distinct self spec fl ds0 plist :
  result (Make_Paramlist self spec fl ds0) = Ok plist →
  NoDup (map (VAL_PARAM_CANON STR_CANON) (drop 1 plist))
  ∧ ∀ i p, (1 ≤ i)%nat → plist !! i = Some p →
      Find_Param_Index plist (VAL_PARAM_SPELLING p) = i.
Proof.
  intros Hres.
  assert (NoDup (map (VAL_PARAM_CANON STR_CANON) (drop 1 plist))) as Hnd.
  2: { split; [done|]. intros i p Hi Hp. unfold Find_Param_Index.
       rewrite (Find_Param_Index_loop_own (drop 1 plist) 1 (i - 1) p Hnd).
       - lia.
       - rewrite lookup_drop. by replace (1 + (i - 1))%nat with i by lia. }
  unfold Make_Paramlist_Managed_May_Fail in Hres.
  destruct (first_pass _ _ _ _ _ _ _ _ _ _ _ spec fl ds0) as [[l hdr]|e] eqn:Hfirst;
    [|done].
  destruct (first_pass_slots spec fl ds0 l hdr Hfirst) as (q & Hlen & Hret).
  unfold second_pass in Hres.
  set (srcs := param_srcs (DSP ds0) (stack l)) in *.
  pose proof (add_loop_dest (definitional_return_dsp l) srcs INIT_BINDER None
                [V_Function hdr self 0%N]) as Hdest.
  pose proof (add_loop_duplicate STR_CANON STR_SYMBOL Canon SYM_RETURN SYM_LEAVE
                is_with_tag is_local_tag Update_Typeset_Bits_Core
                (definitional_return_dsp l) srcs INIT_BINDER None
                [V_Function hdr self 0%N]) as Hdup.
  destruct (add_loop _ _ _ _ _ _) as [[binder duplicate] dest].
  cbn [fst snd] in Hdest, Hdup.
  destruct (copy_return NDEBUG l dest) as [copied|] eqn:Hcopy; [|done].
  destruct duplicate as [w|]; [done|].
  destruct (proj1 Hdup eq_refl) as (_ & Hcanons & _). cbn [result] in Hres.
  injection Hres as <-.
  set (kept := filter (λ iv : nat * REBVAL,
                 ¬ (definitional_return_dsp l ≠ 0%nat
                    ∧ iv.1 = definitional_return_dsp l)) srcs) in *.
  assert (NoDup (map (VAL_PARAM_CANON STR_CANON) (map snd kept))) as Hkept.
  { apply (sublist_NoDup _ (canons_of STR_CANON srcs)); [done|].
    unfold canons_of. rewrite <- (map_map snd (VAL_PARAM_CANON STR_CANON)).
    apply fmap_sublist, fmap_sublist, sublist_filter. }
  assert (∀ dest', NoDup (map (VAL_PARAM_CANON STR_CANON) (drop 1 dest')) →
            ∀ k, NoDup (map (VAL_PARAM_CANON STR_CANON) (drop 1 (take k dest'))))
    as Htake.
  { intros dest' Hd k. apply (sublist_NoDup _ _ Hd). apply fmap_sublist.
    destruct dest' as [|a d]; [by rewrite take_nil|].
    destruct k as [|k]; [apply sublist_nil_l|apply sublist_take]. }
  apply Htake. subst dest. unfold copy_return in Hcopy.
  destruct (bool_decide (definitional_return_dsp l ≠ 0%nat)) eqn:Hr;
    [|by injection Hcopy as <-].
  destruct (MKF_FAKE_RETURN (flags l)); [by injection Hcopy as <-|].
  destruct (negb NDEBUG && negb (MKF_RETURN (flags l))); [done|].
  injection Hcopy as <-.
  apply bool_decide_eq_true in Hr.
  destruct Hret as [?|(m & Hm & Hretm)]; [done|].
  assert (length srcs = q) as Hnsrcs.
  { unfold srcs. rewrite <- (length_map fst), (param_srcs_indexes _ _ q Hlen),
      length_map. apply length_seq. }
  destruct (lookup_lt_is_Some_2 srcs m) as [[i c] Hmc]; [lia|].
  destruct (param_srcs_cells _ _ q m (i, c) Hlen Hmc) as (Hi & _ & Hat).
  simpl in Hi, Hat. assert (i = definitional_return_dsp l) as -> by lia.
  rewrite Hat. change (NoDup (map (VAL_PARAM_CANON STR_CANON) (map snd kept ++ [c]))).
  subst kept. rewrite (filter_one_out srcs (definitional_return_dsp l) c Hr).
  - unfold canons_of in Hcanons.
    by rewrite <- (map_map snd (VAL_PARAM_CANON STR_CANON)) in Hcanons.
  - unfold srcs. rewrite (param_srcs_indexes _ _ q Hlen).
    apply NoDup_fmap_2; [intros ???; lia|apply NoDup_seq].
  - by apply list_elem_of_lookup_2 in Hmc.
Qed.

(** X19: [List_Func_Words] with [pure_locals] lists one word per
    parameter, and without it the same words except the SET-WORD!s of
    the locals (a local, the return and the leave), in the same order.
    It trips its assertion exactly when a cell after the archetype has
    no parameter class. *)
Theorem List_Func_Words_leaves_out_locals paramlist :
  (List_Func_Words paramlist true = None
   ↔ ∃ p, p ∈ drop 1 paramlist ∧ VAL_PARAM_CLASS p = PARAM_CLASS_0)
  ∧ ∀ all, List_Func_Words paramlist true = Some all →
      length all = (length paramlist - 1)%nat
      ∧ List_Func_Words paramlist false
        = Some (filter (λ w, VAL_TYPE w ≠ REB_SET_WORD) all).
Proof.
  unfold List_Func_Words. split; [apply List_Func_Words_loop_None|].
  intros all Hall. apply List_Func_Words_loop_locals in Hall as [Hlen Hf].
  by rewrite length_drop in Hlen.
Qed.

End Words.

(** ** An instance: the spec [[a b]] of the paramlist builder above *)

Lemma demo_arg_words : Forall arg_word spec_a_b.
Proof.
  repeat constructor; eexists _, _; (split; [reflexivity|]); apply list_elem_of_here.
Qed.

Lemma demo_canons :
  NoDup (map (Paramlist.VAL_WORD_CANON demo_STR_CANON) spec_a_b).
Proof.
  apply (NoDup_cons_2 1%N [2%N]); [|apply NoDup_singleton].
  rewrite list_elem_of_singleton. discriminate.
Qed.

Lemma words_of_paramlist_witness :
  ∃ plist, result (demo_Make_Paramlist spec_a_b flags_NONE []) = Ok plist
           ∧ List_Func_Words plist false = Some spec_a_b
           ∧ Find_Param_Index demo_STR_CANON plist 2%N = 2%nat.
Proof.
  destruct (words_of_paramlist demo_kind_num false demo_STR_CANON demo_STR_SYMBOL
              demo_Canon demo_SYM_RETURN demo_SYM_LEAVE (λ _, false) (λ _, false)
              demo_Update_Typeset_Bits_Core (λ _ _, 77%N) 99%N spec_a_b flags_NONE []
              demo_arg_words demo_canons eq_refl eq_refl eq_refl)
    as (archetype & Hmake & _ & Hwords & Hfind).
  eexists. split; [exact Hmake|]. split; [exact Hwords|].
  exact (Hfind 1%nat (V_Any_Word REB_WORD 2%N) eq_refl).
Defined.

Lemma paramlist_parameters_distinct_witness :
  ∃ plist, result (demo_Make_Paramlist spec_S2 flags_RETURN []) = Ok plist
           ∧ NoDup (map (VAL_PARAM_CANON demo_STR_CANON) (drop 1 plist))
           ∧ Find_Param_Index demo_STR_CANON plist 10%N = 2%nat.
Proof.
  assert (∃ plist, result (demo_Make_Paramlist spec_S2 flags_RETURN []) = Ok plist
                   ∧ plist !! 2%nat
                     = Some (V_Typeset PARAM_CLASS_RETURN
                               (FLAGIT_KIND demo_kind_num REB_INTEGER) 10%N))
    as (plist & Hmake & Hret).
  { eexists. split; vm_compute; reflexivity. }
  destruct (paramlist_parameters_distinct demo_kind_num false demo_STR_CANON
              demo_STR_SYMBOL demo_Canon demo_SYM_RETURN demo_SYM_LEAVE (λ _, false)
              (λ _, false) demo_Update_Typeset_Bits_Core (λ _ _, 77%N) 99%N spec_S2
              flags_RETURN [] plist Hmake) as [Hnd Hfind].
  exists plist. split; [exact Hmake|]. split; [exact Hnd|].
  exact (Hfind 2%nat _ (le_S 1 1 (le_n 1)) Hret).
Defined.

End FuncOps.
